(** * topology-streams: the CUDA kernel package (packages/cuda-kernels)

    A shallow embedding of the host entry points and device kernels of
    [utils.cu], [density.cu], [persistence_h0.cu] and [persistence_h1.cu],
    and the properties of the specification that concern them, followed by
    further properties of the same code.

    Conventions of the embedding.
    - A C [int] is a [Z]; where the source adds to an [int] that can reach
      the top of its range the wrap-around is written out ([wrap32]).
      Counters and indices that only run over [0 .. len) are [nat].
    - A [double] of the distance kernels of [utils.cu] is an IEEE 754
      binary64 value, Rocq's primitive [float], with its rounding, its
      infinities and its NaN; [sqrt] is the correctly rounded square root.
      Whether [dist_sq += diff * diff] runs as a multiplication and an
      addition or as one fused multiply-add is the compiler's choice
      (nvcc [-fmad]) and is read from the environment.
    - The doubles of [density.cu] and of the persistence code, which are
      stored, compared and divided but never accumulated, are exact rationals
      ([Q]), read as finite, non-NaN values.
    - A pointer argument is an [option]: [None] is the null pointer, [Some l]
      a buffer whose cells are the list [l].
    - What the CUDA runtime decides (device count, failures of cudaMalloc and
      cudaMemcpy, launch errors, the interleaving of device threads, the
      contents of fresh device memory) is read from a [CudaEnv]. *)

From Stdlib Require Import ZArith QArith Qminmax Qpower Lia Lqa Floats.
From Stdlib Require Import Permutation Sorted.
From stdpp Require Import base list strings.

#[global] Instance Q_inhabited : Inhabited Q := populate 0%Q.

#[global] Instance float_inhabited : Inhabited float := populate 0%float.

(** ** topostreams/types.h *)

Inductive TopoError : Set :=
| TOPO_SUCCESS
| TOPO_ERROR_INVALID_ARGUMENT
| TOPO_ERROR_CUDA_MALLOC
| TOPO_ERROR_CUDA_MEMCPY
| TOPO_ERROR_CUDA_KERNEL
| TOPO_ERROR_CUDA_NOT_AVAILABLE
| TOPO_ERROR_INTERNAL.

Definition error_code (e : TopoError) : Z :=
  match e with
  | TOPO_SUCCESS => 0
  | TOPO_ERROR_INVALID_ARGUMENT => 1
  | TOPO_ERROR_CUDA_MALLOC => 2
  | TOPO_ERROR_CUDA_MEMCPY => 3
  | TOPO_ERROR_CUDA_KERNEL => 4
  | TOPO_ERROR_CUDA_NOT_AVAILABLE => 5
  | TOPO_ERROR_INTERNAL => 99
  end.

(** ** utils.cu: topo_error_string

    The argument is the [int] behind the enum, so that the [default] branch
    of the switch has its values. *)

Definition topo_error_string (err : Z) : string :=
  if (err =? 0)%Z then "success"
  else if (err =? 1)%Z then "invalid argument"
  else if (err =? 2)%Z then "CUDA malloc failed"
  else if (err =? 3)%Z then "CUDA memcpy failed"
  else if (err =? 4)%Z then "CUDA kernel launch failed"
  else if (err =? 5)%Z then "CUDA device not available"
  else if (err =? 99)%Z then "internal error"
  else "unknown error".

(** ** Machine integers and doubles *)

Definition INT_MAX : Z := 2147483647.

(** Two's-complement wrap of a 32-bit signed sum. *)
Definition wrap32 (z : Z) : Z := ((z + 2 ^ 31) mod 2 ^ 32 - 2 ^ 31)%Z.

(** [DBL_MAX] of <cfloat>: (2^53 - 1) * 2^971. *)
Definition DBL_MAX : float := 0x1.fffffffffffffp+1023%float.

(** [x < y] on the doubles that are read as rationals. *)
Definition Qltb (x y : Q) : bool := negb (Qle_bool y x).

(** The fused multiply-add of IEEE 754 on binary64, [x * y + z] rounded
    once, in the style of the library's [SFmul] and [SFadd]: with two finite
    factors the product is exact, so an infinite [z] wins, a zero [z] leaves
    the rounded product, and a finite [z] is added to the exact product
    before the one rounding; with a zero, infinite or NaN factor the
    product is exact as [SFmul] gives it. *)
Definition SF64fma (x y z : spec_float) : spec_float :=
  match x, y with
  | S754_finite sx mx ex, S754_finite sy my ey =>
    match z with
    | S754_nan => S754_nan
    | S754_infinity _ => z
    | S754_zero _ => SF64mul x y
    | S754_finite sz mz ez =>
      let ep := (ex + ey)%Z in
      let e := Z.min ep ez in
      binary_normalize prec emax
        (cond_Zopp (xorb sx sy) (Z.pos (fst (shl_align (mx * my) ep e)))
         + cond_Zopp sz (Z.pos (fst (shl_align mz ez e))))%Z
        e false
    end
  | _, _ => SF64add (SF64mul x y) z
  end.

Definition fma (x y z : float) : float :=
  SF2Prim (SF64fma (Prim2SF x) (Prim2SF y) (Prim2SF z)).

(** ** The CUDA runtime, as far as the host code observes it *)

Record CudaEnv := {
  (** value stored by cudaGetDeviceCount *)
  device_count : Z;
  (** whether the i-th cudaMalloc of the call returns cudaSuccess *)
  malloc_ok : nat -> bool;
  (** whether the i-th cudaMemcpy / cudaMemset of the call returns cudaSuccess *)
  memcpy_ok : nat -> bool;
  (** whether cudaGetLastError reports cudaSuccess after a well-formed launch *)
  launch_ok : bool;
  (** the order in which the threads of a grid take their turn *)
  run_order : list nat -> list nat;
  run_order_perm : forall l, Permutation (run_order l) l;
  (** contents of device memory as cudaMalloc hands it out *)
  fresh_double : nat -> Q;
  fresh_int : nat -> Z;
  (** whether device code is compiled with multiply-adds fused (nvcc
      [-fmad=true], its default) or not ([-fmad=false]) *)
  fmad : bool
}.

(** [kernel<<<blocks, threads>>>] for kernels whose threads do not wait for
    one another: every thread of the grid runs its body once, in the order
    the environment picks; [g] is the global thread number, so that
    [blockIdx.x = g / threads] and [threadIdx.x = g mod threads]. *)
Definition launch {S : Type} (env : CudaEnv) (blocks threads : nat)
    (body : nat -> nat -> S -> S) (s : S) : S :=
  fold_left (fun st g => body (g / threads) (g mod threads) st)
            (run_order env (seq 0 (blocks * threads))) s.

(** A launch with a grid of no block, or of more blocks than an unsigned
    grid dimension read from a negative [int], is refused by the runtime. *)
Definition launch_succeeds (env : CudaEnv) (blocks : Z) : bool :=
  (0 <? blocks)%Z && launch_ok env.

(** cudaMemcpy of [count] cells from [src] to the front of [dst]. *)
Definition memcpy {A} (dst src : list A) (count : nat) : list A :=
  take count src ++ drop count dst.

(** ** density.cu *)

Definition density_eps : Q := 1 # 10000000000.

(** Body of [density_filtration_kernel] for the thread [threadIdx] of block
    [blockIdx], with [blockDim.x = threads]. *)
Definition density_filtration_kernel (kth_distances : list Q) (n : Z)
    (threads blockIdx threadIdx : nat) (out_filtration : list Q) : list Q :=
  let i := (blockIdx * threads + threadIdx)%nat in
  if (n <=? Z.of_nat i)%Z then out_filtration
  else
    let d := kth_distances !!! i in
    let d := if Qltb d density_eps then density_eps else d in
    <[i := ((-1) / d)%Q]> out_filtration.

Definition topo_gpu_density_filtration (env : CudaEnv)
    (kth_distances : option (list Q)) (n : Z)
    (out_filtration : option (list Q)) : TopoError * option (list Q) :=
  match kth_distances, out_filtration with
  | Some kth, Some out =>
    if (n <=? 0)%Z then (TOPO_ERROR_INVALID_ARGUMENT, out_filtration)
    else if (device_count env =? 0)%Z then
      (TOPO_ERROR_CUDA_NOT_AVAILABLE, out_filtration)
    else if negb (malloc_ok env 0) then (TOPO_ERROR_CUDA_MALLOC, out_filtration)
    else if negb (malloc_ok env 1) then (TOPO_ERROR_CUDA_MALLOC, out_filtration)
    else if negb (memcpy_ok env 0) then (TOPO_ERROR_CUDA_MEMCPY, out_filtration)
    else
      let d_out := map (fresh_double env) (seq 0 (Z.to_nat n)) in
      let threads := 256%Z in
      let blocks := (wrap32 (n + threads - 1) ÷ threads)%Z in
      let d_out :=
        launch env (Z.to_nat blocks) (Z.to_nat threads)
          (density_filtration_kernel kth n (Z.to_nat threads)) d_out in
      if negb (launch_succeeds env blocks) then
        (TOPO_ERROR_CUDA_KERNEL, out_filtration)
      else if negb (memcpy_ok env 1) then
        (TOPO_ERROR_CUDA_MEMCPY, out_filtration)
      else (TOPO_SUCCESS, Some (memcpy out d_out (Z.to_nat n)))
  | _, _ => (TOPO_ERROR_INVALID_ARGUMENT, out_filtration)
  end.

(** ** utils.cu: radius query *)

(** The accumulation loop over [dim] shared by both distance kernels:
    [dist_sq += diff * diff] with [diff = a[dim] - b[dim]], from
    [dist_sq = 0.0]. *)
Definition dist_sq_loop (env : CudaEnv) (d : nat) (a b : nat -> float) : float :=
  fold_left (fun dist_sq dim =>
               let diff := (a dim - b dim)%float in
               if fmad env then fma diff diff dist_sq
               else (dist_sq + diff * diff)%float)
            (seq 0 d) 0%float.

(** Device state of the radius query: the index buffer and the counter. *)
Record RadiusOut := { out_indices : list Z; out_count : nat }.

(** Body of [radius_query_kernel]; the [atomicAdd] and the store that uses
    its result form the thread's turn. *)
Definition radius_query_kernel (env : CudaEnv) (points query : list float) (n : Z)
    (d : nat) (radius_sq : float) (threads blockIdx threadIdx : nat) (st : RadiusOut)
    : RadiusOut :=
  let i := (blockIdx * threads + threadIdx)%nat in
  if (n <=? Z.of_nat i)%Z then st
  else
    let dist_sq :=
      dist_sq_loop env d (fun dim => points !!! (i * d + dim)%nat)
                         (fun dim => query !!! dim) in
    if (dist_sq <=? radius_sq)%float then
      let pos := out_count st in
      {| out_indices := <[pos := Z.of_nat i]> (out_indices st); out_count := S pos |}
    else st.

(** The result is the error code, the caller's index buffer and the value
    stored through [out_count] ([None]: not stored). *)
Definition topo_gpu_radius_query (env : CudaEnv)
    (points query : option (list float)) (n d : Z) (radius : float)
    (out_idx : option (list Z)) (out_cnt : option Z)
    : TopoError * option (list Z) * option Z :=
  match points, query, out_idx, out_cnt with
  | Some pts, Some qry, Some out, Some _ =>
    if ((n <=? 0)%Z || (d <=? 0)%Z || (radius <? 0)%float)%bool then
      (TOPO_ERROR_INVALID_ARGUMENT, out_idx, out_cnt)
    else if (device_count env =? 0)%Z then
      (TOPO_ERROR_CUDA_NOT_AVAILABLE, out_idx, out_cnt)
    else if negb (malloc_ok env 0 && malloc_ok env 1 && malloc_ok env 2 && malloc_ok env 3)
    then (TOPO_ERROR_CUDA_MALLOC, out_idx, out_cnt)
    else if negb (memcpy_ok env 0 && memcpy_ok env 1 && memcpy_ok env 2)
    then (TOPO_ERROR_CUDA_MEMCPY, out_idx, out_cnt)
    else
      let radius_sq := (radius * radius)%float in
      let threads := 256%Z in
      let blocks := (wrap32 (n + threads - 1) ÷ threads)%Z in
      let st0 := {| out_indices := map (fresh_int env) (seq 0 (Z.to_nat n));
                    out_count := 0 |} in
      let st :=
        launch env (Z.to_nat blocks) (Z.to_nat threads)
          (radius_query_kernel env pts qry n (Z.to_nat d) radius_sq (Z.to_nat threads))
          st0 in
      if negb (launch_succeeds env blocks) then
        (TOPO_ERROR_CUDA_KERNEL, out_idx, out_cnt)
      else if negb (memcpy_ok env 3) then (TOPO_ERROR_CUDA_MEMCPY, out_idx, out_cnt)
      else
        let h_count := out_count st in
        if negb (memcpy_ok env 4) then (TOPO_ERROR_CUDA_MEMCPY, out_idx, out_cnt)
        else (TOPO_SUCCESS, Some (memcpy out (out_indices st) h_count),
              Some (Z.of_nat h_count))
  | _, _, _, _ => (TOPO_ERROR_INVALID_ARGUMENT, out_idx, out_cnt)
  end.

(** ** utils.cu: k nearest neighbours *)

(** The [while (pos > 0 && dists[pos - 1] > d)] loop of [insert_if_closer]:
    shifts the larger entries one cell up and returns where [d] goes. *)
Fixpoint shift_up (dists : list float) (idxs : list Z) (pos : nat) (d : float)
    : nat * list float * list Z :=
  match pos with
  | O => (O, dists, idxs)
  | S p =>
    if (d <? dists !!! p)%float then
      shift_up (<[pos := dists !!! p]> dists) (<[pos := idxs !!! p]> idxs) p d
    else (pos, dists, idxs)
  end.

(** [d >= dists[k - 1]] is [dists[k - 1] <= d]. *)
Definition insert_if_closer (dists : list float) (idxs : list Z) (k : nat)
    (d : float) (idx : Z) : list float * list Z :=
  if (dists !!! (k - 1)%nat <=? d)%float then (dists, idxs)
  else
    let '(pos, dists, idxs) := shift_up dists idxs (k - 1) d in
    (<[pos := d]> dists, <[pos := idx]> idxs).

(** The data points a thread visits: [for (i = tid; i < n; i += nthreads)],
    that is the [i < n] with remainder [tid], in ascending order (the
    increment is read without overflow). *)
Definition strided (tid nthreads n : nat) : list nat :=
  filter (fun i => i mod nthreads = tid) (seq 0 n).

(** First phase of [knn_kernel] for thread [tid] of block [query_id]: the
    thread-local top-k over its strided share of the points. *)
Definition knn_thread_local (env : CudaEnv) (points : list float) (n d local_k : nat)
    (query_id tid nthreads : nat) : list float * list Z :=
  fold_left
    (fun '(local_dist, local_idx) i =>
       if (i =? query_id)%nat then (local_dist, local_idx)
       else
         let dist_sq :=
           dist_sq_loop env d (fun dim => points !!! (query_id * d + dim)%nat)
                              (fun dim => points !!! (i * d + dim)%nat) in
         let dist := PrimFloat.sqrt dist_sq in
         insert_if_closer local_dist local_idx local_k dist (Z.of_nat i))
    (strided tid nthreads n)
    (replicate local_k DBL_MAX, replicate local_k (-1)%Z).

(** Second phase, run by thread 0 after [__syncthreads]: the merge of the
    thread-local lists read back from shared memory. *)
Definition knn_merge (s_dist : list float) (s_idx : list Z) (nthreads local_k : nat)
    : list float * list Z :=
  fold_left
    (fun acc t =>
       fold_left
         (fun '(merged_dist, merged_idx) i =>
            let d_val := s_dist !!! (t * local_k + i)%nat in
            let i_val := s_idx !!! (t * local_k + i)%nat in
            if (0 <=? i_val)%Z then
              insert_if_closer merged_dist merged_idx local_k d_val i_val
            else (merged_dist, merged_idx))
         (seq 0 local_k) acc)
    (seq 0 nthreads)
    (replicate local_k DBL_MAX, replicate local_k (-1)%Z).

(** One block of [knn_kernel]: the row of distances and the row of indices
    it stores at [out_dist + query_id * k] and [out_idx + query_id * k]. *)
Definition knn_kernel (env : CudaEnv) (points : list float) (n d k : nat)
    (nthreads query_id : nat) : list float * list Z :=
  let local_k := Nat.min k 256 in
  let locals :=
    map (fun tid => knn_thread_local env points n d local_k query_id tid nthreads)
        (seq 0 nthreads) in
  let s_dist := concat (map fst locals) in
  let s_idx := concat (map snd locals) in
  let '(merged_dist, merged_idx) := knn_merge s_dist s_idx nthreads local_k in
  (map (fun i => merged_dist !!! i) (seq 0 k),
   map (fun i => merged_idx !!! i) (seq 0 k)).

(** The grid of [n] blocks: block [q] fills row [q] of both device buffers,
    so after the launch the buffers are the rows laid end to end. *)
Definition knn_grid (env : CudaEnv) (points : list float) (n d k nthreads : nat)
    : list float * list Z :=
  let rows := map (knn_kernel env points n d k nthreads) (seq 0 n) in
  (concat (map fst rows), concat (map snd rows)).

Definition topo_gpu_knn (env : CudaEnv) (points : option (list float)) (n d k : Z)
    (out_dist : option (list float)) (out_idx : option (list Z))
    : TopoError * option (list float) * option (list Z) :=
  match points, out_dist, out_idx with
  | Some pts, Some od, Some oi =>
    if ((n <=? 0) || (d <=? 0) || (k <=? 0) || (n <=? k))%Z%bool then
      (TOPO_ERROR_INVALID_ARGUMENT, out_dist, out_idx)
    else if (256 <? k)%Z then (TOPO_ERROR_INVALID_ARGUMENT, out_dist, out_idx)
    else if (device_count env =? 0)%Z then
      (TOPO_ERROR_CUDA_NOT_AVAILABLE, out_dist, out_idx)
    else if negb (malloc_ok env 0 && malloc_ok env 1 && malloc_ok env 2) then
      (TOPO_ERROR_CUDA_MALLOC, out_dist, out_idx)
    else if negb (memcpy_ok env 0) then (TOPO_ERROR_CUDA_MEMCPY, out_dist, out_idx)
    else
      let threads := 256%nat in
      let blocks := n in
      let '(d_out_dist, d_out_idx) :=
        knn_grid env pts (Z.to_nat n) (Z.to_nat d) (Z.to_nat k) threads in
      if negb (launch_succeeds env blocks) then
        (TOPO_ERROR_CUDA_KERNEL, out_dist, out_idx)
      else if negb (memcpy_ok env 1) then (TOPO_ERROR_CUDA_MEMCPY, out_dist, out_idx)
      else
        let od' := memcpy od d_out_dist (Z.to_nat n * Z.to_nat k) in
        if negb (memcpy_ok env 2) then (TOPO_ERROR_CUDA_MEMCPY, Some od', out_idx)
        else
          (TOPO_SUCCESS, Some od',
           Some (memcpy oi d_out_idx (Z.to_nat n * Z.to_nat k)))
  | _, _, _ => (TOPO_ERROR_INVALID_ARGUMENT, out_dist, out_idx)
  end.

(** ** Sorting, as the persistence code uses it *)

(** What the C library promises of [qsort] when the comparison function is
    a consistent total preorder: the result is a rearrangement of the array
    in ascending order of the comparison. The order of elements that compare
    equal is the implementation's choice. *)
Definition comparator_ok {A} (cmp : A -> A -> Z) : Prop :=
  (forall a b, (cmp a b <= 0)%Z \/ (cmp b a <= 0)%Z) /\
  (forall a b c, (cmp a b <= 0)%Z -> (cmp b c <= 0)%Z -> (cmp a c <= 0)%Z).

Record Qsort := {
  qsort : forall A, (A -> A -> Z) -> list A -> list A;
  qsort_perm : forall A cmp l, Permutation (qsort A cmp l) l;
  qsort_sorted : forall A cmp l,
    comparator_ok cmp -> StronglySorted (fun a b => (cmp a b <= 0)%Z) (qsort A cmp l)
}.

(** Insertion of [x] before the first element that does not compare below it. *)
Fixpoint insert_sorted {A} (cmp : A -> A -> Z) (x : A) (l : list A) : list A :=
  match l with
  | [] => [x]
  | y :: l' => if (cmp x y <=? 0)%Z then x :: l else y :: insert_sorted cmp x l'
  end.

(** The stable sort: elements that compare equal keep their input order. *)
Definition stable_sort {A} (cmp : A -> A -> Z) (l : list A) : list A :=
  foldr (insert_sorted cmp) [] l.

(** ** persistence_h0.cu *)

(** [struct UnionFind]. Vertices are the indices [0 .. n) of its arrays, so
    the model takes them as [nat]; the arrays are read out of range, which C
    leaves undefined, only when an edge names a vertex that is not below [n]. *)
Module UnionFind.

Record t := { parent : list nat; rank : list nat; birth : list Q; n : nat }.

Definition init (n_ : nat) (vertex_filt : list Q) : t :=
  {| parent := seq 0 n_;
     rank := replicate n_ 0%nat;
     birth := map (fun i => vertex_filt !!! i) (seq 0 n_);
     n := n_ |}.

(** The loop of [find], with path halving. [fuel] bounds the number of
    times the loop condition is tested; [None] is a loop that has not
    ended within it. [find] gives the loop [n] tests: in a forest of [n]
    vertices a path has fewer steps (lemma [find_ok]). *)
Fixpoint find_loop (fuel : nat) (parent : list nat) (x : nat)
    : option (list nat * nat) :=
  match fuel with
  | O => None
  | S fuel' =>
    if (parent !!! x =? x)%nat then Some (parent, x)
    else
      let parent := <[x := parent !!! (parent !!! x)]> parent in
      find_loop fuel' parent (parent !!! x)
  end.

Definition find (uf : t) (x : nat) : option (t * nat) :=
  match find_loop (n uf) (parent uf) x with
  | Some (p, r) =>
    Some ({| parent := p; rank := rank uf; birth := birth uf; n := n uf |}, r)
  | None => None
  end.

(** [unite]: [Some (uf', None)] is the return value [false];
    [Some (uf', Some (dying_birth, death_filt))] is [true] with the two
    reference arguments set. *)
Definition unite (uf : t) (a b : nat) (edge_filt : Q)
    : option (t * option (Q * Q)) :=
  match find uf a with
  | None => None
  | Some (uf, ra) =>
    match find uf b with
    | None => None
    | Some (uf, rb) =>
      if (ra =? rb)%nat then Some (uf, None)
      else
        let '(dying_birth, ra, rb) :=
          if Qltb (birth uf !!! ra) (birth uf !!! rb)
          then (birth uf !!! rb, ra, rb)
          else (birth uf !!! ra, rb, ra) in
        let death_filt := edge_filt in
        let '(ra, rb) :=
          if (rank uf !!! ra <? rank uf !!! rb)%nat then (rb, ra) else (ra, rb) in
        let parent' := <[rb := ra]> (parent uf) in
        let rank' :=
          if (rank uf !!! ra =? rank uf !!! rb)%nat
          then <[ra := S (rank uf !!! ra)]> (rank uf) else rank uf in
        Some ({| parent := parent'; rank := rank'; birth := birth uf; n := n uf |},
              Some (dying_birth, death_filt))
    end
  end.

End UnionFind.

Record EdgeSortKey := { filt : Q; src : nat; dst : nat }.

#[global] Instance EdgeSortKey_inhabited : Inhabited EdgeSortKey :=
  populate {| filt := 0; src := 0; dst := 0 |}.

(** Sign of the comparison of two doubles, as the three comparators of the
    package compute it. *)
Definition filt_compare (fa fb : Q) : Z :=
  if Qltb fa fb then (-1)%Z else if Qltb fb fa then 1%Z else 0%Z.

Definition edge_compare (a b : EdgeSortKey) : Z := filt_compare (filt a) (filt b).

(** The edge-sorting step: CUB's device radix sort of (key, position) pairs,
    which is stable, when a device is present, and [qsort] otherwise. The
    source does not test the device calls of the first branch; they are read
    as succeeding. *)
Definition h0_sort_edges (env : CudaEnv) (qs : Qsort) (edges : list EdgeSortKey)
    : list EdgeSortKey :=
  if (0 <? device_count env)%Z then stable_sort edge_compare edges
  else qsort qs _ edge_compare edges.

(** The merge loop over the sorted edges: the union-find and the pairs
    recorded so far, in the order they are stored. *)
Fixpoint h0_loop (uf : UnionFind.t) (edges : list EdgeSortKey) (pairs : list (Q * Q))
    : option (UnionFind.t * list (Q * Q)) :=
  match edges with
  | [] => Some (uf, pairs)
  | e :: rest =>
    match UnionFind.unite uf (src e) (dst e) (filt e) with
    | None => None
    | Some (uf, None) => h0_loop uf rest pairs
    | Some (uf, Some (dying_birth, death)) =>
      if Qeq_bool dying_birth death then h0_loop uf rest pairs
      else h0_loop uf rest (pairs ++ [(dying_birth, death)])
    end
  end.

(** The edge array as the first loop fills it, before it is sorted. *)
Definition h0_input_edges (es ed : list nat) (ef : list Q) (m : nat) : list EdgeSortKey :=
  map (fun i => {| filt := ef !!! i; src := es !!! i; dst := ed !!! i |}) (seq 0 m).

Record H0Out := {
  h0_births : option (list Q);
  h0_deaths : option (list Q);
  h0_count : option Z
}.

(** The body of [topo_gpu_persistence_h0] around its sorting step
    [sort_edges]. The edge count [m] is a [nat]. [host_malloc_ok] says
    whether the [malloc] of the edge array succeeds. The pairs are stored at
    [out_births[count]], [out_deaths[count]] with [count] running from 0, so
    at the end they fill the front of the two buffers. [None] stands for a
    call that does not return (a [find] that does not come to a root). *)
Definition persistence_h0_with (sort_edges : list EdgeSortKey -> list EdgeSortKey)
    (host_malloc_ok : bool)
    (vertex_filt : option (list Q)) (edge_src edge_dst : option (list nat))
    (edge_filt : option (list Q)) (n : Z) (m : nat) (out : H0Out)
    : option (TopoError * H0Out) :=
  match vertex_filt, h0_births out, h0_deaths out, h0_count out with
  | Some vf, Some ob, Some od, Some _ =>
    if (n <=? 0)%Z then Some (TOPO_ERROR_INVALID_ARGUMENT, out)
    else
      let out0 := {| h0_births := Some ob; h0_deaths := Some od; h0_count := Some 0%Z |} in
      if (m =? 0)%nat then Some (TOPO_SUCCESS, out0)
      else
        match edge_src, edge_dst, edge_filt with
        | Some es, Some ed, Some ef =>
          if negb host_malloc_ok then Some (TOPO_ERROR_INTERNAL, out0)
          else
            let edges := sort_edges (h0_input_edges es ed ef m) in
            let uf := UnionFind.init (Z.to_nat n) vf in
            match h0_loop uf edges [] with
            | None => None
            | Some (_, pairs) =>
              let count := length pairs in
              Some (TOPO_SUCCESS,
                    {| h0_births := Some (memcpy ob (map fst pairs) count);
                       h0_deaths := Some (memcpy od (map snd pairs) count);
                       h0_count := Some (Z.of_nat count) |})
            end
        | _, _, _ => Some (TOPO_ERROR_INVALID_ARGUMENT, out0)
        end
  | _, _, _, _ => Some (TOPO_ERROR_INVALID_ARGUMENT, out)
  end.

Definition topo_gpu_persistence_h0 (env : CudaEnv) (qs : Qsort) :=
  persistence_h0_with (h0_sort_edges env qs).

(** ** persistence_h1.cu *)

(** [struct TriSortKey] and [struct EdgeInfo]. Vertex numbers are compared
    only, so they stay [int]s; rows and columns of the boundary matrix are
    positions in the sorted arrays, hence [nat], and the [-1] of [find_edge]
    and of [pivot_col] is [None]. *)
Record TriSortKey := { t_filt : Q; v0 : Z; v1 : Z; v2 : Z; original_idx : nat }.

Record EdgeInfo := { e_src : Z; e_dst : Z; e_filt : Q; sorted_idx : nat }.

#[global] Instance TriSortKey_inhabited : Inhabited TriSortKey :=
  populate {| t_filt := 0; v0 := 0; v1 := 0; v2 := 0; original_idx := 0 |}.
#[global] Instance EdgeInfo_inhabited : Inhabited EdgeInfo :=
  populate {| e_src := 0; e_dst := 0; e_filt := 0; sorted_idx := 0 |}.

Definition tri_compare (a b : TriSortKey) : Z := filt_compare (t_filt a) (t_filt b).

Definition edge_info_compare (a b : EdgeInfo) : Z := filt_compare (e_filt a) (e_filt b).

(** The scan of [find_edge] from position [i] on; [None] is the result -1. *)
Fixpoint find_edge_from (sorted_edges : list EdgeInfo) (i : nat) (u v : Z) : option nat :=
  match sorted_edges with
  | [] => None
  | e :: rest =>
    let '(su, sv) := if (e_dst e <? e_src e)%Z then (e_dst e, e_src e)
                     else (e_src e, e_dst e) in
    if ((su =? u) && (sv =? v))%Z%bool then Some i
    else find_edge_from rest (S i) u v
  end.

Definition find_edge (sorted_edges : list EdgeInfo) (m : nat) (u v : Z) : option nat :=
  let '(u, v) := if (v <? u)%Z then (v, u) else (u, v) in
  find_edge_from (take m sorted_edges) 0 u v.

(** The two nested loops that put a column's rows in descending order. *)
Definition swap_if_less (col : list nat) (a b : nat) : list nat :=
  if (col !!! a <? col !!! b)%nat
  then <[b := col !!! a]> (<[a := col !!! b]> col)
  else col.

Definition sort_descending (col : list nat) : list nat :=
  fold_left
    (fun col a => fold_left (fun col b => swap_if_less col a b)
                            (seq (S a) (length col - S a)) col)
    (seq 0 (length col)) col.

(** The boundary column of one triangle. *)
Definition build_column (edges : list EdgeInfo) (m : nat) (tri : TriSortKey) : list nat :=
  let pairs := [(v0 tri, v1 tri); (v0 tri, v2 tri); (v1 tri, v2 tri)] in
  let col :=
    fold_left
      (fun col '(a, b) =>
         match find_edge edges m a b with
         | Some eidx => col ++ [eidx]
         | None => col
         end)
      pairs [] in
  sort_descending col.

(** Symmetric difference of two columns: the merge of two descending lists
    in which equal heads cancel. *)
Fixpoint sym_diff (a : list nat) : list nat -> list nat :=
  fix sym_diff_a (b : list nat) : list nat :=
    match a, b with
    | [], _ => b
    | _, [] => a
    | x :: a', y :: b' =>
      if (y <? x)%nat then x :: sym_diff a' b
      else if (x <? y)%nat then y :: sym_diff_a b'
      else sym_diff a' b'
    end.

Record H1State := {
  boundary : list (list nat);
  pivot_col : list (option nat);
  h1_pairs : list (Q * Q)
}.

(** The [while (boundary_len[col] > 0)] loop for column [col]. [fuel] bounds
    the number of times its condition is tested. *)
Fixpoint reduce_column (fuel : nat) (edges : list EdgeInfo) (tris : list TriSortKey)
    (col : nat) (st : H1State) : option H1State :=
  match fuel with
  | O => None
  | S fuel' =>
    match boundary st !!! col with
    | [] => Some st
    | pivot :: _ =>
      match pivot_col st !!! pivot with
      | None =>
        Some {| boundary := boundary st;
                pivot_col := <[pivot := Some col]> (pivot_col st);
                h1_pairs := h1_pairs st ++
                            [(e_filt (edges !!! pivot), t_filt (tris !!! col))] |}
      | Some other =>
        let merged := sym_diff (boundary st !!! col) (boundary st !!! other) in
        reduce_column fuel' edges tris col
          {| boundary := <[col := merged]> (boundary st);
             pivot_col := pivot_col st;
             h1_pairs := h1_pairs st |}
      end
    end
  end.

(** The left-to-right loop over the columns. *)
Fixpoint reduce_columns (fuel : nat) (edges : list EdgeInfo) (tris : list TriSortKey)
    (cols : list nat) (st : H1State) : option H1State :=
  match cols with
  | [] => Some st
  | col :: rest =>
    match reduce_column fuel edges tris col st with
    | None => None
    | Some st => reduce_columns fuel edges tris rest st
    end
  end.

Record H1In := {
  edge_src : option (list Z);
  edge_dst : option (list Z);
  edge_filt : option (list Q);
  tri_v0 : option (list Z);
  tri_v1 : option (list Z);
  tri_v2 : option (list Z);
  tri_filt : option (list Q)
}.

Record H1Out := {
  h1_births : option (list Q);
  h1_deaths : option (list Q);
  h1_count : option Z
}.

(** The edge array as the first loop fills it, before it is sorted. *)
Definition h1_input_edges (es ed : list Z) (ef : list Q) (m : nat) : list EdgeInfo :=
  map (fun i => {| e_src := es !!! i; e_dst := ed !!! i; e_filt := ef !!! i;
                   sorted_idx := 0 |}) (seq 0 m).

(** The sorted edge array, each edge numbered with its position. *)
Definition h1_edges (sort_edges : list EdgeInfo -> list EdgeInfo)
    (es ed : list Z) (ef : list Q) (m : nat) : list EdgeInfo :=
  imap (fun i e => {| e_src := e_src e; e_dst := e_dst e; e_filt := e_filt e;
                      sorted_idx := i |})
       (sort_edges (h1_input_edges es ed ef m)).

Definition h1_input_tris (t0 t1 t2 : list Z) (tf : list Q) (t : nat) : list TriSortKey :=
  map (fun i => {| t_filt := tf !!! i; v0 := t0 !!! i; v1 := t1 !!! i; v2 := t2 !!! i;
                   original_idx := i |}) (seq 0 t).

Definition h1_tris (sort_tris : list TriSortKey -> list TriSortKey)
    (t0 t1 t2 : list Z) (tf : list Q) (t : nat) : list TriSortKey :=
  sort_tris (h1_input_tris t0 t1 t2 tf t).

(** The state after the reduction, from the sorted edges and triangles. *)
Definition h1_reduce (fuel : nat) (edges : list EdgeInfo) (tris : list TriSortKey)
    (m t : nat) : option H1State :=
  let boundary := map (fun col => build_column edges m (tris !!! col)) (seq 0 t) in
  reduce_columns fuel edges tris (seq 0 t)
    {| boundary := boundary; pivot_col := replicate m None; h1_pairs := [] |}.

(** The body of [topo_gpu_persistence_h1] around its two sorting steps.
    [fuel] bounds the iterations of the inner loop on one column; [None] is
    a run in which some column needs more. *)
Definition persistence_h1_with (sort_edges : list EdgeInfo -> list EdgeInfo)
    (sort_tris : list TriSortKey -> list TriSortKey)
    (fuel : nat) (inp : H1In) (m t : nat) (out : H1Out) : option (TopoError * H1Out) :=
  match h1_births out, h1_deaths out, h1_count out with
  | Some ob, Some od, Some _ =>
    let out0 := {| h1_births := Some ob; h1_deaths := Some od; h1_count := Some 0%Z |} in
    if ((t =? 0)%nat || (m =? 0)%nat)%bool then Some (TOPO_SUCCESS, out0)
    else
      match edge_src inp, edge_dst inp, edge_filt inp,
            tri_v0 inp, tri_v1 inp, tri_v2 inp, tri_filt inp with
      | Some es, Some ed, Some ef, Some t0, Some t1, Some t2, Some tf =>
        let edges := h1_edges sort_edges es ed ef m in
        let tris := h1_tris sort_tris t0 t1 t2 tf t in
        match h1_reduce fuel edges tris m t with
        | None => None
        | Some st =>
          let count := length (h1_pairs st) in
          Some (TOPO_SUCCESS,
                {| h1_births := Some (memcpy ob (map fst (h1_pairs st)) count);
                   h1_deaths := Some (memcpy od (map snd (h1_pairs st)) count);
                   h1_count := Some (Z.of_nat count) |})
        end
      | _, _, _, _, _, _, _ => Some (TOPO_ERROR_INVALID_ARGUMENT, out0)
      end
  | _, _, _ => Some (TOPO_ERROR_INVALID_ARGUMENT, out)
  end.

Definition topo_gpu_persistence_h1 (fuel : nat) (qs : Qsort) :=
  persistence_h1_with (qsort qs _ edge_info_compare) (qsort qs _ tri_compare) fuel.

(** ** The order the specification fixes

    Section 4.4 and 4.5 of the specification sort on filtration ascending and
    break ties lexicographically, edges on (src, dst) and triangles on
    (v0, v1, v2). The three comparators below follow those words; the
    functions [spec_persistence_h0] and [spec_persistence_h1] are the bodies
    above run on that order. *)

Definition lex_then (c : Z) (rest : Z) : Z := if (c =? 0)%Z then rest else c.

Definition nat_compare (a b : nat) : Z :=
  if (a <? b)%nat then (-1)%Z else if (b <? a)%nat then 1%Z else 0%Z.

Definition int_compare (a b : Z) : Z :=
  if (a <? b)%Z then (-1)%Z else if (b <? a)%Z then 1%Z else 0%Z.

Definition spec_edge_compare (a b : EdgeSortKey) : Z :=
  lex_then (filt_compare (filt a) (filt b))
    (lex_then (nat_compare (src a) (src b)) (nat_compare (dst a) (dst b))).

Definition spec_edge_info_compare (a b : EdgeInfo) : Z :=
  lex_then (filt_compare (e_filt a) (e_filt b))
    (lex_then (int_compare (e_src a) (e_src b)) (int_compare (e_dst a) (e_dst b))).

Definition spec_tri_compare (a b : TriSortKey) : Z :=
  lex_then (filt_compare (t_filt a) (t_filt b))
    (lex_then (int_compare (v0 a) (v0 b))
       (lex_then (int_compare (v1 a) (v1 b)) (int_compare (v2 a) (v2 b)))).

Definition spec_persistence_h0 :=
  persistence_h0_with (stable_sort spec_edge_compare).

Definition spec_persistence_h1 :=
  persistence_h1_with (stable_sort spec_edge_info_compare) (stable_sort spec_tri_compare).

(** * Vocabulary of the properties *)

(** ** Doubles: order, sign and exact value *)

Definition notnan (x : float) : Prop := is_nan x = false.

(** [0 <= x]: a zero, a positive finite double or +infinity. *)
Definition nonneg (x : float) : Prop := (0 <=? x)%float = true.

Definition fle (x y : float) : Prop := (x <=? y)%float = true.

Definition flt (x y : float) : Prop := (x <? y)%float = true.

(** The rational a finite double stands for (0 for the others). *)
Definition float_value (x : float) : Q :=
  match Prim2SF x with
  | S754_finite s m e => (if s then -1 else 1) * inject_Z (Z.pos m) * Qpower 2 e
  | _ => 0
  end.

(** Where a double stands in the order of the comparisons: its class
    (-infinity, negative, zero, positive, +infinity), then its exponent and
    its mantissa. *)
Definition sf_rank (s : spec_float) : Z * Z * Z :=
  match s with
  | S754_nan => (0, 0, 0)
  | S754_zero _ => (0, 0, 0)
  | S754_infinity true => (-2, 0, 0)
  | S754_infinity false => (2, 0, 0)
  | S754_finite true m e => (-1, - e, - Z.pos m)
  | S754_finite false m e => (1, e, Z.pos m)
  end%Z.

Definition frank (x : float) : Z * Z * Z := sf_rank (Prim2SF x).

Definition lex_lt (a b : Z * Z * Z) : Prop :=
  (a.1.1 < b.1.1 \/ (a.1.1 = b.1.1 /\ (a.1.2 < b.1.2 \/ (a.1.2 = b.1.2 /\ a.2 < b.2))))%Z.

(** The result has the sign [s] and is no NaN. *)
Definition sf_signed (s : bool) (r : spec_float) : Prop :=
  match r with
  | S754_zero s' | S754_infinity s' | S754_finite s' _ _ => s' = s
  | S754_nan => False
  end.

Definition sf_nonneg (r : spec_float) : Prop :=
  match r with
  | S754_zero _ | S754_infinity false | S754_finite false _ _ => True
  | _ => False
  end.

(** A finite double as an integer multiple of 2^-1074, the spacing of the
    smallest doubles. *)
Definition sf_scaled (s : spec_float) : Z :=
  match s with
  | S754_finite true m e => - (Z.pos m * 2 ^ (e + 1074))
  | S754_finite false m e => Z.pos m * 2 ^ (e + 1074)
  | _ => 0
  end%Z.

Definition sf_finite (s : spec_float) : Prop :=
  match s with
  | S754_zero _ | S754_finite _ _ _ => True
  | _ => False
  end.

(** The squared Euclidean distance between row [i] of [points] and [query],
    over the rationals the doubles stand for. *)
Definition exact_dist_sq (points query : list float) (d i : nat) : Q :=
  fold_left (fun acc dim =>
               (acc + (float_value (points !!! (i * d + dim)%nat)
                       - float_value (query !!! dim)) ^ 2)%Q)
            (seq 0 d) 0%Q.

(** ** Radius query: what a thread computes and selects *)

(** The squared distance the radius kernel computes for point [i]. *)
Definition radius_dist_sq (env : CudaEnv) (points query : list float) (d i : nat) : float :=
  dist_sq_loop env d (fun dim => points !!! (i * d + dim)%nat) (fun dim => query !!! dim).

(** What one thread of the radius kernel decides about its point. *)
Definition radius_selects (env : CudaEnv) (points query : list float) (n : Z) (d : nat)
    (radius_sq : float) (i : nat) : Prop :=
  (Z.of_nat i < n)%Z /\
  (radius_dist_sq env points query d i <=? radius_sq)%float = true.

#[global] Instance radius_selects_dec env points query n d radius_sq i :
  Decision (radius_selects env points query n d radius_sq i).
Proof. unfold radius_selects. apply _. Defined.

(** ** k nearest neighbours: the shape of a top-k pair of arrays *)

(** The first [k] cells of [l] hold no NaN and are in non-decreasing order. *)
Definition ascending (k : nat) (l : list float) : Prop :=
  forall i, (i < k)%nat ->
    notnan (l !!! i) /\ ((S i < k)%nat -> fle (l !!! i) (l !!! S i)).

(** A top-k pair of arrays as the kernel keeps it for query [q]. *)
Definition topk_ok (q k : nat) (p : list float * list Z) : Prop :=
  length p.1 = k /\ length p.2 = k /\ ascending k p.1 /\
  Forall (fun z => z <> Z.of_nat q) p.2.

(** The distance the kNN kernel computes between rows [q] and [i]. *)
Definition knn_distance (env : CudaEnv) (points : list float) (d q i : nat) : float :=
  PrimFloat.sqrt
    (dist_sq_loop env d (fun dim => points !!! (q * d + dim)%nat)
                        (fun dim => points !!! (i * d + dim)%nat)).

(** The pair of arrays [p] holds the [k] nearest of the candidates [S],
    whose distances are [dq]: the distances ascend; a cell is a filler or a
    candidate with its distance; no candidate is there twice; a candidate
    that is not there is no nearer than the last cell. *)
Record nearest_of (dq : nat -> float) (k : nat) (S : nat -> Prop)
    (p : list float * list Z) : Prop := {
  near_len_d : length p.1 = k;
  near_len_i : length p.2 = k;
  near_asc : ascending k p.1;
  near_entry : forall r, (r < k)%nat ->
    (p.2 !!! r = (-1)%Z /\ p.1 !!! r = DBL_MAX) \/
    (exists i, S i /\ p.2 !!! r = Z.of_nat i /\ p.1 !!! r = dq i);
  near_distinct : forall r r', (r < k)%nat -> (r' < k)%nat ->
    (0 <= p.2 !!! r)%Z -> p.2 !!! r = p.2 !!! r' -> r = r';
  near_complete : forall i, S i ->
    (exists r, (r < k)%nat /\ p.2 !!! r = Z.of_nat i) \/ fle (p.1 !!! (k - 1)%nat) (dq i)
}.

(** ** Sorting: comparisons that order by a key, and inputs without ties *)

(** A three-way comparison that behaves as the comparison of a key in a
    total order. *)
Record order_like {A} (c : A -> A -> Z) : Prop := {
  ol_flip : forall a b, (c a b < 0)%Z <-> (0 < c b a)%Z;
  ol_trans : forall x y z, (c x y <= 0)%Z -> (c y z <= 0)%Z -> (c x z <= 0)%Z;
  ol_squeeze : forall x y z,
    (c x y <= 0)%Z -> (c y z <= 0)%Z -> c x z = 0%Z -> c x y = 0%Z /\ c y z = 0%Z
}.

(** No two cells of the first [m] hold the same value. *)
Definition filt_distinct (f : list Q) (m : nat) : Prop :=
  forall i j, (i < m)%nat -> (j < m)%nat -> (f !!! i == f !!! j)%Q -> i = j.

(** ** H1: columns, the invariants of the reduction, well-formed inputs *)

(** A column in strictly descending order: a set of rows, pivot first. *)
Definition descending (col : list nat) : Prop :=
  StronglySorted (fun a b => (b < a)%nat) col.

(** The vertex pair of an edge and of a query, smaller vertex first. *)
Definition edge_pair (e : EdgeInfo) : Z * Z :=
  if (e_dst e <? e_src e)%Z then (e_dst e, e_src e) else (e_src e, e_dst e).

Definition ordered_pair (u v : Z) : Z * Z := if (v <? u)%Z then (v, u) else (u, v).

(** Row [r] is the position of an edge that joins two vertices of [tri]. *)
Definition row_of (edges : list EdgeInfo) (m : nat) (tri : TriSortKey) (r : nat) : Prop :=
  (r < m)%nat /\
  (edge_pair (edges !!! r) = ordered_pair (v0 tri) (v1 tri) \/
   edge_pair (edges !!! r) = ordered_pair (v0 tri) (v2 tri) \/
   edge_pair (edges !!! r) = ordered_pair (v1 tri) (v2 tri)).

(** The pivot of a column, counted from one; zero for the empty column. *)
Definition pivot_height (col : list nat) : nat :=
  match col with
  | [] => 0
  | p :: _ => S p
  end.

(** What holds of the matrix while column [c] is reduced: every column is a
    descending list of rows below [m], and the owner recorded for a row is
    an earlier column that has this row as its pivot. *)
Record h1_inv (m t c : nat) (st : H1State) : Prop := {
  inv_boundary_length : length (boundary st) = t;
  inv_pivot_length : length (pivot_col st) = m;
  inv_columns : forall j, (j < t)%nat ->
    descending (boundary st !!! j) /\ Forall (fun r => r < m)%nat (boundary st !!! j);
  inv_owner : forall p q, (p < m)%nat -> pivot_col st !!! p = Some q ->
    (q < c)%nat /\ exists rest, boundary st !!! q = p :: rest
}.

Definition tri_distinct (tri : TriSortKey) : Prop :=
  v0 tri <> v1 tri /\ v0 tri <> v2 tri /\ v1 tri <> v2 tri.

(** No triangle of the input names a vertex twice. *)
Definition triangles_distinct (t0 t1 t2 : list Z) (t : nat) : Prop :=
  forall i, (i < t)%nat ->
    t0 !!! i <> t1 !!! i /\ t0 !!! i <> t2 !!! i /\ t1 !!! i <> t2 !!! i.

(** Edge [e] is no later in the filtration than [tri] if it joins two of
    its vertices. *)
Definition edge_before (tri : TriSortKey) (e : EdgeInfo) : Prop :=
  (edge_pair e = ordered_pair (v0 tri) (v1 tri) \/
   edge_pair e = ordered_pair (v0 tri) (v2 tri) \/
   edge_pair e = ordered_pair (v1 tri) (v2 tri)) ->
  (e_filt e <= t_filt tri)%Q.

(** What holds of the rows and of the recorded pairs when the filtration
    puts every triangle after its edges. *)
Record h1_filt_inv (edges : list EdgeInfo) (tris : list TriSortKey) (t : nat)
    (st : H1State) : Prop := {
  inv_rows : forall j r, (j < t)%nat -> r ∈ boundary st !!! j ->
    (e_filt (edges !!! r) <= t_filt (tris !!! j))%Q;
  inv_pairs : Forall (fun pr : Q * Q => (pr.1 <= pr.2)%Q) (h1_pairs st)
}.

(** Every edge of the input that joins two vertices of a triangle of the
    input has a filtration value not above the triangle's. *)
Definition filtration_valid (es ed : list Z) (ef : list Q) (m : nat)
    (t0 t1 t2 : list Z) (tf : list Q) (t : nat) : Prop :=
  forall i j, (i < t)%nat -> (j < m)%nat ->
    (ordered_pair (es !!! j) (ed !!! j) = ordered_pair (t0 !!! i) (t1 !!! i) \/
     ordered_pair (es !!! j) (ed !!! j) = ordered_pair (t0 !!! i) (t2 !!! i) \/
     ordered_pair (es !!! j) (ed !!! j) = ordered_pair (t1 !!! i) (t2 !!! i)) ->
    (ef !!! j <= tf !!! i)%Q.

(** What holds of the recorded pairs while column [c] is reduced: pair [i]
    was recorded for the row and the column [owners !!! i]; its birth is the
    filtration value of that row's edge and its death the one of that
    column's triangle; the columns are below [c] and ascend, no row is there
    twice, and each row has its column as owner. *)
Record h1_pairs_inv (edges : list EdgeInfo) (tris : list TriSortKey) (m c : nat)
    (st : H1State) (owners : list (nat * nat)) : Prop := {
  pinv_pairs : h1_pairs st
               = map (fun pc => (e_filt (edges !!! pc.1), t_filt (tris !!! pc.2))) owners;
  pinv_cols : StronglySorted lt (map snd owners);
  pinv_cols_below : Forall (fun q => q < c)%nat (map snd owners);
  pinv_rows : NoDup (map fst owners);
  pinv_rows_below : Forall (fun p => p < m)%nat (map fst owners);
  pinv_owner : forall p q, (p, q) ∈ owners -> pivot_col st !!! p = Some q
}.

(** Column [j] of the matrix is not empty. *)
Definition column_filled (st : H1State) (j : nat) : Prop := boundary st !!! j <> [].

#[global] Instance column_filled_dec (st : H1State) (j : nat) : Decision (column_filled st j).
Proof. unfold column_filled. apply _. Defined.

(** What holds of the columns below [c] once they are reduced: a column that
    is not empty owns its pivot, and one pair was recorded for each of them. *)
Record h1_reduced (c : nat) (st : H1State) : Prop := {
  red_owner : forall j p rest, (j < c)%nat -> boundary st !!! j = p :: rest ->
    pivot_col st !!! p = Some j;
  red_count : length (h1_pairs st) = length (filter (column_filled st) (seq 0 c))
}.

(** ** H0: the union-find forest, connected components, merges *)

Definition is_root (parent : list nat) (x : nat) : Prop := parent !!! x = x.

#[global] Instance is_root_dec (parent : list nat) (x : nat) : Decision (is_root parent x).
Proof. unfold is_root. apply _. Defined.

Definition num_roots (parent : list nat) : nat :=
  length (filter (is_root parent) (seq 0 (length parent))).

(** [root_of parent x r]: following [parent] from [x] ends at the root [r]. *)
Inductive root_of (parent : list nat) : nat -> nat -> Prop :=
| root_self x : parent !!! x = x -> root_of parent x x
| root_step x r : parent !!! x <> x -> root_of parent (parent !!! x) r -> root_of parent x r.

(** The forest: parents stay in range, ranks grow strictly towards the
    root, and a rank never exceeds the number of merges done so far. *)
Record uf_inv (parent rank : list nat) (n : nat) : Prop := {
  uf_len_parent : length parent = n;
  uf_len_rank : length rank = n;
  uf_range : forall x, (x < n)%nat -> (parent !!! x < n)%nat;
  uf_rank_inc : forall x, (x < n)%nat -> parent !!! x <> x ->
    (rank !!! x < rank !!! (parent !!! x))%nat;
  uf_rank_bound : forall x, (x < n)%nat -> (rank !!! x + num_roots parent <= n)%nat
}.

(** [connected E x y]: the vertices [x] and [y] are joined by a path of
    edges of [E], taken in either direction. *)
Inductive connected (E : list (nat * nat)) : nat -> nat -> Prop :=
| conn_refl x : connected E x x
| conn_edge a b : (a, b) ∈ E -> connected E a b
| conn_sym x y : connected E x y -> connected E y x
| conn_trans x y z : connected E x y -> connected E y z -> connected E x z.

(** A list with one vertex of every connected component of the graph on
    the vertices [0 .. n). *)
Definition representatives (n : nat) (E : list (nat * nat)) (reps : list nat) : Prop :=
  NoDup reps /\
  (forall r, r ∈ reps -> (r < n)%nat) /\
  (forall r r', r ∈ reps -> r' ∈ reps -> connected E r r' -> r = r') /\
  (forall x, (x < n)%nat -> exists r, r ∈ reps /\ connected E x r).

(** The graph has [c] connected components. *)
Definition component_count (n : nat) (E : list (nat * nat)) (c : nat) : Prop :=
  exists reps, representatives n E reps /\ length reps = c.

(** The forest represents the graph: two vertices have the same root
    exactly when they are connected. *)
Definition uf_represents (parent : list nat) (n : nat) (E : list (nat * nat)) : Prop :=
  forall x y, (x < n)%nat -> (y < n)%nat ->
    (connected E x y <-> exists r, root_of parent x r /\ root_of parent y r).

(** The state is a forest that represents the graph of the edges in [E]. *)
Definition uf_ok (uf : UnionFind.t) (E : list (nat * nat)) : Prop :=
  uf_inv (UnionFind.parent uf) (UnionFind.rank uf) (UnionFind.n uf) /\
  uf_represents (UnionFind.parent uf) (UnionFind.n uf) E.

Definition edges_in_range (n : nat) (E : list (nat * nat)) : Prop :=
  forall a b, (a, b) ∈ E -> (a < n)%nat /\ (b < n)%nat.

(** Every merge the loop performs, recorded or not: the pair
    (dying_birth, death) of each call of [unite] that returns [true]. *)
Fixpoint h0_merges (uf : UnionFind.t) (edges : list EdgeSortKey)
    : option (UnionFind.t * list (Q * Q)) :=
  match edges with
  | [] => Some (uf, [])
  | e :: rest =>
    match UnionFind.unite uf (src e) (dst e) (filt e) with
    | None => None
    | Some (uf, None) => h0_merges uf rest
    | Some (uf, Some merge) =>
      match h0_merges uf rest with
      | None => None
      | Some (uf, merges) => Some (uf, merge :: merges)
      end
    end
  end.

(** A merge is recorded when its two values differ. *)
Definition recorded (merge : Q * Q) : Prop := Qeq_bool merge.1 merge.2 = false.

#[global] Instance recorded_dec (merge : Q * Q) : Decision (recorded merge).
Proof. unfold recorded. apply _. Defined.

Definition endpoints (e : EdgeSortKey) : nat * nat := (src e, dst e).

(** The graph the caller passes: edge [i] joins [edge_src[i]] and
    [edge_dst[i]]. *)
Definition input_graph (es ed : list nat) (m : nat) : list (nat * nat) :=
  map (fun i => (es !!! i, ed !!! i)) (seq 0 m).

(** Every edge enters the filtration no earlier than its two endpoints. *)
Definition h0_filtration_valid (vf : list Q) (es ed : list nat) (ef : list Q) (m : nat)
    : Prop :=
  forall j, (j < m)%nat ->
    (vf !!! (es !!! j) <= ef !!! j)%Q /\ (vf !!! (ed !!! j) <= ef !!! j)%Q.

(** Every root that has another vertex in its tree has a birth of at most
    [bound]. *)
Definition births_below (uf : UnionFind.t) (bound : Q) : Prop :=
  forall x r, (x < UnionFind.n uf)%nat -> root_of (UnionFind.parent uf) x r -> x <> r ->
    (UnionFind.birth uf !!! r <= bound)%Q.

(** The vertex reached from [x] by following [parent] [k] times. *)
Definition ancestor (parent : list nat) (k x : nat) : nat :=
  Nat.iter k (fun y => parent !!! y) x.

(** The number of vertices of [0 .. n) in the tree of the root [r]. *)
Definition tree_size (parent : list nat) (n r : nat) : nat :=
  length (filter (fun x => ancestor parent n x = r) (seq 0 n)).

(** Union by rank: a root of rank [k] has at least [2 ^ k] vertices in its
    tree. *)
Definition rank_inv (parent rank : list nat) (n : nat) : Prop :=
  forall r, (r < n)%nat -> is_root parent r ->
    (2 ^ (rank !!! r) <= tree_size parent n r)%nat.

(** ** Concrete runtimes and inputs *)

(** A device on which every call succeeds, threads take their turn in grid
    order, fresh memory reads as zero and multiply-adds are not fused. *)
Definition test_env : CudaEnv :=
  {| device_count := 1;
     malloc_ok := fun _ => true;
     memcpy_ok := fun _ => true;
     launch_ok := true;
     run_order := fun l => l;
     run_order_perm := fun l => Permutation_refl l;
     fresh_double := fun _ => 0%Q;
     fresh_int := fun _ => 0%Z;
     fmad := false |}.

(** The device of [test_env] with multiply-adds fused. *)
Definition fused_env : CudaEnv :=
  {| device_count := 1;
     malloc_ok := fun _ => true;
     memcpy_ok := fun _ => true;
     launch_ok := true;
     run_order := fun l => l;
     run_order_perm := fun l => Permutation_refl l;
     fresh_double := fun _ => 0%Q;
     fresh_int := fun _ => 0%Z;
     fmad := true |}.

(** A point at (3x, 4x) and the radius 5x, for the double x = 1 + 5 * 2^-28:
    the three products are doubles, and the point is at distance 5x from
    the origin. *)
Definition boundary_point : list float :=
  [0x1.80000078p+1; 0x1.0000005p+2]%float.

Definition boundary_radius : float := 0x1.40000064p+2%float.

(** A complex on three vertices: its three edges and its one triangle, all
    at filtration value 1. *)
Definition one_triangle : H1In :=
  {| edge_src := Some [0; 0; 1]%Z; edge_dst := Some [1; 2; 2]%Z;
     edge_filt := Some [1; 1; 1]%Q;
     tri_v0 := Some [0]%Z; tri_v1 := Some [1]%Z; tri_v2 := Some [2]%Z;
     tri_filt := Some [1]%Q |}.

Definition h1_buffers (k : nat) : H1Out :=
  {| h1_births := Some (replicate k 0%Q); h1_deaths := Some (replicate k 0%Q);
     h1_count := Some 0%Z |}.

(** A triangle that names vertex 0 twice, next to a proper one on the same
    edge: the column of the first holds row 0 twice, and adding it to the
    column of the second gives that column back. *)
Definition degenerate_triangle : H1In :=
  {| edge_src := Some [0]%Z; edge_dst := Some [1]%Z; edge_filt := Some [1]%Q;
     tri_v0 := Some [0; 0]%Z; tri_v1 := Some [0; 1]%Z; tri_v2 := Some [1; 2]%Z;
     tri_filt := Some [1; 2]%Q |}.

Definition h0_buffers (k : nat) : H0Out :=
  {| h0_births := Some (replicate k 0%Q); h0_deaths := Some (replicate k 0%Q);
     h0_count := Some 0%Z |}.

(** The device of [test_env] with the threads of a grid taking their turn
    in the opposite order. *)
Definition reversed_env : CudaEnv :=
  {| device_count := 1;
     malloc_ok := fun _ => true;
     memcpy_ok := fun _ => true;
     launch_ok := true;
     run_order := @rev nat;
     run_order_perm := fun l => Permutation_sym (Permutation_rev l);
     fresh_double := fun _ => 0%Q;
     fresh_int := fun _ => 0%Z;
     fmad := false |}.

(** Three edges in ascending order of filtration, the first given from its
    larger vertex, and the triangle they bound. *)
Definition sample_edges : list EdgeInfo :=
  [{| e_src := 2; e_dst := 0; e_filt := 1; sorted_idx := 0 |};
   {| e_src := 0; e_dst := 1; e_filt := 2; sorted_idx := 1 |};
   {| e_src := 1; e_dst := 2; e_filt := 3; sorted_idx := 2 |}].

Definition sample_triangle : TriSortKey :=
  {| t_filt := 4; v0 := 0; v1 := 1; v2 := 2; original_idx := 0 |}.

(** The boundary of a tetrahedron: six edges at the filtration values 1 to 6
    and four triangles at 7 to 10. The column of the last triangle is
    [5; 4; 2] and is reduced, in three additions, to the empty column. *)
Definition tetrahedron : H1In :=
  {| edge_src := Some [0; 0; 1; 0; 1; 2]%Z; edge_dst := Some [1; 2; 2; 3; 3; 3]%Z;
     edge_filt := Some [1; 2; 3; 4; 5; 6]%Q;
     tri_v0 := Some [0; 0; 0; 1]%Z; tri_v1 := Some [1; 1; 2; 2]%Z;
     tri_v2 := Some [2; 3; 3; 3]%Z; tri_filt := Some [7; 8; 9; 10]%Q |}.

(** Its edges and triangles as the sorted arrays hold them. *)
Definition tetrahedron_edges : list EdgeInfo :=
  [{| e_src := 0; e_dst := 1; e_filt := 1; sorted_idx := 0 |};
   {| e_src := 0; e_dst := 2; e_filt := 2; sorted_idx := 1 |};
   {| e_src := 1; e_dst := 2; e_filt := 3; sorted_idx := 2 |};
   {| e_src := 0; e_dst := 3; e_filt := 4; sorted_idx := 3 |};
   {| e_src := 1; e_dst := 3; e_filt := 5; sorted_idx := 4 |};
   {| e_src := 2; e_dst := 3; e_filt := 6; sorted_idx := 5 |}].

Definition tetrahedron_triangles : list TriSortKey :=
  [{| t_filt := 7; v0 := 0; v1 := 1; v2 := 2; original_idx := 0 |};
   {| t_filt := 8; v0 := 0; v1 := 1; v2 := 3; original_idx := 1 |};
   {| t_filt := 9; v0 := 0; v1 := 2; v2 := 3; original_idx := 2 |};
   {| t_filt := 10; v0 := 1; v1 := 2; v2 := 3; original_idx := 3 |}].

(** * Properties *)

(** ** Comparisons of the doubles read as rationals *)

Lemma Qltb_lt (x y : Q) : Qltb x y = true <-> (x < y)%Q.
Proof.
  unfold Qltb. rewrite negb_true_iff, <- not_true_iff_false, Qle_bool_iff.
  split; [apply Qnot_le_lt | apply Qlt_not_le].
Qed.

Lemma Qltb_ge (x y : Q) : Qltb x y = false <-> (y <= x)%Q.
Proof.
  unfold Qltb. rewrite negb_false_iff. apply Qle_bool_iff.
Qed.

Lemma Qle_bool_false (x y : Q) : Qle_bool x y = false <-> (y < x)%Q.
Proof.
  rewrite <- Qltb_lt. unfold Qltb. now rewrite negb_true_iff.
Qed.

(** ** Binary64: the order of the comparisons *)

Lemma SFcompare_rank (a b : spec_float) :
  a <> S754_nan -> b <> S754_nan ->
  exists c, SFcompare a b = Some c /\
    match c with
    | Lt => lex_lt (sf_rank a) (sf_rank b)
    | Eq => sf_rank a = sf_rank b
    | Gt => lex_lt (sf_rank b) (sf_rank a)
    end.
Proof.
  intros Ha Hb. unfold lex_lt.
  destruct a as [sa | sa | | sa ma ea], b as [sb | sb | | sb mb eb]; try done;
    try destruct sa; try destruct sb; simpl;
    try (eexists; split; [reflexivity|]; simpl; first [reflexivity | lia]);
    rewrite ?Pos.compare_cont_spec; simpl;
    destruct (Z.compare_spec ea eb) as [-> | Hlt | Hlt];
    destruct (Pos.compare_spec ma mb) as [-> | Hm | Hm];
    eexists; (split; [reflexivity|]); simpl; first [reflexivity | lia].
Qed.

Lemma Prim2SF_notnan (x : float) : notnan x <-> Prim2SF x <> S754_nan.
Proof.
  unfold notnan, Prim2SF. destruct (is_nan x); [split; [discriminate | done]|].
  split; [intros _ | done].
  destruct (is_zero x); [discriminate|]. destruct (is_infinity x); [discriminate|].
  destruct (Z.frexp x) as [r e]. destruct (shr_fexp _ _ _ _ _) as [mrs e'].
  destruct (shr_m mrs); discriminate.
Qed.

Lemma Prim2SF_finite (x : float) :
  is_finite x = true ->
  (exists s, Prim2SF x = S754_zero s) \/ (exists s m e, Prim2SF x = S754_finite s m e).
Proof.
  unfold is_finite, Prim2SF. rewrite negb_true_iff, orb_false_iff. intros [-> ->].
  destruct (is_zero x); [left; eauto|].
  destruct (Z.frexp x) as [r e]. destruct (shr_fexp _ _ _ _ _) as [mrs e'].
  destruct (shr_m mrs); eauto.
Qed.

Lemma sf_nan_dec (a : spec_float) : {a = S754_nan} + {a <> S754_nan}.
Proof. destruct a; first [by left | by right]. Qed.

Lemma fle_iff (x y : float) :
  fle x y <-> notnan x /\ notnan y /\
              (lex_lt (frank x) (frank y) \/ frank x = frank y).
Proof.
  unfold fle, frank. rewrite FloatAxioms.leb_spec, !Prim2SF_notnan. unfold SFleb.
  destruct (sf_nan_dec (Prim2SF x)) as [Hx | Hx].
  { rewrite Hx. simpl. split; [discriminate | tauto]. }
  destruct (sf_nan_dec (Prim2SF y)) as [Hy | Hy].
  { rewrite Hy. destruct (Prim2SF x); simpl; (split; [discriminate | tauto]). }
  destruct (SFcompare_rank _ _ Hx Hy) as (c & -> & Hc).
  unfold lex_lt in *. destruct (sf_rank (Prim2SF x)) as [[a1 a2] a3].
  destruct (sf_rank (Prim2SF y)) as [[b1 b2] b3]. simpl in *.
  assert (Heq : (a1, a2, a3) = (b1, b2, b3) <-> a1 = b1 /\ a2 = b2 /\ a3 = b3)
    by (split; [intros [= -> -> ->]; done | intros (-> & -> & ->); done]).
  rewrite Heq.
  destruct c; try apply Heq in Hc; (split; [intros H | intros (_ & _ & H)]);
    try discriminate H; try (exfalso; lia); try reflexivity;
    (split; [done|]); (split; [done|]); tauto.
Qed.

Lemma flt_iff (x y : float) :
  flt x y <-> notnan x /\ notnan y /\ lex_lt (frank x) (frank y).
Proof.
  unfold flt, frank. rewrite FloatAxioms.ltb_spec, !Prim2SF_notnan. unfold SFltb.
  destruct (sf_nan_dec (Prim2SF x)) as [Hx | Hx].
  { rewrite Hx. simpl. split; [discriminate | tauto]. }
  destruct (sf_nan_dec (Prim2SF y)) as [Hy | Hy].
  { rewrite Hy. destruct (Prim2SF x); simpl; (split; [discriminate | tauto]). }
  destruct (SFcompare_rank _ _ Hx Hy) as (c & -> & Hc).
  unfold lex_lt in *. destruct (sf_rank (Prim2SF x)) as [[a1 a2] a3].
  destruct (sf_rank (Prim2SF y)) as [[b1 b2] b3]. simpl in *.
  assert (Heq : (a1, a2, a3) = (b1, b2, b3) <-> a1 = b1 /\ a2 = b2 /\ a3 = b3)
    by (split; [intros [= -> -> ->]; done | intros (-> & -> & ->); done]).
  destruct c; try apply Heq in Hc; (split; [intros H | intros (_ & _ & H)]);
    try discriminate H; try (exfalso; lia); try reflexivity;
    (split; [done|]); (split; [done|]); tauto.
Qed.

Ltac float_order :=
  repeat match goal with
         | H : fle _ _ |- _ => apply fle_iff in H; destruct H as (? & ? & H)
         | H : flt _ _ |- _ => apply flt_iff in H; destruct H as (? & ? & H)
         end;
  try apply fle_iff; try apply flt_iff;
  repeat match goal with
         | |- _ /\ _ => split; [assumption|]
         end;
  unfold lex_lt in *;
  repeat match goal with
         | |- context [frank ?x] =>
           let a := fresh "a" in let b := fresh "b" in let c := fresh "c" in
           destruct (frank x) as [[a b] c]
         | H : context [frank ?x] |- _ =>
           let a := fresh "a" in let b := fresh "b" in let c := fresh "c" in
           destruct (frank x) as [[a b] c]
         end;
  simpl in *;
  repeat match goal with
         | H : _ \/ (_, _, _) = (_, _, _) |- _ => destruct H as [H | [= -> -> ->]]
         | H : (_, _, _) = (_, _, _) |- _ => injection H as -> -> ->
         end;
  try lia; try (left; lia); try (right; reflexivity).

Lemma fle_refl (x : float) : notnan x -> fle x x.
Proof. intros Hx. apply fle_iff. auto. Qed.

Lemma fle_notnan_l (x y : float) : fle x y -> notnan x.
Proof. intros H. apply fle_iff in H. tauto. Qed.

Lemma fle_notnan_r (x y : float) : fle x y -> notnan y.
Proof. intros H. apply fle_iff in H. tauto. Qed.

Lemma flt_notnan_l (x y : float) : flt x y -> notnan x.
Proof. intros H. apply flt_iff in H. tauto. Qed.

Lemma flt_notnan_r (x y : float) : flt x y -> notnan y.
Proof. intros H. apply flt_iff in H. tauto. Qed.

Lemma fle_trans (x y z : float) : fle x y -> fle y z -> fle x z.
Proof. intros H1 H2. float_order. Qed.

Lemma flt_fle (x y : float) : flt x y -> fle x y.
Proof. intros H. float_order. Qed.

Lemma fle_flt_trans (x y z : float) : fle x y -> flt y z -> flt x z.
Proof. intros H1 H2. float_order. Qed.

Lemma flt_fle_trans (x y z : float) : flt x y -> fle y z -> flt x z.
Proof. intros H1 H2. float_order. Qed.

Lemma flt_irrefl (x : float) : ~ flt x x.
Proof. intros H. float_order. Qed.

Lemma ltb_false_fle (x y : float) :
  notnan x -> notnan y -> (x <? y)%float = false -> fle y x.
Proof.
  intros Hx Hy Hlt.
  assert (Hn : ~ flt x y) by (unfold flt; congruence).
  rewrite flt_iff in Hn. apply fle_iff. split; [done|]. split; [done|].
  assert (Hn' : ~ lex_lt (frank x) (frank y)) by tauto. clear Hn Hlt.
  unfold lex_lt in *. destruct (frank x) as [[a1 a2] a3], (frank y) as [[b1 b2] b3].
  simpl in *.
  destruct (decide (b1 = a1 /\ b2 = a2 /\ b3 = a3)) as [(-> & -> & ->) | Hne];
    [by right | left; lia].
Qed.

Lemma leb_false_flt (x y : float) :
  notnan x -> notnan y -> (x <=? y)%float = false -> flt y x.
Proof.
  intros Hx Hy Hle.
  assert (Hn : ~ fle x y) by (unfold fle; congruence).
  rewrite fle_iff in Hn. apply flt_iff. split; [done|]. split; [done|].
  assert (Hn' : ~ (lex_lt (frank x) (frank y) \/ frank x = frank y)) by tauto.
  clear Hn Hle.
  unfold lex_lt in *. destruct (frank x) as [[a1 a2] a3], (frank y) as [[b1 b2] b3].
  simpl in *.
  assert ((a1, a2, a3) <> (b1, b2, b3)) by tauto.
  assert (~ (a1 = b1 /\ a2 = b2 /\ a3 = b3)) by (intros (-> & -> & ->); done).
  lia.
Qed.

Lemma fle_not_flt (x y : float) : fle x y -> (y <? x)%float = false.
Proof.
  intros H. destruct (y <? x)%float eqn:Hlt; [|done].
  exfalso. change (flt y x) in Hlt. float_order.
Qed.

Lemma flt_not_fle (x y : float) : flt x y -> (y <=? x)%float = false.
Proof.
  intros H. destruct (y <=? x)%float eqn:Hle; [|done].
  exfalso. change (fle y x) in Hle. float_order.
Qed.

Lemma eqb_fle (x y : float) : (x =? y)%float = true -> fle x y.
Proof.
  unfold fle. rewrite FloatAxioms.eqb_spec, FloatAxioms.leb_spec. unfold SFeqb, SFleb.
  destruct (SFcompare _ _) as [[| |]|]; done.
Qed.

(** ** Binary64: rounding gives no NaN and keeps the sign *)

Lemma shr_1_nonneg (mrs : shr_record) : (0 <= shr_m mrs)%Z -> (0 <= shr_m (shr_1 mrs))%Z.
Proof. destruct mrs as [[|[p|p|]|[p|p|]] r s]; simpl; lia. Qed.

Lemma iter_pos_inv {A} (P : A -> Prop) (f : A -> A) (n : positive) (x : A) :
  (forall y, P y -> P (f y)) -> P x -> P (SpecFloat.iter_pos f n x).
Proof.
  intros Hf. revert x. induction n as [n IH | n IH |]; intros x Hx; simpl; auto.
Qed.

Lemma shr_fexp_nonneg (m e : Z) (l : location) :
  (0 <= m)%Z -> (0 <= shr_m (shr_fexp prec emax m e l).1)%Z.
Proof.
  intros Hm. unfold shr_fexp, shr.
  assert (H0 : (0 <= shr_m (shr_record_of_loc m l))%Z) by (destruct l as [|[| |]]; exact Hm).
  destruct (_ - e)%Z as [|p|p]; simpl; try exact H0.
  apply (iter_pos_inv (fun mrs => 0 <= shr_m mrs)%Z); [apply shr_1_nonneg | exact H0].
Qed.

Lemma binary_round_aux_signed (s : bool) (m e : Z) (l : location) :
  (0 <= m)%Z -> sf_signed s (binary_round_aux prec emax s m e l).
Proof.
  intros Hm. unfold binary_round_aux.
  pose proof (shr_fexp_nonneg m e l Hm) as H1.
  destruct (shr_fexp prec emax m e l) as [mrs' e']. simpl in H1.
  assert (H2 : (0 <= round_nearest_even (shr_m mrs') (loc_of_shr_record mrs'))%Z).
  { unfold round_nearest_even. destruct (loc_of_shr_record mrs') as [|[| |]];
      try destruct (Z.even _); lia. }
  pose proof (shr_fexp_nonneg _ e' loc_Exact H2) as H3.
  destruct (shr_fexp prec emax _ e' loc_Exact) as [mrs'' e'']. simpl in H3.
  destruct (shr_m mrs'') as [|p|p]; [done | destruct (_ <=? _)%Z; done | lia].
Qed.

Lemma binary_round_signed (s : bool) (m : positive) (e : Z) :
  sf_signed s (binary_round prec emax s m e).
Proof.
  unfold binary_round. destruct (shl_align _ _ _) as [mz ez].
  by apply binary_round_aux_signed.
Qed.

Lemma binary_normalize_pos (m e : Z) :
  (0 < m)%Z -> sf_signed false (binary_normalize prec emax m e false).
Proof. destruct m; [lia | intros _; apply binary_round_signed | lia]. Qed.

Lemma binary_normalize_notnan (m e : Z) : binary_normalize prec emax m e false <> S754_nan.
Proof.
  destruct m as [|p|p]; simpl; [done | |].
  - pose proof (binary_round_signed false p e) as H. by destruct (binary_round _ _ _ _ _).
  - pose proof (binary_round_signed true p e) as H. by destruct (binary_round _ _ _ _ _).
Qed.

Lemma sf_signed_nonneg (r : spec_float) : sf_signed false r -> sf_nonneg r.
Proof. destruct r as [s | s | | s m e]; simpl; try done; by intros ->. Qed.

Lemma sf_nonneg_notnan (r : spec_float) : sf_nonneg r -> r <> S754_nan.
Proof. by destruct r. Qed.

Lemma SFsub_finite (a b : spec_float) :
  (exists s, a = S754_zero s) \/ (exists s m e, a = S754_finite s m e) ->
  (exists s, b = S754_zero s) \/ (exists s m e, b = S754_finite s m e) ->
  SF64sub a b <> S754_nan.
Proof.
  intros [[sa ->] | (sa & ma & ea & ->)] [[sb ->] | (sb & mb & eb & ->)];
    unfold SF64sub; simpl; try done.
  - by destruct sa, sb.
  - apply binary_normalize_notnan.
Qed.

Lemma SFmul_square (a : spec_float) : a <> S754_nan -> sf_nonneg (SF64mul a a).
Proof.
  intros Ha. destruct a as [s | s | | s m e]; unfold SF64mul; simpl; try done.
  - by destruct s.
  - apply sf_signed_nonneg.
    replace (xorb s s) with false by (by destruct s).
    by apply binary_round_aux_signed.
Qed.

Lemma SFadd_nonneg (a b : spec_float) :
  sf_nonneg a -> sf_nonneg b -> sf_nonneg (SF64add a b).
Proof.
  destruct a as [sa | [|] | | [|] ma ea], b as [sb | [|] | | [|] mb eb];
    unfold SF64add; simpl; try done.
  - by destruct sa, sb.
  - intros _ _. apply sf_signed_nonneg, binary_round_signed.
Qed.

Lemma SFsqrt_nonneg (a : spec_float) : sf_nonneg a -> sf_nonneg (SF64sqrt a).
Proof.
  destruct a as [s | [|] | | [|] m e]; unfold SF64sqrt; simpl; try done.
  intros _. unfold SFsqrt_core_binary.
  set (m' := match _ with Z.pos _ => _ | _ => _ end).
  assert (Hm' : (0 <= m')%Z).
  { unfold m'. destruct (_ - _)%Z; [lia | apply Z.shiftl_nonneg; lia | lia]. }
  pose proof (Z.sqrtrem_spec m' Hm') as Hs.
  destruct (Z.sqrtrem m') as [q r].
  apply sf_signed_nonneg, binary_round_aux_signed. lia.
Qed.

Lemma SFfma_square (a z : spec_float) :
  a <> S754_nan -> sf_nonneg z -> sf_nonneg (SF64fma a a z).
Proof.
  intros Ha Hz. destruct a as [s | s | | s m e]; try done.
  - by apply SFadd_nonneg; [apply SFmul_square|].
  - by apply SFadd_nonneg; [apply SFmul_square|].
  - unfold SF64fma. destruct z as [sz | [|] | | [|] mz ez]; try done.
    + by apply SFmul_square.
    + replace (xorb s s) with false by (by destruct s). simpl.
      apply sf_signed_nonneg, binary_round_signed.
Qed.

(** ** Binary64: differences, squares, sums and square roots *)

Lemma nonneg_spec (x : float) : nonneg x <-> sf_nonneg (Prim2SF x).
Proof.
  unfold nonneg. rewrite FloatAxioms.leb_spec.
  change (Prim2SF 0) with (S754_zero false).
  destruct (Prim2SF x) as [s | [|] | | [|] m e]; simpl; split; done.
Qed.

Lemma nonneg_notnan (x : float) : nonneg x -> notnan x.
Proof. intros H. by apply (fle_notnan_r 0%float). Qed.

Lemma sub_notnan (x y : float) :
  is_finite x = true -> is_finite y = true -> notnan (x - y).
Proof.
  intros Hx Hy. apply Prim2SF_notnan. rewrite sub_spec.
  by apply SFsub_finite; apply Prim2SF_finite.
Qed.

Lemma square_nonneg (x : float) : notnan x -> nonneg (x * x).
Proof.
  intros Hx. apply nonneg_spec. rewrite mul_spec.
  by apply SFmul_square, Prim2SF_notnan.
Qed.

Lemma add_nonneg (x y : float) : nonneg x -> nonneg y -> nonneg (x + y).
Proof.
  intros Hx Hy. apply nonneg_spec. rewrite add_spec.
  by apply SFadd_nonneg; apply nonneg_spec.
Qed.

Lemma sqrt_nonneg (x : float) : nonneg x -> nonneg (sqrt x).
Proof.
  intros Hx. apply nonneg_spec. rewrite sqrt_spec.
  by apply SFsqrt_nonneg, nonneg_spec.
Qed.

Lemma SF2Prim_nonneg (r : spec_float) : sf_nonneg r -> sf_nonneg (Prim2SF (SF2Prim r)).
Proof.
  destruct r as [[|] | [|] | | [|] m e]; simpl; try done.
  intros _. rewrite FloatLemmas.Z_ldexp_spec, of_uint63_spec.
  pose proof (Uint63.to_Z_bounded (Uint63Axioms.of_Z (Z.pos m))) as Hb.
  destruct (Uint63Axioms.to_Z _) as [|p|p]; simpl; [done | | lia].
  pose proof (binary_round_signed false p 0) as Hs.
  destruct (binary_round prec emax false p 0) as [s | s | | s m' e']; simpl in *;
    try done; subst; try done.
  apply sf_signed_nonneg, binary_round_signed.
Qed.

Lemma fma_square_nonneg (x z : float) : notnan x -> nonneg z -> nonneg (fma x x z).
Proof.
  intros Hx Hz. apply nonneg_spec. unfold fma. apply SF2Prim_nonneg.
  apply SFfma_square; [by apply Prim2SF_notnan | by apply nonneg_spec].
Qed.

(** *** The order of finite doubles is the order of their values *)

Lemma digits2_pos_bounds (m : positive) :
  (2 ^ (Z.pos (digits2_pos m) - 1) <= Z.pos m < 2 ^ Z.pos (digits2_pos m))%Z.
Proof.
  induction m as [m IH | m IH |]; simpl digits2_pos.
  - rewrite Pos2Z.inj_succ.
    replace (Z.succ (Z.pos (digits2_pos m)) - 1)%Z with (Z.succ (Z.pos (digits2_pos m) - 1))%Z by lia.
    rewrite !Z.pow_succ_r by lia. lia.
  - rewrite Pos2Z.inj_succ.
    replace (Z.succ (Z.pos (digits2_pos m)) - 1)%Z with (Z.succ (Z.pos (digits2_pos m) - 1))%Z by lia.
    rewrite !Z.pow_succ_r by lia. lia.
  - simpl. lia.
Qed.

Lemma valid_finite_bounds (s : bool) (m : positive) (e : Z) :
  valid_binary (S754_finite s m e) = true ->
  (Z.pos m < 2 ^ 53 /\ -1074 <= e /\ (-1074 < e -> 2 ^ 52 <= Z.pos m))%Z.
Proof.
  unfold SpecFloat.valid_binary, bounded, canonical_mantissa, fexp, SpecFloat.emin.
  rewrite andb_true_iff, Z.eqb_eq. intros [Hc _].
  change prec with 53%Z in Hc. change emax with 1024%Z in Hc.
  pose proof (digits2_pos_bounds m) as [Hlo Hhi].
  assert (Hd : (Z.pos (digits2_pos m) <= 53 /\ -1074 <= e /\
                (-1074 < e -> Z.pos (digits2_pos m) = 53))%Z) by lia.
  destruct Hd as (Hd & He & Hd').
  split; [|split; [done|]].
  - eapply Z.lt_le_trans; [exact Hhi|]. apply Z.pow_le_mono_r; lia.
  - intros H. rewrite (Hd' H) in Hlo. exact Hlo.
Qed.

Lemma scaled_pos_lt (m1 m2 : positive) (e1 e2 : Z) :
  (Z.pos m1 < 2 ^ 53)%Z -> (-1074 <= e1)%Z -> (2 ^ 52 <= Z.pos m2)%Z -> (e1 < e2)%Z ->
  (Z.pos m1 * 2 ^ (e1 + 1074) < Z.pos m2 * 2 ^ (e2 + 1074))%Z.
Proof.
  intros H1 He1 H2 He.
  replace (e2 + 1074)%Z with ((e2 - e1) + (e1 + 1074))%Z by lia.
  rewrite (Z.pow_add_r 2 (e2 - e1) (e1 + 1074)) by lia.
  assert (HP : (0 < 2 ^ (e1 + 1074))%Z) by (apply Z.pow_pos_nonneg; lia).
  assert (HK : (2 ^ 1 <= 2 ^ (e2 - e1))%Z) by (apply Z.pow_le_mono_r; lia).
  change (2 ^ 53)%Z with (2 ^ 52 * 2 ^ 1)%Z in H1.
  apply Z.lt_le_trans with (2 ^ 52 * 2 ^ 1 * 2 ^ (e1 + 1074))%Z.
  - apply Z.mul_lt_mono_pos_r; [exact HP | exact H1].
  - rewrite Z.mul_assoc. apply Z.mul_le_mono_nonneg_r; [lia|].
    apply Z.mul_le_mono_nonneg; lia.
Qed.

Lemma sf_scaled_lt (a b : spec_float) :
  valid_binary a = true -> valid_binary b = true -> sf_finite a ->
  sf_finite b ->
  lex_lt (sf_rank a) (sf_rank b) -> (sf_scaled a < sf_scaled b)%Z.
Proof.
  intros Ha Hb Hfa Hfb.
  destruct a as [sa | sa | | sa ma ea]; try contradiction;
    destruct b as [sb | sb | | sb mb eb]; try contradiction;
    try destruct sa; try destruct sb; unfold lex_lt; simpl;
    try (pose proof (valid_finite_bounds _ _ _ Ha) as (Ha1 & Ha2 & Ha3));
    try (pose proof (valid_finite_bounds _ _ _ Hb) as (Hb1 & Hb2 & Hb3));
    try (assert (0 < 2 ^ (ea + 1074))%Z by (apply Z.pow_pos_nonneg; lia));
    try (assert (0 < 2 ^ (eb + 1074))%Z by (apply Z.pow_pos_nonneg; lia));
    intros Hl; try nia.
  - destruct Hl as [Hl | [_ [Hl | [Hl1 Hl2]]]]; [lia | |].
    + pose proof (scaled_pos_lt mb ma eb ea Hb1 Hb2 (Ha3 ltac:(lia)) ltac:(lia)). lia.
    + assert (ea = eb) by lia. subst eb. nia.
  - destruct Hl as [Hl | [_ [Hl | [Hl1 Hl2]]]]; [lia | |].
    + pose proof (scaled_pos_lt ma mb ea eb Ha1 Ha2 (Hb3 ltac:(lia)) ltac:(lia)). lia.
    + subst eb. nia.
Qed.

Lemma sf_scaled_eq (a b : spec_float) :
  sf_finite a -> sf_finite b ->
  sf_rank a = sf_rank b -> sf_scaled a = sf_scaled b.
Proof.
  intros Hfa Hfb.
  destruct a as [sa | sa | | sa ma ea]; try contradiction;
    destruct b as [sb | sb | | sb mb eb]; try contradiction;
    try destruct sa; try destruct sb; simpl; intros [= ]; try reflexivity.
  - assert (ea = eb) by lia. by subst.
  - by subst.
Qed.

Lemma lex_lt_total (a b : Z * Z * Z) : lex_lt a b \/ a = b \/ lex_lt b a.
Proof.
  destruct a as [[a1 a2] a3], b as [[b1 b2] b3]. unfold lex_lt. simpl.
  destruct (Z.lt_trichotomy a1 b1) as [H | [-> | H]]; [lia | | lia].
  destruct (Z.lt_trichotomy a2 b2) as [H | [-> | H]]; [lia | | lia].
  destruct (Z.lt_trichotomy a3 b3) as [H | [-> | H]]; [lia | | lia].
  right. by left.
Qed.

Lemma float_value_scaled (x : float) :
  (float_value x == inject_Z (sf_scaled (Prim2SF x)) * Qpower 2 (-1074))%Q.
Proof.
  unfold float_value. pose proof (Prim2SF_valid x) as Hv.
  destruct (Prim2SF x) as [s | s | | s m e]; simpl sf_scaled; try (rewrite Qmult_0_l; reflexivity).
  pose proof (valid_finite_bounds _ _ _ Hv) as (_ & He & _).
  assert (Hp : (Qpower 2 e == inject_Z (2 ^ (e + 1074)) * Qpower 2 (-1074))%Q).
  { rewrite Zpower_Qpower by lia. rewrite <- Qpower_plus by discriminate.
    replace (e + 1074 + -1074)%Z with e by lia. reflexivity. }
  rewrite Hp. destruct s.
  - rewrite inject_Z_opp, inject_Z_mult. ring.
  - rewrite inject_Z_mult. ring.
Qed.

Lemma Prim2SF_sf_finite (x : float) : is_finite x = true -> sf_finite (Prim2SF x).
Proof.
  intros H. destruct (Prim2SF_finite x H) as [[s ->] | (s & m & e & ->)]; exact I.
Qed.

Lemma finite_notnan (x : float) : is_finite x = true -> notnan x.
Proof.
  unfold is_finite, notnan. rewrite negb_true_iff, orb_false_iff. tauto.
Qed.

Lemma fle_float_value (x y : float) :
  is_finite x = true -> is_finite y = true ->
  ((x <=? y)%float = true <-> (float_value x <= float_value y)%Q).
Proof.
  intros Hx Hy.
  assert (Hnx : notnan x) by (by apply finite_notnan).
  assert (Hny : notnan y) by (by apply finite_notnan).
  rewrite !float_value_scaled.
  assert (Hc : (0 < Qpower 2 (-1074))%Q) by (by apply Qpower_0_lt).
  rewrite Qmult_le_r by exact Hc. rewrite <- Zle_Qle.
  apply Prim2SF_sf_finite in Hx, Hy.
  pose proof (Prim2SF_valid x) as Hvx. pose proof (Prim2SF_valid y) as Hvy.
  change ((x <=? y)%float = true) with (fle x y). rewrite fle_iff. unfold frank.
  split.
  - intros (_ & _ & [H | H]).
    + apply Z.lt_le_incl. by apply sf_scaled_lt.
    + apply Z.eq_le_incl. by apply sf_scaled_eq.
  - intros H. split; [done|]. split; [done|].
    destruct (lex_lt_total (sf_rank (Prim2SF x)) (sf_rank (Prim2SF y))) as [H' | [H' | H']];
      [by left | by right |].
    pose proof (sf_scaled_lt _ _ Hvy Hvx Hy Hx H'). lia.
Qed.

(** ** Launch geometry *)

Lemma launch_covers (n blocks : Z) :
  (1 <= n <= INT_MAX)%Z ->
  blocks = (wrap32 (n + 256 - 1) ÷ 256)%Z ->
  (0 < blocks)%Z ->
  (Z.to_nat n <= Z.to_nat blocks * 256)%nat.
Proof.
  unfold INT_MAX, wrap32. intros Hn -> Hpos.
  destruct (Z_lt_le_dec (n + 256 - 1) (2 ^ 31)) as [Hlt | Hge].
  - rewrite Z.mod_small in Hpos |- * by lia.
    replace (n + 256 - 1 + 2 ^ 31 - 2 ^ 31)%Z with (n + 255)%Z in * by lia.
    rewrite Z.quot_div_nonneg in * by lia.
    pose proof (Z.div_mod (n + 255) 256 ltac:(lia)).
    pose proof (Z.mod_pos_bound (n + 255) 256 ltac:(lia)).
    lia.
  - exfalso.
    replace ((n + 256 - 1 + 2 ^ 31) mod 2 ^ 32)%Z
      with (n + 256 - 1 + 2 ^ 31 - 2 ^ 32)%Z in Hpos.
    + assert (Hneg : (n + 256 - 1 + 2 ^ 31 - 2 ^ 32 - 2 ^ 31 < 0)%Z) by lia.
      pose proof (Z.quot_opp_l (- (n + 256 - 1 + 2 ^ 31 - 2 ^ 32 - 2 ^ 31)) 256 ltac:(lia)) as Hq.
      rewrite Z.opp_involutive in Hq.
      pose proof (Z.quot_pos (- (n + 256 - 1 + 2 ^ 31 - 2 ^ 32 - 2 ^ 31)) 256 ltac:(lia) ltac:(lia)).
      lia.
    + apply Z.mod_unique with (q := 1%Z); lia.
Qed.

Lemma global_thread_index (g threads : nat) :
  threads <> 0%nat -> (g / threads * threads + g mod threads)%nat = g.
Proof.
  intros Ht. pose proof (Nat.div_mod g threads Ht). lia.
Qed.

(** ** density.cu *)

Lemma density_kernel_length kth n threads b t out :
  length (density_filtration_kernel kth n threads b t out) = length out.
Proof.
  unfold density_filtration_kernel. destruct (_ <=? _)%Z; [done|].
  now rewrite length_insert.
Qed.

Lemma density_fold_length kth n threads l out :
  length (fold_left (fun st g =>
            density_filtration_kernel kth n threads (g / threads) (g mod threads) st) l out)
  = length out.
Proof.
  revert out. induction l as [|g l IH]; intros out; simpl; [done|].
  now rewrite IH, density_kernel_length.
Qed.

(** A cell holds its final value as soon as its thread has run, and keeps
    it whatever runs afterwards. *)
Lemma density_fold_value kth n threads (l : list nat) (out : list Q) (i : nat) :
  threads <> 0%nat ->
  (i < length out)%nat -> (Z.of_nat i < n)%Z ->
  out !!! i = ((-1) / Qmax (kth !!! i) density_eps)%Q \/ i ∈ l ->
  fold_left (fun st g =>
    density_filtration_kernel kth n threads (g / threads) (g mod threads) st) l out !!! i
  = ((-1) / Qmax (kth !!! i) density_eps)%Q.
Proof.
  intros Ht. revert out. induction l as [|g l IH]; intros out Hlen Hi Hor; simpl.
  - destruct Hor as [H | H]; [done | by apply not_elem_of_nil in H].
  - assert (Hstep : forall j, j = i \/ out !!! i = ((-1) / Qmax (kth !!! i) density_eps)%Q ->
       density_filtration_kernel kth n threads (j / threads) (j mod threads) out !!! i
       = ((-1) / Qmax (kth !!! i) density_eps)%Q).
    { intros j Hj. unfold density_filtration_kernel.
      rewrite global_thread_index by done.
      destruct (n <=? Z.of_nat j)%Z eqn:Hn.
      - destruct Hj as [-> | Hj]; [apply Z.leb_le in Hn; lia | done].
      - destruct (decide (j = i)) as [-> | Hne].
        + rewrite list_lookup_total_insert_eq by done.
          unfold Qmax, GenericMinMax.gmax, Qltb.
          destruct (kth !!! i ?= density_eps)%Q eqn:Hc.
          * apply Qeq_alt in Hc.
            assert (Hle : Qle_bool density_eps (kth !!! i) = true)
              by (apply Qle_bool_iff; rewrite Hc; apply Qle_refl).
            now rewrite Hle.
          * apply Qlt_alt in Hc.
            assert (Hle : Qle_bool density_eps (kth !!! i) = false)
              by (apply Qle_bool_false; exact Hc).
            now rewrite Hle.
          * apply Qgt_alt in Hc.
            assert (Hle : Qle_bool density_eps (kth !!! i) = true)
              by (apply Qle_bool_iff; apply Qlt_le_weak; exact Hc).
            now rewrite Hle.
        + rewrite list_lookup_total_insert_ne by done.
          destruct Hj as [-> | Hj]; [done | exact Hj]. }
    apply IH; [by rewrite density_kernel_length | done |].
    destruct Hor as [H | H].
    + left. apply Hstep. by right.
    + apply elem_of_cons in H as [-> | H]; [left; apply Hstep; by left | by right].
Qed.

Lemma memcpy_lookup_front {A} `{Inhabited A} (dst src : list A) (count i : nat) :
  (i < count)%nat -> (count <= length src)%nat ->
  memcpy dst src count !!! i = src !!! i.
Proof.
  intros Hi Hc. unfold memcpy.
  rewrite lookup_total_app_l by (rewrite length_take; lia).
  now rewrite lookup_total_take_lt by lia.
Qed.

(** C5: on a successful call, every cell [i < n] of the caller's buffer holds
    [-1 / max(kth[i], 1e-10)]. *)
Theorem density_filtration_values (env : CudaEnv) (kth : list Q) (n : Z)
    (out out' : list Q) :
  (1 <= n <= INT_MAX)%Z ->
  length kth = Z.to_nat n ->
  topo_gpu_density_filtration env (Some kth) n (Some out) = (TOPO_SUCCESS, Some out') ->
  forall i, (i < Z.to_nat n)%nat ->
    out' !!! i = ((-1) / Qmax (kth !!! i) density_eps)%Q.
Proof.
  intros Hn _ Hrun i Hi. unfold topo_gpu_density_filtration in Hrun.
  destruct (n <=? 0)%Z; [discriminate|].
  destruct (device_count env =? 0)%Z; [discriminate|].
  destruct (negb (malloc_ok env 0)); [discriminate|].
  destruct (negb (malloc_ok env 1)); [discriminate|].
  destruct (negb (memcpy_ok env 0)); [discriminate|].
  destruct (launch_succeeds env _) eqn:Hl; simpl in Hrun; [|discriminate].
  destruct (negb (memcpy_ok env 1)); [discriminate|].
  injection Hrun as <-.
  apply andb_prop in Hl as [Hblocks _]. apply Z.ltb_lt in Hblocks.
  pose proof (launch_covers n _ Hn eq_refl Hblocks) as Hcover.
  unfold launch.
  rewrite memcpy_lookup_front;
    [| done | by rewrite density_fold_length, length_map, length_seq].
  apply density_fold_value; [done | by rewrite length_map, length_seq | lia |].
  right. rewrite list_elem_of_In.
  apply (Permutation_in _ (Permutation_sym (run_order_perm env _))).
  apply in_seq. change (Z.to_nat 256) with 256%nat. lia.
Qed.

Lemma density_filtration_values_witness :
  topo_gpu_density_filtration test_env (Some [1 # 2; 0; 3]%Q) 3 (Some [7; 7; 7; 7]%Q)
  = (TOPO_SUCCESS, Some [-1 / (1 # 2); -1 / density_eps; -1 / 3; 7]%Q)
  /\ [-1 / (1 # 2); -1 / density_eps; -1 / 3; 7]%Q !!! 1%nat
     = ((-1) / Qmax ([1 # 2; 0; 3]%Q !!! 1%nat) density_eps)%Q.
Proof.
  split; [reflexivity|].
  apply (density_filtration_values test_env [1 # 2; 0; 3]%Q 3 [7; 7; 7; 7]%Q);
    [unfold INT_MAX; lia | reflexivity | reflexivity | simpl; lia].
Defined.

(** The call does succeed on every size the launch geometry can hold when
    the runtime reports no failure. *)
Lemma density_filtration_succeeds (env : CudaEnv) (kth out : list Q) (n : Z) :
  (1 <= n <= INT_MAX - 255)%Z ->
  device_count env <> 0%Z ->
  (forall i, malloc_ok env i = true) -> (forall i, memcpy_ok env i = true) ->
  launch_ok env = true ->
  exists out', topo_gpu_density_filtration env (Some kth) n (Some out)
               = (TOPO_SUCCESS, Some out').
Proof.
  unfold INT_MAX. intros Hn Hdev Hm Hc Hl. unfold topo_gpu_density_filtration.
  destruct (Z.leb_spec n 0) as [?|_]; [lia|].
  destruct (Z.eqb_spec (device_count env) 0) as [?|_]; [done|].
  rewrite !Hm, !Hc. simpl.
  assert (Hb : launch_succeeds env (wrap32 (n + 256 - 1) ÷ 256) = true).
  { unfold launch_succeeds. rewrite Hl, andb_true_r. apply Z.ltb_lt.
    unfold wrap32. rewrite Z.mod_small by lia.
    rewrite Z.quot_div_nonneg by lia.
    apply Z.div_str_pos. lia. }
  rewrite Hb. simpl. eauto.
Qed.

(** ** utils.cu: argument checks of topo_gpu_knn *)

(** C8: with non-null pointers, a call with n <= 0, d <= 0, k <= 0 or k >= n
    returns the InvalidArgument code and leaves both output arrays as the
    caller passed them. *)
Theorem knn_invalid_argument (env : CudaEnv) (pts od : list float) (oi : list Z)
    (n d k : Z) :
  (n <= 0 \/ d <= 0 \/ k <= 0 \/ k >= n)%Z ->
  topo_gpu_knn env (Some pts) n d k (Some od) (Some oi)
  = (TOPO_ERROR_INVALID_ARGUMENT, Some od, Some oi).
Proof.
  intros H. unfold topo_gpu_knn.
  assert (Hc : ((n <=? 0) || (d <=? 0) || (k <=? 0) || (n <=? k))%Z%bool = true).
  { rewrite !orb_true_iff, !Z.leb_le. lia. }
  now rewrite Hc.
Qed.

Lemma knn_invalid_argument_witness :
  topo_gpu_knn test_env (Some [0; 1; 2]%float) 3 1 3 (Some [5; 5; 5]%float)
    (Some [9; 9; 9]%Z)
  = (TOPO_ERROR_INVALID_ARGUMENT, Some [5; 5; 5]%float, Some [9; 9; 9]%Z).
Proof.
  apply (knn_invalid_argument test_env [0; 1; 2]%float [5; 5; 5]%float [9; 9; 9]%Z 3 1 3).
  right. right. right. lia.
Defined.

(** C10: every k above 256 is refused with the InvalidArgument code, whatever
    the other arguments, so also when 0 < k < n. *)
Theorem knn_rejects_k_above_256 (env : CudaEnv) (points : option (list float)) (n d k : Z)
    (out_dist : option (list float)) (out_idx : option (list Z)) :
  (256 < k)%Z ->
  topo_gpu_knn env points n d k out_dist out_idx
  = (TOPO_ERROR_INVALID_ARGUMENT, out_dist, out_idx).
Proof.
  intros Hk. unfold topo_gpu_knn.
  destruct points, out_dist, out_idx; try reflexivity.
  destruct (_ || _)%bool; [reflexivity|].
  apply Z.ltb_lt in Hk. now rewrite Hk.
Qed.

Lemma knn_rejects_k_above_256_witness :
  (0 < 257 < 1000)%Z /\
  topo_gpu_knn test_env (Some [0%float]) 1000 1 257 (Some [0%float]) (Some [0%Z])
  = (TOPO_ERROR_INVALID_ARGUMENT, Some [0%float], Some [0%Z]).
Proof.
  split; [lia|].
  apply (knn_rejects_k_above_256 test_env). lia.
Defined.

(** ** utils.cu: radius query *)

Lemma radius_kernel_step env points query n d radius_sq threads g st :
  threads <> 0%nat ->
  radius_query_kernel env points query n d radius_sq threads (g / threads) (g mod threads) st
  = if decide (radius_selects env points query n d radius_sq g)
    then {| out_indices := <[out_count st := Z.of_nat g]> (out_indices st);
            out_count := S (out_count st) |}
    else st.
Proof.
  intros Ht. unfold radius_query_kernel.
  rewrite global_thread_index by done.
  destruct (decide (radius_selects env points query n d radius_sq g)) as [[H1 H2] | Hs].
  - destruct (Z.leb_spec n (Z.of_nat g)) as [Hn | Hn]; [lia|].
    unfold radius_dist_sq in H2. simpl. now rewrite H2.
  - destruct (Z.leb_spec n (Z.of_nat g)) as [Hn | Hn]; [reflexivity|].
    simpl. destruct (_ <=? _)%float eqn:Hq; [|reflexivity].
    exfalso. apply Hs. split; assumption.
Qed.

(** The threads that select their point append it, in the order they run,
    to the filled part of the index buffer. *)
Lemma radius_fold env points query n d radius_sq threads (l : list nat) (st : RadiusOut) :
  threads <> 0%nat ->
  (out_count st + length (filter (radius_selects env points query n d radius_sq) l)
   <= length (out_indices st))%nat ->
  let st' := fold_left (fun st g =>
      radius_query_kernel env points query n d radius_sq threads
        (g / threads) (g mod threads) st)
      l st in
  out_count st'
  = (out_count st + length (filter (radius_selects env points query n d radius_sq) l))%nat
  /\ take (out_count st') (out_indices st')
     = take (out_count st) (out_indices st)
       ++ map Z.of_nat (filter (radius_selects env points query n d radius_sq) l)
  /\ length (out_indices st') = length (out_indices st).
Proof.
  intros Ht. revert st. induction l as [|g l IH]; intros st Hlen; simpl.
  - rewrite Nat.add_0_r, app_nil_r. done.
  - rewrite radius_kernel_step by done.
    rewrite filter_cons in Hlen |- *.
    destruct (decide (radius_selects env points query n d radius_sq g)) as [Hs | Hs].
    + simpl in Hlen.
      specialize (IH {| out_indices := <[out_count st := Z.of_nat g]> (out_indices st);
                        out_count := S (out_count st) |}).
      simpl in IH. rewrite length_insert in IH.
      destruct IH as (Hc & Htake & Hl); [lia|].
      split; [simpl; lia|]. split; [|exact Hl].
      rewrite Htake.
      rewrite (take_S_r _ _ (Z.of_nat g))
        by (apply list_lookup_insert_eq; lia).
      rewrite take_insert_ge by lia.
      simpl. now rewrite <- app_assoc.
    + apply IH. exact Hlen.
Qed.

Lemma selected_threads_bound env points query n d radius_sq (l : list nat) :
  NoDup l ->
  (length (filter (radius_selects env points query n d radius_sq) l) <= Z.to_nat n)%nat.
Proof.
  intros Hnd.
  rewrite <- (length_seq (Z.to_nat n) 0).
  apply NoDup_incl_length; [by apply NoDup_ListNoDup, NoDup_filter|].
  intros g Hg. apply list_elem_of_In in Hg.
  apply list_elem_of_filter in Hg as [[Hn _] _].
  apply in_seq. lia.
Qed.

(** The filled part of the index buffer after a successful call: the
    threads that select their point, in the order in which they ran. *)
Lemma radius_query_cells (env : CudaEnv) (pts qry : list float) (n d : Z) (radius : float)
    (out out' : list Z) (cnt cnt' : Z) :
  (n <= INT_MAX)%Z ->
  topo_gpu_radius_query env (Some pts) (Some qry) n d radius (Some out) (Some cnt)
  = (TOPO_SUCCESS, Some out', Some cnt') ->
  let selected :=
    filter (radius_selects env pts qry n (Z.to_nat d) (radius * radius)%float)
           (run_order env (seq 0 (Z.to_nat (wrap32 (n + 256 - 1) ÷ 256) * 256))) in
  (1 <= n)%Z /\ (0 < wrap32 (n + 256 - 1) ÷ 256)%Z /\
  cnt' = Z.of_nat (length selected) /\
  take (Z.to_nat cnt') out' = map Z.of_nat selected.
Proof.
  intros Hmax Hrun. unfold topo_gpu_radius_query in Hrun.
  destruct (Z.leb_spec n 0) as [?|Hn]; [discriminate|].
  destruct (_ || _)%bool; [discriminate|].
  destruct (device_count env =? 0)%Z; [discriminate|].
  destruct (negb (_ && _ && _ && _)); [discriminate|].
  destruct (negb (_ && _ && _)); [discriminate|].
  destruct (launch_succeeds env _) eqn:Hl; simpl in Hrun; [|discriminate].
  destruct (negb (memcpy_ok env 3)); [discriminate|].
  destruct (negb (memcpy_ok env 4)); [discriminate|].
  injection Hrun as <- <-.
  apply andb_prop in Hl as [Hblocks _]. apply Z.ltb_lt in Hblocks.
  unfold launch. change (Z.to_nat 256) with 256%nat in *.
  set (N := (Z.to_nat (wrap32 (n + 256 - 1) ÷ 256) * 256)%nat) in *.
  set (sel := radius_selects env pts qry n (Z.to_nat d) (radius * radius)%float).
  set (l := run_order env (seq 0 N)).
  set (st0 := {| out_indices := map (fresh_int env) (seq 0 (Z.to_nat n)); out_count := 0 |}).
  assert (Hperm : l ≡ₚ seq 0 N) by apply run_order_perm.
  assert (Hnd : NoDup l) by (rewrite Hperm; apply NoDup_seq).
  pose proof (selected_threads_bound env pts qry n (Z.to_nat d) (radius * radius)%float l Hnd)
    as Hb.
  destruct (radius_fold env pts qry n (Z.to_nat d) (radius * radius)%float 256 l st0)
    as (Hc & Htake & Hlen); [done | |].
  { unfold st0. cbn [out_count out_indices]. rewrite length_map, length_seq. exact Hb. }
  fold sel in Hc, Htake, Hb.
  change (out_count st0) with 0%nat in Hc, Htake.
  change (out_indices st0) with (map (fresh_int env) (seq 0 (Z.to_nat n))) in Htake, Hlen.
  rewrite Nat.add_0_l in Hc. rewrite take_0, app_nil_l in Htake.
  rewrite length_map, length_seq in Hlen.
  cbv zeta. split; [lia|]. split; [exact Hblocks|]. split; [by rewrite Hc|].
  rewrite Nat2Z.id. unfold memcpy.
  rewrite take_app_le by (rewrite length_take; lia).
  by rewrite take_take, Nat.min_id, Htake.
Qed.

(** C7: on a successful call the first [out_count] cells of the index buffer
    hold, each once, exactly the indices [i] in [0, n) whose squared
    distance, as the kernel computes it in double precision, is at most the
    double [radius * radius]; a point for which the two doubles are equal
    is among them.  For a point whose computed squared distance and the
    computed [radius * radius] are finite and carry no rounding error, that
    is: the point is returned exactly when its squared Euclidean distance
    to the query is at most the square of the radius. *)
Theorem radius_query_selects_computed (env : CudaEnv) (pts qry : list float) (n d : Z)
    (radius : float) (out out' : list Z) (cnt cnt' : Z) :
  (n <= INT_MAX)%Z ->
  topo_gpu_radius_query env (Some pts) (Some qry) n d radius (Some out) (Some cnt)
  = (TOPO_SUCCESS, Some out', Some cnt') ->
  NoDup (take (Z.to_nat cnt') out') /\
  (forall i : Z,
     i ∈ take (Z.to_nat cnt') out' <->
     (0 <= i < n)%Z /\
     (radius_dist_sq env pts qry (Z.to_nat d) (Z.to_nat i) <=? radius * radius)%float
     = true) /\
  (forall i : Z,
     (0 <= i < n)%Z ->
     (radius_dist_sq env pts qry (Z.to_nat d) (Z.to_nat i) =? radius * radius)%float
     = true ->
     i ∈ take (Z.to_nat cnt') out') /\
  (forall i : Z,
     (0 <= i < n)%Z ->
     is_finite (radius_dist_sq env pts qry (Z.to_nat d) (Z.to_nat i)) = true ->
     is_finite (radius * radius) = true ->
     (float_value (radius_dist_sq env pts qry (Z.to_nat d) (Z.to_nat i))
      == exact_dist_sq pts qry (Z.to_nat d) (Z.to_nat i))%Q ->
     (float_value (radius * radius) == float_value radius ^ 2)%Q ->
     (i ∈ take (Z.to_nat cnt') out' <->
      (exact_dist_sq pts qry (Z.to_nat d) (Z.to_nat i) <= float_value radius ^ 2)%Q)).
Proof.
  intros Hmax Hrun.
  destruct (radius_query_cells env pts qry n d radius out out' cnt cnt' Hmax Hrun)
    as (Hn & Hblocks & _ & Htake).
  cbv zeta in Htake.
  assert (Hrange : (1 <= n <= INT_MAX)%Z) by lia.
  pose proof (launch_covers n _ Hrange eq_refl Hblocks) as Hcover.
  set (N := (Z.to_nat (wrap32 (n + 256 - 1) ÷ 256) * 256)%nat) in *.
  assert (Hperm : run_order env (seq 0 N) ≡ₚ seq 0 N) by apply run_order_perm.
  assert (Hiff : forall i : Z,
            i ∈ take (Z.to_nat cnt') out' <->
            (0 <= i < n)%Z /\
            (radius_dist_sq env pts qry (Z.to_nat d) (Z.to_nat i) <=? radius * radius)%float
            = true).
  { intros i. rewrite Htake, list_elem_of_In, in_map_iff. split.
    - intros (g & <- & Hg).
      apply list_elem_of_In, list_elem_of_filter in Hg as [[Hlt Hsel] _].
      rewrite Nat2Z.id. split; [lia | exact Hsel].
    - intros [Hi Hsel]. exists (Z.to_nat i). split; [lia|].
      apply list_elem_of_In, list_elem_of_filter. split.
      + split; [lia | exact Hsel].
      + rewrite Hperm. apply elem_of_seq. lia. }
  split; [|split; [exact Hiff|split]].
  - rewrite Htake. apply NoDup_ListNoDup.
    apply Finite.Injective_map_NoDup; [intros x y; apply Nat2Z.inj|].
    apply NoDup_ListNoDup, NoDup_filter. rewrite Hperm. apply NoDup_seq.
  - intros i Hi Heq. apply Hiff. split; [exact Hi|]. by apply eqb_fle.
  - intros i Hi Hfd Hfr Hd Hr. rewrite Hiff, (fle_float_value _ _ Hfd Hfr), Hd, Hr. tauto.
Qed.

Lemma radius_query_selects_computed_witness :
  topo_gpu_radius_query test_env (Some [0; 0; 3; 4; 6; 0]%float) (Some [0; 0]%float) 3 2 5
    (Some [9; 9; 9]%Z) (Some 0%Z)
  = (TOPO_SUCCESS, Some [0; 1; 9]%Z, Some 2%Z)
  /\ NoDup (take (Z.to_nat 2) [0; 1; 9]%Z)
  /\ (2%Z ∈ take (Z.to_nat 2) [0; 1; 9]%Z <->
      (0 <= 2 < 3)%Z /\
      (radius_dist_sq test_env [0; 0; 3; 4; 6; 0]%float [0; 0]%float (Z.to_nat 2)
         (Z.to_nat 2) <=? 5 * 5)%float = true)
  /\ (radius_dist_sq test_env [0; 0; 3; 4; 6; 0]%float [0; 0]%float (Z.to_nat 2)
        (Z.to_nat 1) =? 5 * 5)%float = true
  /\ 1%Z ∈ take (Z.to_nat 2) [0; 1; 9]%Z
  /\ (exact_dist_sq [0; 0; 3; 4; 6; 0]%float [0; 0]%float 2 1 == 25)%Q
  /\ (float_value 5 ^ 2 == 25)%Q
  /\ (1%Z ∈ take (Z.to_nat 2) [0; 1; 9]%Z <->
      (exact_dist_sq [0; 0; 3; 4; 6; 0]%float [0; 0]%float (Z.to_nat 2) (Z.to_nat 1)
       <= float_value 5 ^ 2)%Q).
Proof.
  split; [vm_compute; reflexivity|].
  pose proof (radius_query_selects_computed test_env [0; 0; 3; 4; 6; 0]%float [0; 0]%float
                3 2 5 [9; 9; 9]%Z [0; 1; 9]%Z 0 2) as H.
  destruct H as (Hnd & Hiff & Htie & Hexact);
    [unfold INT_MAX; lia | vm_compute; reflexivity |].
  split; [exact Hnd|]. split; [exact (Hiff 2%Z)|].
  split; [vm_compute; reflexivity|].
  split; [apply Htie; [lia | vm_compute; reflexivity]|].
  split; [vm_compute; reflexivity|]. split; [vm_compute; reflexivity|].
  apply (Hexact 1%Z); [lia | vm_compute; reflexivity .. ].
Defined.

(** The point (3x, 4x) with x = 1 + 5 * 2^-28 is at distance exactly 5x from
    the origin, and the three coordinates are doubles; the kernel's sum of
    squares rounds above its [radius * radius], with and without fused
    multiply-adds, and the call with radius 5x reports no point. *)
Lemma radius_query_misses_boundary :
  (exact_dist_sq boundary_point [0; 0]%float 2 0 == float_value boundary_radius ^ 2)%Q /\
  (0 <= float_value boundary_radius)%Q /\
  topo_gpu_radius_query test_env (Some boundary_point) (Some [0; 0]%float) 1 2
    boundary_radius (Some [9]%Z) (Some 0%Z)
  = (TOPO_SUCCESS, Some [9]%Z, Some 0%Z) /\
  topo_gpu_radius_query fused_env (Some boundary_point) (Some [0; 0]%float) 1 2
    boundary_radius (Some [9]%Z) (Some 0%Z)
  = (TOPO_SUCCESS, Some [9]%Z, Some 0%Z).
Proof.
  split; [vm_compute; reflexivity|]. split; [vm_compute; discriminate|].
  split; vm_compute; reflexivity.
Qed.

(** ** utils.cu: k nearest neighbours *)

Lemma lookup_total_finite (pts : list float) (i : nat) :
  Forall (fun x => is_finite x = true) pts -> is_finite (pts !!! i) = true.
Proof.
  intros Hall. destruct (decide (i < length pts)%nat) as [Hi | Hi].
  - by apply (Forall_lookup_total_1 (fun x => is_finite x = true)).
  - rewrite list_lookup_total_alt, lookup_ge_None_2 by lia. reflexivity.
Qed.

(** Over finite coordinates the sum of squares is a zero, a positive double
    or +infinity (when a square or the sum overflows), never a NaN. *)
Lemma dist_sq_loop_nonneg env d (a b : nat -> float) :
  (forall dim, is_finite (a dim) = true /\ is_finite (b dim) = true) ->
  nonneg (dist_sq_loop env d a b).
Proof.
  intros Hfin. unfold dist_sq_loop.
  assert (H0 : nonneg 0%float) by reflexivity.
  revert H0. generalize 0%float. generalize (seq 0 d).
  induction l as [|dim l IH]; intros acc Hacc; simpl; [exact Hacc|].
  apply IH. destruct (Hfin dim) as [Ha Hb].
  pose proof (sub_notnan _ _ Ha Hb) as Hdiff.
  destruct (fmad env).
  - by apply fma_square_nonneg.
  - apply add_nonneg; [exact Hacc | by apply square_nonneg].
Qed.

Lemma knn_distance_notnan env pts d q i :
  Forall (fun x => is_finite x = true) pts -> notnan (knn_distance env pts d q i).
Proof.
  intros Hall. apply nonneg_notnan, sqrt_nonneg, dist_sq_loop_nonneg.
  intros dim. split; by apply lookup_total_finite.
Qed.

Lemma DBL_MAX_notnan : notnan DBL_MAX.
Proof. reflexivity. Qed.

Lemma ascending_replicate (k : nat) (x : float) : notnan x -> ascending k (replicate k x).
Proof.
  intros Hx i Hi. split.
  - by rewrite lookup_total_replicate_2.
  - intros Hi'. rewrite !lookup_total_replicate_2 by lia. by apply fle_refl.
Qed.

Lemma shift_up_length dists idxs pos d :
  let '(_, ds, ix) := shift_up dists idxs pos d in
  length ds = length dists /\ length ix = length idxs.
Proof.
  revert dists idxs. induction pos as [|p IH]; intros dists idxs; simpl; [done|].
  destruct (d <? dists !!! p)%float; [|done].
  specialize (IH (<[S p := dists !!! p]> dists) (<[S p := idxs !!! p]> idxs)).
  destruct (shift_up _ _ p d) as [[pos' ds] ix].
  now rewrite !length_insert in IH.
Qed.

(** Invariant of the shifting loop: the array stays ascending, and [d] is
    not above the cell just over the hole. *)
Lemma shift_up_ascending (k : nat) dists idxs pos d :
  (k <= length dists)%nat -> (pos < k)%nat ->
  ascending k dists -> notnan d ->
  ((S pos < k)%nat -> fle d (dists !!! S pos)) ->
  let '(pos', ds, _) := shift_up dists idxs pos d in
  ascending k (<[pos' := d]> ds).
Proof.
  revert dists idxs. induction pos as [|p IH]; intros dists idxs Hlen Hpos Hasc Hn Hd; simpl.
  - intros i Hi. destruct i as [|i].
    + rewrite list_lookup_total_insert_eq by lia. split; [exact Hn|]. intros Hi'.
      rewrite list_lookup_total_insert_ne by lia. by apply Hd.
    + rewrite !list_lookup_total_insert_ne by lia. by apply Hasc.
  - destruct (Hasc p ltac:(lia)) as [Hnp Hp].
    destruct (d <? dists !!! p)%float eqn:Hlt.
    + apply IH; [by rewrite length_insert | lia | | exact Hn |].
      * intros i Hi.
        destruct (decide (i = p)) as [-> | Hne1].
        { rewrite list_lookup_total_insert_ne by lia. split; [exact Hnp|]. intros _.
          rewrite list_lookup_total_insert_eq by lia. by apply fle_refl. }
        destruct (decide (i = S p)) as [-> | Hne2].
        { rewrite list_lookup_total_insert_eq by lia. split; [exact Hnp|]. intros Hi'.
          rewrite list_lookup_total_insert_ne by lia.
          apply fle_trans with (dists !!! S p); [by apply Hp|].
          by apply (Hasc (S p)). }
        destruct (Hasc i Hi) as [Hni Hi'].
        rewrite list_lookup_total_insert_ne by lia. split; [exact Hni|]. intros Hlt'.
        rewrite list_lookup_total_insert_ne by lia. by apply Hi'.
      * intros _. rewrite list_lookup_total_insert_eq by lia. by apply flt_fle.
    + apply ltb_false_fle in Hlt; [|exact Hn | exact Hnp].
      intros i Hi.
      destruct (decide (i = p)) as [-> | Hne1].
      { rewrite list_lookup_total_insert_ne by lia. split; [exact Hnp|]. intros _.
        rewrite list_lookup_total_insert_eq by lia. exact Hlt. }
      destruct (decide (i = S p)) as [-> | Hne2].
      { rewrite list_lookup_total_insert_eq by lia. split; [exact Hn|]. intros Hi'.
        rewrite list_lookup_total_insert_ne by lia. by apply Hd. }
      destruct (Hasc i Hi) as [Hni Hi'].
      rewrite list_lookup_total_insert_ne by lia. split; [exact Hni|]. intros Hlt'.
      rewrite list_lookup_total_insert_ne by lia. by apply Hi'.
Qed.

Lemma Forall_insert_below {A} `{Inhabited A} (P : A -> Prop) (l : list A) (j : nat) :
  Forall P l -> Forall P (<[S j := l !!! j]> l).
Proof.
  intros Hl. destruct (decide (j < length l)%nat) as [Hj | Hj].
  - apply Forall_insert; [done|]. by apply Forall_lookup_total_1.
  - rewrite list_insert_ge by lia. done.
Qed.

Lemma shift_up_Forall (P : Z -> Prop) dists idxs pos d :
  Forall P idxs ->
  let '(_, _, ix) := shift_up dists idxs pos d in Forall P ix.
Proof.
  revert dists idxs. induction pos as [|p IH]; intros dists idxs Hall; simpl; [done|].
  destruct (d <? dists !!! p)%float; [|done].
  apply IH. by apply Forall_insert_below.
Qed.

(** What [insert_if_closer] keeps: the lengths, the order of the distances,
    and any property of the stored indices that the new index has too. *)
Lemma insert_if_closer_inv (P : Z -> Prop) (k : nat) dists idxs d idx :
  length dists = k -> length idxs = k ->
  ascending k dists -> notnan d -> Forall P idxs -> P idx ->
  let '(ds, ix) := insert_if_closer dists idxs k d idx in
  length ds = k /\ length ix = k /\ ascending k ds /\ Forall P ix.
Proof.
  intros Hld Hli Hasc Hn Hall Hidx. unfold insert_if_closer.
  destruct (dists !!! (k - 1)%nat <=? d)%float; [done|].
  destruct k as [|k'].
  - simpl. destruct dists, idxs; try discriminate. simpl.
    split; [done|]. split; [done|]. split; [intros i Hi; lia | done].
  - replace (S k' - 1)%nat with k' by lia.
    pose proof (shift_up_length dists idxs k' d) as Hlen.
    pose proof (shift_up_ascending (S k') dists idxs k' d
                  ltac:(lia) ltac:(lia) Hasc Hn ltac:(lia)) as Hs.
    pose proof (shift_up_Forall P dists idxs k' d Hall) as Hf.
    destruct (shift_up dists idxs k' d) as [[pos ds] ix].
    destruct Hlen as [Hl1 Hl2].
    rewrite !length_insert.
    split; [congruence|]. split; [congruence|]. split; [exact Hs|].
    apply Forall_insert; done.
Qed.

Lemma topk_ok_init (q k : nat) :
  topk_ok q k (replicate k DBL_MAX, replicate k (-1)%Z).
Proof.
  unfold topk_ok. simpl. rewrite !length_replicate.
  split; [done|]. split; [done|].
  split; [apply ascending_replicate, DBL_MAX_notnan|].
  apply Forall_replicate. lia.
Qed.

Lemma topk_ok_insert (q k : nat) (p : list float * list Z) (d : float) (idx : Z) :
  topk_ok q k p -> notnan d -> idx <> Z.of_nat q ->
  topk_ok q k (insert_if_closer p.1 p.2 k d idx).
Proof.
  intros (H1 & H2 & H3 & H4) Hn Hidx.
  pose proof (insert_if_closer_inv (fun z => z <> Z.of_nat q) k p.1 p.2 d idx
                H1 H2 H3 Hn H4 Hidx) as H.
  destruct (insert_if_closer p.1 p.2 k d idx) as [ds ix]. exact H.
Qed.

Lemma knn_thread_local_ok env points n d local_k q tid nthreads :
  Forall (fun x => is_finite x = true) points ->
  topk_ok q local_k (knn_thread_local env points n d local_k q tid nthreads).
Proof.
  intros Hfin. unfold knn_thread_local.
  generalize (strided tid nthreads n). intros l.
  generalize (topk_ok_init q local_k).
  generalize (replicate local_k DBL_MAX, replicate local_k (-1)%Z).
  induction l as [|i l IH]; intros p Hp; simpl; [exact Hp|].
  apply IH. destruct p as [ld li].
  destruct (Nat.eqb_spec i q) as [Heq | Hne]; [exact Hp|].
  apply (topk_ok_insert q local_k (ld, li)); [exact Hp | | lia].
  by apply (knn_distance_notnan env points d q i).
Qed.

Lemma length_concat_uniform {A} (k : nat) (rows : list (list A)) :
  Forall (fun row => length row = k) rows ->
  length (concat rows) = (length rows * k)%nat.
Proof.
  induction 1 as [|row rows Hrow _ IH]; simpl; [done|].
  rewrite length_app, IH, Hrow. lia.
Qed.

Lemma lookup_total_concat_uniform {A} `{Inhabited A} (k : nat) (rows : list (list A))
    (i r : nat) :
  Forall (fun row => length row = k) rows ->
  (i < length rows)%nat -> (r < k)%nat ->
  concat rows !!! (i * k + r)%nat = (rows !!! i) !!! r.
Proof.
  intros Hrows. revert i. induction Hrows as [|row rows Hrow _ IH]; intros i Hi Hr.
  - simpl in Hi. lia.
  - destruct i as [|i]; simpl.
    + rewrite lookup_total_app_l by lia. done.
    + rewrite lookup_total_app_r by lia.
      replace (k + i * k + r - length row)%nat with (i * k + r)%nat by lia.
      apply IH; [simpl in Hi; lia | done].
Qed.

Lemma knn_merge_ok (q nthreads local_k : nat) (s_dist : list float) (s_idx : list Z) :
  length s_idx = (nthreads * local_k)%nat ->
  Forall (fun z => z <> Z.of_nat q) s_idx ->
  (forall t i, (t < nthreads)%nat -> (i < local_k)%nat ->
     notnan (s_dist !!! (t * local_k + i)%nat)) ->
  topk_ok q local_k (knn_merge s_dist s_idx nthreads local_k).
Proof.
  intros Hlen Hall Hnn. unfold knn_merge.
  assert (Hts : Forall (fun t => t < nthreads)%nat (seq 0 nthreads)).
  { apply Forall_forall. intros t Ht. apply elem_of_seq in Ht. lia. }
  revert Hts. generalize (seq 0 nthreads). intros lt Hts.
  generalize (topk_ok_init q local_k).
  generalize (replicate local_k DBL_MAX, replicate local_k (-1)%Z).
  induction Hts as [|t lt Ht _ IH]; intros p Hp; simpl; [exact Hp|].
  apply IH. clear IH.
  assert (His : Forall (fun i => i < local_k)%nat (seq 0 local_k)).
  { apply Forall_forall. intros i Hi. apply elem_of_seq in Hi. lia. }
  revert His p Hp. generalize (seq 0 local_k). intros li His.
  induction His as [|i li Hi _ IH]; intros p Hp; simpl; [exact Hp|].
  apply IH. destruct p as [md mi].
  destruct (0 <=? s_idx !!! (t * local_k + i)%nat)%Z; [|exact Hp].
  apply (topk_ok_insert q local_k (md, mi)); [exact Hp | by apply Hnn |].
  apply Forall_lookup_total_1; [exact Hall | rewrite Hlen; nia].
Qed.

Lemma lookup_total_map_seq {A} `{Inhabited A} (f : nat -> A) (k i : nat) :
  (i < k)%nat -> map f (seq 0 k) !!! i = f i.
Proof.
  intros Hi. change (map f (seq 0 k)) with (f <$> seq 0 k).
  rewrite (@list_lookup_total_fmap nat A f _ _ (seq 0 k) i) by (rewrite length_seq; lia).
  now rewrite lookup_total_seq_lt by lia.
Qed.

(** One block: the stored rows have [k] cells, the distances ascend and no
    index is the query's own. *)
Lemma knn_kernel_ok env points n d k nthreads q :
  Forall (fun x => is_finite x = true) points ->
  (k <= 256)%nat ->
  topk_ok q k (knn_kernel env points n d k nthreads q).
Proof.
  intros Hfin Hk. unfold knn_kernel. rewrite Nat.min_l by exact Hk.
  set (locals := map _ (seq 0 nthreads)).
  assert (Hloc : Forall (topk_ok q k) locals).
  { apply Forall_forall. intros p Hp. apply list_elem_of_In, in_map_iff in Hp as (tid & <- & _).
    by apply knn_thread_local_ok. }
  assert (Hrows_d : Forall (fun row => length row = k) (map fst locals)).
  { apply Forall_forall. intros row Hrow.
    apply list_elem_of_In, in_map_iff in Hrow as (p & <- & Hp).
    apply list_elem_of_In in Hp.
    exact (proj1 (proj1 (Forall_forall _ _) Hloc p Hp)). }
  assert (Hlen : length (concat (map snd locals)) = (nthreads * k)%nat).
  { rewrite (length_concat_uniform k).
    - unfold locals. now rewrite !length_map, length_seq.
    - apply Forall_forall. intros row Hrow.
      apply list_elem_of_In, in_map_iff in Hrow as (p & <- & Hp).
      apply list_elem_of_In in Hp.
      exact (proj1 (proj2 (proj1 (Forall_forall _ _) Hloc p Hp))). }
  assert (Hall : Forall (fun z => z <> Z.of_nat q) (concat (map snd locals))).
  { apply Forall_concat, Forall_forall. intros row Hrow.
    apply list_elem_of_In, in_map_iff in Hrow as (p & <- & Hp).
    apply list_elem_of_In in Hp.
    exact (proj2 (proj2 (proj2 (proj1 (Forall_forall _ _) Hloc p Hp)))). }
  assert (Hnn : forall t i, (t < nthreads)%nat -> (i < k)%nat ->
                  notnan (concat (map fst locals) !!! (t * k + i)%nat)).
  { intros t i Ht Hi.
    assert (Hlt : (t < length locals)%nat)
      by (unfold locals; by rewrite length_map, length_seq).
    rewrite (lookup_total_concat_uniform k) by (rewrite ?length_map; done).
    rewrite (list_lookup_total_fmap fst locals t Hlt).
    pose proof (Forall_lookup_total_1 _ _ t Hloc Hlt) as (_ & _ & Hasc & _).
    exact (proj1 (Hasc i Hi)). }
  pose proof (knn_merge_ok q nthreads k (concat (map fst locals)) _ Hlen Hall Hnn) as Hm.
  destruct (knn_merge _ _ nthreads k) as [md mi].
  destruct Hm as (H1 & H2 & H3 & H4). simpl in H1, H2, H3, H4.
  unfold topk_ok. simpl. rewrite !length_map, !length_seq.
  split; [done|]. split; [done|]. split.
  - intros i Hi. rewrite lookup_total_map_seq by lia. split; [exact (proj1 (H3 i Hi))|].
    intros Hi'. rewrite lookup_total_map_seq by lia. by apply H3.
  - apply Forall_forall. intros z Hz.
    apply list_elem_of_In, in_map_iff in Hz as (i & <- & Hi).
    apply in_seq in Hi. apply Forall_lookup_total_1; [exact H4 | lia].
Qed.

(** The rows of the grid, cell by cell; nothing here depends on the values
    of the coordinates. *)
Lemma knn_kernel_lengths env points n d k nthreads q :
  (k <= 256)%nat ->
  length (knn_kernel env points n d k nthreads q).1 = k /\
  length (knn_kernel env points n d k nthreads q).2 = k.
Proof.
  intros Hk. unfold knn_kernel.
  destruct (knn_merge _ _ _ _) as [md mi]. simpl.
  by rewrite !length_map, !length_seq.
Qed.

Lemma knn_grid_rows env points n d k nthreads (i r : nat) :
  (k <= 256)%nat -> (i < n)%nat -> (r < k)%nat ->
  let '(gd, gi) := knn_grid env points n d k nthreads in
  length gd = (n * k)%nat /\ length gi = (n * k)%nat /\
  gd !!! (i * k + r)%nat = (knn_kernel env points n d k nthreads i).1 !!! r /\
  gi !!! (i * k + r)%nat = (knn_kernel env points n d k nthreads i).2 !!! r.
Proof.
  intros Hk Hi Hr. unfold knn_grid.
  set (rows := map (knn_kernel env points n d k nthreads) (seq 0 n)).
  assert (H1 : Forall (fun row => length row = k) (map fst rows)).
  { apply Forall_forall. intros row Hrow.
    apply list_elem_of_In, in_map_iff in Hrow as (p & <- & Hp).
    apply in_map_iff in Hp as (q & <- & _).
    exact (proj1 (knn_kernel_lengths env points n d k nthreads q Hk)). }
  assert (H2 : Forall (fun row => length row = k) (map snd rows)).
  { apply Forall_forall. intros row Hrow.
    apply list_elem_of_In, in_map_iff in Hrow as (p & <- & Hp).
    apply in_map_iff in Hp as (q & <- & _).
    exact (proj2 (knn_kernel_lengths env points n d k nthreads q Hk)). }
  assert (Hlen : length rows = n) by (unfold rows; now rewrite length_map, length_seq).
  rewrite !(length_concat_uniform k), !length_map, Hlen by assumption.
  rewrite !(lookup_total_concat_uniform k) by (rewrite ?length_map; first [assumption | lia]).
  repeat split.
  - unfold rows. rewrite map_map. now rewrite lookup_total_map_seq by lia.
  - unfold rows. rewrite map_map. now rewrite lookup_total_map_seq by lia.
Qed.

(** The indices alone: whatever the distances are, [insert_if_closer] only
    moves stored indices and stores the new one. *)
Lemma insert_if_closer_indices (P : Z -> Prop) (k : nat) dists idxs d idx :
  Forall P idxs -> P idx ->
  Forall P (insert_if_closer dists idxs k d idx).2 /\
  length (insert_if_closer dists idxs k d idx).2 = length idxs.
Proof.
  intros Hall Hidx. unfold insert_if_closer.
  destruct (dists !!! (k - 1)%nat <=? d)%float; [done|].
  pose proof (shift_up_length dists idxs (k - 1) d) as Hlen.
  pose proof (shift_up_Forall P dists idxs (k - 1) d Hall) as Hf.
  destruct (shift_up dists idxs (k - 1) d) as [[pos ds] ix]. simpl.
  destruct Hlen as [_ Hl]. rewrite length_insert. split; [|exact Hl].
  destruct (decide (pos < length ix)%nat) as [Hp | Hp].
  - by apply Forall_insert.
  - by rewrite list_insert_ge by lia.
Qed.

Lemma knn_thread_local_indices env points n d local_k q tid nthreads :
  Forall (fun z => z <> Z.of_nat q)
    (knn_thread_local env points n d local_k q tid nthreads).2 /\
  length (knn_thread_local env points n d local_k q tid nthreads).2 = local_k.
Proof.
  unfold knn_thread_local. generalize (strided tid nthreads n). intros l.
  assert (H0 : Forall (fun z => z <> Z.of_nat q) (replicate local_k (-1)%Z) /\
               length (replicate local_k (-1)%Z) = local_k).
  { split; [apply Forall_replicate; lia | apply length_replicate]. }
  revert H0. generalize (replicate local_k (-1)%Z). generalize (replicate local_k DBL_MAX).
  induction l as [|i l IH]; intros ld li Hp; simpl; [exact Hp|].
  destruct (Nat.eqb_spec i q) as [Heq | Hne]; [by apply IH|].
  destruct Hp as [Hall Hlen].
  assert (Hi : Z.of_nat i <> Z.of_nat q) by lia.
  pose proof (insert_if_closer_indices (fun z => z <> Z.of_nat q) local_k ld li
                (PrimFloat.sqrt
                   (dist_sq_loop env d (fun dim => points !!! (q * d + dim)%nat)
                      (fun dim => points !!! (i * d + dim)%nat)))
                (Z.of_nat i) Hall Hi) as H.
  destruct (insert_if_closer ld li local_k _ (Z.of_nat i)) as [ds ix].
  apply IH. simpl in H. split; [tauto | lia].
Qed.

Lemma knn_merge_indices (q nthreads local_k : nat) (s_dist : list float) (s_idx : list Z) :
  length s_idx = (nthreads * local_k)%nat ->
  Forall (fun z => z <> Z.of_nat q) s_idx ->
  Forall (fun z => z <> Z.of_nat q) (knn_merge s_dist s_idx nthreads local_k).2 /\
  length (knn_merge s_dist s_idx nthreads local_k).2 = local_k.
Proof.
  intros Hlen Hall. unfold knn_merge.
  assert (Hts : Forall (fun t => t < nthreads)%nat (seq 0 nthreads)).
  { apply Forall_forall. intros t Ht. apply elem_of_seq in Ht. lia. }
  revert Hts. generalize (seq 0 nthreads). intros lt Hts.
  assert (H0 : Forall (fun z => z <> Z.of_nat q)
                 (replicate local_k DBL_MAX, replicate local_k (-1)%Z).2 /\
               length (replicate local_k DBL_MAX, replicate local_k (-1)%Z).2 = local_k).
  { split; [apply Forall_replicate; lia | apply length_replicate]. }
  revert H0. generalize (replicate local_k DBL_MAX, replicate local_k (-1)%Z).
  induction Hts as [|t lt Ht _ IH]; intros p Hp; simpl; [exact Hp|].
  apply IH. clear IH.
  assert (His : Forall (fun i => i < local_k)%nat (seq 0 local_k)).
  { apply Forall_forall. intros i Hi. apply elem_of_seq in Hi. lia. }
  revert His p Hp. generalize (seq 0 local_k). intros li His.
  induction His as [|i li Hi _ IH]; intros p Hp; simpl; [exact Hp|].
  apply IH. destruct p as [md mi].
  destruct (0 <=? s_idx !!! (t * local_k + i)%nat)%Z; [|exact Hp].
  destruct Hp as [Hp1 Hp2]. simpl in Hp1, Hp2.
  pose proof (insert_if_closer_indices (fun z => z <> Z.of_nat q) local_k md mi
                (s_dist !!! (t * local_k + i)%nat) (s_idx !!! (t * local_k + i)%nat) Hp1)
    as H.
  destruct H as [H1 H2].
  { apply Forall_lookup_total_1; [exact Hall | rewrite Hlen; nia]. }
  split; [exact H1 | lia].
Qed.

(** One block, for any coordinates: no stored index is the query's own. *)
Lemma knn_kernel_indices env points n d k nthreads q :
  (k <= 256)%nat ->
  Forall (fun z => z <> Z.of_nat q) (knn_kernel env points n d k nthreads q).2.
Proof.
  intros Hk. unfold knn_kernel. rewrite Nat.min_l by exact Hk.
  set (locals := map _ (seq 0 nthreads)).
  assert (Hloc : Forall (fun p : list float * list Z =>
                           Forall (fun z => z <> Z.of_nat q) p.2 /\ length p.2 = k) locals).
  { apply Forall_forall. intros p Hp. apply list_elem_of_In, in_map_iff in Hp as (tid & <- & _).
    apply knn_thread_local_indices. }
  assert (Hlen : length (concat (map snd locals)) = (nthreads * k)%nat).
  { rewrite (length_concat_uniform k).
    - unfold locals. now rewrite !length_map, length_seq.
    - apply Forall_forall. intros row Hrow.
      apply list_elem_of_In, in_map_iff in Hrow as (p & <- & Hp).
      apply list_elem_of_In in Hp.
      exact (proj2 (proj1 (Forall_forall _ _) Hloc p Hp)). }
  assert (Hall : Forall (fun z => z <> Z.of_nat q) (concat (map snd locals))).
  { apply Forall_concat, Forall_forall. intros row Hrow.
    apply list_elem_of_In, in_map_iff in Hrow as (p & <- & Hp).
    apply list_elem_of_In in Hp.
    exact (proj1 (proj1 (Forall_forall _ _) Hloc p Hp)). }
  pose proof (knn_merge_indices q nthreads k (concat (map fst locals)) _ Hlen Hall) as Hm.
  destruct (knn_merge _ _ nthreads k) as [md mi].
  destruct Hm as [H1 H2]. simpl in H1, H2. simpl.
  apply Forall_forall. intros z Hz.
  apply list_elem_of_In, in_map_iff in Hz as (i & <- & Hi).
  apply in_seq in Hi. apply Forall_lookup_total_1; [exact H1 | lia].
Qed.

(** C6: on a successful call no row of the index array holds the row's own
    number, whatever the coordinates are, and on finite coordinates every
    row of the distance array is non-decreasing. *)
Theorem knn_rows_ascending_no_self (env : CudaEnv) (pts od D : list float) (oi I : list Z)
    (n d k : Z) :
  topo_gpu_knn env (Some pts) n d k (Some od) (Some oi) = (TOPO_SUCCESS, Some D, Some I) ->
  (2 <= n /\ 1 <= d /\ 0 < k < n)%Z /\
  forall i r : nat, (i < Z.to_nat n)%nat -> (r < Z.to_nat k)%nat ->
    I !!! (i * Z.to_nat k + r)%nat <> Z.of_nat i /\
    (Forall (fun x => is_finite x = true) pts -> (S r < Z.to_nat k)%nat ->
     (D !!! (i * Z.to_nat k + r)%nat <=? D !!! (i * Z.to_nat k + S r)%nat)%float = true).
Proof.
  intros Hrun. unfold topo_gpu_knn in Hrun.
  destruct ((n <=? 0) || (d <=? 0) || (k <=? 0) || (n <=? k))%Z%bool eqn:Hargs;
    [discriminate|].
  rewrite !orb_false_iff, !Z.leb_gt in Hargs. destruct Hargs as [[[Hn Hd] Hk] Hkn].
  destruct (Z.ltb_spec 256 k) as [?|Hk256]; [discriminate|].
  destruct (device_count env =? 0)%Z; [discriminate|].
  destruct (negb (_ && _ && _)); [discriminate|].
  destruct (negb (memcpy_ok env 0)); [discriminate|].
  destruct (knn_grid env pts (Z.to_nat n) (Z.to_nat d) (Z.to_nat k) 256)
    as [gd gi] eqn:Hgrid.
  destruct (negb (launch_succeeds env n)); [discriminate|].
  destruct (negb (memcpy_ok env 1)); [discriminate|].
  destruct (negb (memcpy_ok env 2)); [discriminate|].
  injection Hrun as <- <-.
  split; [lia|]. intros i r Hi Hr.
  assert (Hk' : (Z.to_nat k <= 256)%nat) by lia.
  split.
  - pose proof (knn_kernel_indices env pts (Z.to_nat n) (Z.to_nat d) (Z.to_nat k) 256 i Hk')
      as Hself.
    pose proof (knn_kernel_lengths env pts (Z.to_nat n) (Z.to_nat d) (Z.to_nat k) 256 i Hk')
      as [_ Hli].
    pose proof (knn_grid_rows env pts (Z.to_nat n) (Z.to_nat d) (Z.to_nat k) 256 i r
                  Hk' Hi Hr) as Hrows.
    rewrite Hgrid in Hrows. destruct Hrows as (_ & Hl & _ & Hgi).
    rewrite memcpy_lookup_front by (rewrite ?Hl; nia).
    rewrite Hgi. apply Forall_lookup_total_1; [exact Hself|]. by rewrite Hli.
  - intros Hfin Hr'.
    pose proof (knn_kernel_ok env pts (Z.to_nat n) (Z.to_nat d) (Z.to_nat k) 256 i Hfin Hk')
      as (_ & _ & Hasc & _).
    pose proof (knn_grid_rows env pts (Z.to_nat n) (Z.to_nat d) (Z.to_nat k) 256 i r
                  Hk' Hi Hr) as Hrows.
    pose proof (knn_grid_rows env pts (Z.to_nat n) (Z.to_nat d) (Z.to_nat k) 256 i (S r)
                  Hk' Hi Hr') as Hrows'.
    rewrite Hgrid in Hrows, Hrows'.
    destruct Hrows as (Hl & _ & Hgd & _). destruct Hrows' as (_ & _ & Hgd' & _).
    rewrite !memcpy_lookup_front by (rewrite ?Hl; nia).
    rewrite Hgd, Hgd'. by apply (Hasc r).
Qed.

Lemma knn_rows_ascending_no_self_witness :
  exists D I,
    Forall (fun x => is_finite x = true) [0; 1; 3]%float
    /\ topo_gpu_knn test_env (Some [0; 1; 3]%float) 3 1 2
         (Some (replicate 6 0%float)) (Some (replicate 6 0%Z))
       = (TOPO_SUCCESS, Some D, Some I)
    /\ I = [1; 2; 0; 2; 1; 0]%Z
    /\ I !!! (1 * Z.to_nat 2 + 0)%nat <> Z.of_nat 1
    /\ (D !!! (1 * Z.to_nat 2 + 0)%nat <=? D !!! (1 * Z.to_nat 2 + 1)%nat)%float = true.
Proof.
  eexists. eexists.
  assert (Hfin : Forall (fun x => is_finite x = true) [0; 1; 3]%float)
    by (repeat constructor).
  split; [exact Hfin|]. split; [vm_compute; reflexivity|].
  split; [reflexivity|].
  match goal with
  | |- ?I !!! _ <> _ /\ (?D !!! _ <=? _)%float = true =>
    pose proof (knn_rows_ascending_no_self test_env [0; 1; 3]%float
                  (replicate 6 0%float) D (replicate 6 0%Z) I 3 1 2) as H
  end.
  destruct H as [_ H]; [vm_compute; reflexivity|].
  destruct (H 1%nat 0%nat) as [H1 H2]; [simpl; lia | simpl; lia |].
  split; [exact H1 | apply H2; [exact Hfin | simpl; lia]].
Defined.

(** ** Sorting *)

Section StableSort.
Context {A : Type} (cmp : A -> A -> Z).

Let below (a b : A) : Prop := (cmp a b <= 0)%Z.

Lemma insert_sorted_perm (x : A) (l : list A) :
  Permutation (insert_sorted cmp x l) (x :: l).
Proof.
  induction l as [|y l IH]; simpl; [done|].
  destruct (cmp x y <=? 0)%Z; [done|].
  rewrite IH. apply perm_swap.
Qed.

Lemma stable_sort_perm (l : list A) : Permutation (stable_sort cmp l) l.
Proof.
  induction l as [|x l IH]; simpl; [done|].
  rewrite insert_sorted_perm. now apply perm_skip.
Qed.

Hypothesis cmp_ok : comparator_ok cmp.

Lemma insert_sorted_sorted (x : A) (l : list A) :
  StronglySorted below l -> StronglySorted below (insert_sorted cmp x l).
Proof.
  destruct cmp_ok as [Htotal Htrans].
  induction 1 as [|y l Hl IH Hy]; simpl.
  - repeat constructor.
  - destruct (Z.leb_spec (cmp x y) 0) as [Hxy | Hxy].
    + constructor; [by constructor|].
      constructor; [exact Hxy|].
      eapply Forall_impl; [exact Hy|]. intros z Hz. eapply Htrans; eassumption.
    + constructor; [exact IH|].
      rewrite insert_sorted_perm. constructor; [|exact Hy].
      destruct (Htotal x y); [lia | assumption].
Qed.

Lemma stable_sort_sorted (l : list A) : StronglySorted below (stable_sort cmp l).
Proof.
  induction l as [|x l IH]; simpl; [constructor|].
  now apply insert_sorted_sorted.
Qed.
End StableSort.

(** The stable sort keeps the promise of [qsort]. *)
Definition stable_qsort : Qsort :=
  {| qsort := @stable_sort;
     qsort_perm := @stable_sort_perm;
     qsort_sorted := fun A cmp l ok => @stable_sort_sorted A cmp ok l |}.

Lemma StronglySorted_weaken {A} (R R' : A -> A -> Prop) (l : list A) :
  (forall a b, R a b -> R' a b) -> StronglySorted R l -> StronglySorted R' l.
Proof.
  intros HR. induction 1 as [|x l _ IH Hx]; constructor; [exact IH|].
  eapply Forall_impl; [exact Hx|]. intros; by apply HR.
Qed.

Lemma StronglySorted_lookup {A} `{Inhabited A} (R : A -> A -> Prop) (l : list A) (i j : nat) :
  StronglySorted R l -> (i < j < length l)%nat -> R (l !!! i) (l !!! j).
Proof.
  intros Hl. revert i j. induction Hl as [|x l _ IH Hx]; intros i j Hij.
  - simpl in Hij. lia.
  - destruct j as [|j]; [lia|]. simpl in Hij. destruct i as [|i]; simpl.
    + apply Forall_lookup_total_1; [exact Hx | lia].
    + apply IH. lia.
Qed.

(** A list has one ascending arrangement when elements that compare equal
    both ways are the same element. *)
Lemma sorted_perm_unique {A} (R : A -> A -> Prop) (l1 l2 : list A) :
  (forall a b, a ∈ l1 -> b ∈ l1 -> R a b -> R b a -> a = b) ->
  StronglySorted R l1 -> StronglySorted R l2 -> Permutation l1 l2 -> l1 = l2.
Proof.
  revert l2. induction l1 as [|a l1 IH]; intros l2 Hanti H1 H2 Hperm.
  - apply Permutation_nil in Hperm. done.
  - destruct l2 as [|b l2]; [by apply Permutation_sym, Permutation_nil in Hperm|].
    apply StronglySorted_inv in H1 as [H1 Ha]. apply StronglySorted_inv in H2 as [H2 Hb].
    assert (Hab : a = b).
    { assert (Ha2 : a ∈ b :: l2) by (rewrite <- Hperm; left).
      assert (Hb1 : b ∈ a :: l1) by (rewrite Hperm; left).
      apply elem_of_cons in Ha2 as [? | Ha2]; [done|].
      apply elem_of_cons in Hb1 as [? | Hb1]; [done|].
      apply Hanti; [left | by right | |].
      - by apply (proj1 (Forall_forall _ _) Ha).
      - by apply (proj1 (Forall_forall _ _) Hb). }
    subst b. f_equal. apply Permutation_cons_inv in Hperm.
    apply IH; try assumption.
    intros x y Hx Hy. apply Hanti; by right.
Qed.

Lemma order_like_ok {A} (c : A -> A -> Z) : order_like c -> comparator_ok c.
Proof.
  intros [Hf Ht _]. split; [|exact Ht].
  intros a b. destruct (Z_le_gt_dec (c a b) 0) as [?|Hgt]; [by left|].
  right. assert (c b a < 0)%Z by (apply Hf; lia). lia.
Qed.

Lemma order_like_lex {A} (c1 c2 : A -> A -> Z) :
  order_like c1 -> order_like c2 ->
  order_like (fun a b => lex_then (c1 a b) (c2 a b)).
Proof.
  intros [Hf1 Ht1 Hs1] [Hf2 Ht2 Hs2].
  assert (Hz1 : forall a b, c1 a b = 0%Z -> c1 b a = 0%Z).
  { intros a b Hab. pose proof (Hf1 a b). pose proof (Hf1 b a). lia. }
  split; unfold lex_then.
  - intros a b. pose proof (Hf1 a b). pose proof (Hf1 b a). pose proof (Hf2 a b).
    destruct (Z.eqb_spec (c1 a b) 0), (Z.eqb_spec (c1 b a) 0); lia.
  - intros x y z.
    pose proof (Ht1 x y z). pose proof (Hs1 x y z). pose proof (Ht2 x y z).
    destruct (Z.eqb_spec (c1 x y) 0), (Z.eqb_spec (c1 y z) 0), (Z.eqb_spec (c1 x z) 0); lia.
  - intros x y z.
    pose proof (Ht1 x y z). pose proof (Hs1 x y z). pose proof (Hs2 x y z).
    destruct (Z.eqb_spec (c1 x y) 0), (Z.eqb_spec (c1 y z) 0), (Z.eqb_spec (c1 x z) 0); lia.
Qed.

Lemma filt_compare_cases (a b : Q) :
  ((a < b)%Q /\ filt_compare a b = (-1)%Z) \/
  ((b < a)%Q /\ filt_compare a b = 1%Z) \/
  ((a == b)%Q /\ filt_compare a b = 0%Z).
Proof.
  unfold filt_compare.
  destruct (Qltb a b) eqn:H1; [left; split; [by apply Qltb_lt | done]|].
  destruct (Qltb b a) eqn:H2; [right; left; split; [by apply Qltb_lt | done]|].
  right; right. split; [|done].
  apply Qltb_ge in H1, H2. by apply Qle_antisym.
Qed.

Lemma order_like_filt {A} (key : A -> Q) :
  order_like (fun a b => filt_compare (key a) (key b)).
Proof.
  split.
  - intros a b.
    destruct (filt_compare_cases (key a) (key b)) as [[? ->] | [[? ->] | [? ->]]],
             (filt_compare_cases (key b) (key a)) as [[? ->] | [[? ->] | [? ->]]];
      try lia; exfalso; Lqa.lra.
  - intros x y z.
    destruct (filt_compare_cases (key x) (key y)) as [[? ->] | [[? ->] | [? ->]]],
             (filt_compare_cases (key y) (key z)) as [[? ->] | [[? ->] | [? ->]]],
             (filt_compare_cases (key x) (key z)) as [[? ->] | [[? ->] | [? ->]]];
      try lia; exfalso; Lqa.lra.
  - intros x y z.
    destruct (filt_compare_cases (key x) (key y)) as [[? ->] | [[? ->] | [? ->]]],
             (filt_compare_cases (key y) (key z)) as [[? ->] | [[? ->] | [? ->]]],
             (filt_compare_cases (key x) (key z)) as [[? ->] | [[? ->] | [? ->]]];
      try lia; exfalso; Lqa.lra.
Qed.

Lemma order_like_nat {A} (key : A -> nat) :
  order_like (fun a b => nat_compare (key a) (key b)).
Proof.
  unfold nat_compare. split; intros;
    repeat match goal with
           | |- context [(?a <? ?b)%nat] => destruct (Nat.ltb_spec a b)
           | H : context [(?a <? ?b)%nat] |- _ => destruct (Nat.ltb_spec a b)
           end; lia.
Qed.

Lemma order_like_int {A} (key : A -> Z) :
  order_like (fun a b => int_compare (key a) (key b)).
Proof.
  unfold int_compare. split; intros;
    repeat match goal with
           | |- context [(?a <? ?b)%Z] => destruct (Z.ltb_spec a b)
           | H : context [(?a <? ?b)%Z] |- _ => destruct (Z.ltb_spec a b)
           end; lia.
Qed.

Lemma edge_compare_ok : comparator_ok edge_compare.
Proof. apply order_like_ok, (order_like_filt filt). Qed.

Lemma edge_info_compare_ok : comparator_ok edge_info_compare.
Proof. apply order_like_ok, (order_like_filt e_filt). Qed.

Lemma tri_compare_ok : comparator_ok tri_compare.
Proof. apply order_like_ok, (order_like_filt t_filt). Qed.

Lemma spec_edge_compare_ok : comparator_ok spec_edge_compare.
Proof.
  apply order_like_ok.
  apply (order_like_lex _ _ (order_like_filt filt)).
  apply (order_like_lex _ _ (order_like_nat src) (order_like_nat dst)).
Qed.

Lemma spec_edge_info_compare_ok : comparator_ok spec_edge_info_compare.
Proof.
  apply order_like_ok.
  apply (order_like_lex _ _ (order_like_filt e_filt)).
  apply (order_like_lex _ _ (order_like_int e_src) (order_like_int e_dst)).
Qed.

Lemma spec_tri_compare_ok : comparator_ok spec_tri_compare.
Proof.
  apply order_like_ok.
  apply (order_like_lex _ _ (order_like_filt t_filt)).
  apply (order_like_lex _ _ (order_like_int v0)).
  apply (order_like_lex _ _ (order_like_int v1) (order_like_int v2)).
Qed.

Lemma filt_compare_le (a b : Q) : (filt_compare a b <= 0)%Z <-> (a <= b)%Q.
Proof.
  destruct (filt_compare_cases a b) as [[? ->] | [[? ->] | [? ->]]];
    split; intros; try lia; try Lqa.lra.
Qed.

Lemma lex_then_le (c rest : Z) : (lex_then c rest <= 0)%Z -> (c <= 0)%Z.
Proof. unfold lex_then. destruct (Z.eqb_spec c 0); lia. Qed.

(** ** persistence_h1.cu: columns *)

Lemma sym_diff_nil_r (a : list nat) : sym_diff a [] = a.
Proof. destruct a; reflexivity. Qed.

Lemma sym_diff_nil_l (b : list nat) : sym_diff [] b = b.
Proof. destruct b; reflexivity. Qed.

Lemma sym_diff_elem (a b : list nat) (x : nat) :
  x ∈ sym_diff a b -> x ∈ a \/ x ∈ b.
Proof.
  revert b. induction a as [|u a IHa]; intros b; [rewrite sym_diff_nil_l; by right|].
  induction b as [|v b IHb]; [by left|].
  simpl. destruct (v <? u)%nat.
  - intros Hx. apply elem_of_cons in Hx as [-> | Hx]; [left; left|].
    apply IHa in Hx as [Hx | Hx]; [left; by right | by right].
  - destruct (u <? v)%nat.
    + intros Hx. apply elem_of_cons in Hx as [-> | Hx]; [right; left|].
      apply IHb in Hx as [Hx | Hx]; [by left | right; by right].
    + intros Hx. apply IHa in Hx as [Hx | Hx]; [left; by right | right; by right].
Qed.

Lemma descending_cons (x : nat) (col : list nat) :
  descending col -> Forall (fun y => y < x)%nat col -> descending (x :: col).
Proof. intros. by constructor. Qed.

Lemma descending_inv (x : nat) (col : list nat) :
  descending (x :: col) -> descending col /\ Forall (fun y => y < x)%nat col.
Proof. apply StronglySorted_inv. Qed.

Lemma sym_diff_below (a b : list nat) (z : nat) :
  Forall (fun y => y < z)%nat a -> Forall (fun y => y < z)%nat b ->
  Forall (fun y => y < z)%nat (sym_diff a b).
Proof.
  intros Ha Hb. apply Forall_forall. intros x Hx.
  apply sym_diff_elem in Hx as [Hx | Hx];
    [exact (proj1 (Forall_forall _ _) Ha x Hx) | exact (proj1 (Forall_forall _ _) Hb x Hx)].
Qed.

Lemma sym_diff_descending (a b : list nat) :
  descending a -> descending b -> descending (sym_diff a b).
Proof.
  revert b. induction a as [|u a IHa]; intros b Ha Hb; [by rewrite sym_diff_nil_l|].
  induction b as [|v b IHb]; [exact Ha|].
  apply descending_inv in Ha as [Ha Hu]. apply descending_inv in Hb as [Hb Hv].
  simpl. destruct (Nat.ltb_spec v u) as [Hvu | Hvu].
  - apply descending_cons; [apply IHa; [exact Ha | by apply descending_cons]|].
    apply sym_diff_below; [exact Hu|].
    constructor; [exact Hvu|]. eapply Forall_impl; [exact Hv|]. simpl. lia.
  - destruct (Nat.ltb_spec u v) as [Huv | Huv].
    + apply descending_cons; [apply IHb; exact Hb|].
      change (Forall (fun y => y < v)%nat (sym_diff (u :: a) b)).
      apply sym_diff_below; [|exact Hv].
      constructor; [exact Huv|]. eapply Forall_impl; [exact Hu|]. simpl. lia.
    + by apply IHa.
Qed.

(** The step of the reduction: two columns with the same pivot add up to a
    column whose rows are all below that pivot. *)
Lemma sym_diff_same_pivot (p : nat) (a b : list nat) :
  descending (p :: a) -> descending (p :: b) ->
  sym_diff (p :: a) (p :: b) = sym_diff a b /\
  descending (sym_diff a b) /\ Forall (fun y => y < p)%nat (sym_diff a b).
Proof.
  intros Ha Hb.
  apply descending_inv in Ha as [Ha Hpa]. apply descending_inv in Hb as [Hb Hpb].
  split; [simpl; now rewrite Nat.ltb_irrefl|].
  split; [by apply sym_diff_descending | by apply sym_diff_below].
Qed.

Lemma find_edge_from_spec (l : list EdgeInfo) (i : nat) (u v : Z) (r : nat) :
  find_edge_from l i u v = Some r ->
  (i <= r < i + length l)%nat /\ edge_pair (l !!! (r - i)%nat) = (u, v).
Proof.
  revert i. induction l as [|e l IH]; intros i; simpl; [discriminate|].
  unfold edge_pair at 1.
  destruct (if (e_dst e <? e_src e)%Z then _ else _) as [su sv] eqn:Hp.
  destruct ((su =? u)%Z && (sv =? v)%Z) eqn:Hm.
  - intros [= <-]. split; [lia|]. rewrite Nat.sub_diag. simpl.
    apply andb_prop in Hm as [H1 H2]. apply Z.eqb_eq in H1, H2. subst.
    unfold edge_pair. exact Hp.
  - intros Hr. apply IH in Hr as [Hr He]. split; [lia|].
    replace (r - i)%nat with (S (r - S i)) by lia. exact He.
Qed.

Lemma find_edge_spec (edges : list EdgeInfo) (m : nat) (u v : Z) (r : nat) :
  length edges = m ->
  find_edge edges m u v = Some r ->
  (r < m)%nat /\ edge_pair (edges !!! r) = ordered_pair u v.
Proof.
  intros Hlen. unfold find_edge, ordered_pair.
  rewrite firstn_all2 by lia.
  destruct (v <? u)%Z; intros Hr; apply find_edge_from_spec in Hr as [Hr He];
    rewrite Nat.sub_0_r in He; (split; [lia | exact He]).
Qed.

Lemma ordered_pair_inj (a b c d : Z) :
  ordered_pair a b = ordered_pair c d -> (a = c /\ b = d) \/ (a = d /\ b = c).
Proof.
  unfold ordered_pair. destruct (b <? a)%Z, (d <? c)%Z; intros [= -> ->]; tauto.
Qed.

Lemma swap_cases (x y : nat) :
  ((x <? y)%nat = true /\ (x < y)%nat) \/ ((x <? y)%nat = false /\ (y <= x)%nat).
Proof. destruct (Nat.ltb_spec x y); [left | right]; done. Qed.

(** The exchange sort on the at most three rows of a fresh column. *)
Lemma sort_descending_small (col : list nat) :
  (length col <= 3)%nat ->
  (forall P : nat -> Prop, Forall P col -> Forall P (sort_descending col)) /\
  (NoDup col -> descending (sort_descending col)).
Proof.
  intros Hlen.
  destruct col as [|a [|b [|c [|? ?]]]]; simpl in Hlen; try lia.
  - split; [done | intros; constructor].
  - split; [done | intros; repeat constructor].
  - unfold sort_descending, swap_if_less. simpl.
    destruct (swap_cases a b) as [[-> Hab] | [-> Hab]]; simpl.
    + split; [intros P HP; inversion HP as [|? ? ? HP']; inversion HP'; subst;
              repeat constructor; assumption|].
      intros _. repeat constructor. exact Hab.
    + split; [done|]. intros Hnd. apply NoDup_cons in Hnd as [Hnd _].
      assert (a <> b) by (intros ->; apply Hnd; left).
      repeat constructor. lia.
  - unfold sort_descending, swap_if_less. simpl.
    split.
    + intros P HP.
      inversion HP as [|? ? Ha HP1]; inversion HP1 as [|? ? Hb HP2];
        inversion HP2 as [|? ? Hc _]; subst.
      destruct (swap_cases a b) as [[-> ?] | [-> ?]]; simpl;
        [destruct (swap_cases b c) as [[-> ?] | [-> ?]]
        |destruct (swap_cases a c) as [[-> ?] | [-> ?]]]; simpl;
        try destruct (swap_cases a c) as [[-> ?] | [-> ?]]; simpl;
        try destruct (swap_cases a b) as [[-> ?] | [-> ?]]; simpl;
        try destruct (swap_cases b c) as [[-> ?] | [-> ?]]; simpl;
        try destruct (swap_cases b a) as [[-> ?] | [-> ?]]; simpl;
        try destruct (swap_cases c a) as [[-> ?] | [-> ?]]; simpl;
        try destruct (swap_cases c b) as [[-> ?] | [-> ?]]; simpl;
        repeat constructor; assumption.
    + intros Hnd.
      apply NoDup_cons in Hnd as [Hab Hnd]. apply NoDup_cons in Hnd as [Hbc _].
      assert (a <> b) by (intros ->; apply Hab; left).
      assert (a <> c) by (intros ->; apply Hab; right; left).
      assert (b <> c) by (intros ->; apply Hbc; left).
      destruct (swap_cases a b) as [[-> ?] | [-> ?]]; simpl;
        [destruct (swap_cases b c) as [[-> ?] | [-> ?]]
        |destruct (swap_cases a c) as [[-> ?] | [-> ?]]]; simpl;
        try destruct (swap_cases a c) as [[-> ?] | [-> ?]]; simpl;
        try destruct (swap_cases a b) as [[-> ?] | [-> ?]]; simpl;
        try destruct (swap_cases b c) as [[-> ?] | [-> ?]]; simpl;
        try destruct (swap_cases b a) as [[-> ?] | [-> ?]]; simpl;
        try destruct (swap_cases c a) as [[-> ?] | [-> ?]]; simpl;
        try destruct (swap_cases c b) as [[-> ?] | [-> ?]]; simpl;
        try lia; repeat constructor; lia.
Qed.

Lemma build_column_rows (edges : list EdgeInfo) (m : nat) (tri : TriSortKey) :
  length edges = m ->
  Forall (row_of edges m tri) (build_column edges m tri).
Proof.
  intros Hlen. unfold build_column. cbn [fold_left].
  destruct (find_edge edges m (v0 tri) (v1 tri)) as [r1|] eqn:H1;
  destruct (find_edge edges m (v0 tri) (v2 tri)) as [r2|] eqn:H2;
  destruct (find_edge edges m (v1 tri) (v2 tri)) as [r3|] eqn:H3; cbn [app];
    try apply (find_edge_spec _ _ _ _ _ Hlen) in H1 as [? ?];
    try apply (find_edge_spec _ _ _ _ _ Hlen) in H2 as [? ?];
    try apply (find_edge_spec _ _ _ _ _ Hlen) in H3 as [? ?];
    (apply sort_descending_small; [simpl; lia|]);
    repeat (apply Forall_cons_2; [unfold row_of; tauto|]);
    apply Forall_nil_2.
Qed.

Lemma build_column_descending (edges : list EdgeInfo) (m : nat) (tri : TriSortKey) :
  length edges = m ->
  v0 tri <> v1 tri -> v0 tri <> v2 tri -> v1 tri <> v2 tri ->
  descending (build_column edges m tri).
Proof.
  intros Hlen H01 H02 H12. unfold build_column. cbn [fold_left].
  destruct (find_edge edges m (v0 tri) (v1 tri)) as [r1|] eqn:H1;
  destruct (find_edge edges m (v0 tri) (v2 tri)) as [r2|] eqn:H2;
  destruct (find_edge edges m (v1 tri) (v2 tri)) as [r3|] eqn:H3; cbn [app];
    try apply (find_edge_spec _ _ _ _ _ Hlen) in H1 as [? E1];
    try apply (find_edge_spec _ _ _ _ _ Hlen) in H2 as [? E2];
    try apply (find_edge_spec _ _ _ _ _ Hlen) in H3 as [? E3];
    (apply sort_descending_small; [simpl; lia|]);
    try assert (r1 <> r2)
      by (intros ->; rewrite E1 in E2; apply ordered_pair_inj in E2; lia);
    try assert (r1 <> r3)
      by (intros ->; rewrite E1 in E3; apply ordered_pair_inj in E3; lia);
    try assert (r2 <> r3)
      by (intros ->; rewrite E2 in E3; apply ordered_pair_inj in E3; lia);
    repeat (apply NoDup_cons_2; [rewrite ?elem_of_cons, ?elem_of_nil; tauto|]);
    apply NoDup_nil_2.
Qed.

(** ** persistence_h1.cu: the reduction *)

Lemma h1_inv_next (m t c : nat) (st : H1State) :
  h1_inv m t c st -> h1_inv m t (S c) st.
Proof.
  intros [H1 H2 H3 H4]. split; try assumption.
  intros p q Hp Hq. destruct (H4 p q Hp Hq) as [? ?]. split; [lia | assumption].
Qed.

(** One symmetric-difference step on column [c], whose pivot [p] is owned
    by column [other]. *)
Lemma reduce_step_inv (m t c p other : nat) (rest : list nat) (st : H1State) :
  (c < t)%nat ->
  h1_inv m t c st ->
  boundary st !!! c = p :: rest ->
  (p < m)%nat ->
  pivot_col st !!! p = Some other ->
  let merged := sym_diff (boundary st !!! c) (boundary st !!! other) in
  (other < c)%nat /\
  (pivot_height merged <= p)%nat /\
  h1_inv m t c {| boundary := <[c := merged]> (boundary st);
                  pivot_col := pivot_col st;
                  h1_pairs := h1_pairs st |}.
Proof.
  intros Hc [Hlb Hlp Hcols Hown] Hcol Hp Howner merged.
  destruct (Hcols c Hc) as [Hdesc Hrows].
  destruct (Hown p other Hp Howner) as [Hother [rest' Hocol]].
  destruct (Hcols other ltac:(lia)) as [Hodesc Horows].
  subst merged. rewrite Hcol, Hocol in *.
  destruct (sym_diff_same_pivot p rest rest' Hdesc Hodesc) as (Heq & Hmd & Hmb).
  rewrite Heq.
  split; [exact Hother|]. split.
  - destruct (sym_diff rest rest') as [|p' ?]; simpl; [lia|]. inversion Hmb; subst. lia.
  - split; simpl.
    + by rewrite length_insert.
    + done.
    + intros j Hj. destruct (decide (j = c)) as [-> | Hne].
      * rewrite list_lookup_total_insert_eq by lia. split; [exact Hmd|].
        eapply Forall_impl; [exact Hmb|]. simpl. lia.
      * rewrite list_lookup_total_insert_ne by done. by apply Hcols.
    + intros p' q Hp' Hq. destruct (Hown p' q Hp' Hq) as [Hqc Hq'].
      split; [exact Hqc|]. rewrite list_lookup_total_insert_ne by lia. exact Hq'.
Qed.

(** Registering column [c] as the owner of its pivot. *)
Lemma reduce_register_inv (m t c p : nat) (rest : list nat) (st : H1State)
    (pairs : list (Q * Q)) :
  h1_inv m t c st ->
  boundary st !!! c = p :: rest ->
  (p < m)%nat ->
  h1_inv m t (S c) {| boundary := boundary st;
                      pivot_col := <[p := Some c]> (pivot_col st);
                      h1_pairs := pairs |}.
Proof.
  intros [Hlb Hlp Hcols Hown] Hcol Hp. split; simpl.
  - done.
  - by rewrite length_insert.
  - done.
  - intros p' q Hp' Hq. destruct (decide (p' = p)) as [-> | Hne].
    + rewrite list_lookup_total_insert_eq in Hq by lia. injection Hq as <-.
      split; [lia|]. by exists rest.
    + rewrite list_lookup_total_insert_ne in Hq by done.
      destruct (Hown p' q Hp' Hq) as [? ?]. split; [lia | assumption].
Qed.

Lemma h1_inv_pivot (m t c p : nat) (rest : list nat) (st : H1State) :
  (c < t)%nat -> h1_inv m t c st -> boundary st !!! c = p :: rest -> (p < m)%nat.
Proof.
  intros Hc Hinv Hcol. destruct (inv_columns _ _ _ _ Hinv c Hc) as [_ Hrows].
  rewrite Hcol in Hrows. by inversion Hrows.
Qed.

(** The inner loop ends within [pivot_height + 1] tests of its condition. *)
Lemma reduce_column_total (edges : list EdgeInfo) (tris : list TriSortKey)
    (m t c : nat) (fuel : nat) (st : H1State) :
  (c < t)%nat ->
  h1_inv m t c st ->
  (pivot_height (boundary st !!! c) < fuel)%nat ->
  exists st', reduce_column fuel edges tris c st = Some st' /\ h1_inv m t (S c) st'.
Proof.
  intros Hc. revert st. induction fuel as [|fuel IH]; intros st Hinv Hfuel; [lia|].
  simpl. destruct (boundary st !!! c) as [|p rest] eqn:Hcol.
  - exists st. split; [done | by apply h1_inv_next].
  - pose proof (h1_inv_pivot m t c p rest st Hc Hinv Hcol) as Hp.
    destruct (pivot_col st !!! p) as [other|] eqn:Howner.
    + destruct (reduce_step_inv m t c p other rest st Hc Hinv Hcol Hp Howner)
        as (_ & Hheight & Hinv').
      rewrite Hcol in Hheight, Hinv'.
      apply IH; [exact Hinv'|].
      cbn [boundary]. rewrite list_lookup_total_insert_eq
        by (rewrite (inv_boundary_length _ _ _ _ Hinv); lia).
      cbn [pivot_height] in Hfuel. lia.
    + eexists. split; [reflexivity|]. by eapply reduce_register_inv.
Qed.

Lemma reduce_columns_total (edges : list EdgeInfo) (tris : list TriSortKey)
    (m t : nat) (fuel : nat) (k c : nat) (st : H1State) :
  (m < fuel)%nat -> (c + k = t)%nat ->
  h1_inv m t c st ->
  exists st', reduce_columns fuel edges tris (seq c k) st = Some st' /\ h1_inv m t t st'.
Proof.
  intros Hfuel. revert c st. induction k as [|k IH]; intros c st Hck Hinv; simpl.
  - exists st. split; [done|]. assert (c = t) by lia. by subst c.
  - destruct (reduce_column_total edges tris m t c fuel st) as (st1 & -> & Hinv1);
      [lia | exact Hinv | |].
    + destruct (inv_columns _ _ _ _ Hinv c ltac:(lia)) as [_ Hrows].
      destruct (boundary st !!! c) as [|p ?]; simpl; [lia|]. inversion Hrows; subst. lia.
    + apply IH; [lia | exact Hinv1].
Qed.

Lemma h1_inv_initial (edges : list EdgeInfo) (tris : list TriSortKey) (m t : nat) :
  length edges = m -> length tris = t -> Forall tri_distinct tris ->
  h1_inv m t 0
    {| boundary := map (fun col => build_column edges m (tris !!! col)) (seq 0 t);
       pivot_col := replicate m None;
       h1_pairs := [] |}.
Proof.
  intros Hle Hlt Hdist. split; simpl.
  - now rewrite length_map, length_seq.
  - now rewrite length_replicate.
  - intros j Hj. rewrite lookup_total_map_seq by done. split.
    + assert (Hd : tri_distinct (tris !!! j))
        by (apply Forall_lookup_total_1; [exact Hdist | lia]).
      destruct Hd as (? & ? & ?). by apply build_column_descending.
    + eapply Forall_impl; [by apply build_column_rows|]. by intros r [? _].
  - intros p q Hp. rewrite lookup_total_replicate_2 by done. discriminate.
Qed.

Lemma h1_reduce_total (edges : list EdgeInfo) (tris : list TriSortKey) (m t fuel : nat) :
  length edges = m -> length tris = t -> Forall tri_distinct tris ->
  (m < fuel)%nat ->
  exists st, h1_reduce fuel edges tris m t = Some st /\ h1_inv m t t st.
Proof.
  intros Hle Hlt Hdist Hfuel. unfold h1_reduce.
  apply reduce_columns_total; [exact Hfuel | lia | by apply h1_inv_initial].
Qed.

Lemma h1_edges_length (sort_edges : list EdgeInfo -> list EdgeInfo) es ed ef m :
  (forall l, Permutation (sort_edges l) l) ->
  length (h1_edges sort_edges es ed ef m) = m.
Proof.
  intros Hperm. unfold h1_edges, h1_input_edges.
  now rewrite length_imap, (Permutation_length (Hperm _)), length_map, length_seq.
Qed.

Lemma h1_tris_length (sort_tris : list TriSortKey -> list TriSortKey) t0 t1 t2 tf t :
  (forall l, Permutation (sort_tris l) l) ->
  length (h1_tris sort_tris t0 t1 t2 tf t) = t.
Proof.
  intros Hperm. unfold h1_tris, h1_input_tris.
  now rewrite (Permutation_length (Hperm _)), length_map, length_seq.
Qed.

Lemma h1_tris_Forall (P : TriSortKey -> Prop)
    (sort_tris : list TriSortKey -> list TriSortKey) t0 t1 t2 tf t :
  (forall l, Permutation (sort_tris l) l) ->
  (forall i, (i < t)%nat ->
     P {| t_filt := tf !!! i; v0 := t0 !!! i; v1 := t1 !!! i; v2 := t2 !!! i;
          original_idx := i |}) ->
  Forall P (h1_tris sort_tris t0 t1 t2 tf t).
Proof.
  intros Hperm HP. unfold h1_tris. rewrite (Hperm _).
  apply Forall_forall. intros tri Htri.
  apply list_elem_of_In, in_map_iff in Htri as (i & <- & Hi).
  apply HP. apply in_seq in Hi. lia.
Qed.

Lemma persistence_h1_total sort_edges sort_tris (fuel : nat) (inp : H1In) (m t : nat)
    (out : H1Out) :
  (forall l, Permutation (sort_edges l) l) ->
  (forall l, Permutation (sort_tris l) l) ->
  (forall t0 t1 t2, tri_v0 inp = Some t0 -> tri_v1 inp = Some t1 -> tri_v2 inp = Some t2 ->
     triangles_distinct t0 t1 t2 t) ->
  (m < fuel)%nat ->
  exists res, persistence_h1_with sort_edges sort_tris fuel inp m t out = Some res.
Proof.
  intros Hpe Hpt Hdist Hfuel. unfold persistence_h1_with.
  destruct (h1_births out), (h1_deaths out), (h1_count out); eauto.
  destruct (_ || _)%bool; eauto.
  destruct (edge_src inp) as [es|], (edge_dst inp) as [ed|], (edge_filt inp) as [ef|],
           (tri_v0 inp) as [t0|], (tri_v1 inp) as [t1|], (tri_v2 inp) as [t2|],
           (tri_filt inp) as [tf|]; eauto.
  destruct (h1_reduce_total (h1_edges sort_edges es ed ef m)
              (h1_tris sort_tris t0 t1 t2 tf t) m t fuel) as (st & -> & _);
    [by apply h1_edges_length | by apply h1_tris_length | | exact Hfuel | eauto].
  apply h1_tris_Forall; [exact Hpt|].
  intros i Hi. exact (Hdist t0 t1 t2 eq_refl eq_refl eq_refl i Hi).
Qed.

(** C9, as the code has it: when no triangle names a vertex twice, every
    symmetric-difference step leaves a column that is empty or has a strictly
    smaller pivot, and the call returns once the inner loop may test its
    condition more often than there are edges. *)
Theorem h1_reduction_terminates (qs : Qsort) (inp : H1In) (m t fuel : nat) (out : H1Out) :
  (forall t0 t1 t2, tri_v0 inp = Some t0 -> tri_v1 inp = Some t1 -> tri_v2 inp = Some t2 ->
     triangles_distinct t0 t1 t2 t) ->
  (m < fuel)%nat ->
  (forall p a b, descending (p :: a) -> descending (p :: b) ->
     match sym_diff (p :: a) (p :: b) with
     | [] => True
     | p' :: _ => (p' < p)%nat
     end) /\
  exists res, topo_gpu_persistence_h1 fuel qs inp m t out = Some res.
Proof.
  intros Hdist Hfuel. split.
  - intros p a b Ha Hb.
    destruct (sym_diff_same_pivot p a b Ha Hb) as (-> & _ & Hbelow).
    destruct (sym_diff a b); [done | by inversion Hbelow].
  - apply persistence_h1_total; try assumption; intros l; apply qsort_perm.
Qed.

Lemma h1_reduction_terminates_witness :
  topo_gpu_persistence_h1 7 stable_qsort tetrahedron 6 4 (h1_buffers 4)
  = Some (TOPO_SUCCESS,
          {| h1_births := Some [3; 5; 6; 0]%Q; h1_deaths := Some [7; 8; 9; 0]%Q;
             h1_count := Some 3%Z |}) /\
  exists res, topo_gpu_persistence_h1 7 stable_qsort tetrahedron 6 4 (h1_buffers 4)
              = Some res.
Proof.
  split; [vm_compute; reflexivity|].
  apply (h1_reduction_terminates stable_qsort tetrahedron 6 4 7 (h1_buffers 4)).
  - intros t0 t1 t2 [= <-] [= <-] [= <-] i Hi.
    do 4 (destruct i as [|i]; [repeat split; discriminate|]). lia.
  - lia.
Defined.

Lemma degenerate_column_loops (fuel : nat) (edges : list EdgeInfo) (tris : list TriSortKey)
    (pairs : list (Q * Q)) :
  reduce_column fuel edges tris 1
    {| boundary := [[0; 0]; [0]]%nat; pivot_col := [Some 0%nat]; h1_pairs := pairs |}
  = None.
Proof.
  induction fuel as [|fuel IH]; [reflexivity|]. simpl. exact IH.
Qed.

(** C9, as stated, fails: on [degenerate_triangle] a symmetric-difference
    step leaves the pivot where it was, and no bound on the inner loop lets
    the call return. *)
Lemma h1_reduction_diverges :
  sym_diff [0]%nat [0; 0]%nat = [0]%nat /\
  forall fuel,
    topo_gpu_persistence_h1 fuel stable_qsort degenerate_triangle 1 2 (h1_buffers 2) = None.
Proof.
  split; [reflexivity|]. intros fuel.
  unfold topo_gpu_persistence_h1, persistence_h1_with, degenerate_triangle, h1_buffers.
  cbn [h1_births h1_deaths h1_count edge_src edge_dst edge_filt tri_v0 tri_v1 tri_v2
       tri_filt Nat.eqb orb].
  set (edges := h1_edges _ _ _ _ _).
  set (tris := h1_tris _ _ _ _ _ _).
  unfold h1_reduce.
  set (b := map _ (seq 0 2)).
  assert (Hb : b = [[0; 0]; [0]]%nat) by (vm_compute; reflexivity).
  rewrite Hb. clear Hb b. clearbody edges tris.
  destruct fuel as [|fuel]; [reflexivity|].
  cbn [seq reduce_columns].
  change (reduce_column (S fuel) edges tris 0
            {| boundary := [[0; 0]; [0]]%nat; pivot_col := replicate 1 None;
               h1_pairs := [] |})
    with (Some {| boundary := [[0; 0]; [0]]%nat; pivot_col := [Some 0%nat];
                  h1_pairs := [] ++ [(e_filt (edges !!! 0%nat), t_filt (tris !!! 0%nat))] |}).
  cbn [reduce_columns]. now rewrite degenerate_column_loops.
Qed.

(** ** persistence_h1.cu: the pairs *)

Lemma reduce_column_filt (edges : list EdgeInfo) (tris : list TriSortKey)
    (m t c : nat) (fuel : nat) (st st' : H1State) :
  (c < t)%nat ->
  (forall i j, (i < j < t)%nat -> (t_filt (tris !!! i) <= t_filt (tris !!! j))%Q) ->
  h1_inv m t c st -> h1_filt_inv edges tris t st ->
  reduce_column fuel edges tris c st = Some st' ->
  h1_filt_inv edges tris t st'.
Proof.
  intros Hc Hsorted. revert st.
  induction fuel as [|fuel IH]; intros st Hinv Hfilt Hrun; [discriminate|].
  cbn [reduce_column] in Hrun.
  destruct (boundary st !!! c) as [|p rest] eqn:Hcol; [by injection Hrun as <-|].
  pose proof (h1_inv_pivot m t c p rest st Hc Hinv Hcol) as Hp.
  destruct (pivot_col st !!! p) as [other|] eqn:Howner.
  - rewrite <- Hcol in Hrun.
    destruct (reduce_step_inv m t c p other rest st Hc Hinv Hcol Hp Howner)
      as (Hother & _ & Hinv').
    apply IH in Hrun; [exact Hrun | exact Hinv' |].
    destruct Hfilt as [Hrows Hpairs]. split; cbn [boundary h1_pairs]; [|exact Hpairs].
    intros j r Hj Hr. destruct (decide (j = c)) as [-> | Hne].
    + rewrite list_lookup_total_insert_eq in Hr
        by (rewrite (inv_boundary_length _ _ _ _ Hinv); lia).
      apply sym_diff_elem in Hr as [Hr | Hr]; [by apply Hrows|].
      apply Qle_trans with (t_filt (tris !!! other)); [apply Hrows; [lia | exact Hr]|].
      apply Hsorted. lia.
    + rewrite list_lookup_total_insert_ne in Hr by done. by apply Hrows.
  - injection Hrun as <-. destruct Hfilt as [Hrows Hpairs].
    split; cbn [boundary h1_pairs]; [exact Hrows|].
    apply Forall_app. split; [exact Hpairs|].
    constructor; [|constructor]. simpl. apply Hrows; [exact Hc|].
    rewrite Hcol. left.
Qed.

Lemma reduce_columns_filt (edges : list EdgeInfo) (tris : list TriSortKey)
    (m t : nat) (fuel : nat) (k c : nat) (st : H1State) :
  (m < fuel)%nat -> (c + k = t)%nat ->
  (forall i j, (i < j < t)%nat -> (t_filt (tris !!! i) <= t_filt (tris !!! j))%Q) ->
  h1_inv m t c st -> h1_filt_inv edges tris t st ->
  exists st', reduce_columns fuel edges tris (seq c k) st = Some st' /\
              h1_filt_inv edges tris t st'.
Proof.
  intros Hfuel. revert c st.
  induction k as [|k IH]; intros c st Hck Hsorted Hinv Hfilt; simpl.
  - exists st. done.
  - destruct (reduce_column_total edges tris m t c fuel st) as (st1 & Hrun & Hinv1);
      [lia | exact Hinv | |].
    + destruct (inv_columns _ _ _ _ Hinv c ltac:(lia)) as [_ Hrows].
      destruct (boundary st !!! c) as [|p ?]; simpl; [lia|]. inversion Hrows; subst. lia.
    + rewrite Hrun. apply IH; [lia | exact Hsorted | exact Hinv1 |].
      eapply reduce_column_filt; [| exact Hsorted | exact Hinv | exact Hfilt | exact Hrun]. lia.
Qed.

Lemma h1_edges_lookup (P : EdgeInfo -> Prop)
    (sort_edges : list EdgeInfo -> list EdgeInfo) es ed ef m (r : nat) :
  (forall l, Permutation (sort_edges l) l) ->
  (forall j s, (j < m)%nat ->
     P {| e_src := es !!! j; e_dst := ed !!! j; e_filt := ef !!! j; sorted_idx := s |}) ->
  (r < m)%nat ->
  P (h1_edges sort_edges es ed ef m !!! r).
Proof.
  intros Hperm HP Hr. unfold h1_edges.
  set (sorted := sort_edges (h1_input_edges es ed ef m)).
  assert (Hlen : length sorted = m).
  { unfold sorted, h1_input_edges.
    now rewrite (Permutation_length (Hperm _)), length_map, length_seq. }
  assert (Hin : In (sorted !!! r) (h1_input_edges es ed ef m)).
  { apply (Permutation_in _ (Hperm _)), list_elem_of_In.
    apply list_elem_of_lookup_total_2. fold sorted. lia. }
  apply in_map_iff in Hin as (j & Hj & Hjm). apply in_seq in Hjm.
  rewrite list_lookup_total_alt, list_lookup_imap.
  rewrite (list_lookup_lookup_total_lt sorted r) by lia. simpl.
  rewrite <- Hj. simpl. apply HP. lia.
Qed.

Lemma h1_filt_inv_initial sort_edges sort_tris es ed ef m t0 t1 t2 tf t :
  (forall l, Permutation (sort_edges l) l) ->
  (forall l, Permutation (sort_tris l) l) ->
  filtration_valid es ed ef m t0 t1 t2 tf t ->
  let edges := h1_edges sort_edges es ed ef m in
  let tris := h1_tris sort_tris t0 t1 t2 tf t in
  h1_filt_inv edges tris t
    {| boundary := map (fun col => build_column edges m (tris !!! col)) (seq 0 t);
       pivot_col := replicate m None;
       h1_pairs := [] |}.
Proof.
  intros Hpe Hpt Hvalid edges tris. split; cbn [boundary h1_pairs]; [|constructor].
  intros j r Hj Hr. rewrite lookup_total_map_seq in Hr by done.
  pose proof (build_column_rows edges m (tris !!! j)
                (h1_edges_length sort_edges es ed ef m Hpe)) as Hrows.
  destruct (proj1 (Forall_forall _ _) Hrows r Hr) as [Hrm Hpair].
  assert (Hall : Forall (fun tri => forall j s, (j < m)%nat ->
            edge_before tri {| e_src := es !!! j; e_dst := ed !!! j; e_filt := ef !!! j;
                               sorted_idx := s |}) tris).
  { apply h1_tris_Forall; [exact Hpt|].
    intros i Hi j' s Hj'. unfold edge_before, edge_pair, ordered_pair. simpl.
    intros Hp. apply (Hvalid i j' Hi Hj'). unfold ordered_pair. exact Hp. }
  assert (Hjt : (j < length tris)%nat)
    by (unfold tris; rewrite h1_tris_length; done).
  pose proof (Forall_lookup_total_1 _ _ j Hall Hjt) as Htri.
  apply (h1_edges_lookup (edge_before (tris !!! j)) sort_edges es ed ef m r Hpe Htri Hrm).
  exact Hpair.
Qed.

Lemma tris_sorted_by_filt (qs : Qsort) t0 t1 t2 tf t :
  let tris := h1_tris (qsort qs _ tri_compare) t0 t1 t2 tf t in
  forall i j, (i < j < t)%nat -> (t_filt (tris !!! i) <= t_filt (tris !!! j))%Q.
Proof.
  intros tris i j Hij.
  assert (Hlen : length tris = t) by (apply h1_tris_length; intros l; apply qsort_perm).
  apply filt_compare_le.
  apply (StronglySorted_lookup (fun a b => (tri_compare a b <= 0)%Z) tris i j);
    [|lia].
  apply qsort_sorted, tri_compare_ok.
Qed.

(** X22: when no triangle names a vertex twice and the filtration puts every
    triangle no earlier than its edges, the call returns and every pair it
    has written satisfies death >= birth. *)
Theorem h1_pairs_death_ge_birth (qs : Qsort) (es ed : list Z) (ef : list Q)
    (t0 t1 t2 : list Z) (tf : list Q) (m t fuel : nat) (ob od : list Q) (c : Z) :
  triangles_distinct t0 t1 t2 t ->
  filtration_valid es ed ef m t0 t1 t2 tf t ->
  (m < fuel)%nat ->
  exists births deaths count,
    topo_gpu_persistence_h1 fuel qs
      {| edge_src := Some es; edge_dst := Some ed; edge_filt := Some ef;
         tri_v0 := Some t0; tri_v1 := Some t1; tri_v2 := Some t2; tri_filt := Some tf |}
      m t {| h1_births := Some ob; h1_deaths := Some od; h1_count := Some c |}
    = Some (TOPO_SUCCESS,
            {| h1_births := Some births; h1_deaths := Some deaths;
               h1_count := Some (Z.of_nat count) |}) /\
    forall i, (i < count)%nat -> (births !!! i <= deaths !!! i)%Q.
Proof.
  intros Hdist Hvalid Hfuel.
  unfold topo_gpu_persistence_h1, persistence_h1_with.
  cbn [h1_births h1_deaths h1_count edge_src edge_dst edge_filt tri_v0 tri_v1 tri_v2 tri_filt].
  destruct ((t =? 0)%nat || (m =? 0)%nat)%bool.
  { exists ob, od, 0%nat. split; [reflexivity | intros; lia]. }
  set (edges := h1_edges _ es ed ef m).
  set (tris := h1_tris _ t0 t1 t2 tf t).
  assert (Hpe : forall l, Permutation (qsort qs _ edge_info_compare l) l)
    by (intros; apply qsort_perm).
  assert (Hpt : forall l, Permutation (qsort qs _ tri_compare l) l)
    by (intros; apply qsort_perm).
  destruct (reduce_columns_filt edges tris m t fuel t 0
              {| boundary := map (fun col => build_column edges m (tris !!! col)) (seq 0 t);
                 pivot_col := replicate m None; h1_pairs := [] |})
    as (st & Hrun & [_ Hpairs]).
  - exact Hfuel.
  - lia.
  - apply tris_sorted_by_filt.
  - apply h1_inv_initial;
      [by apply h1_edges_length | by apply h1_tris_length |].
    apply h1_tris_Forall; [exact Hpt|]. intros i Hi. exact (Hdist i Hi).
  - by apply h1_filt_inv_initial.
  - unfold h1_reduce. rewrite Hrun.
    eexists _, _, _. split; [reflexivity|].
    intros i Hi.
    rewrite !memcpy_lookup_front by (rewrite ?length_map; lia).
    change (map fst (h1_pairs st)) with (fst <$> h1_pairs st).
    change (map snd (h1_pairs st)) with (snd <$> h1_pairs st).
    rewrite (@list_lookup_total_fmap _ _ fst _ _ (h1_pairs st) i) by lia.
    rewrite (@list_lookup_total_fmap _ _ snd _ _ (h1_pairs st) i) by lia.
    apply (Forall_lookup_total_1 _ _ i Hpairs). lia.
Qed.

Lemma h1_pairs_death_ge_birth_witness :
  exists births deaths count,
    topo_gpu_persistence_h1 4 stable_qsort
      {| edge_src := Some [0; 0; 1]%Z; edge_dst := Some [1; 2; 2]%Z;
         edge_filt := Some [1; 2; 3]%Q;
         tri_v0 := Some [0]%Z; tri_v1 := Some [1]%Z; tri_v2 := Some [2]%Z;
         tri_filt := Some [5]%Q |}
      3 1 {| h1_births := Some [0%Q]; h1_deaths := Some [0%Q]; h1_count := Some 0%Z |}
    = Some (TOPO_SUCCESS,
            {| h1_births := Some births; h1_deaths := Some deaths;
               h1_count := Some (Z.of_nat count) |}) /\
    forall i, (i < count)%nat -> (births !!! i <= deaths !!! i)%Q.
Proof.
  apply (h1_pairs_death_ge_birth stable_qsort [0; 0; 1]%Z [1; 2; 2]%Z [1; 2; 3]%Q
           [0]%Z [1]%Z [2]%Z [5]%Q 3 1 4 [0%Q] [0%Q] 0%Z).
  - intros i Hi. destruct i as [|i]; [|lia]. repeat split; discriminate.
  - intros i j Hi Hj _. destruct i as [|i]; [|lia].
    destruct j as [|[|[|j]]]; try lia; intros H; discriminate H.
  - lia.
Defined.

(** C1: the loop stores the pair of a column that registers its pivot without
    comparing the two values. On [one_triangle], where the triangle enters
    the filtration together with its edges, the call writes the pair (1, 1)
    and reports one pair, although death > birth does not hold of it; the
    loop of [topo_gpu_persistence_h0] drops such a pair. *)
Theorem h1_emits_equal_pair :
  topo_gpu_persistence_h1 4 stable_qsort one_triangle 3 1 (h1_buffers 1)
  = Some (TOPO_SUCCESS,
          {| h1_births := Some [1%Q]; h1_deaths := Some [1%Q]; h1_count := Some 1%Z |})
  /\ ~ (1 < 1)%Q
  /\ topo_gpu_persistence_h0 test_env stable_qsort true (Some [1; 1]%Q)
       (Some [0]%nat) (Some [1]%nat) (Some [1]%Q) 2 1 (h0_buffers 1)
     = Some (TOPO_SUCCESS,
             {| h0_births := Some [0%Q]; h0_deaths := Some [0%Q]; h0_count := Some 0%Z |}).
Proof.
  split; [vm_compute; reflexivity|].
  split; [intros H; discriminate H | vm_compute; reflexivity].
Qed.

(** ** The processing order *)

(** Any sort that keeps the promise of [qsort] for [cmp] returns the list in
    the order of a finer comparison [cmp_spec], provided [cmp] ties no two
    different elements of the list. *)
Lemma sort_agrees_with_finer {A} (qs : Qsort) (cmp cmp_spec : A -> A -> Z) (l : list A) :
  comparator_ok cmp -> comparator_ok cmp_spec ->
  (forall a b, (cmp_spec a b <= 0)%Z -> (cmp a b <= 0)%Z) ->
  (forall a b, a ∈ l -> b ∈ l -> (cmp a b <= 0)%Z -> (cmp b a <= 0)%Z -> a = b) ->
  qsort qs _ cmp l = stable_sort cmp_spec l.
Proof.
  intros Hok Hok' Hfiner Hanti.
  apply (sorted_perm_unique (fun a b => (cmp a b <= 0)%Z)).
  - intros a b Ha Hb. apply Hanti.
    + by rewrite <- (qsort_perm qs _ cmp l).
    + by rewrite <- (qsort_perm qs _ cmp l).
  - by apply qsort_sorted.
  - apply (StronglySorted_weaken (fun a b => (cmp_spec a b <= 0)%Z)); [exact Hfiner|].
    by apply stable_sort_sorted.
  - rewrite qsort_perm. symmetry. apply stable_sort_perm.
Qed.

Lemma filt_compare_tie (a b : Q) :
  (filt_compare a b <= 0)%Z -> (filt_compare b a <= 0)%Z -> (a == b)%Q.
Proof.
  rewrite !filt_compare_le. apply Qle_antisym.
Qed.

Lemma h0_sort_edges_spec (env : CudaEnv) (qs : Qsort) (es ed : list nat) (ef : list Q)
    (m : nat) :
  filt_distinct ef m ->
  h0_sort_edges env qs (h0_input_edges es ed ef m)
  = stable_sort spec_edge_compare (h0_input_edges es ed ef m).
Proof.
  intros Hd. set (edges := h0_input_edges es ed ef m).
  assert (Hanti : forall a b, a ∈ edges -> b ∈ edges ->
            (edge_compare a b <= 0)%Z -> (edge_compare b a <= 0)%Z -> a = b).
  { intros a b Ha Hb Hab Hba.
    apply list_elem_of_In, in_map_iff in Ha as (i & <- & Hi).
    apply list_elem_of_In, in_map_iff in Hb as (j & <- & Hj).
    apply in_seq in Hi, Hj.
    pose proof (filt_compare_tie _ _ Hab Hba) as Heq. simpl in Heq.
    by rewrite (Hd i j ltac:(lia) ltac:(lia) Heq). }
  unfold h0_sort_edges. destruct (0 <? device_count env)%Z.
  - apply (sort_agrees_with_finer stable_qsort edge_compare spec_edge_compare);
      [apply edge_compare_ok | apply spec_edge_compare_ok | | exact Hanti].
    intros a b. apply lex_then_le.
  - apply (sort_agrees_with_finer qs edge_compare spec_edge_compare);
      [apply edge_compare_ok | apply spec_edge_compare_ok | | exact Hanti].
    intros a b. apply lex_then_le.
Qed.

Lemma h1_sort_edges_spec (qs : Qsort) (es ed : list Z) (ef : list Q) (m : nat) :
  filt_distinct ef m ->
  qsort qs _ edge_info_compare (h1_input_edges es ed ef m)
  = stable_sort spec_edge_info_compare (h1_input_edges es ed ef m).
Proof.
  intros Hd.
  apply sort_agrees_with_finer;
    [apply edge_info_compare_ok | apply spec_edge_info_compare_ok | |].
  - intros a b. apply lex_then_le.
  - intros a b Ha Hb Hab Hba.
    apply list_elem_of_In, in_map_iff in Ha as (i & <- & Hi).
    apply list_elem_of_In, in_map_iff in Hb as (j & <- & Hj).
    apply in_seq in Hi, Hj.
    pose proof (filt_compare_tie _ _ Hab Hba) as Heq. simpl in Heq.
    by rewrite (Hd i j ltac:(lia) ltac:(lia) Heq).
Qed.

Lemma h1_sort_tris_spec (qs : Qsort) (t0 t1 t2 : list Z) (tf : list Q) (t : nat) :
  filt_distinct tf t ->
  qsort qs _ tri_compare (h1_input_tris t0 t1 t2 tf t)
  = stable_sort spec_tri_compare (h1_input_tris t0 t1 t2 tf t).
Proof.
  intros Hd.
  apply sort_agrees_with_finer; [apply tri_compare_ok | apply spec_tri_compare_ok | |].
  - intros a b. apply lex_then_le.
  - intros a b Ha Hb Hab Hba.
    apply list_elem_of_In, in_map_iff in Ha as (i & <- & Hi).
    apply list_elem_of_In, in_map_iff in Hb as (j & <- & Hj).
    apply in_seq in Hi, Hj.
    pose proof (filt_compare_tie _ _ Hab Hba) as Heq. simpl in Heq.
    by rewrite (Hd i j ltac:(lia) ltac:(lia) Heq).
Qed.

(** C3, as the code has it: the comparators look at the filtration value
    only. When the edge filtration values are pairwise different, and for H1
    the triangle filtration values too, both functions process the simplices
    in the order the specification fixes and return what it returns. *)
Theorem persistence_order_without_ties (env : CudaEnv) (qs : Qsort)
    (host_malloc_ok : bool) (vertex_filt : option (list Q))
    (src0 dst0 : option (list nat)) (filt0 : option (list Q)) (n : Z) (m0 : nat)
    (out0 : H0Out)
    (fuel : nat) (inp : H1In) (m t : nat) (out : H1Out) :
  (forall ef, filt0 = Some ef -> filt_distinct ef m0) ->
  (forall ef, edge_filt inp = Some ef -> filt_distinct ef m) ->
  (forall tf, tri_filt inp = Some tf -> filt_distinct tf t) ->
  topo_gpu_persistence_h0 env qs host_malloc_ok vertex_filt src0 dst0 filt0 n m0 out0
  = spec_persistence_h0 host_malloc_ok vertex_filt src0 dst0 filt0 n m0 out0
  /\
  topo_gpu_persistence_h1 fuel qs inp m t out = spec_persistence_h1 fuel inp m t out.
Proof.
  intros Hd0 Hde Hdt. split.
  - unfold topo_gpu_persistence_h0, spec_persistence_h0, persistence_h0_with.
    destruct vertex_filt, (h0_births out0), (h0_deaths out0), (h0_count out0);
      try reflexivity.
    destruct (n <=? 0)%Z; [reflexivity|]. destruct (m0 =? 0)%nat; [reflexivity|].
    destruct src0 as [es|], dst0 as [ed|], filt0 as [ef|]; try reflexivity.
    destruct (negb host_malloc_ok); [reflexivity|].
    now rewrite (h0_sort_edges_spec env qs es ed ef m0 (Hd0 ef eq_refl)).
  - unfold topo_gpu_persistence_h1, spec_persistence_h1, persistence_h1_with.
    destruct (h1_births out), (h1_deaths out), (h1_count out); try reflexivity.
    destruct (_ || _)%bool; [reflexivity|].
    destruct (edge_src inp) as [es|], (edge_dst inp) as [ed|], (edge_filt inp) as [ef|],
             (tri_v0 inp) as [t0|], (tri_v1 inp) as [t1|], (tri_v2 inp) as [t2|],
             (tri_filt inp) as [tf|]; try reflexivity.
    unfold h1_edges, h1_tris.
    now rewrite (h1_sort_edges_spec qs es ed ef m (Hde ef eq_refl)),
                (h1_sort_tris_spec qs t0 t1 t2 tf t (Hdt tf eq_refl)).
Qed.

Lemma persistence_order_without_ties_witness :
  topo_gpu_persistence_h0 test_env stable_qsort true (Some [0; 1; 2]%Q)
    (Some [1; 0]%nat) (Some [2; 1]%nat) (Some [6; 5]%Q) 3 2 (h0_buffers 2)
  = spec_persistence_h0 true (Some [0; 1; 2]%Q)
      (Some [1; 0]%nat) (Some [2; 1]%nat) (Some [6; 5]%Q) 3 2 (h0_buffers 2)
  /\
  topo_gpu_persistence_h1 4 stable_qsort
    {| edge_src := Some [0; 0; 1]%Z; edge_dst := Some [1; 2; 2]%Z;
       edge_filt := Some [3; 2; 1]%Q;
       tri_v0 := Some [0]%Z; tri_v1 := Some [1]%Z; tri_v2 := Some [2]%Z;
       tri_filt := Some [5]%Q |} 3 1 (h1_buffers 1)
  = spec_persistence_h1 4
    {| edge_src := Some [0; 0; 1]%Z; edge_dst := Some [1; 2; 2]%Z;
       edge_filt := Some [3; 2; 1]%Q;
       tri_v0 := Some [0]%Z; tri_v1 := Some [1]%Z; tri_v2 := Some [2]%Z;
       tri_filt := Some [5]%Q |} 3 1 (h1_buffers 1).
Proof.
  apply (persistence_order_without_ties test_env stable_qsort).
  - intros ef [= <-] i j Hi Hj.
    destruct i as [|[|i]], j as [|[|j]]; try lia; try reflexivity; intros H; discriminate H.
  - intros ef [= <-] i j Hi Hj.
    destruct i as [|[|[|i]]], j as [|[|[|j]]]; try lia; try reflexivity;
      intros H; discriminate H.
  - intros tf [= <-] i j Hi Hj.
    destruct i as [|i], j as [|j]; try lia; reflexivity.
Defined.

(** C3, as stated, fails: two edges at the same filtration value, given in
    the order (1,2), (0,1), are merged in that order on the device path, and
    the pairs come out in the other order than the specification's. *)
Lemma persistence_order_with_ties :
  topo_gpu_persistence_h0 test_env stable_qsort true (Some [0; 1; 2]%Q)
    (Some [1; 0]%nat) (Some [2; 1]%nat) (Some [5; 5]%Q) 3 2 (h0_buffers 2)
  = Some (TOPO_SUCCESS,
          {| h0_births := Some [2; 1]%Q; h0_deaths := Some [5; 5]%Q;
             h0_count := Some 2%Z |})
  /\
  spec_persistence_h0 true (Some [0; 1; 2]%Q)
    (Some [1; 0]%nat) (Some [2; 1]%nat) (Some [5; 5]%Q) 3 2 (h0_buffers 2)
  = Some (TOPO_SUCCESS,
          {| h0_births := Some [1; 2]%Q; h0_deaths := Some [5; 5]%Q;
             h0_count := Some 2%Z |}).
Proof.
  split; vm_compute; reflexivity.
Qed.

(** ** persistence_h0.cu: the union-find forest *)

Lemma root_of_unique (parent : list nat) (x r r' : nat) :
  root_of parent x r -> root_of parent x r' -> r = r'.
Proof.
  induction 1 as [x Hx | x r Hx _ IH]; inversion 1; subst; try done. by apply IH.
Qed.

Lemma root_of_is_root (parent : list nat) (x r : nat) :
  root_of parent x r -> is_root parent r.
Proof. induction 1; done. Qed.

Lemma root_of_range (parent rank : list nat) (n x r : nat) :
  uf_inv parent rank n -> (x < n)%nat -> root_of parent x r -> (r < n)%nat.
Proof.
  intros Hinv Hx Hr. induction Hr as [|x r Hne _ IH]; [done|].
  apply IH. by apply (uf_range _ _ _ Hinv).
Qed.

Lemma num_roots_ext (parent parent' : list nat) :
  length parent = length parent' ->
  (forall z, is_root parent z <-> is_root parent' z) ->
  num_roots parent = num_roots parent'.
Proof.
  intros Hlen Hroots. unfold num_roots. rewrite Hlen.
  f_equal. apply list_filter_iff. exact Hroots.
Qed.

Lemma grandparent_above (parent rank : list nat) (n x : nat) :
  uf_inv parent rank n -> (x < n)%nat -> parent !!! x <> x ->
  (rank !!! x < rank !!! (parent !!! (parent !!! x)))%nat /\
  (parent !!! (parent !!! x) < n)%nat.
Proof.
  intros Hinv Hx Hne.
  pose proof (uf_range _ _ _ Hinv x Hx) as Hp.
  pose proof (uf_rank_inc _ _ _ Hinv x Hx Hne) as Hr.
  split; [|by apply (uf_range _ _ _ Hinv)].
  destruct (decide (parent !!! (parent !!! x) = parent !!! x)) as [-> | Hne'].
  - exact Hr.
  - pose proof (uf_rank_inc _ _ _ Hinv _ Hp Hne'). lia.
Qed.

Section PathHalving.
Context (parent rank : list nat) (n x : nat).
Hypothesis Hinv : uf_inv parent rank n.
Hypothesis Hx : (x < n)%nat.
Hypothesis Hne : parent !!! x <> x.

Let parent1 := <[x := parent !!! (parent !!! x)]> parent.

Lemma halve_lookup_x : parent1 !!! x = parent !!! (parent !!! x).
Proof.
  unfold parent1. apply list_lookup_total_insert_eq.
  rewrite (uf_len_parent _ _ _ Hinv). exact Hx.
Qed.

Lemma halve_lookup_other (z : nat) : z <> x -> parent1 !!! z = parent !!! z.
Proof. intros Hz. unfold parent1. by apply list_lookup_total_insert_ne. Qed.

Lemma halve_not_root : parent1 !!! x <> x.
Proof.
  rewrite halve_lookup_x. intros Heq.
  destruct (grandparent_above parent rank n x Hinv Hx Hne) as [Hr _].
  rewrite Heq in Hr. lia.
Qed.

Lemma halve_is_root (z : nat) : is_root parent z <-> is_root parent1 z.
Proof.
  unfold is_root. destruct (decide (z = x)) as [-> | Hz].
  - pose proof halve_not_root. tauto.
  - by rewrite halve_lookup_other.
Qed.

Lemma halve_parent_other : parent1 !!! (parent !!! x) = parent !!! (parent !!! x).
Proof. apply halve_lookup_other. exact Hne. Qed.

Lemma halve_root_of (z r : nat) : root_of parent z r <-> root_of parent1 z r.
Proof.
  split.
  - induction 1 as [z Hz | z r Hz _ IH].
    + apply root_self. rewrite halve_lookup_other; [done | congruence].
    + destruct (decide (z = x)) as [-> | Hzx].
      * apply root_step; [apply halve_not_root|].
        rewrite halve_lookup_x.
        inversion IH as [? Hroot | ? ? Hstep Hrest]; subst.
        -- rewrite halve_parent_other in Hroot. rewrite Hroot. exact IH.
        -- by rewrite halve_parent_other in Hrest.
      * apply root_step; rewrite halve_lookup_other by done; done.
  - induction 1 as [z Hz | z r Hz _ IH].
    + apply root_self. destruct (decide (z = x)) as [-> | Hzx].
      * by apply halve_not_root in Hz.
      * by rewrite halve_lookup_other in Hz.
    + destruct (decide (z = x)) as [-> | Hzx].
      * rewrite halve_lookup_x in IH.
        apply root_step; [exact Hne|].
        destruct (decide (parent !!! (parent !!! x) = parent !!! x)) as [Heq | Hneq].
        -- by rewrite Heq in IH.
        -- by apply root_step.
      * rewrite halve_lookup_other in Hz, IH by done. by apply root_step.
Qed.

Lemma halve_inv : uf_inv parent1 rank n.
Proof.
  destruct (grandparent_above parent rank n x Hinv Hx Hne) as [Hgr Hgn].
  split.
  - unfold parent1. rewrite length_insert. apply (uf_len_parent _ _ _ Hinv).
  - apply (uf_len_rank _ _ _ Hinv).
  - intros z Hz. destruct (decide (z = x)) as [-> | Hzx].
    + by rewrite halve_lookup_x.
    + rewrite halve_lookup_other by done. by apply (uf_range _ _ _ Hinv).
  - intros z Hz Hzr. destruct (decide (z = x)) as [-> | Hzx].
    + by rewrite halve_lookup_x.
    + rewrite halve_lookup_other in Hzr |- * by done.
      by apply (uf_rank_inc _ _ _ Hinv).
  - intros z Hz.
    rewrite <- (num_roots_ext parent parent1);
      [by apply (uf_rank_bound _ _ _ Hinv) | | apply halve_is_root].
    unfold parent1. by rewrite length_insert.
Qed.
End PathHalving.

(** [find] comes to the root within the fuel the model gives it, and leaves
    a forest with the same roots and the same root for every vertex. *)
Lemma find_loop_ok (fuel : nat) (parent rank : list nat) (n x : nat) :
  uf_inv parent rank n -> (x < n)%nat ->
  (n - num_roots parent - rank !!! x < fuel)%nat ->
  exists parent' r,
    UnionFind.find_loop fuel parent x = Some (parent', r) /\
    uf_inv parent' rank n /\
    root_of parent x r /\
    (forall z, is_root parent z <-> is_root parent' z) /\
    (forall z r', root_of parent z r' <-> root_of parent' z r').
Proof.
  revert parent x. induction fuel as [|fuel IH]; intros parent x Hinv Hx Hfuel; [lia|].
  simpl. destruct (Nat.eqb_spec (parent !!! x) x) as [Heq | Hne].
  - exists parent, x. split; [reflexivity|]. split; [exact Hinv|].
    split; [by apply root_self|]. split; intros; reflexivity.
  - pose proof (halve_inv parent rank n x Hinv Hx Hne) as Hinv1.
    pose proof (halve_lookup_x parent rank n x Hinv Hx) as Hlx.
    pose proof (halve_is_root parent rank n x Hinv Hx Hne) as Hroots.
    pose proof (halve_root_of parent rank n x Hinv Hx Hne) as Hsame.
    destruct (grandparent_above parent rank n x Hinv Hx Hne) as [Hgr Hgn].
    set (parent1 := <[x := parent !!! (parent !!! x)]> parent) in *.
    rewrite Hlx.
    destruct (IH parent1 (parent !!! (parent !!! x)) Hinv1 Hgn) as
      (parent' & r & Hrun & Hinv' & Hroot & Hroots' & Hsame').
    { rewrite <- (num_roots_ext parent parent1);
        [| unfold parent1; by rewrite length_insert | exact Hroots].
      pose proof (uf_rank_bound _ _ _ Hinv _ Hgn). lia. }
    exists parent', r. split; [exact Hrun|]. split; [exact Hinv'|]. split; [|split].
    + apply Hsame. apply root_step.
      * by apply (halve_not_root parent rank n x Hinv Hx Hne).
      * fold parent1. by rewrite Hlx.
    + intros z. by rewrite Hroots, Hroots'.
    + intros z r'. by rewrite Hsame, Hsame'.
Qed.

Lemma num_roots_pos (parent rank : list nat) (n x : nat) :
  uf_inv parent rank n -> (x < n)%nat -> (0 < num_roots parent)%nat.
Proof.
  intros Hinv Hx.
  destruct (find_loop_ok (S n) parent rank n x Hinv Hx ltac:(lia))
    as (parent' & r & _ & _ & Hroot & _ & _).
  pose proof (root_of_range _ _ _ _ _ Hinv Hx Hroot) as Hr.
  pose proof (root_of_is_root _ _ _ Hroot) as Hisroot.
  unfold num_roots.
  assert (Hin : r ∈ filter (is_root parent) (seq 0 (length parent))).
  { apply list_elem_of_filter. split; [exact Hisroot|].
    apply elem_of_seq. rewrite (uf_len_parent _ _ _ Hinv). lia. }
  destruct (filter _ _); [by apply elem_of_nil in Hin | simpl; lia].
Qed.

Lemma find_ok (uf : UnionFind.t) (x : nat) :
  uf_inv (UnionFind.parent uf) (UnionFind.rank uf) (UnionFind.n uf) ->
  (x < UnionFind.n uf)%nat ->
  exists uf' r,
    UnionFind.find uf x = Some (uf', r) /\
    UnionFind.rank uf' = UnionFind.rank uf /\ UnionFind.birth uf' = UnionFind.birth uf /\
    UnionFind.n uf' = UnionFind.n uf /\
    uf_inv (UnionFind.parent uf') (UnionFind.rank uf) (UnionFind.n uf) /\
    root_of (UnionFind.parent uf) x r /\
    (forall z, is_root (UnionFind.parent uf) z <-> is_root (UnionFind.parent uf') z) /\
    (forall z r', root_of (UnionFind.parent uf) z r' <-> root_of (UnionFind.parent uf') z r').
Proof.
  intros Hinv Hx. unfold UnionFind.find.
  pose proof (num_roots_pos _ _ _ x Hinv Hx) as Hpos.
  destruct (find_loop_ok (UnionFind.n uf) _ _ _ x Hinv Hx ltac:(lia))
    as (parent' & r & -> & Hinv' & Hroot & Hroots & Hsame).
  eexists _, r. split; [reflexivity|]. simpl.
  split; [reflexivity|]. split; [reflexivity|]. split; [reflexivity|].
  split; [exact Hinv'|]. split; [exact Hroot|]. split; [exact Hroots | exact Hsame].
Qed.

Lemma filter_agree {A} (P P' : A -> Prop) `{!forall x, Decision (P x)}
    `{!forall x, Decision (P' x)} (l : list A) :
  (forall z, z ∈ l -> (P z <-> P' z)) -> filter P l = filter P' l.
Proof.
  induction l as [|z l IH]; intros Hiff; [done|].
  rewrite !filter_cons.
  assert (Hz : P z <-> P' z) by (apply Hiff; left).
  rewrite IH by (intros; apply Hiff; by right).
  destruct (decide (P z)), (decide (P' z)); tauto.
Qed.

Lemma filter_remove_one (P P' : nat -> Prop) `{!forall x, Decision (P x)}
    `{!forall x, Decision (P' x)} (l : list nat) (b : nat) :
  NoDup l -> b ∈ l -> P b -> ~ P' b ->
  (forall z, z <> b -> (P z <-> P' z)) ->
  length (filter P l) = S (length (filter P' l)).
Proof.
  intros Hnd Hb HPb HP'b Hiff.
  induction l as [|z l IH]; [by apply elem_of_nil in Hb|].
  apply NoDup_cons in Hnd as [Hz Hnd]. rewrite !filter_cons.
  destruct (decide (z = b)) as [-> | Hzb].
  - rewrite decide_True by done. rewrite decide_False by done. simpl.
    f_equal. f_equal. apply filter_agree.
    intros y Hy. apply Hiff. intros ->. done.
  - apply elem_of_cons in Hb as [? | Hb]; [done|].
    specialize (IH Hnd Hb). pose proof (Hiff z Hzb).
    destruct (decide (P z)), (decide (P' z)); try tauto; simpl; lia.
Qed.

Section Link.
Context (parent rank : list nat) (n ra rb : nat).
Hypothesis Hinv : uf_inv parent rank n.
Hypothesis Hra : (ra < n)%nat.
Hypothesis Hrb : (rb < n)%nat.
Hypothesis Hroot_a : is_root parent ra.
Hypothesis Hroot_b : is_root parent rb.
Hypothesis Hab : ra <> rb.
Hypothesis Hrank : (rank !!! rb <= rank !!! ra)%nat.

Let parent' := <[rb := ra]> parent.
Let rank' := if (rank !!! ra =? rank !!! rb)%nat
             then <[ra := S (rank !!! ra)]> rank else rank.

Lemma link_parent_rb : parent' !!! rb = ra.
Proof.
  unfold parent'. apply list_lookup_total_insert_eq.
  by rewrite (uf_len_parent _ _ _ Hinv).
Qed.

Lemma link_parent_other (z : nat) : z <> rb -> parent' !!! z = parent !!! z.
Proof. intros Hz. unfold parent'. by apply list_lookup_total_insert_ne. Qed.

Lemma link_is_root (z : nat) : is_root parent' z <-> is_root parent z /\ z <> rb.
Proof.
  unfold is_root. destruct (decide (z = rb)) as [-> | Hz].
  - rewrite link_parent_rb. split; [intros; by subst | tauto].
  - rewrite link_parent_other by done. tauto.
Qed.

Lemma link_rank_other (z : nat) : z <> ra -> rank' !!! z = rank !!! z.
Proof.
  intros Hz. unfold rank'. destruct (_ =? _)%nat; [|done].
  by apply list_lookup_total_insert_ne.
Qed.

Lemma link_rank_ge (z : nat) :
  (rank !!! z <= rank' !!! z <= S (rank !!! z))%nat.
Proof.
  destruct (decide (z = ra)) as [-> | Hz]; [|rewrite link_rank_other by done; lia].
  unfold rank'. destruct (_ =? _)%nat; [|lia].
  rewrite list_lookup_total_insert_eq by (by rewrite (uf_len_rank _ _ _ Hinv)). lia.
Qed.

Lemma link_rank_ra : (rank !!! rb < rank' !!! ra)%nat.
Proof.
  unfold rank'. destruct (Nat.eqb_spec (rank !!! ra) (rank !!! rb)) as [Heq | Hne].
  - rewrite list_lookup_total_insert_eq by (by rewrite (uf_len_rank _ _ _ Hinv)). lia.
  - lia.
Qed.

Lemma link_num_roots : num_roots parent = S (num_roots parent').
Proof.
  unfold num_roots, parent'. rewrite length_insert.
  apply (filter_remove_one _ _ _ rb).
  - apply NoDup_seq.
  - apply elem_of_seq. rewrite (uf_len_parent _ _ _ Hinv). lia.
  - exact Hroot_b.
  - intros Hr. apply link_is_root in Hr. tauto.
  - intros z Hz. fold parent'. rewrite link_is_root. tauto.
Qed.

Lemma link_inv : uf_inv parent' rank' n.
Proof.
  split.
  - unfold parent'. rewrite length_insert. apply (uf_len_parent _ _ _ Hinv).
  - unfold rank'. destruct (_ =? _)%nat; rewrite ?length_insert;
      apply (uf_len_rank _ _ _ Hinv).
  - intros z Hz. destruct (decide (z = rb)) as [-> | Hzb].
    + by rewrite link_parent_rb.
    + rewrite link_parent_other by done. by apply (uf_range _ _ _ Hinv).
  - intros z Hz Hzr. destruct (decide (z = rb)) as [-> | Hzb].
    + rewrite link_parent_rb, link_rank_other by done. apply link_rank_ra.
    + rewrite link_parent_other in Hzr |- * by done.
      assert (z <> ra) by (intros ->; by apply Hzr).
      rewrite link_rank_other by done.
      pose proof (uf_rank_inc _ _ _ Hinv z Hz Hzr).
      pose proof (link_rank_ge (parent !!! z)). lia.
  - intros z Hz. pose proof (uf_rank_bound _ _ _ Hinv z Hz).
    pose proof (link_rank_ge z). pose proof link_num_roots. lia.
Qed.

(** After the link, the root of a vertex is its old root, with [ra] in the
    place of [rb]. *)
Lemma link_root_of (z r : nat) :
  root_of parent z r -> root_of parent' z (if decide (r = rb) then ra else r).
Proof.
  induction 1 as [z Hz | z r Hz _ IH].
  - destruct (decide (z = rb)) as [-> | Hzb].
    + apply root_step; rewrite link_parent_rb; [done|].
      apply root_self. by rewrite link_parent_other.
    + apply root_self. by rewrite link_parent_other.
  - assert (z <> rb) by (intros ->; by apply Hz).
    apply root_step; rewrite link_parent_other by done; done.
Qed.
End Link.

(** ** Connected components of the edge graph *)

Lemma connected_mono (E E' : list (nat * nat)) (x y : nat) :
  (forall e, e ∈ E -> e ∈ E') -> connected E x y -> connected E' x y.
Proof.
  intros Hsub. induction 1 as [x | a b Hin | x y _ IH | x y z _ IH1 _ IH2].
  - apply conn_refl.
  - apply conn_edge. by apply Hsub.
  - by apply conn_sym.
  - by apply conn_trans with y.
Qed.

Lemma connected_range (n : nat) (E : list (nat * nat)) (x y : nat) :
  (forall a b, (a, b) ∈ E -> (a < n)%nat /\ (b < n)%nat) ->
  connected E x y -> ((x < n)%nat <-> (y < n)%nat).
Proof.
  intros Hrange. induction 1 as [x | a b Hin | x y _ IH | x y z _ IH1 _ IH2].
  - done.
  - destruct (Hrange a b Hin). tauto.
  - tauto.
  - tauto.
Qed.

Lemma connected_nil (x y : nat) : connected [] x y -> x = y.
Proof.
  induction 1 as [x | a b Hin | x y _ IH | x y z _ IH1 _ IH2];
    [done | by apply elem_of_nil in Hin | done | congruence].
Qed.

(** An injective relation from one list into another bounds the length. *)
Lemma injective_relation_length {A} (R : A -> A -> Prop) (l1 l2 : list A) :
  NoDup l1 ->
  (forall a, a ∈ l1 -> exists b, b ∈ l2 /\ R a b) ->
  (forall a a' b, a ∈ l1 -> a' ∈ l1 -> R a b -> R a' b -> a = a') ->
  (length l1 <= length l2)%nat.
Proof.
  revert l2. induction l1 as [|a l1 IH]; intros l2 Hnd Htotal Hinj; [simpl; lia|].
  apply NoDup_cons in Hnd as [Ha Hnd].
  destruct (Htotal a ltac:(left)) as (b & Hb & Hab).
  apply elem_of_Permutation in Hb as [l2' Hl2].
  rewrite Hl2. simpl. apply le_n_S. apply IH; [exact Hnd | |].
  - intros a' Ha'. destruct (Htotal a' ltac:(by right)) as (b' & Hb' & Hab').
    exists b'. split; [|exact Hab'].
    rewrite Hl2 in Hb'. apply elem_of_cons in Hb' as [-> | Hb']; [|exact Hb'].
    exfalso. apply Ha.
    rewrite (Hinj a a' b ltac:(left) ltac:(by right) Hab Hab'). exact Ha'.
  - intros x y z Hx Hy. apply Hinj; by right.
Qed.

(** The number of connected components is well defined. *)
Lemma component_count_unique (n : nat) (E : list (nat * nat)) (c c' : nat) :
  component_count n E c -> component_count n E c' -> c = c'.
Proof.
  assert (Hle : forall reps reps',
            representatives n E reps -> representatives n E reps' ->
            (length reps <= length reps')%nat).
  { intros reps reps' (Hnd & Hr & Hsep & _) (_ & Hr' & _ & Hcover).
    apply (injective_relation_length (connected E)); [exact Hnd | |].
    - intros a Ha. apply Hcover. by apply Hr.
    - intros a a' b Ha Ha' Hab Ha'b. apply Hsep; [done | done |].
      apply conn_trans with b; [exact Hab | by apply conn_sym]. }
  intros (reps & Hreps & <-) (reps' & Hreps' & <-).
  apply Nat.le_antisymm; by apply Hle.
Qed.

Lemma root_exists (parent rank : list nat) (n x : nat) :
  uf_inv parent rank n -> (x < n)%nat -> exists r, root_of parent x r.
Proof.
  intros Hinv Hx.
  destruct (find_loop_ok (S n) parent rank n x Hinv Hx ltac:(lia))
    as (_ & r & _ & _ & Hroot & _ & _).
  by exists r.
Qed.

Lemma uf_represents_ext (parent parent' : list nat) (n : nat) (E E' : list (nat * nat)) :
  (forall z r, root_of parent z r <-> root_of parent' z r) ->
  (forall e, e ∈ E <-> e ∈ E') ->
  uf_represents parent n E -> uf_represents parent' n E'.
Proof.
  intros Hsame HE Hrep x y Hx Hy. split.
  - intros Hc. apply (connected_mono E' E) in Hc; [|intros e; apply HE].
    apply Hrep in Hc as (r & H1 & H2); [|done|done].
    exists r. split; by apply Hsame.
  - intros (r & H1 & H2). apply (connected_mono E E'); [intros e; apply HE|].
    apply Hrep; [done | done |]. exists r. split; by apply Hsame.
Qed.

Lemma connected_to_root (parent rank : list nat) (n : nat) (E : list (nat * nat))
    (x r : nat) :
  uf_inv parent rank n -> uf_represents parent n E ->
  (x < n)%nat -> root_of parent x r -> connected E x r.
Proof.
  intros Hinv Hrep Hx Hroot.
  apply Hrep; [done | by eapply root_of_range |].
  exists r. split; [done|]. apply root_self. by eapply root_of_is_root.
Qed.

(** An edge inside one tree changes nothing. *)
Lemma uf_represents_same (parent : list nat) (n : nat) (E : list (nat * nat))
    (a b r : nat) :
  (a < n)%nat -> (b < n)%nat ->
  root_of parent a r -> root_of parent b r ->
  uf_represents parent n E -> uf_represents parent n ((a, b) :: E).
Proof.
  intros Ha Hb Hra Hrb Hrep.
  assert (Hab : connected E a b) by (apply Hrep; [done | done | by exists r]).
  intros x y Hx Hy. rewrite <- (Hrep x y Hx Hy). split.
  - clear Hx Hy. induction 1 as [x | a' b' Hin | x y _ IH | x y z _ IH1 _ IH2].
    + apply conn_refl.
    + apply elem_of_cons in Hin as [[= -> ->] | Hin]; [exact Hab | by apply conn_edge].
    + by apply conn_sym.
    + by apply conn_trans with y.
  - apply connected_mono. intros e He. by right.
Qed.

(** An edge between two trees: linking their roots represents the graph with
    the edge added. *)
Lemma uf_represents_link (parent rank : list nat) (n ra rb : nat)
    (E : list (nat * nat)) (a b : nat) :
  uf_inv parent rank n ->
  (ra < n)%nat -> (rb < n)%nat ->
  is_root parent ra -> is_root parent rb -> ra <> rb ->
  (a < n)%nat -> (b < n)%nat ->
  (root_of parent a ra /\ root_of parent b rb) \/
  (root_of parent a rb /\ root_of parent b ra) ->
  (forall a' b', (a', b') ∈ E -> (a' < n)%nat /\ (b' < n)%nat) ->
  uf_represents parent n E ->
  uf_represents (<[rb := ra]> parent) n ((a, b) :: E).
Proof.
  intros Hinv Hra Hrb Hroot_a Hroot_b Hab Ha Hb Hroots Hrange Hrep.
  set (parent' := <[rb := ra]> parent).
  set (f := fun r => if decide (r = rb) then ra else r).
  assert (Hlink : forall z r, root_of parent z r -> root_of parent' z (f r))
    by (intros z r; by apply (link_root_of parent rank n ra rb)).
  assert (Hrange' : forall a' b', (a', b') ∈ (a, b) :: E -> (a' < n)%nat /\ (b' < n)%nat).
  { intros a' b' Hin. apply elem_of_cons in Hin as [[= -> ->] | Hin]; [done|].
    by apply Hrange. }
  assert (Hfa : f ra = ra) by (unfold f; by rewrite decide_False).
  assert (Hfb : f rb = ra) by (unfold f; by rewrite decide_True).
  assert (Hedge : exists r, root_of parent' a r /\ root_of parent' b r).
  { exists ra. destruct Hroots as [[H1 H2] | [H1 H2]];
      apply Hlink in H1; apply Hlink in H2;
      rewrite ?Hfa, ?Hfb in H1; rewrite ?Hfa, ?Hfb in H2; by split. }
  intros x y Hx Hy. split.
  - intros Hc. revert Hx Hy.
    induction Hc as [x | a' b' Hin | x y Hc IH | x y z Hc1 IH1 Hc2 IH2]; intros Hx Hy.
    + destruct (root_exists parent rank n x Hinv Hx) as [r Hr].
      exists (f r). split; by apply Hlink.
    + apply elem_of_cons in Hin as [[= -> ->] | Hin]; [exact Hedge|].
      assert (Hc : connected E a' b') by (by apply conn_edge).
      apply Hrep in Hc as (r & H1 & H2); [|done|done].
      exists (f r). split; by apply Hlink.
    + destruct (IH Hy Hx) as (r & H1 & H2). by exists r.
    + assert (Hy' : (y < n)%nat)
        by (by apply (connected_range n _ _ _ Hrange' Hc1)).
      destruct (IH1 Hx Hy') as (r & H1 & H2). destruct (IH2 Hy' Hy) as (r' & H3 & H4).
      rewrite (root_of_unique _ _ _ _ H3 H2) in H4. by exists r.
  - intros (r' & Hx' & Hy').
    destruct (root_exists parent rank n x Hinv Hx) as [rx Hrx].
    destruct (root_exists parent rank n y Hinv Hy) as [ry Hry].
    pose proof (root_of_unique _ _ _ _ (Hlink x rx Hrx) Hx') as Hfx.
    pose proof (root_of_unique _ _ _ _ (Hlink y ry Hry) Hy') as Hfy.
    pose proof (connected_to_root parent rank n E x rx Hinv Hrep Hx Hrx) as Hcx.
    pose proof (connected_to_root parent rank n E y ry Hinv Hrep Hy Hry) as Hcy.
    assert (Hmono : forall u v, connected E u v -> connected ((a, b) :: E) u v).
    { intros u v. apply connected_mono. intros e He. by right. }
    assert (Hbridge : connected ((a, b) :: E) ra rb).
    { destruct Hroots as [[H1 H2] | [H1 H2]].
      - apply conn_trans with a;
          [apply conn_sym, Hmono; by eapply connected_to_root|].
        apply conn_trans with b; [apply conn_edge; left|].
        apply Hmono. by eapply connected_to_root.
      - apply conn_sym. apply conn_trans with a;
          [apply conn_sym, Hmono; by eapply connected_to_root|].
        apply conn_trans with b; [apply conn_edge; left|].
        apply Hmono. by eapply connected_to_root. }
    apply conn_trans with rx; [by apply Hmono|].
    apply conn_trans with ry; [|by apply conn_sym, Hmono].
    unfold f in Hfx, Hfy.
    destruct (decide (rx = rb)) as [-> | Hx1], (decide (ry = rb)) as [-> | Hy1].
    + apply conn_refl.
    + subst r'. subst ry. by apply conn_sym.
    + subst r'. subst rx. exact Hbridge.
    + subst r'. subst ry. apply conn_refl.
Qed.

(** ** persistence_h0.cu: unite and the merge loop *)

Lemma link_state_ok (uf : UnionFind.t) (E : list (nat * nat)) (a b ra rb : nat) :
  uf_ok uf E -> edges_in_range (UnionFind.n uf) E ->
  (a < UnionFind.n uf)%nat -> (b < UnionFind.n uf)%nat ->
  ra <> rb ->
  (root_of (UnionFind.parent uf) a ra /\ root_of (UnionFind.parent uf) b rb) \/
  (root_of (UnionFind.parent uf) a rb /\ root_of (UnionFind.parent uf) b ra) ->
  (UnionFind.rank uf !!! rb <= UnionFind.rank uf !!! ra)%nat ->
  let uf' :=
    {| UnionFind.parent := <[rb := ra]> (UnionFind.parent uf);
       UnionFind.rank :=
         if (UnionFind.rank uf !!! ra =? UnionFind.rank uf !!! rb)%nat
         then <[ra := S (UnionFind.rank uf !!! ra)]> (UnionFind.rank uf)
         else UnionFind.rank uf;
       UnionFind.birth := UnionFind.birth uf;
       UnionFind.n := UnionFind.n uf |} in
  uf_ok uf' ((a, b) :: E) /\
  num_roots (UnionFind.parent uf) = S (num_roots (UnionFind.parent uf')).
Proof.
  intros [Hinv Hrep] Hrange Ha Hb Hne Hroots Hrank uf'.
  assert (Hra : root_of (UnionFind.parent uf) a ra \/ root_of (UnionFind.parent uf) b ra)
    by tauto.
  assert (Hrb : root_of (UnionFind.parent uf) a rb \/ root_of (UnionFind.parent uf) b rb)
    by tauto.
  assert (Hra_root : is_root (UnionFind.parent uf) ra)
    by (destruct Hra; by eapply root_of_is_root).
  assert (Hrb_root : is_root (UnionFind.parent uf) rb)
    by (destruct Hrb; by eapply root_of_is_root).
  assert (Hra_n : (ra < UnionFind.n uf)%nat)
    by (destruct Hra as [H | H];
        [exact (root_of_range _ _ _ _ _ Hinv Ha H) | exact (root_of_range _ _ _ _ _ Hinv Hb H)]).
  assert (Hrb_n : (rb < UnionFind.n uf)%nat)
    by (destruct Hrb as [H | H];
        [exact (root_of_range _ _ _ _ _ Hinv Ha H) | exact (root_of_range _ _ _ _ _ Hinv Hb H)]).
  split; [split|]; simpl.
  - by apply link_inv.
  - by apply (uf_represents_link _ (UnionFind.rank uf)).
  - by apply (link_num_roots _ (UnionFind.rank uf) (UnionFind.n uf)).
Qed.

(** [unite] returns; the new state represents the graph with the edge
    added, and a merge takes one root away. *)
Lemma unite_ok (uf : UnionFind.t) (E : list (nat * nat)) (a b : nat) (edge_filt : Q) :
  uf_ok uf E -> edges_in_range (UnionFind.n uf) E ->
  (a < UnionFind.n uf)%nat -> (b < UnionFind.n uf)%nat ->
  exists uf' res,
    UnionFind.unite uf a b edge_filt = Some (uf', res) /\
    UnionFind.n uf' = UnionFind.n uf /\
    uf_ok uf' ((a, b) :: E) /\
    num_roots (UnionFind.parent uf)
    = (num_roots (UnionFind.parent uf') + match res with Some _ => 1 | None => 0 end)%nat.
Proof.
  intros [Hinv Hrep] Hrange Ha Hb. unfold UnionFind.unite.
  destruct (find_ok uf a Hinv Ha)
    as (uf1 & ra & -> & Hrk1 & Hbi1 & Hn1 & Hinv1 & Hroot_a & Hroots1 & Hsame1).
  rewrite <- Hrk1, <- Hn1 in Hinv1. rewrite <- Hn1 in Hb.
  destruct (find_ok uf1 b Hinv1 Hb)
    as (uf2 & rb & -> & Hrk2 & Hbi2 & Hn2 & Hinv2 & Hroot_b & Hroots2 & Hsame2).
  rewrite <- Hrk2, <- Hn2 in Hinv2.
  assert (Hn : UnionFind.n uf2 = UnionFind.n uf) by congruence.
  assert (Hsame : forall z r, root_of (UnionFind.parent uf) z r
                              <-> root_of (UnionFind.parent uf2) z r)
    by (intros z r; by rewrite Hsame1, Hsame2).
  assert (Hok2 : uf_ok uf2 E).
  { split; [exact Hinv2|]. rewrite Hn.
    by apply (uf_represents_ext (UnionFind.parent uf) _ _ E E). }
  assert (Hroots_eq : num_roots (UnionFind.parent uf) = num_roots (UnionFind.parent uf2)).
  { apply num_roots_ext.
    - rewrite (uf_len_parent _ _ _ Hinv), (uf_len_parent _ _ _ Hinv2). congruence.
    - intros z. by rewrite Hroots1, Hroots2. }
  apply Hsame in Hroot_a. apply Hsame2 in Hroot_b.
  rewrite <- Hn in Ha, Hrange. rewrite Hn1, <- Hn in Hb.
  destruct (Nat.eqb_spec ra rb) as [-> | Hne].
  - exists uf2, None. split; [reflexivity|]. split; [exact Hn|]. split; [|lia].
    destruct Hok2 as [? Hrep2]. split; [done|].
    by apply (uf_represents_same _ _ _ _ _ rb).
  - destruct (Qltb (UnionFind.birth uf2 !!! ra) (UnionFind.birth uf2 !!! rb));
      cbv iota beta zeta.
    + destruct (Nat.ltb_spec (UnionFind.rank uf2 !!! ra) (UnionFind.rank uf2 !!! rb)).
      * destruct (link_state_ok uf2 E a b rb ra) as [Hok' Hnum];
          [done | done | done | done | congruence | tauto | lia |].
        eexists _, _. split; [reflexivity|]. split; [exact Hn|].
        split; [exact Hok' | lia].
      * destruct (link_state_ok uf2 E a b ra rb) as [Hok' Hnum];
          [done | done | done | done | congruence | tauto | lia |].
        eexists _, _. split; [reflexivity|]. split; [exact Hn|].
        split; [exact Hok' | lia].
    + destruct (Nat.ltb_spec (UnionFind.rank uf2 !!! rb) (UnionFind.rank uf2 !!! ra)).
      * destruct (link_state_ok uf2 E a b ra rb) as [Hok' Hnum];
          [done | done | done | done | congruence | tauto | lia |].
        eexists _, _. split; [reflexivity|]. split; [exact Hn|].
        split; [exact Hok' | lia].
      * destruct (link_state_ok uf2 E a b rb ra) as [Hok' Hnum];
          [done | done | done | done | congruence | tauto | lia |].
        eexists _, _. split; [reflexivity|]. split; [exact Hn|].
        split; [exact Hok' | lia].
Qed.

Lemma h0_loop_merges (uf uf' : UnionFind.t) (edges : list EdgeSortKey)
    (merges pairs : list (Q * Q)) :
  h0_merges uf edges = Some (uf', merges) ->
  h0_loop uf edges pairs = Some (uf', pairs ++ filter recorded merges).
Proof.
  revert uf merges pairs. induction edges as [|e rest IH]; intros uf merges pairs; simpl.
  - intros [= <- <-]. by rewrite app_nil_r.
  - destruct (UnionFind.unite uf (src e) (dst e) (filt e)) as [[uf1 [[db df]|]]|];
      [| by apply IH | discriminate].
    destruct (h0_merges uf1 rest) as [[uf2 merges2]|] eqn:Hrest; [|discriminate].
    intros [= <- <-]. rewrite filter_cons.
    destruct (decide (recorded (db, df))) as [Hrec | Hrec]; unfold recorded in Hrec;
      simpl in Hrec.
    + rewrite Hrec, (IH _ _ _ Hrest). by rewrite <- app_assoc.
    + apply not_false_is_true in Hrec. rewrite Hrec. by apply IH.
Qed.

Lemma uf_ok_ext (uf : UnionFind.t) (E E' : list (nat * nat)) :
  (forall e, e ∈ E <-> e ∈ E') -> uf_ok uf E -> uf_ok uf E'.
Proof.
  intros HE [Hinv Hrep]. split; [exact Hinv|].
  by apply (uf_represents_ext (UnionFind.parent uf) _ _ E E').
Qed.

(** The loop over the edges returns; the final forest represents the graph
    of all edges seen, and it has lost one root for each merge. *)
Lemma h0_merges_ok (uf : UnionFind.t) (E : list (nat * nat)) (edges : list EdgeSortKey) :
  uf_ok uf E -> edges_in_range (UnionFind.n uf) E ->
  edges_in_range (UnionFind.n uf) (map endpoints edges) ->
  exists uf' merges,
    h0_merges uf edges = Some (uf', merges) /\
    UnionFind.n uf' = UnionFind.n uf /\
    uf_ok uf' (map endpoints edges ++ E) /\
    num_roots (UnionFind.parent uf) = (num_roots (UnionFind.parent uf') + length merges)%nat.
Proof.
  revert uf E. induction edges as [|e rest IH]; intros uf E Hok HE Hrange; simpl.
  - exists uf, []. simpl. split; [reflexivity|]. split; [reflexivity|].
    split; [exact Hok | lia].
  - destruct (Hrange (src e) (dst e) ltac:(left)) as [Ha Hb].
    destruct (unite_ok uf E (src e) (dst e) (filt e) Hok HE Ha Hb)
      as (uf1 & res & -> & Hn1 & Hok1 & Hnum1).
    destruct (IH uf1 ((src e, dst e) :: E)) as (uf2 & merges & Hrun & Hn2 & Hok2 & Hnum2).
    + exact Hok1.
    + rewrite Hn1. intros a b Hin.
      apply elem_of_cons in Hin as [[= -> ->] | Hin]; [done | by apply HE].
    + rewrite Hn1. intros a b Hin. apply Hrange. by right.
    + assert (Hok2' : uf_ok uf2 (endpoints e :: map endpoints rest ++ E)).
      { apply (uf_ok_ext uf2 (map endpoints rest ++ (src e, dst e) :: E)); [|exact Hok2].
        intros x. unfold endpoints at 1.
        rewrite elem_of_cons, !elem_of_app, elem_of_cons. tauto. }
      destruct res as [merge|].
      * rewrite Hrun. exists uf2, (merge :: merges).
        split; [reflexivity|]. split; [congruence|]. split; [exact Hok2'|]. simpl. lia.
      * exists uf2, merges.
        split; [exact Hrun|]. split; [congruence|]. split; [exact Hok2'|]. lia.
Qed.

Lemma filter_all {A} (P : A -> Prop) `{!forall x, Decision (P x)} (l : list A) :
  Forall P l -> filter P l = l.
Proof.
  induction 1 as [|x l Hx _ IH]; [done|].
  rewrite filter_cons, decide_True by done. by rewrite IH.
Qed.

Lemma uf_ok_init (n : nat) (vertex_filt : list Q) :
  uf_ok (UnionFind.init n vertex_filt) [] /\
  num_roots (UnionFind.parent (UnionFind.init n vertex_filt)) = n.
Proof.
  assert (Hseq : forall x, (x < n)%nat -> seq 0 n !!! x = x)
    by (intros x Hx; by rewrite lookup_total_seq_lt).
  assert (Hnum : num_roots (seq 0 n) = n).
  { unfold num_roots. rewrite length_seq, filter_all; [apply length_seq|].
    apply Forall_forall. intros x Hx. apply elem_of_seq in Hx. apply Hseq. lia. }
  split; [split|exact Hnum]; simpl.
  - split.
    + apply length_seq.
    + apply length_replicate.
    + intros x Hx. by rewrite Hseq.
    + intros x Hx Hne. by rewrite Hseq in Hne.
    + intros x Hx. rewrite lookup_total_replicate_2 by done. rewrite Hnum. lia.
  - intros x y Hx Hy. split.
    + intros Hc. apply connected_nil in Hc as ->. exists y.
      split; apply root_self; by apply Hseq.
    + intros (r & H1 & H2).
      inversion H1 as [? Hr1 | ? ? Hne1 _]; subst; [|by rewrite Hseq in Hne1].
      inversion H2 as [? Hr2 | ? ? Hne2 _]; subst; [|by rewrite Hseq in Hne2].
      apply conn_refl.
Qed.

(** The roots of a forest that represents the graph are representatives of
    its components. *)
Lemma roots_are_representatives (uf : UnionFind.t) (E : list (nat * nat)) :
  uf_ok uf E ->
  component_count (UnionFind.n uf) E (num_roots (UnionFind.parent uf)).
Proof.
  intros [Hinv Hrep].
  exists (filter (is_root (UnionFind.parent uf)) (seq 0 (length (UnionFind.parent uf)))).
  split; [|reflexivity].
  rewrite (uf_len_parent _ _ _ Hinv).
  split; [apply NoDup_filter, NoDup_seq|]. split; [|split].
  - intros r Hr. apply list_elem_of_filter in Hr as [_ Hr]. apply elem_of_seq in Hr. lia.
  - intros r r' Hr Hr' Hc.
    apply list_elem_of_filter in Hr as [Hroot Hr]. apply elem_of_seq in Hr.
    apply list_elem_of_filter in Hr' as [Hroot' Hr']. apply elem_of_seq in Hr'.
    apply Hrep in Hc as (r0 & H1 & H2); [|lia|lia].
    pose proof (root_of_unique _ _ _ _ (root_self _ _ Hroot) H1).
    pose proof (root_of_unique _ _ _ _ (root_self _ _ Hroot') H2). congruence.
  - intros x Hx. destruct (root_exists _ _ _ x Hinv Hx) as [r Hr].
    exists r. split.
    + apply list_elem_of_filter. split; [by eapply root_of_is_root|].
      apply elem_of_seq. pose proof (root_of_range _ _ _ _ _ Hinv Hx Hr). lia.
    + by eapply connected_to_root.
Qed.

Lemma h0_sort_edges_perm (env : CudaEnv) (qs : Qsort) (l : list EdgeSortKey) :
  Permutation (h0_sort_edges env qs l) l.
Proof.
  unfold h0_sort_edges. destruct (0 <? device_count env)%Z;
    [apply stable_sort_perm | apply qsort_perm].
Qed.

Lemma sorted_graph_elem (env : CudaEnv) (qs : Qsort) (es ed : list nat) (ef : list Q)
    (m : nat) (e : nat * nat) :
  e ∈ map endpoints (h0_sort_edges env qs (h0_input_edges es ed ef m)) ++ []
  <-> e ∈ input_graph es ed m.
Proof.
  rewrite app_nil_r, h0_sort_edges_perm.
  unfold h0_input_edges, input_graph. rewrite map_map. done.
Qed.

(** C4, as the code has it: the call returns; the number of pairs it reports
    is the number of merges whose two values differ; the number of all merges
    is n minus the number of connected components of the edge graph, so the
    count is at most that, and at most n - 1. *)
Theorem h0_pair_count (env : CudaEnv) (qs : Qsort) (vf : list Q) (es ed : list nat)
    (ef : list Q) (n : Z) (m : nat) (ob od : list Q) (c0 : Z) :
  (0 < n)%Z ->
  (forall i, (i < m)%nat -> (es !!! i < Z.to_nat n)%nat /\ (ed !!! i < Z.to_nat n)%nat) ->
  exists births deaths uf merges comps,
    topo_gpu_persistence_h0 env qs true (Some vf) (Some es) (Some ed) (Some ef) n m
      {| h0_births := Some ob; h0_deaths := Some od; h0_count := Some c0 |}
    = Some (TOPO_SUCCESS,
            {| h0_births := Some births; h0_deaths := Some deaths;
               h0_count := Some (Z.of_nat (length (filter recorded merges))) |}) /\
    h0_merges (UnionFind.init (Z.to_nat n) vf)
              (h0_sort_edges env qs (h0_input_edges es ed ef m)) = Some (uf, merges) /\
    component_count (Z.to_nat n) (input_graph es ed m) comps /\
    length merges = (Z.to_nat n - comps)%nat /\
    (length (filter recorded merges) <= Z.to_nat n - comps <= Z.to_nat n - 1)%nat.
Proof.
  intros Hn Hrange.
  set (sorted := h0_sort_edges env qs (h0_input_edges es ed ef m)).
  destruct (uf_ok_init (Z.to_nat n) vf) as [Hok0 Hnum0].
  destruct (h0_merges_ok (UnionFind.init (Z.to_nat n) vf) [] sorted Hok0)
    as (uf & merges & Hrun & Hnuf & Hok & Hnum).
  { intros a b Hin. by apply elem_of_nil in Hin. }
  { intros a b Hin.
    assert (Hin' : (a, b) ∈ input_graph es ed m).
    { apply (proj1 (sorted_graph_elem env qs es ed ef m (a, b))).
      rewrite app_nil_r. exact Hin. }
    apply list_elem_of_In, in_map_iff in Hin' as (i & [= <- <-] & Hi).
    apply in_seq in Hi. apply Hrange. lia. }
  simpl in Hnuf. rewrite Hnum0 in Hnum.
  apply (uf_ok_ext uf _ (input_graph es ed m)) in Hok;
    [|intros e; apply sorted_graph_elem].
  pose proof (roots_are_representatives uf _ Hok) as Hcomp. rewrite Hnuf in Hcomp.
  assert (Hpos : (0 < num_roots (UnionFind.parent uf))%nat).
  { destruct Hok as [Hinv _]. apply (num_roots_pos _ _ _ 0%nat Hinv). lia. }
  pose proof (length_filter recorded merges) as Hfl.
  unfold topo_gpu_persistence_h0, persistence_h0_with.
  cbn [h0_births h0_deaths h0_count negb].
  destruct (Z.leb_spec n 0) as [?|_]; [lia|].
  destruct (Nat.eqb_spec m 0) as [Hm | Hm].
  - assert (Hsorted : sorted = []).
    { apply Permutation_nil. unfold sorted. rewrite h0_sort_edges_perm.
      unfold h0_input_edges. by rewrite Hm. }
    rewrite Hsorted in Hrun. simpl in Hrun. injection Hrun as <- <-.
    exists ob, od, (UnionFind.init (Z.to_nat n) vf), [], (num_roots (UnionFind.parent
      (UnionFind.init (Z.to_nat n) vf))).
    fold sorted. rewrite Hsorted.
    split; [reflexivity|]. split; [reflexivity|]. split; [exact Hcomp|].
    simpl in *. lia.
  - fold sorted.
    rewrite (h0_loop_merges _ _ _ _ [] Hrun). rewrite app_nil_l.
    eexists _, _, uf, merges, (num_roots (UnionFind.parent uf)).
    split; [reflexivity|]. split; [exact Hrun|]. split; [exact Hcomp|]. lia.
Qed.

Lemma h0_pair_count_witness :
  exists births deaths uf merges comps,
    topo_gpu_persistence_h0 test_env stable_qsort true (Some [0; 1; 2; 3]%Q)
      (Some [0; 2]%nat) (Some [1; 3]%nat) (Some [5; 6]%Q) 4 2
      {| h0_births := Some [0; 0; 0]%Q; h0_deaths := Some [0; 0; 0]%Q;
         h0_count := Some 0%Z |}
    = Some (TOPO_SUCCESS,
            {| h0_births := Some births; h0_deaths := Some deaths;
               h0_count := Some (Z.of_nat (length (filter recorded merges))) |}) /\
    h0_merges (UnionFind.init (Z.to_nat 4) [0; 1; 2; 3]%Q)
              (h0_sort_edges test_env stable_qsort
                 (h0_input_edges [0; 2]%nat [1; 3]%nat [5; 6]%Q 2)) = Some (uf, merges) /\
    component_count (Z.to_nat 4) (input_graph [0; 2]%nat [1; 3]%nat 2) comps /\
    length merges = (Z.to_nat 4 - comps)%nat /\
    (length (filter recorded merges) <= Z.to_nat 4 - comps <= Z.to_nat 4 - 1)%nat.
Proof.
  apply (h0_pair_count test_env stable_qsort [0; 1; 2; 3]%Q [0; 2]%nat [1; 3]%nat
           [5; 6]%Q 4 2 [0; 0; 0]%Q [0; 0; 0]%Q 0%Z).
  - lia.
  - intros i Hi. destruct i as [|[|i]]; simpl; lia.
Defined.

(** C4, as stated, fails: two vertices at filtration value 1 joined by an
    edge at value 1 form one component, so n minus the number of components
    is 1, and the call reports no pair. *)
Lemma h0_count_below_components :
  topo_gpu_persistence_h0 test_env stable_qsort true (Some [1; 1]%Q)
    (Some [0]%nat) (Some [1]%nat) (Some [1]%Q) 2 1 (h0_buffers 1)
  = Some (TOPO_SUCCESS,
          {| h0_births := Some [0%Q]; h0_deaths := Some [0%Q]; h0_count := Some 0%Z |})
  /\ component_count 2 (input_graph [0]%nat [1]%nat 1) 1.
Proof.
  split; [vm_compute; reflexivity|].
  exists [0%nat]. split; [|reflexivity].
  split; [apply NoDup_singleton|]. split; [|split].
  - intros r Hr. apply list_elem_of_singleton in Hr as ->. lia.
  - intros r r' Hr Hr' _.
    apply list_elem_of_singleton in Hr as ->. by apply list_elem_of_singleton in Hr' as ->.
  - intros x Hx. exists 0%nat. split; [by apply list_elem_of_singleton|].
    destruct x as [|[|x]]; [apply conn_refl | | lia].
    apply conn_sym, conn_edge. left.
Qed.

(** The half of C2 that the code keeps: a merge reports the edge's
    filtration value as the death and, as the birth, the larger of the births
    recorded at the two roots; the roots are what [find] returns for the two
    endpoints. *)
Lemma unite_dying_birth (uf uf' : UnionFind.t) (a b : nat) (edge_filt dying_birth death : Q) :
  UnionFind.unite uf a b edge_filt = Some (uf', Some (dying_birth, death)) ->
  exists uf1 ra uf2 rb,
    UnionFind.find uf a = Some (uf1, ra) /\ UnionFind.find uf1 b = Some (uf2, rb) /\
    ra <> rb /\ death = edge_filt /\
    (UnionFind.birth uf !!! ra <= dying_birth)%Q /\
    (UnionFind.birth uf !!! rb <= dying_birth)%Q /\
    (dying_birth = UnionFind.birth uf !!! ra \/ dying_birth = UnionFind.birth uf !!! rb).
Proof.
  unfold UnionFind.unite.
  destruct (UnionFind.find uf a) as [[uf1 ra]|] eqn:Ha; [|discriminate].
  destruct (UnionFind.find uf1 b) as [[uf2 rb]|] eqn:Hb; [|discriminate].
  assert (Hbirth : UnionFind.birth uf2 = UnionFind.birth uf).
  { unfold UnionFind.find in Ha, Hb.
    destruct (UnionFind.find_loop _ (UnionFind.parent uf) a) as [[? ?]|]; [|discriminate].
    destruct (UnionFind.find_loop _ (UnionFind.parent uf1) b) as [[? ?]|]; [|discriminate].
    injection Ha as <- _. injection Hb as <- _. reflexivity. }
  rewrite Hbirth.
  destruct (Nat.eqb_spec ra rb) as [|Hne]; [discriminate|].
  destruct (Qltb (UnionFind.birth uf !!! ra) (UnionFind.birth uf !!! rb)) eqn:Hlt;
    cbv iota beta zeta;
    destruct (_ <? _)%nat; intros [= _ <- <-];
    exists uf1, ra, uf2, rb; repeat split; try done;
    try (apply Qltb_lt in Hlt); try (apply Qltb_ge in Hlt);
    try apply Qle_refl; try (by apply Qlt_le_weak); try exact Hlt; tauto.
Qed.

(** C2: the code at vertex filtrations [5; 6; 0] and the edges (0,1), (1,2).
    The second merge joins the tree of root 0 (birth 5, rank 1) with vertex 2
    (birth 0, rank 0); the rank test makes 0 the surviving root, and its
    birth stays 5 although vertex 2 of its component has filtration 0. With a
    fourth vertex of filtration 3 joined next, the pair reported is (5, 12),
    where the component born at 3 is the one that dies. *)
Theorem h0_survivor_keeps_later_birth :
  (exists uf pairs uf',
     h0_loop (UnionFind.init 3 [5; 6; 0]%Q)
       [{| filt := 10; src := 0; dst := 1 |}; {| filt := 11; src := 1; dst := 2 |}] []
     = Some (uf, pairs) /\
     UnionFind.find uf 2 = Some (uf', 0%nat) /\
     UnionFind.birth uf' !!! 0%nat = 5%Q /\
     [5; 6; 0]%Q !!! 2%nat = 0%Q) /\
  topo_gpu_persistence_h0 test_env stable_qsort true (Some [5; 6; 0; 3]%Q)
    (Some [0; 1; 2]%nat) (Some [1; 2; 3]%nat) (Some [10; 11; 12]%Q) 4 3 (h0_buffers 3)
  = Some (TOPO_SUCCESS,
          {| h0_births := Some [6; 5; 5]%Q; h0_deaths := Some [10; 11; 12]%Q;
             h0_count := Some 3%Z |}).
Proof.
  split; [|vm_compute; reflexivity].
  eexists _, _, _. split; [vm_compute; reflexivity|].
  split; [vm_compute; reflexivity|]. split; reflexivity.
Qed.

(** * Further properties *)

(** ** utils.cu: topo_error_string *)

(** X1: the message tells the code: the seven codes of the enum have seven
    different messages, and every other value gets the message of the [default]
    branch, which none of the seven has. *)
Theorem error_string_names_code :
  (forall a b : TopoError,
     topo_error_string (error_code a) = topo_error_string (error_code b) <-> a = b) /\
  (forall z : Z,
     topo_error_string z = "unknown error" <-> forall e : TopoError, error_code e <> z).
Proof.
  split.
  - intros a b. split; [|by intros ->].
    destruct a, b; first [reflexivity | intros H; discriminate H].
  - intros z. split.
    + intros H e <-. destruct e; discriminate H.
    + intros H. unfold topo_error_string.
      destruct (Z.eqb_spec z 0) as [->|_]; [by destruct (H TOPO_SUCCESS)|].
      destruct (Z.eqb_spec z 1) as [->|_]; [by destruct (H TOPO_ERROR_INVALID_ARGUMENT)|].
      destruct (Z.eqb_spec z 2) as [->|_]; [by destruct (H TOPO_ERROR_CUDA_MALLOC)|].
      destruct (Z.eqb_spec z 3) as [->|_]; [by destruct (H TOPO_ERROR_CUDA_MEMCPY)|].
      destruct (Z.eqb_spec z 4) as [->|_]; [by destruct (H TOPO_ERROR_CUDA_KERNEL)|].
      destruct (Z.eqb_spec z 5) as [->|_]; [by destruct (H TOPO_ERROR_CUDA_NOT_AVAILABLE)|].
      destruct (Z.eqb_spec z 99) as [->|_]; [by destruct (H TOPO_ERROR_INTERNAL)|].
      reflexivity.
Qed.

(** ** density.cu: the values of the filtration *)

Lemma neg_inv_le (x y : Q) : (0 < x)%Q -> (x <= y)%Q -> ((-1) / x <= (-1) / y)%Q.
Proof.
  intros Hx Hxy.
  assert (Hy : (0 < y)%Q) by Lqa.lra.
  apply Qle_shift_div_l; [exact Hy|].
  assert (Heq : ((-1) / x * y == (- y) / x)%Q)
    by (field; intros H0; rewrite H0 in Hx; by apply Qlt_irrefl in Hx).
  rewrite Heq.
  apply Qle_shift_div_r; [exact Hx | Lqa.lra].
Qed.

Lemma neg_inv_neg (x : Q) : (0 < x)%Q -> ((-1) / x < 0)%Q.
Proof.
  intros Hx. apply Qlt_shift_div_r; [exact Hx | Lqa.lra].
Qed.

Lemma density_eps_pos : (0 < density_eps)%Q.
Proof. reflexivity. Qed.

(** The cells of the caller's buffer after a successful call. *)
Lemma density_cells (env : CudaEnv) (kth : list Q) (n : Z) (out out' : list Q) :
  (n <= INT_MAX)%Z ->
  topo_gpu_density_filtration env (Some kth) n (Some out) = (TOPO_SUCCESS, Some out') ->
  (0 < n)%Z /\
  forall i, (i < Z.to_nat n)%nat ->
    out' !!! i = ((-1) / Qmax (kth !!! i) density_eps)%Q.
Proof.
  intros Hmax Hrun. unfold topo_gpu_density_filtration in Hrun.
  destruct (Z.leb_spec n 0) as [?|Hn]; [discriminate|].
  split; [exact Hn|]. intros i Hi.
  destruct (device_count env =? 0)%Z; [discriminate|].
  destruct (negb (malloc_ok env 0)); [discriminate|].
  destruct (negb (malloc_ok env 1)); [discriminate|].
  destruct (negb (memcpy_ok env 0)); [discriminate|].
  destruct (launch_succeeds env _) eqn:Hl; simpl in Hrun; [|discriminate].
  destruct (negb (memcpy_ok env 1)); [discriminate|].
  injection Hrun as <-.
  apply andb_prop in Hl as [Hblocks _]. apply Z.ltb_lt in Hblocks.
  pose proof (launch_covers n _ ltac:(lia) eq_refl Hblocks) as Hcover.
  unfold launch.
  rewrite memcpy_lookup_front;
    [| done | by rewrite density_fold_length, length_map, length_seq].
  apply density_fold_value; [done | by rewrite length_map, length_seq | lia |].
  right. rewrite list_elem_of_In.
  apply (Permutation_in _ (Permutation_sym (run_order_perm env _))).
  apply in_seq. change (Z.to_nat 256) with 256%nat. lia.
Qed.

(** X2: the filtration values are negative and never below -1e10, the value of a
    point whose k-th neighbour is at distance 1e-10 or closer. *)
Theorem density_filtration_bounds (env : CudaEnv) (kth : list Q) (n : Z)
    (out out' : list Q) :
  (n <= INT_MAX)%Z ->
  topo_gpu_density_filtration env (Some kth) n (Some out) = (TOPO_SUCCESS, Some out') ->
  forall i, (i < Z.to_nat n)%nat ->
    (- inject_Z (10 ^ 10) <= out' !!! i < 0)%Q /\
    ((kth !!! i <= density_eps)%Q -> (out' !!! i == - inject_Z (10 ^ 10))%Q).
Proof.
  intros Hmax Hrun i Hi.
  destruct (density_cells env kth n out out' Hmax Hrun) as [_ Hcell].
  rewrite (Hcell i Hi).
  pose proof density_eps_pos as Heps.
  pose proof (Q.le_max_r (kth !!! i) density_eps) as Hge.
  assert (Hlow : ((-1) / density_eps == - inject_Z (10 ^ 10))%Q) by reflexivity.
  split; [split|].
  - rewrite <- Hlow. by apply neg_inv_le.
  - apply neg_inv_neg. Lqa.lra.
  - intros Hsmall. rewrite <- Hlow.
    rewrite (Q.max_r _ _ Hsmall). reflexivity.
Qed.

Lemma density_filtration_bounds_witness :
  topo_gpu_density_filtration test_env (Some [1 # 2; 0; 3]%Q) 3 (Some [7; 7; 7; 7]%Q)
  = (TOPO_SUCCESS, Some [-1 / (1 # 2); -1 / density_eps; -1 / 3; 7]%Q)
  /\ (- inject_Z (10 ^ 10) <= [-1 / (1 # 2); -1 / density_eps; -1 / 3; 7]%Q !!! 1%nat < 0)%Q
  /\ (([1 # 2; 0; 3]%Q !!! 1%nat <= density_eps)%Q ->
      ([-1 / (1 # 2); -1 / density_eps; -1 / 3; 7]%Q !!! 1%nat == - inject_Z (10 ^ 10))%Q).
Proof.
  split; [reflexivity|].
  apply (density_filtration_bounds test_env [1 # 2; 0; 3]%Q 3 [7; 7; 7; 7]%Q);
    [unfold INT_MAX; lia | reflexivity | simpl; lia].
Defined.

(** X3: the filtration keeps the order of the k-th neighbour distances: a point
    in a denser place (smaller distance) has the smaller value. *)
Theorem density_filtration_monotone (env : CudaEnv) (kth : list Q) (n : Z)
    (out out' : list Q) :
  (n <= INT_MAX)%Z ->
  topo_gpu_density_filtration env (Some kth) n (Some out) = (TOPO_SUCCESS, Some out') ->
  forall i j, (i < Z.to_nat n)%nat -> (j < Z.to_nat n)%nat ->
    (kth !!! i <= kth !!! j)%Q -> (out' !!! i <= out' !!! j)%Q.
Proof.
  intros Hmax Hrun i j Hi Hj Hle.
  destruct (density_cells env kth n out out' Hmax Hrun) as [_ Hcell].
  rewrite (Hcell i Hi), (Hcell j Hj).
  pose proof density_eps_pos as Heps.
  pose proof (Q.le_max_r (kth !!! i) density_eps) as Hge.
  apply neg_inv_le; [Lqa.lra|].
  by apply Q.max_le_compat_r.
Qed.

Lemma density_filtration_monotone_witness :
  topo_gpu_density_filtration test_env (Some [1 # 2; 0; 3]%Q) 3 (Some [7; 7; 7; 7]%Q)
  = (TOPO_SUCCESS, Some [-1 / (1 # 2); -1 / density_eps; -1 / 3; 7]%Q)
  /\ ([-1 / (1 # 2); -1 / density_eps; -1 / 3; 7]%Q !!! 0%nat
      <= [-1 / (1 # 2); -1 / density_eps; -1 / 3; 7]%Q !!! 2%nat)%Q.
Proof.
  split; [reflexivity|].
  apply (density_filtration_monotone test_env [1 # 2; 0; 3]%Q 3 [7; 7; 7; 7]%Q);
    [unfold INT_MAX; lia | reflexivity | simpl; lia | simpl; lia | discriminate].
Defined.

(** ** utils.cu, density.cu: the launch geometry *)

Lemma blocks_positive (n : Z) :
  (1 <= n <= INT_MAX - 255)%Z -> (0 < wrap32 (n + 256 - 1) ÷ 256)%Z.
Proof.
  unfold INT_MAX, wrap32. intros Hn. rewrite Z.mod_small by lia.
  rewrite Z.quot_div_nonneg by lia. apply Z.div_str_pos. lia.
Qed.

(** X4: with valid arguments, a device, and a runtime that reports no failure,
    the three entry points that launch a kernel return TOPO_SUCCESS: the density
    call and the radius query for every [n] from 1 to INT_MAX - 255, the sizes
    for which [n + threads - 1] is an [int], and the k nearest neighbours for
    every 0 < k < n with k <= 256. *)
Theorem launches_succeed (env : CudaEnv) (n : Z) :
  (1 <= n <= INT_MAX - 255)%Z ->
  device_count env <> 0%Z ->
  (forall i, malloc_ok env i = true) -> (forall i, memcpy_ok env i = true) ->
  launch_ok env = true ->
  (forall kth out, exists out',
     topo_gpu_density_filtration env (Some kth) n (Some out) = (TOPO_SUCCESS, Some out')) /\
  (forall pts qry d radius out cnt, (0 < d)%Z -> (0 <=? radius)%float = true ->
     exists out' cnt',
       topo_gpu_radius_query env (Some pts) (Some qry) n d radius (Some out) (Some cnt)
       = (TOPO_SUCCESS, Some out', Some cnt')) /\
  (forall pts d k od oi, (0 < d)%Z -> (0 < k < n)%Z -> (k <= 256)%Z ->
     exists D I,
       topo_gpu_knn env (Some pts) n d k (Some od) (Some oi) = (TOPO_SUCCESS, Some D, Some I)).
Proof.
  intros Hn Hdev Hm Hc Hl.
  assert (Hb : launch_succeeds env (wrap32 (n + 256 - 1) ÷ 256) = true).
  { unfold launch_succeeds. rewrite Hl, andb_true_r. apply Z.ltb_lt. by apply blocks_positive. }
  split; [|split].
  - intros kth out. unfold topo_gpu_density_filtration.
    destruct (Z.leb_spec n 0) as [?|_]; [lia|].
    destruct (Z.eqb_spec (device_count env) 0) as [?|_]; [done|].
    rewrite !Hm, !Hc. simpl. rewrite Hb. simpl. eauto.
  - intros pts qry d radius out cnt Hd Hr. unfold topo_gpu_radius_query.
    destruct (Z.leb_spec n 0) as [?|_]; [lia|].
    destruct (Z.leb_spec d 0) as [?|_]; [lia|].
    assert (Hneg : (radius <? 0)%float = false) by (by apply fle_not_flt).
    rewrite Hneg. simpl.
    destruct (Z.eqb_spec (device_count env) 0) as [?|_]; [done|].
    rewrite !Hm, !Hc. simpl. rewrite Hb. simpl. eauto.
  - intros pts d k od oi Hd Hk Hk256. unfold topo_gpu_knn.
    destruct (Z.leb_spec n 0) as [?|_]; [lia|].
    destruct (Z.leb_spec d 0) as [?|_]; [lia|].
    destruct (Z.leb_spec k 0) as [?|_]; [lia|].
    destruct (Z.leb_spec n k) as [?|_]; [lia|].
    destruct (Z.ltb_spec 256 k) as [?|_]; [lia|]. simpl.
    destruct (Z.eqb_spec (device_count env) 0) as [?|_]; [done|].
    rewrite !Hm, !Hc. simpl.
    destruct (knn_grid env pts (Z.to_nat n) (Z.to_nat d) (Z.to_nat k) 256) as [gd gi].
    assert (Hbn : launch_succeeds env n = true).
    { unfold launch_succeeds. rewrite Hl, andb_true_r. apply Z.ltb_lt. lia. }
    rewrite Hbn. simpl. eauto.
Qed.

Lemma launches_succeed_witness :
  (exists out',
     topo_gpu_density_filtration test_env (Some [1 # 2; 0; 3]%Q) 3 (Some [7; 7; 7; 7]%Q)
     = (TOPO_SUCCESS, Some out')) /\
  (exists out' cnt',
     topo_gpu_radius_query test_env (Some [0; 0; 3; 4; 6; 0]%float) (Some [0; 0]%float)
       3 2 5 (Some [9; 9; 9]%Z) (Some 0%Z)
     = (TOPO_SUCCESS, Some out', Some cnt')) /\
  (exists D I,
     topo_gpu_knn test_env (Some [0; 1; 3]%float) 3 1 2
       (Some (replicate 6 0%float)) (Some (replicate 6 0%Z))
     = (TOPO_SUCCESS, Some D, Some I)).
Proof.
  destruct (launches_succeed test_env 3) as (Hd & Hr & Hk);
    [unfold INT_MAX; lia | discriminate | reflexivity | reflexivity | reflexivity |].
  split; [apply Hd|]. split; [apply Hr; [lia | reflexivity] | apply Hk; lia].
Defined.

(** ** utils.cu: what the radius query writes *)

(** X5: the radius query stores its result in the first [out_count] cells of the
    caller's buffer, [out_count] is at most [n], and the cells after them keep
    what the caller had there. *)
Theorem radius_query_writes_prefix (env : CudaEnv) (pts qry : list float) (n d : Z)
    (radius : float) (out out' : list Z) (cnt cnt' : Z) :
  (n <= INT_MAX)%Z ->
  (Z.to_nat n <= length out)%nat ->
  topo_gpu_radius_query env (Some pts) (Some qry) n d radius (Some out) (Some cnt)
  = (TOPO_SUCCESS, Some out', Some cnt') ->
  (0 <= cnt' <= n)%Z /\ length out' = length out /\
  forall i, (Z.to_nat cnt' <= i)%nat -> out' !!! i = out !!! i.
Proof.
  intros Hmax Hout Hrun. unfold topo_gpu_radius_query in Hrun.
  destruct (Z.leb_spec n 0) as [?|Hn]; [discriminate|].
  destruct (_ || _)%bool; [discriminate|].
  destruct (device_count env =? 0)%Z; [discriminate|].
  destruct (negb (_ && _ && _ && _)); [discriminate|].
  destruct (negb (_ && _ && _)); [discriminate|].
  destruct (launch_succeeds env _) eqn:Hl; simpl in Hrun; [|discriminate].
  destruct (negb (memcpy_ok env 3)); [discriminate|].
  destruct (negb (memcpy_ok env 4)); [discriminate|].
  injection Hrun as <- <-.
  unfold launch. change (Z.to_nat 256) with 256%nat in *.
  set (N := (Z.to_nat (wrap32 (n + 256 - 1) ÷ 256) * 256)%nat) in *.
  set (l := run_order env (seq 0 N)).
  set (st0 := {| out_indices := map (fresh_int env) (seq 0 (Z.to_nat n)); out_count := 0 |}).
  assert (Hperm : l ≡ₚ seq 0 N) by apply run_order_perm.
  assert (Hnd : NoDup l) by (rewrite Hperm; apply NoDup_seq).
  pose proof (selected_threads_bound env pts qry n (Z.to_nat d) (radius * radius)%float l Hnd)
    as Hb.
  destruct (radius_fold env pts qry n (Z.to_nat d) (radius * radius)%float 256 l st0)
    as (Hc & _ & Hlen); [done | |].
  { unfold st0. cbn [out_count out_indices]. rewrite length_map, length_seq. exact Hb. }
  change (out_count st0) with 0%nat in Hc.
  change (out_indices st0) with (map (fresh_int env) (seq 0 (Z.to_nat n))) in Hlen.
  rewrite Nat.add_0_l in Hc. rewrite length_map, length_seq in Hlen.
  rewrite Nat2Z.id. unfold memcpy.
  set (st := fold_left _ l st0) in *.
  assert (Htake : length (take (out_count st) (out_indices st)) = out_count st)
    by (rewrite length_take; lia).
  split; [lia|]. split.
  - rewrite length_app, Htake, length_drop. lia.
  - intros i Hi. rewrite lookup_total_app_r by lia.
    rewrite Htake, lookup_total_drop. f_equal. lia.
Qed.

Lemma radius_query_writes_prefix_witness :
  topo_gpu_radius_query test_env (Some [0; 0; 3; 4; 6; 0]%float) (Some [0; 0]%float) 3 2 5
    (Some [9; 9; 9]%Z) (Some 0%Z)
  = (TOPO_SUCCESS, Some [0; 1; 9]%Z, Some 2%Z)
  /\ (0 <= 2 <= 3)%Z /\ length [0; 1; 9]%Z = length [9; 9; 9]%Z
  /\ [0; 1; 9]%Z !!! 2%nat = [9; 9; 9]%Z !!! 2%nat.
Proof.
  split; [vm_compute; reflexivity|].
  pose proof (radius_query_writes_prefix test_env [0; 0; 3; 4; 6; 0]%float [0; 0]%float 3 2 5
                [9; 9; 9]%Z [0; 1; 9]%Z 0 2) as H.
  destruct H as (Hc & Hl & Hi);
    [unfold INT_MAX; lia | simpl; lia | vm_compute; reflexivity |].
  split; [exact Hc|]. split; [exact Hl|]. apply Hi. simpl. lia.
Defined.

(** ** utils.cu: the radius query and the order of the threads *)

Lemma dist_sq_loop_fmad (env1 env2 : CudaEnv) (d : nat) (a b : nat -> float) :
  fmad env1 = fmad env2 -> dist_sq_loop env1 d a b = dist_sq_loop env2 d a b.
Proof. intros H. unfold dist_sq_loop. by rewrite H. Qed.

(** X6: the interleaving of the device threads decides the order of the indices
    only: two successful runs of the same compiled kernel on the same arguments
    report the same count and the same indices, up to their order. *)
Theorem radius_query_order_independent (env1 env2 : CudaEnv) (pts qry : list float)
    (n d : Z) (radius : float) (out1 out2 out1' out2' : list Z)
    (cnt1 cnt2 cnt1' cnt2' : Z) :
  fmad env1 = fmad env2 ->
  (n <= INT_MAX)%Z ->
  topo_gpu_radius_query env1 (Some pts) (Some qry) n d radius (Some out1) (Some cnt1)
  = (TOPO_SUCCESS, Some out1', Some cnt1') ->
  topo_gpu_radius_query env2 (Some pts) (Some qry) n d radius (Some out2) (Some cnt2)
  = (TOPO_SUCCESS, Some out2', Some cnt2') ->
  cnt1' = cnt2' /\ take (Z.to_nat cnt1') out1' ≡ₚ take (Z.to_nat cnt2') out2'.
Proof.
  intros Hfma Hmax Hrun1 Hrun2.
  destruct (radius_query_cells env1 pts qry n d radius out1 out1' cnt1 cnt1' Hmax Hrun1)
    as (_ & _ & Hc1 & Ht1).
  destruct (radius_query_cells env2 pts qry n d radius out2 out2' cnt2 cnt2' Hmax Hrun2)
    as (_ & _ & Hc2 & Ht2).
  cbv zeta in *.
  set (N := (Z.to_nat (wrap32 (n + 256 - 1) ÷ 256) * 256)%nat) in *.
  assert (Hperm : run_order env1 (seq 0 N) ≡ₚ run_order env2 (seq 0 N))
    by (by rewrite !run_order_perm).
  assert (Hsame : forall l : list nat,
            filter (radius_selects env1 pts qry n (Z.to_nat d) (radius * radius)%float) l
            = filter (radius_selects env2 pts qry n (Z.to_nat d) (radius * radius)%float) l).
  { intros l. apply filter_agree. intros i _. unfold radius_selects, radius_dist_sq.
    by rewrite (dist_sq_loop_fmad env1 env2). }
  assert (Hsel : filter (radius_selects env1 pts qry n (Z.to_nat d) (radius * radius)%float)
                   (run_order env1 (seq 0 N))
                 ≡ₚ filter (radius_selects env2 pts qry n (Z.to_nat d)
                              (radius * radius)%float)
                      (run_order env2 (seq 0 N)))
    by (rewrite <- Hsame; by rewrite Hperm).
  split.
  - rewrite Hc1, Hc2. f_equal. by apply Permutation_length.
  - rewrite Ht1, Ht2. by apply Permutation_map.
Qed.

Lemma radius_query_order_independent_witness :
  topo_gpu_radius_query test_env (Some [0; 0; 3; 4; 6; 0]%float) (Some [0; 0]%float) 3 2 5
    (Some [9; 9; 9]%Z) (Some 0%Z)
  = (TOPO_SUCCESS, Some [0; 1; 9]%Z, Some 2%Z) /\
  topo_gpu_radius_query reversed_env (Some [0; 0; 3; 4; 6; 0]%float) (Some [0; 0]%float) 3 2 5
    (Some [9; 9; 9]%Z) (Some 0%Z)
  = (TOPO_SUCCESS, Some [1; 0; 9]%Z, Some 2%Z) /\
  2%Z = 2%Z /\ take (Z.to_nat 2) [0; 1; 9]%Z ≡ₚ take (Z.to_nat 2) [1; 0; 9]%Z.
Proof.
  split; [vm_compute; reflexivity|]. split; [vm_compute; reflexivity|].
  apply (radius_query_order_independent test_env reversed_env [0; 0; 3; 4; 6; 0]%float
           [0; 0]%float 3 2 5 [9; 9; 9]%Z [9; 9; 9]%Z [0; 1; 9]%Z [1; 0; 9]%Z 0 0 2 2);
    [reflexivity | unfold INT_MAX; lia | vm_compute; reflexivity | vm_compute; reflexivity].
Defined.

(** ** utils.cu: the rows of the k nearest neighbours *)

(** What the shifting loop leaves: the cells above the hole moved one up,
    the others as they were; the hole is below every cell that [d] is
    smaller than. *)
Lemma shift_up_spec (dists : list float) (idxs : list Z) (pos : nat) (d : float) :
  (pos < length dists)%nat -> (pos < length idxs)%nat ->
  let '(p, ds, ix) := shift_up dists idxs pos d in
  (p <= pos)%nat /\
  (forall r, ds !!! r = if decide (p < r <= pos)%nat then dists !!! (r - 1)%nat
                        else dists !!! r) /\
  (forall r, ix !!! r = if decide (p < r <= pos)%nat then idxs !!! (r - 1)%nat
                        else idxs !!! r).
Proof.
  revert dists idxs. induction pos as [|p0 IH]; intros dists idxs Hld Hli; simpl.
  - split; [lia|]. split.
    + intros r. destruct (decide _); [lia | done].
    + intros r. destruct (decide _); [lia | done].
  - destruct (d <? dists !!! p0)%float.
    + specialize (IH (<[S p0 := dists !!! p0]> dists) (<[S p0 := idxs !!! p0]> idxs)).
      destruct (shift_up _ _ p0 d) as [[p ds] ix].
      destruct IH as (Hp & Hds & Hix);
        [rewrite length_insert; lia | rewrite length_insert; lia |].
      split; [lia|]. split.
      * intros r. rewrite Hds.
        destruct (decide (p < r <= p0)%nat), (decide (p < r <= S p0)%nat); try lia.
        -- by rewrite list_lookup_total_insert_ne by lia.
        -- assert (r = S p0) as -> by lia.
           rewrite list_lookup_total_insert_eq by lia. f_equal. lia.
        -- by rewrite list_lookup_total_insert_ne by lia.
      * intros r. rewrite Hix.
        destruct (decide (p < r <= p0)%nat), (decide (p < r <= S p0)%nat); try lia.
        -- by rewrite list_lookup_total_insert_ne by lia.
        -- assert (r = S p0) as -> by lia.
           rewrite list_lookup_total_insert_eq by lia. f_equal. lia.
        -- by rewrite list_lookup_total_insert_ne by lia.
    + split; [lia|]. split.
      * intros r. destruct (decide _); [lia | done].
      * intros r. destruct (decide _); [lia | done].
Qed.

Lemma nearest_of_ext (dq : nat -> float) (k : nat) (S S' : nat -> Prop) p :
  (forall i, S i <-> S' i) -> nearest_of dq k S p -> nearest_of dq k S' p.
Proof.
  intros HS [H1 H2 H3 H4 H5 H6]. split; try done.
  - intros r Hr. destruct (H4 r Hr) as [Hf | (i & Hi & He)]; [by left | right].
    exists i. by rewrite <- HS.
  - intros i Hi. apply H6. by apply HS.
Qed.

Lemma nearest_of_init (dq : nat -> float) (k : nat) :
  nearest_of dq k (fun _ => False) (replicate k DBL_MAX, replicate k (-1)%Z).
Proof.
  split; simpl.
  - apply length_replicate.
  - apply length_replicate.
  - apply ascending_replicate, DBL_MAX_notnan.
  - intros r Hr. left. by rewrite !lookup_total_replicate_2.
  - intros r r' Hr _ H0. rewrite lookup_total_replicate_2 in H0 by done. lia.
  - intros i [].
Qed.

(** One call of [insert_if_closer] with a candidate that was not seen yet. *)
Lemma nearest_of_insert (dq : nat -> float) (k : nat) (S : nat -> Prop) p (i : nat) :
  (0 < k)%nat -> nearest_of dq k S p -> ~ S i -> notnan (dq i) ->
  nearest_of dq k (fun j => S j \/ j = i) (insert_if_closer p.1 p.2 k (dq i) (Z.of_nat i)).
Proof.
  intros Hk [Hld Hli Hasc Hent Hdis Hcom] Hnew Hnn. destruct p as [dists idxs]. simpl in *.
  unfold insert_if_closer.
  destruct (dists !!! (k - 1)%nat <=? dq i)%float eqn:Hrej.
  - change (fle (dists !!! (k - 1)%nat) (dq i)) in Hrej. split; simpl; try done.
    + intros r Hr. destruct (Hent r Hr) as [Hf | (j & Hj & He)]; [by left | right].
      exists j. tauto.
    + intros j [Hj | ->]; [by apply Hcom | by right].
  - apply leb_false_flt in Hrej; [|exact (proj1 (Hasc (k - 1)%nat ltac:(lia))) | exact Hnn].
    pose proof (shift_up_length dists idxs (k - 1) (dq i)) as Hlen.
    pose proof (shift_up_ascending k dists idxs (k - 1) (dq i)
                  ltac:(lia) ltac:(lia) Hasc Hnn ltac:(lia)) as Hasc'.
    pose proof (shift_up_spec dists idxs (k - 1) (dq i) ltac:(lia) ltac:(lia)) as Hspec.
    destruct (shift_up dists idxs (k - 1) (dq i)) as [[p ds] ix].
    destruct Hlen as [Hl1 Hl2].
    destruct Hspec as (Hp & Hds & Hix).
    assert (Hd' : forall r, (r < k)%nat ->
      <[p := dq i]> ds !!! r
      = if decide (r = p) then dq i
        else if decide (p < r)%nat then dists !!! (r - 1)%nat else dists !!! r).
    { intros r Hr. destruct (decide (r = p)) as [-> | Hne].
      - by rewrite list_lookup_total_insert_eq by lia.
      - rewrite list_lookup_total_insert_ne by lia. rewrite Hds.
        destruct (decide (p < r <= k - 1)%nat), (decide (p < r)%nat); try lia; done. }
    assert (Hi' : forall r, (r < k)%nat ->
      <[p := Z.of_nat i]> ix !!! r
      = if decide (r = p) then Z.of_nat i
        else if decide (p < r)%nat then idxs !!! (r - 1)%nat else idxs !!! r).
    { intros r Hr. destruct (decide (r = p)) as [-> | Hne].
      - by rewrite list_lookup_total_insert_eq by lia.
      - rewrite list_lookup_total_insert_ne by lia. rewrite Hix.
        destruct (decide (p < r <= k - 1)%nat), (decide (p < r)%nat); try lia; done. }
    assert (Hold : forall r j, (r < k)%nat -> idxs !!! r = Z.of_nat j -> S j /\ dists !!! r = dq j).
    { intros r j Hr Hj. destruct (Hent r Hr) as [[Hf _] | (j' & Hj' & He1 & He2)]; [lia|].
      assert (j' = j) as -> by lia. done. }
    split; simpl.
    + rewrite length_insert. lia.
    + rewrite length_insert. lia.
    + exact Hasc'.
    + intros r Hr. rewrite Hd', Hi' by done.
      destruct (decide (r = p)); [right; exists i; tauto|].
      destruct (decide (p < r)%nat).
      * destruct (Hent (r - 1)%nat ltac:(lia)) as [Hf | (j & Hj & He)]; [by left | right].
        exists j. tauto.
      * destruct (Hent r Hr) as [Hf | (j & Hj & He)]; [by left | right].
        exists j. tauto.
    + intros r r' Hr Hr'. rewrite !Hi' by done.
      destruct (decide (r = p)) as [-> | Hrp], (decide (r' = p)) as [-> | Hrp'];
        try done; intros H0 Heq.
      * exfalso. apply Hnew.
        destruct (decide (p < r')%nat);
          [apply (Hold (r' - 1)%nat) | apply (Hold r')]; done || lia.
      * exfalso. apply Hnew.
        destruct (decide (p < r)%nat);
          [apply (Hold (r - 1)%nat) | apply (Hold r)]; done || lia.
      * destruct (decide (p < r)%nat), (decide (p < r')%nat).
        -- pose proof (Hdis (r - 1)%nat (r' - 1)%nat ltac:(lia) ltac:(lia) H0 Heq). lia.
        -- pose proof (Hdis (r - 1)%nat r' ltac:(lia) ltac:(lia) H0 Heq). lia.
        -- pose proof (Hdis r (r' - 1)%nat ltac:(lia) ltac:(lia) H0 Heq). lia.
        -- by apply Hdis.
    + assert (Hlast : fle (<[p := dq i]> ds !!! (k - 1)%nat) (dists !!! (k - 1)%nat)).
      { rewrite Hd' by lia. destruct (decide (k - 1 = p)%nat); [by apply flt_fle|].
        destruct (decide (p < k - 1)%nat); [|lia].
        destruct (Hasc (k - 1 - 1)%nat ltac:(lia)) as [_ Hadj].
        replace (Datatypes.S (k - 1 - 1)) with (k - 1)%nat in Hadj by lia.
        apply Hadj. lia. }
      intros j [Hj | ->].
      * destruct (Hcom j Hj) as [(r & Hr & He) | Hfar].
        -- destruct (decide (r = k - 1)%nat) as [-> | Hne].
           ++ right. destruct (Hold (k - 1)%nat j ltac:(lia) He) as [_ <-]. exact Hlast.
           ++ left. destruct (decide (r < p)%nat).
              ** exists r. split; [lia|]. rewrite Hi' by lia.
                 destruct (decide (r = p)); [lia|]. destruct (decide (p < r)%nat); [lia|done].
              ** exists (Datatypes.S r). split; [lia|]. rewrite Hi' by lia.
                 destruct (decide (Datatypes.S r = p)); [lia|].
                 destruct (decide (p < Datatypes.S r)%nat); [|lia].
                 by replace (Datatypes.S r - 1)%nat with r by lia.
        -- right. by apply fle_trans with (dists !!! (k - 1)%nat).
      * left. exists p. split; [lia|]. rewrite Hi' by lia. by rewrite decide_True.
Qed.

Lemma ascending_le (k : nat) (l : list float) (r r' : nat) :
  ascending k l -> (r <= r')%nat -> (r' < k)%nat -> fle (l !!! r) (l !!! r').
Proof.
  intros Hasc Hle Hr'. induction Hle as [|r' _ IH].
  - apply fle_refl. by apply Hasc.
  - apply fle_trans with (l !!! r'); [apply IH; lia | apply (Hasc r'); lia].
Qed.

(** The loop of the first phase over the points [l], none of them seen
    before. *)
Lemma knn_local_fold env points d k q (l : list nat) (S : nat -> Prop) p :
  (0 < k)%nat -> NoDup l -> (forall i, i ∈ l -> ~ S i) ->
  (forall i, i ∈ l -> i <> q -> notnan (knn_distance env points d q i)) ->
  nearest_of (knn_distance env points d q) k S p ->
  nearest_of (knn_distance env points d q) k (fun j => S j \/ (j ∈ l /\ j <> q))
    (fold_left
       (fun '(local_dist, local_idx) i =>
          if (i =? q)%nat then (local_dist, local_idx)
          else
            let dist_sq :=
              dist_sq_loop env d (fun dim => points !!! (q * d + dim)%nat)
                                 (fun dim => points !!! (i * d + dim)%nat) in
            let dist := PrimFloat.sqrt dist_sq in
            insert_if_closer local_dist local_idx k dist (Z.of_nat i))
       l p).
Proof.
  intros Hk. revert S p. induction l as [|i l IH]; intros S p Hnd Hfresh Hnn Hp; simpl.
  - apply (nearest_of_ext _ _ S); [|exact Hp].
    intros j. rewrite elem_of_nil. tauto.
  - apply NoDup_cons in Hnd as [Hi Hnd].
    assert (Hnn' : forall j, j ∈ l -> j <> q -> notnan (knn_distance env points d q j))
      by (intros j Hj; apply Hnn; by right).
    destruct p as [ld li].
    destruct (Nat.eqb_spec i q) as [-> | Hne].
    + apply (nearest_of_ext _ _ (fun j => S j \/ (j ∈ l /\ j <> q))).
      { intros j. rewrite elem_of_cons. split; [tauto|]. intros [?|[[->|?] ?]]; tauto. }
      apply IH; [exact Hnd | | exact Hnn' | exact Hp].
      intros j Hj. apply Hfresh. by right.
    + apply (nearest_of_ext _ _ (fun j => (S j \/ j = i) \/ (j ∈ l /\ j <> q))).
      { intros j. rewrite elem_of_cons. split.
        - intros [[? | ->] | [? ?]]; tauto.
        - intros [?|[[->|?] ?]]; tauto. }
      apply IH; [exact Hnd | | exact Hnn' |].
      * intros j Hj [HS | ->]; [|done]. revert HS. apply Hfresh. by right.
      * apply (nearest_of_insert (knn_distance env points d q) k S (ld, li) i Hk Hp).
        -- apply Hfresh. by left.
        -- apply Hnn; [by left | exact Hne].
Qed.

(** The first phase: a thread holds the nearest of the points of its share. *)
Lemma knn_thread_local_nearest env points n d k q tid nthreads :
  (0 < k)%nat ->
  (forall i, (i < n)%nat -> i <> q -> notnan (knn_distance env points d q i)) ->
  nearest_of (knn_distance env points d q) k
    (fun j => j ∈ strided tid nthreads n /\ j <> q)
    (knn_thread_local env points n d k q tid nthreads).
Proof.
  intros Hk Hnn. unfold knn_thread_local.
  apply (nearest_of_ext _ _ (fun j => False \/ (j ∈ strided tid nthreads n /\ j <> q)));
    [intros; tauto|].
  apply (knn_local_fold env points d k q); [exact Hk | | tauto | | apply nearest_of_init].
  - apply NoDup_filter, NoDup_seq.
  - intros i Hi. apply Hnn. unfold strided in Hi.
    apply list_elem_of_filter in Hi as [_ Hi]. apply elem_of_seq in Hi. lia.
Qed.

Section Merge.
Context (dq : nat -> float) (nthreads k : nat) (s_dist : list float) (s_idx : list Z).
Hypothesis Hk : (0 < k)%nat.
Hypothesis Hdist : forall t i j, (t < nthreads)%nat -> (i < k)%nat ->
  s_idx !!! (t * k + i)%nat = Z.of_nat j ->
  s_dist !!! (t * k + i)%nat = dq j /\ notnan (dq j).
Hypothesis Hinj : forall t i t' i', (t < nthreads)%nat -> (i < k)%nat ->
  (t' < nthreads)%nat -> (i' < k)%nat -> (0 <= s_idx !!! (t * k + i)%nat)%Z ->
  s_idx !!! (t * k + i)%nat = s_idx !!! (t' * k + i')%nat -> t = t' /\ i = i'.

Let cand (t i j : nat) : Prop := s_idx !!! (t * k + i)%nat = Z.of_nat j.

(** The loop over the cells [li] of thread [t]. *)
Lemma knn_merge_cells (t : nat) (li : list nat) (S : nat -> Prop) p :
  (t < nthreads)%nat -> NoDup li -> (forall i, i ∈ li -> (i < k)%nat) ->
  (forall i, i ∈ li -> forall j, cand t i j -> ~ S j) ->
  nearest_of dq k S p ->
  nearest_of dq k (fun j => S j \/ exists i, i ∈ li /\ cand t i j)
    (fold_left
       (fun '(merged_dist, merged_idx) i =>
          let d_val := s_dist !!! (t * k + i)%nat in
          let i_val := s_idx !!! (t * k + i)%nat in
          if (0 <=? i_val)%Z then
            insert_if_closer merged_dist merged_idx k d_val i_val
          else (merged_dist, merged_idx))
       li p).
Proof.
  intros Htn. revert S p.
  induction li as [|i li IH]; intros S p Hnd His Hfresh Hp; simpl.
  - apply (nearest_of_ext _ _ S); [|exact Hp].
    intros j. split; [tauto|]. intros [?|(i & Hi & _)]; [done|]. by apply elem_of_nil in Hi.
  - apply NoDup_cons in Hnd as [Hi Hnd].
    assert (Hik : (i < k)%nat) by (apply His; by left).
    destruct p as [md mi].
    destruct (Z.leb_spec 0 (s_idx !!! (t * k + i)%nat)) as [Hpos | Hneg].
    + set (j0 := Z.to_nat (s_idx !!! (t * k + i)%nat)).
      assert (Hc0 : cand t i j0) by (unfold cand, j0; lia).
      destruct (Hdist t i j0 Htn Hik Hc0) as [Hd0 Hnn0]. rewrite Hd0, Hc0.
      apply (nearest_of_ext _ _
        (fun j => (S j \/ j = j0) \/ exists i', i' ∈ li /\ cand t i' j)).
      { intros j. split.
        - intros [[? | ->] | (i' & Hi' & H)]; [tauto | right; exists i; split; [by left|done] |].
          right. exists i'. split; [by right | done].
        - intros [?|(i' & Hi' & H)]; [tauto|].
          apply elem_of_cons in Hi' as [-> | Hi'].
          + left. right. unfold cand in H, Hc0. lia.
          + right. by exists i'. }
      apply IH; [exact Hnd | intros i' Hi'; apply His; by right | |].
      * intros i' Hi' j Hc [HS | ->].
        -- revert HS. apply (Hfresh i' ltac:(by right) j Hc).
        -- unfold cand in Hc, Hc0.
           destruct (Hinj t i t i' Htn Hik Htn (His i' ltac:(by right)) Hpos
                       ltac:(congruence)) as [_ <-].
           done.
      * apply (nearest_of_insert dq k S (md, mi) j0 Hk Hp); [|exact Hnn0].
        apply (Hfresh i ltac:(by left) j0 Hc0).
    + apply (nearest_of_ext _ _ (fun j => S j \/ exists i', i' ∈ li /\ cand t i' j)).
      { intros j. split.
        - intros [?|(i' & Hi' & H)]; [tauto|]. right. exists i'. split; [by right|done].
        - intros [?|(i' & Hi' & H)]; [tauto|].
          apply elem_of_cons in Hi' as [-> | Hi']; [unfold cand in H; lia|].
          right. by exists i'. }
      apply IH; [exact Hnd | intros i' Hi'; apply His; by right | | exact Hp].
      intros i' Hi'. apply Hfresh. by right.
Qed.

(** The loop over the threads [lt]. *)
Lemma knn_merge_threads (lt : list nat) (S : nat -> Prop) p :
  NoDup lt -> (forall t, t ∈ lt -> (t < nthreads)%nat) ->
  (forall t, t ∈ lt -> forall i j, (i < k)%nat -> cand t i j -> ~ S j) ->
  nearest_of dq k S p ->
  nearest_of dq k
    (fun j => S j \/ exists t, t ∈ lt /\ exists i, (i < k)%nat /\ cand t i j)
    (fold_left
       (fun acc t =>
          fold_left
            (fun '(merged_dist, merged_idx) i =>
               let d_val := s_dist !!! (t * k + i)%nat in
               let i_val := s_idx !!! (t * k + i)%nat in
               if (0 <=? i_val)%Z then
                 insert_if_closer merged_dist merged_idx k d_val i_val
               else (merged_dist, merged_idx))
            (seq 0 k) acc)
       lt p).
Proof.
  revert S p. induction lt as [|t lt IH]; intros S p Hnd Hts Hfresh Hp; simpl.
  - apply (nearest_of_ext _ _ S); [|exact Hp].
    intros j. split; [tauto|]. intros [?|(t & Ht & _)]; [done|]. by apply elem_of_nil in Ht.
  - apply NoDup_cons in Hnd as [Ht Hnd].
    assert (Htn : (t < nthreads)%nat) by (apply Hts; by left).
    apply (nearest_of_ext _ _
      (fun j => (S j \/ exists i, i ∈ seq 0 k /\ cand t i j) \/
                exists t', t' ∈ lt /\ exists i, (i < k)%nat /\ cand t' i j)).
    { intros j. split.
      - intros [[?|(i & Hi & H)]|(t' & Ht' & H)]; [tauto | |].
        + right. exists t. split; [by left|]. exists i. apply elem_of_seq in Hi.
          split; [lia | done].
        + right. exists t'. split; [by right | done].
      - intros [?|(t' & Ht' & i & Hi & H)]; [tauto|].
        apply elem_of_cons in Ht' as [-> | Ht'].
        + left. right. exists i. split; [apply elem_of_seq; lia | done].
        + right. exists t'. split; [done|]. by exists i. }
    apply IH; [exact Hnd | intros t' Ht'; apply Hts; by right | |].
    + intros t' Ht' i j Hi Hc [HS | (i' & Hi' & Hc')].
      * revert HS. apply (Hfresh t' ltac:(by right) i j Hi Hc).
      * apply elem_of_seq in Hi'. unfold cand in Hc, Hc'.
        destruct (Hinj t i' t' i Htn ltac:(lia) (Hts t' ltac:(by right)) Hi ltac:(lia)
                    ltac:(congruence)) as [<- _].
        done.
    + apply knn_merge_cells; [exact Htn | apply NoDup_seq | | | exact Hp].
      * intros i Hi. apply elem_of_seq in Hi. lia.
      * intros i Hi j Hc. apply elem_of_seq in Hi.
        apply (Hfresh t ltac:(by left) i j); [lia | exact Hc].
Qed.

(** The second phase: thread 0 holds the nearest of what the threads left
    in shared memory. *)
Lemma knn_merge_nearest :
  nearest_of dq k
    (fun j => exists t i, (t < nthreads)%nat /\ (i < k)%nat /\ cand t i j)
    (knn_merge s_dist s_idx nthreads k).
Proof.
  unfold knn_merge.
  apply (nearest_of_ext _ _
    (fun j => False \/ exists t, t ∈ seq 0 nthreads /\ exists i, (i < k)%nat /\ cand t i j)).
  { intros j. split.
    - intros [[] | (t & Ht & i & Hi & Hc)]. apply elem_of_seq in Ht.
      exists t, i. split; [lia|]. done.
    - intros (t & i & Ht & Hi & Hc). right. exists t. split; [apply elem_of_seq; lia|].
      by exists i. }
  apply knn_merge_threads; [apply NoDup_seq | | tauto | apply nearest_of_init].
  intros t Ht. apply elem_of_seq in Ht. lia.
Qed.
End Merge.

(** Among [k] different candidates one is no nearer than the last cell. *)
Lemma nearest_of_last (dq : nat -> float) (k : nat) (S : nat -> Prop) p (J : list nat) :
  (0 < k)%nat -> nearest_of dq k S p -> NoDup J -> length J = k ->
  (forall j, j ∈ J -> S j) ->
  exists j, j ∈ J /\ fle (p.1 !!! (k - 1)%nat) (dq j).
Proof.
  intros Hk Hp Hnd Hlen HJ.
  assert (Hsplit : (exists j, j ∈ J /\ fle (p.1 !!! (k - 1)%nat) (dq j)) \/
                   (forall j, j ∈ J -> exists r, (r < k)%nat /\ p.2 !!! r = Z.of_nat j)).
  { clear Hnd Hlen. induction J as [|j J IH]; [right; intros j Hj; by apply elem_of_nil in Hj|].
    destruct (near_complete _ _ _ _ Hp j (HJ j ltac:(by left))) as [Hin | Hfar].
    - destruct IH as [(j' & Hj' & Hf) | Hall]; [intros; apply HJ; by right | |].
      + left. exists j'. split; [by right | done].
      + right. intros j' Hj'. apply elem_of_cons in Hj' as [-> | Hj']; [done | by apply Hall].
    - left. exists j. split; [by left | done]. }
  destruct Hsplit as [Hfar | Hall]; [exact Hfar|].
  assert (Hperm : Z.of_nat <$> J ≡ₚ p.2).
  { apply submseteq_length_Permutation.
    - apply NoDup_submseteq; [apply NoDup_fmap_2; [apply Nat2Z.inj' | exact Hnd] |].
      intros x Hx. apply list_elem_of_fmap in Hx as (j & -> & Hj).
      destruct (Hall j Hj) as (r & Hr & <-).
      apply list_elem_of_lookup_total_2. by rewrite (near_len_i _ _ _ _ Hp).
    - rewrite length_fmap, (near_len_i _ _ _ _ Hp). lia. }
  assert (Hin : p.2 !!! (k - 1)%nat ∈ Z.of_nat <$> J).
  { rewrite Hperm. apply list_elem_of_lookup_total_2.
    rewrite (near_len_i _ _ _ _ Hp). lia. }
  apply list_elem_of_fmap in Hin as (j & Hj & Hin).
  exists j. split; [exact Hin|].
  pose proof (proj1 (near_asc _ _ _ _ Hp (k - 1)%nat ltac:(lia))) as Hnn.
  destruct (near_entry _ _ _ _ Hp (k - 1)%nat ltac:(lia)) as [[Hf _] | (j' & _ & He1 & He2)];
    [lia|].
  assert (j' = j) as -> by lia. rewrite He2 in Hnn |- *. by apply fle_refl.
Qed.

(** A cell whose distance is below [DBL_MAX] is no filler. *)
Lemma nearest_of_filled (dq : nat -> float) (k : nat) (S : nat -> Prop) p (r : nat) :
  nearest_of dq k S p -> (r < k)%nat -> flt (p.1 !!! (k - 1)%nat) DBL_MAX ->
  exists i, S i /\ p.2 !!! r = Z.of_nat i /\ p.1 !!! r = dq i.
Proof.
  intros Hp Hr Hlast.
  destruct (near_entry _ _ _ _ Hp r Hr) as [[_ Hf] | He]; [|exact He].
  pose proof (ascending_le k p.1 r (k - 1) (near_asc _ _ _ _ Hp) ltac:(lia) ltac:(lia)) as Hle.
  rewrite Hf in Hle. exfalso. apply (flt_irrefl DBL_MAX).
  by apply fle_flt_trans with (p.1 !!! (k - 1)%nat).
Qed.

Lemma strided_elem (tid nthreads n j : nat) :
  j ∈ strided tid nthreads n <-> (j < n)%nat /\ j mod nthreads = tid.
Proof.
  unfold strided. rewrite list_elem_of_filter, elem_of_seq. split; intros []; split; lia || done.
Qed.

Lemma others_count (n q : nat) :
  (q < n)%nat -> length (filter (fun j => j <> q) (seq 0 n)) = (n - 1)%nat.
Proof.
  intros Hq.
  pose proof (filter_remove_one (fun _ : nat => True) (fun j => j <> q) (seq 0 n) q
                (NoDup_seq 0 n) ltac:(apply elem_of_seq; lia) I ltac:(tauto)
                ltac:(intros; tauto)) as H.
  rewrite filter_all in H by (apply Forall_forall; done).
  rewrite length_seq in H. lia.
Qed.

(** One block of the grid: the row it stores holds the [k] nearest of all
    other points, and no filler, when every distance is below [DBL_MAX]. *)
Lemma knn_kernel_nearest env points n d k nthreads q :
  (0 < k <= 256)%nat -> (k < n)%nat -> (q < n)%nat -> (0 < nthreads)%nat ->
  (forall j, (j < n)%nat -> j <> q -> flt (knn_distance env points d q j) DBL_MAX) ->
  nearest_of (knn_distance env points d q) k (fun j => (j < n)%nat /\ j <> q)
    (knn_kernel env points n d k nthreads q) /\
  forall r, (r < k)%nat -> (0 <= (knn_kernel env points n d k nthreads q).2 !!! r)%Z.
Proof.
  intros Hk Hkn Hq Hnt Hfin. unfold knn_kernel. rewrite Nat.min_l by lia.
  set (dq := knn_distance env points d q).
  set (loc := fun tid => knn_thread_local env points n d k q tid nthreads).
  set (locals := map loc (seq 0 nthreads)).
  assert (Hnn : forall j, (j < n)%nat -> j <> q -> notnan (dq j))
    by (intros j Hj Hne; by apply (flt_notnan_l _ DBL_MAX), Hfin).
  assert (Hloc : forall t, nearest_of dq k (fun j => j ∈ strided t nthreads n /\ j <> q) (loc t))
    by (intros t; apply knn_thread_local_nearest; [lia | exact Hnn]).
  assert (Hrows_d : Forall (fun row => length row = k) (map fst locals)).
  { apply Forall_forall. intros row Hrow.
    apply list_elem_of_In, in_map_iff in Hrow as (p & <- & Hp).
    apply in_map_iff in Hp as (t & <- & _). apply (near_len_d _ _ _ _ (Hloc t)). }
  assert (Hrows_i : Forall (fun row => length row = k) (map snd locals)).
  { apply Forall_forall. intros row Hrow.
    apply list_elem_of_In, in_map_iff in Hrow as (p & <- & Hp).
    apply in_map_iff in Hp as (t & <- & _). apply (near_len_i _ _ _ _ (Hloc t)). }
  assert (Hlen : length locals = nthreads) by (unfold locals; by rewrite length_map, length_seq).
  set (s_dist := concat (map fst locals)). set (s_idx := concat (map snd locals)).
  assert (Hsd : forall t i, (t < nthreads)%nat -> (i < k)%nat ->
            s_dist !!! (t * k + i)%nat = (loc t).1 !!! i).
  { intros t i Ht Hi. unfold s_dist.
    rewrite (lookup_total_concat_uniform k) by (rewrite ?length_map; first [assumption | lia]).
    unfold locals. rewrite map_map. by rewrite lookup_total_map_seq by lia. }
  assert (Hsi : forall t i, (t < nthreads)%nat -> (i < k)%nat ->
            s_idx !!! (t * k + i)%nat = (loc t).2 !!! i).
  { intros t i Ht Hi. unfold s_idx.
    rewrite (lookup_total_concat_uniform k) by (rewrite ?length_map; first [assumption | lia]).
    unfold locals. rewrite map_map. by rewrite lookup_total_map_seq by lia. }
  assert (Hcell : forall t i j, (t < nthreads)%nat -> (i < k)%nat ->
            s_idx !!! (t * k + i)%nat = Z.of_nat j ->
            (j < n)%nat /\ j mod nthreads = t /\ j <> q /\ s_dist !!! (t * k + i)%nat = dq j).
  { intros t i j Ht Hi Hc. rewrite Hsi in Hc by done. rewrite Hsd by done.
    destruct (near_entry _ _ _ _ (Hloc t) i Hi) as [[Hf _] | (j' & [Hj' Hne] & He1 & He2)];
      [lia|].
    assert (j' = j) as -> by lia. apply strided_elem in Hj' as [? ?]. done. }
  pose proof (knn_merge_nearest dq nthreads k s_dist s_idx ltac:(lia)) as Hm.
  destruct (knn_merge s_dist s_idx nthreads k) as [md mi] eqn:Hmerge.
  assert (Hall : nearest_of dq k
            (fun j => exists t i, (t < nthreads)%nat /\ (i < k)%nat /\
                                  s_idx !!! (t * k + i)%nat = Z.of_nat j) (md, mi)).
  { apply Hm.
    - intros t i j Ht Hi Hc. destruct (Hcell t i j Ht Hi Hc) as (? & _ & ? & ?).
      split; [done | by apply Hnn].
    - intros t i t' i' Ht Hi Ht' Hi' Hpos Heq.
      set (j := Z.to_nat (s_idx !!! (t * k + i)%nat)).
      assert (Hc : s_idx !!! (t * k + i)%nat = Z.of_nat j) by (unfold j; lia).
      assert (Hc' : s_idx !!! (t' * k + i')%nat = Z.of_nat j) by congruence.
      destruct (Hcell t i j Ht Hi Hc) as (_ & Hmod & _).
      destruct (Hcell t' i' j Ht' Hi' Hc') as (_ & Hmod' & _).
      assert (t = t') as <- by congruence. split; [done|].
      rewrite (Hsi t i), (Hsi t i') in Heq by done. rewrite (Hsi t i) in Hpos by done.
      apply (near_distinct _ _ _ _ (Hloc t) i i' Hi Hi' Hpos Heq). }
  clear Hm.
  (* every other point is in the row or no nearer than its last cell *)
  assert (Hcomplete : forall j, (j < n)%nat -> j <> q ->
            (exists r, (r < k)%nat /\ mi !!! r = Z.of_nat j) \/ fle (md !!! (k - 1)%nat) (dq j)).
  { intros j Hj Hne.
    assert (Ht : (j mod nthreads < nthreads)%nat) by (apply Nat.mod_upper_bound; lia).
    set (t := (j mod nthreads)%nat) in *.
    destruct (near_complete _ _ _ _ (Hloc t) j) as [(r & Hr & He) | Hfar].
    { split; [apply strided_elem|]; done. }
    - apply (near_complete _ _ _ _ Hall j). exists t, r. rewrite Hsi by done. done.
    - right. apply fle_trans with ((loc t).1 !!! (k - 1)%nat); [|exact Hfar].
      assert (Hfull : flt ((loc t).1 !!! (k - 1)%nat) DBL_MAX)
        by (apply fle_flt_trans with (dq j); [exact Hfar | by apply Hfin]).
      assert (Hent : forall r, (r < k)%nat ->
                exists i, (loc t).2 !!! r = Z.of_nat i /\ (loc t).1 !!! r = dq i).
      { intros r Hr. destruct (nearest_of_filled _ _ _ _ r (Hloc t) Hr Hfull) as (i & _ & ? & ?).
        by exists i. }
      set (J := map (fun r => Z.to_nat ((loc t).2 !!! r)) (seq 0 k)).
      destruct (nearest_of_last dq k _ (md, mi) J ltac:(lia) Hall) as (j' & Hj' & Hle).
      + apply NoDup_fmap_2_strong; [|apply NoDup_seq].
        intros r r' Hr Hr' Heq. apply elem_of_seq in Hr, Hr'.
        destruct (Hent r ltac:(lia)) as (i & Hi & _).
        destruct (Hent r' ltac:(lia)) as (i' & Hi' & _).
        apply (near_distinct _ _ _ _ (Hloc t) r r'); lia.
      + unfold J. by rewrite length_map, length_seq.
      + intros j' Hj'. apply list_elem_of_fmap in Hj' as (r & -> & Hr).
        apply elem_of_seq in Hr. destruct (Hent r ltac:(lia)) as (i & Hi & _).
        exists t, r. rewrite Hsi by lia. split; [done|]. split; [lia|]. lia.
      + simpl in Hle. apply fle_trans with (dq j'); [exact Hle|].
        apply list_elem_of_fmap in Hj' as (r & -> & Hr). apply elem_of_seq in Hr.
        destruct (Hent r ltac:(lia)) as (i & Hi & Hd). rewrite Hi, Nat2Z.id, <- Hd.
        apply (ascending_le k); [apply (near_asc _ _ _ _ (Hloc t)) | lia | lia]. }
  assert (Hfull : nearest_of dq k (fun j => (j < n)%nat /\ j <> q) (md, mi)).
  { destruct Hall as [H1 H2 H3 H4 H5 _]. split; try done.
    - intros r Hr. destruct (H4 r Hr) as [Hf | (j & (t & i & Ht & Hi & Hc) & He)];
        [by left | right].
      exists j. split; [|exact He]. destruct (Hcell t i j Ht Hi Hc) as (? & _ & ? & _). done.
    - intros j [Hj Hne]. by apply Hcomplete. }
  (* the row has no filler: there are at least k other points *)
  assert (Hlast : flt (md !!! (k - 1)%nat) DBL_MAX).
  { set (J := take k (filter (fun j => j <> q) (seq 0 n))).
    destruct (nearest_of_last dq k _ (md, mi) J ltac:(lia) Hfull) as (j & Hj & Hle).
    - apply (sublist_NoDup _ (filter (fun j => j <> q) (seq 0 n)));
        [apply NoDup_filter, NoDup_seq | apply sublist_take].
    - unfold J. rewrite length_take, others_count by done. lia.
    - intros j Hj. apply elem_of_take in Hj as (i & Hj & _).
      apply list_elem_of_lookup_2, list_elem_of_filter in Hj as [? Hj].
      apply elem_of_seq in Hj. split; [lia | done].
    - simpl in Hle. apply fle_flt_trans with (dq j); [exact Hle|].
      apply elem_of_take in Hj as (i & Hj & _).
      apply list_elem_of_lookup_2, list_elem_of_filter in Hj as [? Hj].
      apply elem_of_seq in Hj. apply Hfin; [lia | done]. }
  assert (Hrow_d : forall r, (r < k)%nat -> map (fun i => md !!! i) (seq 0 k) !!! r = md !!! r)
    by (intros r Hr; by rewrite lookup_total_map_seq).
  assert (Hrow_i : forall r, (r < k)%nat -> map (fun i => mi !!! i) (seq 0 k) !!! r = mi !!! r)
    by (intros r Hr; by rewrite lookup_total_map_seq).
  split.
  - destruct Hfull as [H1 H2 H3 H4 H5 H6]. simpl in *. split; simpl.
    + by rewrite length_map, length_seq.
    + by rewrite length_map, length_seq.
    + intros r Hr. rewrite Hrow_d by lia. split; [exact (proj1 (H3 r Hr))|].
      intros Hr'. rewrite Hrow_d by lia. by apply H3.
    + intros r Hr. rewrite Hrow_d, Hrow_i by done. by apply H4.
    + intros r r' Hr Hr'. rewrite !Hrow_i by done. by apply H5.
    + intros j Hj. rewrite Hrow_d by lia.
      destruct (H6 j Hj) as [(r & Hr & He) | Hfar]; [left | by right].
      exists r. by rewrite Hrow_i.
  - intros r Hr. cbn [snd]. rewrite Hrow_i by done.
    destruct (nearest_of_filled _ _ _ _ r Hfull Hr Hlast) as (i & _ & Hi & _).
    simpl in Hi. lia.
Qed.

(** X7: on a successful call whose distances all stay below [DBL_MAX], row [q]
    of the two arrays holds [k] different points other than [q], each with the
    distance the kernel computes for it, and every point that is not in the row
    is at least as far from [q] as the last neighbour of the row. *)
Theorem knn_rows_are_nearest (env : CudaEnv) (pts od D : list float) (oi I : list Z)
    (n d k : Z) :
  topo_gpu_knn env (Some pts) n d k (Some od) (Some oi) = (TOPO_SUCCESS, Some D, Some I) ->
  (forall q j, (q < Z.to_nat n)%nat -> (j < Z.to_nat n)%nat -> j <> q ->
     (knn_distance env pts (Z.to_nat d) q j <? DBL_MAX)%float = true) ->
  forall q, (q < Z.to_nat n)%nat ->
    (forall r, (r < Z.to_nat k)%nat ->
       exists j, (j < Z.to_nat n)%nat /\ j <> q /\
         I !!! (q * Z.to_nat k + r)%nat = Z.of_nat j /\
         D !!! (q * Z.to_nat k + r)%nat = knn_distance env pts (Z.to_nat d) q j) /\
    (forall r r', (r < Z.to_nat k)%nat -> (r' < Z.to_nat k)%nat ->
       I !!! (q * Z.to_nat k + r)%nat = I !!! (q * Z.to_nat k + r')%nat -> r = r') /\
    (forall j, (j < Z.to_nat n)%nat -> j <> q ->
       (exists r, (r < Z.to_nat k)%nat /\ I !!! (q * Z.to_nat k + r)%nat = Z.of_nat j) \/
       (D !!! (q * Z.to_nat k + (Z.to_nat k - 1))%nat
        <=? knn_distance env pts (Z.to_nat d) q j)%float = true).
Proof.
  intros Hrun Hfin q Hq. unfold topo_gpu_knn in Hrun.
  destruct ((n <=? 0) || (d <=? 0) || (k <=? 0) || (n <=? k))%Z%bool eqn:Hargs;
    [discriminate|].
  rewrite !orb_false_iff, !Z.leb_gt in Hargs. destruct Hargs as [[[Hn Hd] Hk] Hkn].
  destruct (Z.ltb_spec 256 k) as [?|Hk256]; [discriminate|].
  destruct (device_count env =? 0)%Z; [discriminate|].
  destruct (negb (_ && _ && _)); [discriminate|].
  destruct (negb (memcpy_ok env 0)); [discriminate|].
  destruct (knn_grid env pts (Z.to_nat n) (Z.to_nat d) (Z.to_nat k) 256)
    as [gd gi] eqn:Hgrid.
  destruct (negb (launch_succeeds env n)); [discriminate|].
  destruct (negb (memcpy_ok env 1)); [discriminate|].
  destruct (negb (memcpy_ok env 2)); [discriminate|].
  injection Hrun as <- <-.
  set (N := Z.to_nat n) in *. set (K := Z.to_nat k) in *. set (dim := Z.to_nat d) in *.
  assert (HK : (0 < K <= 256)%nat) by lia.
  assert (HKN : (K < N)%nat) by lia.
  destruct (knn_kernel_nearest env pts N dim K 256 q HK HKN Hq ltac:(lia))
    as [[_ _ _ Hent Hdis Hcom] Hfilled].
  { intros j Hj Hne. apply Hfin; assumption. }
  assert (Hcells : forall r, (r < K)%nat ->
            memcpy od gd (N * K) !!! (q * K + r)%nat = (knn_kernel env pts N dim K 256 q).1 !!! r /\
            memcpy oi gi (N * K) !!! (q * K + r)%nat = (knn_kernel env pts N dim K 256 q).2 !!! r).
  { intros r Hr.
    pose proof (knn_grid_rows env pts N dim K 256 q r ltac:(lia) Hq Hr) as Hrows.
    rewrite Hgrid in Hrows. destruct Hrows as (Hl1 & Hl2 & Hgd & Hgi).
    rewrite !memcpy_lookup_front by (rewrite ?Hl1, ?Hl2; nia).
    split; [exact Hgd | exact Hgi]. }
  split; [|split].
  - intros r Hr. destruct (Hcells r Hr) as [-> ->].
    destruct (Hent r Hr) as [[Hf _] | (j & [Hj Hne] & He1 & He2)].
    + specialize (Hfilled r Hr). lia.
    + exists j. split; [exact Hj|]. split; [exact Hne|]. split; [exact He1 | exact He2].
  - intros r r' Hr Hr'. destruct (Hcells r Hr) as [_ ->]. destruct (Hcells r' Hr') as [_ ->].
    apply Hdis; [exact Hr | exact Hr' | apply Hfilled; exact Hr].
  - intros j Hj Hne. destruct (Hcells (K - 1)%nat ltac:(lia)) as [-> _].
    destruct (Hcom j (conj Hj Hne)) as [(r & Hr & He) | Hfar]; [left | right; exact Hfar].
    exists r. split; [exact Hr|]. destruct (Hcells r Hr) as [_ ->]. exact He.
Qed.

Lemma knn_rows_are_nearest_witness :
  exists D I,
    topo_gpu_knn test_env (Some [0; 1; 3; 7]%float) 4 1 2
      (Some (replicate 8 0%float)) (Some (replicate 8 0%Z))
    = (TOPO_SUCCESS, Some D, Some I)
    /\ take 2 I = [1; 2]%Z
    /\ (forall r, (r < Z.to_nat 2)%nat ->
         exists j, (j < Z.to_nat 4)%nat /\ j <> 0%nat /\
           I !!! (0 * Z.to_nat 2 + r)%nat = Z.of_nat j /\
           D !!! (0 * Z.to_nat 2 + r)%nat
           = knn_distance test_env [0; 1; 3; 7]%float (Z.to_nat 1) 0 j)
    /\ (forall r r', (r < Z.to_nat 2)%nat -> (r' < Z.to_nat 2)%nat ->
         I !!! (0 * Z.to_nat 2 + r)%nat = I !!! (0 * Z.to_nat 2 + r')%nat -> r = r')
    /\ (forall j, (j < Z.to_nat 4)%nat -> j <> 0%nat ->
         (exists r, (r < Z.to_nat 2)%nat /\ I !!! (0 * Z.to_nat 2 + r)%nat = Z.of_nat j) \/
         (D !!! (0 * Z.to_nat 2 + (Z.to_nat 2 - 1))%nat
          <=? knn_distance test_env [0; 1; 3; 7]%float (Z.to_nat 1) 0 j)%float = true).
Proof.
  eexists. eexists. split; [vm_compute; reflexivity|].
  split; [reflexivity|].
  match goal with
  | |- (forall r, _ -> exists j, _ /\ _ /\ ?I !!! _ = _ /\ ?D !!! _ = _) /\ _ =>
    apply (knn_rows_are_nearest test_env [0; 1; 3; 7]%float (replicate 8 0%float) D
             (replicate 8 0%Z) I 4 1 2)
  end.
  - vm_compute; reflexivity.
  - intros q j Hq Hj _.
    do 4 (destruct q as [|q];
          [do 4 (destruct j as [|j]; [vm_compute; reflexivity|]); lia|]).
    lia.
  - simpl. lia.
Defined.

(** ** persistence_h0.cu: the union-find as the loop uses it *)

(** The state the merge loop reaches from the initial forest. *)
Lemma h0_loop_state (n : nat) (vf : list Q) (edges : list EdgeSortKey)
    (uf : UnionFind.t) (pairs : list (Q * Q)) :
  edges_in_range n (map endpoints edges) ->
  h0_loop (UnionFind.init n vf) edges [] = Some (uf, pairs) ->
  UnionFind.n uf = n /\ uf_ok uf (map endpoints edges).
Proof.
  intros Hrange Hloop.
  destruct (uf_ok_init n vf) as [Hok0 _].
  destruct (h0_merges_ok (UnionFind.init n vf) [] edges Hok0)
    as (uf' & merges & Hrun & Hn & Hok & _).
  { intros a b Hin. by apply elem_of_nil in Hin. }
  { exact Hrange. }
  rewrite (h0_loop_merges _ _ _ _ [] Hrun) in Hloop. injection Hloop as <- _.
  split; [exact Hn|]. by rewrite app_nil_r in Hok.
Qed.

(** X8: after the loop has united the endpoints of any list of edges, [find]
    gives two vertices the same root exactly when a path of those edges joins
    them. *)
Theorem union_find_tracks_components (n : nat) (vf : list Q) (edges : list EdgeSortKey)
    (a b : nat) :
  edges_in_range n (map endpoints edges) -> (a < n)%nat -> (b < n)%nat ->
  exists uf pairs uf1 ra uf2 rb,
    h0_loop (UnionFind.init n vf) edges [] = Some (uf, pairs) /\
    UnionFind.find uf a = Some (uf1, ra) /\ UnionFind.find uf1 b = Some (uf2, rb) /\
    (ra = rb <-> connected (map endpoints edges) a b).
Proof.
  intros Hrange Ha Hb.
  destruct (uf_ok_init n vf) as [Hok0 _].
  destruct (h0_merges_ok (UnionFind.init n vf) [] edges Hok0)
    as (uf & merges & Hrun & Hn & _ & _).
  { intros x y Hin. by apply elem_of_nil in Hin. }
  { exact Hrange. }
  pose proof (h0_loop_merges _ _ _ _ [] Hrun) as Hloop.
  destruct (h0_loop_state n vf edges uf _ Hrange Hloop) as [_ [Hinv Hrep]].
  simpl in Hn. rewrite Hn in Hinv, Hrep.
  destruct (find_ok uf a) as (uf1 & ra & Hfa & Hrk1 & _ & Hn1 & Hinv1 & Hroot_a & _ & Hsame1);
    [by rewrite Hn | by rewrite Hn |].
  rewrite <- Hrk1, <- Hn1 in Hinv1.
  destruct (find_ok uf1 b Hinv1) as (uf2 & rb & Hfb & _ & _ & _ & _ & Hroot_b & _ & _);
    [rewrite Hn1, Hn; exact Hb |].
  apply Hsame1 in Hroot_b.
  exists uf, ([] ++ filter recorded merges), uf1, ra, uf2, rb.
  split; [exact Hloop|]. split; [exact Hfa|]. split; [exact Hfb|].
  rewrite (Hrep a b Ha Hb). split.
  - intros <-. by exists ra.
  - intros (r & H1 & H2).
    rewrite (root_of_unique _ _ _ _ Hroot_a H1). apply (root_of_unique _ _ _ _ H2 Hroot_b).
Qed.

Lemma union_find_tracks_components_witness :
  exists uf pairs uf1 ra uf2 rb,
    h0_loop (UnionFind.init 4 [0; 1; 2; 3]%Q)
      [{| filt := 5; src := 0; dst := 1 |}; {| filt := 6; src := 1; dst := 2 |}] []
    = Some (uf, pairs) /\
    UnionFind.find uf 0 = Some (uf1, ra) /\ UnionFind.find uf1 2 = Some (uf2, rb) /\
    (ra = rb <->
     connected (map endpoints
       [{| filt := 5; src := 0; dst := 1 |}; {| filt := 6; src := 1; dst := 2 |}]) 0 2).
Proof.
  apply (union_find_tracks_components 4 [0; 1; 2; 3]%Q
           [{| filt := 5; src := 0; dst := 1 |}; {| filt := 6; src := 1; dst := 2 |}] 0 2).
  - intros a b Hin. simpl in Hin.
    apply elem_of_cons in Hin as [[= -> ->] | Hin]; [lia|].
    apply elem_of_cons in Hin as [[= -> ->] | Hin]; [lia|].
    by apply elem_of_nil in Hin.
  - lia.
  - lia.
Defined.

(** X9: path halving changes no answer: after [find x] has rewritten parents,
    [find] still returns for every vertex the root it returned before; the root
    returned is its own parent, and ranks and births are untouched. *)
Theorem find_keeps_roots (n : nat) (vf : list Q) (edges : list EdgeSortKey)
    (uf : UnionFind.t) (pairs : list (Q * Q)) (x : nat) :
  edges_in_range n (map endpoints edges) ->
  h0_loop (UnionFind.init n vf) edges [] = Some (uf, pairs) ->
  (x < n)%nat ->
  exists uf1 r,
    UnionFind.find uf x = Some (uf1, r) /\
    (r < n)%nat /\ UnionFind.parent uf1 !!! r = r /\
    UnionFind.rank uf1 = UnionFind.rank uf /\ UnionFind.birth uf1 = UnionFind.birth uf /\
    forall y, (y < n)%nat ->
      exists uf2 uf3 r',
        UnionFind.find uf y = Some (uf2, r') /\ UnionFind.find uf1 y = Some (uf3, r').
Proof.
  intros Hrange Hloop Hx.
  destruct (h0_loop_state n vf edges uf pairs Hrange Hloop) as [Hn [Hinv _]].
  rewrite Hn in Hinv.
  destruct (find_ok uf x) as (uf1 & r & Hf & Hrk1 & Hbi1 & Hn1 & Hinv1 & Hroot & _ & Hsame1);
    [by rewrite Hn | by rewrite Hn |].
  rewrite Hn in Hinv1.
  exists uf1, r. split; [exact Hf|].
  split; [exact (root_of_range _ _ _ _ _ Hinv Hx Hroot)|].
  split; [apply Hsame1 in Hroot; exact (root_of_is_root _ _ _ Hroot)|].
  split; [exact Hrk1|]. split; [exact Hbi1|].
  intros y Hy.
  destruct (find_ok uf y) as (uf2 & r' & Hfy & _ & _ & _ & _ & Hroot_y & _ & _);
    [by rewrite Hn | by rewrite Hn |].
  destruct (find_ok uf1 y) as (uf3 & r'' & Hfy' & _ & _ & _ & _ & Hroot_y' & _ & _);
    [by rewrite Hrk1, Hn1, Hn | by rewrite Hn1, Hn |].
  apply Hsame1 in Hroot_y'.
  rewrite (root_of_unique _ _ _ _ Hroot_y' Hroot_y) in Hfy'.
  by exists uf2, uf3, r'.
Qed.

Lemma find_keeps_roots_witness :
  exists uf pairs,
    h0_loop (UnionFind.init 4 [0; 1; 2; 3]%Q)
      [{| filt := 5; src := 0; dst := 1 |}; {| filt := 6; src := 2; dst := 3 |};
       {| filt := 7; src := 1; dst := 3 |}] []
    = Some (uf, pairs) /\
    exists uf1 r,
      UnionFind.find uf 3 = Some (uf1, r) /\
      (r < 4)%nat /\ UnionFind.parent uf1 !!! r = r /\
      UnionFind.rank uf1 = UnionFind.rank uf /\ UnionFind.birth uf1 = UnionFind.birth uf /\
      forall y, (y < 4)%nat ->
        exists uf2 uf3 r',
          UnionFind.find uf y = Some (uf2, r') /\ UnionFind.find uf1 y = Some (uf3, r').
Proof.
  eexists. eexists. split; [vm_compute; reflexivity|].
  eapply (find_keeps_roots 4 [0; 1; 2; 3]%Q
            [{| filt := 5; src := 0; dst := 1 |}; {| filt := 6; src := 2; dst := 3 |};
             {| filt := 7; src := 1; dst := 3 |}] _ _ 3).
  - intros a b Hin. simpl in Hin.
    apply elem_of_cons in Hin as [[= -> ->] | Hin]; [lia|].
    apply elem_of_cons in Hin as [[= -> ->] | Hin]; [lia|].
    apply elem_of_cons in Hin as [[= -> ->] | Hin]; [lia|].
    by apply elem_of_nil in Hin.
  - vm_compute; reflexivity.
  - lia.
Defined.

(** ** persistence_h0.cu: union by rank *)

Lemma ancestor_root (parent : list nat) (k r : nat) :
  is_root parent r -> ancestor parent k r = r.
Proof.
  intros Hr. unfold ancestor. induction k as [|k IH]; [done|].
  simpl. rewrite IH. exact Hr.
Qed.

Lemma ancestor_add (parent : list nat) (j k x : nat) :
  ancestor parent (j + k) x = ancestor parent j (ancestor parent k x).
Proof. unfold ancestor. apply Nat.iter_add. Qed.

(** Ranks grow by at least one at every step towards the root. *)
Lemma root_of_depth (parent rank : list nat) (n x r : nat) :
  uf_inv parent rank n -> (x < n)%nat -> root_of parent x r ->
  exists d, (d + rank !!! x <= rank !!! r)%nat /\ ancestor parent d x = r.
Proof.
  intros Hinv Hx Hroot. induction Hroot as [x Hself | x r Hne _ IH].
  - exists 0%nat. split; [lia | reflexivity].
  - destruct (IH (uf_range _ _ _ Hinv x Hx)) as (d & Hd & Hanc).
    pose proof (uf_rank_inc _ _ _ Hinv x Hx Hne).
    exists (S d). split; [lia|].
    unfold ancestor in *. by rewrite Nat.iter_succ_r.
Qed.

Lemma root_of_ancestor (parent rank : list nat) (n x r : nat) :
  uf_inv parent rank n -> (x < n)%nat ->
  (root_of parent x r <-> ancestor parent n x = r).
Proof.
  intros Hinv Hx.
  assert (Hto : forall r', root_of parent x r' -> ancestor parent n x = r').
  { intros r' Hroot.
    destruct (root_of_depth _ _ _ _ _ Hinv Hx Hroot) as (d & Hd & Hanc).
    pose proof (root_of_range _ _ _ _ _ Hinv Hx Hroot) as Hr.
    pose proof (uf_rank_bound _ _ _ Hinv r' Hr).
    pose proof (num_roots_pos _ _ _ x Hinv Hx).
    replace (ancestor parent n x) with (ancestor parent ((n - d) + d) x)
      by (f_equal; lia).
    rewrite ancestor_add, Hanc. apply ancestor_root.
    exact (root_of_is_root _ _ _ Hroot). }
  split; [apply Hto|].
  intros <-. destruct (root_exists _ _ _ x Hinv Hx) as [r' Hr'].
  by rewrite (Hto r' Hr').
Qed.

Lemma tree_size_ext (parent parent' rank rank' : list nat) (n r : nat) :
  uf_inv parent rank n -> uf_inv parent' rank' n ->
  (forall z r', root_of parent z r' <-> root_of parent' z r') ->
  tree_size parent n r = tree_size parent' n r.
Proof.
  intros Hinv Hinv' Hsame. unfold tree_size. f_equal. apply filter_agree.
  intros z Hz. apply elem_of_seq in Hz.
  rewrite <- (root_of_ancestor _ _ _ _ _ Hinv) by lia.
  rewrite <- (root_of_ancestor _ _ _ _ _ Hinv') by lia.
  apply Hsame.
Qed.

Lemma tree_size_le (parent : list nat) (n r : nat) : (tree_size parent n r <= n)%nat.
Proof.
  unfold tree_size. etransitivity; [apply length_filter|]. by rewrite length_seq.
Qed.

Lemma filter_either_length {A} (P P1 P2 : A -> Prop) `{!forall x, Decision (P x)}
    `{!forall x, Decision (P1 x)} `{!forall x, Decision (P2 x)} (l : list A) :
  (forall z, z ∈ l -> (P z <-> P1 z \/ P2 z)) ->
  (forall z, P1 z -> P2 z -> False) ->
  length (filter P l) = (length (filter P1 l) + length (filter P2 l))%nat.
Proof.
  intros Hiff Hdisj. induction l as [|z l IH]; [done|].
  rewrite !filter_cons.
  pose proof (Hiff z ltac:(left)) as Hz. pose proof (Hdisj z) as Hd.
  rewrite Nat.add_comm.
  specialize (IH ltac:(intros; apply Hiff; by right)).
  destruct (decide (P z)), (decide (P1 z)), (decide (P2 z)); simpl; try tauto; lia.
Qed.

(** Hanging the root [rb] below a root [ra] of at least its rank. *)
Lemma link_rank_inv (parent rank : list nat) (n ra rb : nat) :
  uf_inv parent rank n -> (ra < n)%nat -> (rb < n)%nat ->
  is_root parent ra -> is_root parent rb -> ra <> rb ->
  (rank !!! rb <= rank !!! ra)%nat ->
  rank_inv parent rank n ->
  rank_inv (<[rb := ra]> parent)
    (if (rank !!! ra =? rank !!! rb)%nat then <[ra := S (rank !!! ra)]> rank else rank) n.
Proof.
  intros Hinv Hra Hrb Hroot_a Hroot_b Hne Hrank Hsize r Hr Hroot'.
  pose proof (link_inv _ _ _ _ _ Hinv Hra Hrb Hroot_a Hroot_b Hne Hrank) as Hinv'.
  apply (link_is_root _ _ _ ra rb Hinv Hra Hrb Hroot_a Hne Hrank) in Hroot'
    as [Hroot Hrrb].
  assert (Hanc : forall x, (x < n)%nat ->
            ancestor (<[rb := ra]> parent) n x
            = if decide (ancestor parent n x = rb) then ra else ancestor parent n x).
  { intros x Hx. apply (root_of_ancestor _ _ _ _ _ Hinv' Hx).
    apply (link_root_of _ _ _ ra rb Hinv Hrb Hroot_a Hroot_b Hne).
    by apply (root_of_ancestor _ _ _ _ _ Hinv Hx). }
  destruct (decide (r = ra)) as [-> | Hrra].
  - assert (Hsum : tree_size (<[rb := ra]> parent) n ra
                   = (tree_size parent n ra + tree_size parent n rb)%nat).
    { unfold tree_size. apply filter_either_length; [|congruence].
      intros x Hx. apply elem_of_seq in Hx. rewrite Hanc by lia.
      destruct (decide (ancestor parent n x = rb)) as [Heq | Hneq].
      - tauto.
      - split; [tauto | intros [? | ?]; done]. }
    rewrite Hsum.
    pose proof (Hsize ra Hra Hroot_a). pose proof (Hsize rb Hrb Hroot_b).
    destruct (Nat.eqb_spec (rank !!! ra) (rank !!! rb)) as [Heq | Hneq].
    + rewrite list_lookup_total_insert_eq by (by rewrite (uf_len_rank _ _ _ Hinv)).
      rewrite Nat.pow_succ_r'. rewrite <- Heq in *. lia.
    + lia.
  - assert (Hsame : tree_size (<[rb := ra]> parent) n r = tree_size parent n r).
    { unfold tree_size. f_equal. apply filter_agree.
      intros x Hx. apply elem_of_seq in Hx. rewrite Hanc by lia.
      destruct (decide (ancestor parent n x = rb)) as [Heq | Hneq]; [|done].
      split; intros; congruence. }
    rewrite Hsame.
    rewrite (link_rank_other rank ra rb r Hrra).
    by apply Hsize.
Qed.

Lemma unite_rank_inv (uf uf' : UnionFind.t) (a b : nat) (f : Q) (res : option (Q * Q)) :
  uf_inv (UnionFind.parent uf) (UnionFind.rank uf) (UnionFind.n uf) ->
  (a < UnionFind.n uf)%nat -> (b < UnionFind.n uf)%nat ->
  rank_inv (UnionFind.parent uf) (UnionFind.rank uf) (UnionFind.n uf) ->
  UnionFind.unite uf a b f = Some (uf', res) ->
  UnionFind.n uf' = UnionFind.n uf /\
  uf_inv (UnionFind.parent uf') (UnionFind.rank uf') (UnionFind.n uf) /\
  rank_inv (UnionFind.parent uf') (UnionFind.rank uf') (UnionFind.n uf).
Proof.
  intros Hinv Ha Hb Hsize. unfold UnionFind.unite.
  destruct (find_ok uf a Hinv Ha)
    as (uf1 & ra & -> & Hrk1 & Hbi1 & Hn1 & Hinv1 & Hroot_a & Hroots1 & Hsame1).
  assert (Hinv1' : uf_inv (UnionFind.parent uf1) (UnionFind.rank uf1) (UnionFind.n uf1))
    by (by rewrite Hrk1, Hn1).
  assert (Hb1 : (b < UnionFind.n uf1)%nat) by (by rewrite Hn1).
  destruct (find_ok uf1 b Hinv1' Hb1)
    as (uf2 & rb & -> & Hrk2 & Hbi2 & Hn2 & Hinv2 & Hroot_b & Hroots2 & Hsame2).
  rewrite Hrk1, Hn1 in Hinv2.
  assert (Hrk : UnionFind.rank uf2 = UnionFind.rank uf) by congruence.
  assert (Hn : UnionFind.n uf2 = UnionFind.n uf) by congruence.
  assert (Hsame : forall z r, root_of (UnionFind.parent uf) z r
                              <-> root_of (UnionFind.parent uf2) z r)
    by (intros z r; by rewrite Hsame1, Hsame2).
  assert (Hsize2 : rank_inv (UnionFind.parent uf2) (UnionFind.rank uf) (UnionFind.n uf)).
  { intros r Hr Hroot.
    rewrite <- (tree_size_ext _ _ _ _ _ r Hinv Hinv2 Hsame).
    apply Hsize; [exact Hr|]. apply Hroots1, Hroots2. exact Hroot. }
  apply Hsame1 in Hroot_b.
  pose proof (root_of_range _ _ _ _ _ Hinv Ha Hroot_a) as Hra_n.
  pose proof (root_of_range _ _ _ _ _ Hinv Hb Hroot_b) as Hrb_n.
  assert (Hra_root : is_root (UnionFind.parent uf2) ra)
    by (apply Hsame in Hroot_a; by eapply root_of_is_root).
  assert (Hrb_root : is_root (UnionFind.parent uf2) rb)
    by (apply Hsame in Hroot_b; by eapply root_of_is_root).
  destruct (Nat.eqb_spec ra rb) as [-> | Hne].
  - intros [= <- <-]. rewrite Hrk. done.
  - rewrite Hrk.
    destruct (Qltb (UnionFind.birth uf2 !!! ra) (UnionFind.birth uf2 !!! rb));
      cbv iota beta zeta;
      destruct (Nat.ltb_spec (UnionFind.rank uf !!! ra) (UnionFind.rank uf !!! rb));
      try destruct (Nat.ltb_spec (UnionFind.rank uf !!! rb) (UnionFind.rank uf !!! ra));
      intros [= <- <-]; simpl;
      (split; [exact Hn|]);
      (split; [apply link_inv | apply link_rank_inv];
       first [assumption | congruence | lia]).
Qed.

(** The merge loop keeps the forest and the bound of union by rank. *)
Lemma h0_loop_rank_inv (uf uf' : UnionFind.t) (edges : list EdgeSortKey)
    (pairs pairs' : list (Q * Q)) :
  uf_inv (UnionFind.parent uf) (UnionFind.rank uf) (UnionFind.n uf) ->
  edges_in_range (UnionFind.n uf) (map endpoints edges) ->
  rank_inv (UnionFind.parent uf) (UnionFind.rank uf) (UnionFind.n uf) ->
  h0_loop uf edges pairs = Some (uf', pairs') ->
  UnionFind.n uf' = UnionFind.n uf /\
  uf_inv (UnionFind.parent uf') (UnionFind.rank uf') (UnionFind.n uf) /\
  rank_inv (UnionFind.parent uf') (UnionFind.rank uf') (UnionFind.n uf).
Proof.
  revert uf pairs. induction edges as [|e rest IH]; intros uf pairs Hinv Hrange Hsize; simpl.
  - intros [= <- _]. done.
  - destruct (Hrange (src e) (dst e) ltac:(left)) as [Ha Hb].
    destruct (UnionFind.unite uf (src e) (dst e) (filt e)) as [[uf1 res]|] eqn:Hun;
      [|discriminate].
    destruct (unite_rank_inv _ _ _ _ _ _ Hinv Ha Hb Hsize Hun) as (Hn1 & Hinv1 & Hsize1).
    assert (Hrest : forall ps,
              h0_loop uf1 rest ps = Some (uf', pairs') ->
              UnionFind.n uf' = UnionFind.n uf /\
              uf_inv (UnionFind.parent uf') (UnionFind.rank uf') (UnionFind.n uf) /\
              rank_inv (UnionFind.parent uf') (UnionFind.rank uf') (UnionFind.n uf)).
    { intros ps Hrun. rewrite <- Hn1 in *.
      apply (IH uf1 ps); [exact Hinv1 | | exact Hsize1 | exact Hrun].
      intros x y Hin. apply Hrange. by right. }
    destruct res as [[db dt]|]; [destruct (Qeq_bool db dt)|]; apply Hrest.
Qed.

Lemma init_rank_inv (n : nat) (vf : list Q) :
  rank_inv (UnionFind.parent (UnionFind.init n vf)) (UnionFind.rank (UnionFind.init n vf)) n.
Proof.
  intros r Hr _. simpl. rewrite lookup_total_replicate_2 by done. simpl.
  unfold tree_size.
  assert (Hin : r ∈ filter (fun x => ancestor (seq 0 n) n x = r) (seq 0 n)).
  { apply list_elem_of_filter. split; [|apply elem_of_seq; lia].
    apply ancestor_root. unfold is_root. by rewrite lookup_total_seq_lt. }
  destruct (filter _ _); [by apply elem_of_nil in Hin | simpl; lia].
Qed.

(** In a forest whose ranks are at most [R], the loop of [find] from [x]
    tests its condition at most [R - rank x + 1] times. *)
Lemma find_loop_rank_fuel (fuel : nat) (parent rank : list nat) (n R x : nat) :
  uf_inv parent rank n -> (forall y, (y < n)%nat -> (rank !!! y <= R)%nat) ->
  (x < n)%nat -> (R - rank !!! x < fuel)%nat ->
  exists parent' r, UnionFind.find_loop fuel parent x = Some (parent', r).
Proof.
  revert parent x. induction fuel as [|fuel IH]; intros parent x Hinv HR Hx Hfuel; [lia|].
  simpl. destruct (Nat.eqb_spec (parent !!! x) x) as [Heq | Hne]; [by eexists _, _|].
  pose proof (halve_inv parent rank n x Hinv Hx Hne) as Hinv1.
  pose proof (halve_lookup_x parent rank n x Hinv Hx) as Hlx.
  destruct (grandparent_above parent rank n x Hinv Hx Hne) as [Hgr Hgn].
  rewrite Hlx. apply (IH _ _ Hinv1 HR Hgn).
  pose proof (HR _ Hgn). lia.
Qed.

Lemma find_loop_more_fuel (fuel fuel' : nat) (parent : list nat) (x : nat)
    (res : list nat * nat) :
  UnionFind.find_loop fuel parent x = Some res -> (fuel <= fuel')%nat ->
  UnionFind.find_loop fuel' parent x = Some res.
Proof.
  revert fuel' parent x. induction fuel as [|fuel IH]; intros fuel' parent x; [done|].
  destruct fuel' as [|fuel']; [lia|]. simpl.
  destruct (parent !!! x =? x)%nat; [done|].
  intros Hrun Hle. apply (IH fuel'); [exact Hrun | lia].
Qed.

(** X21: union by rank keeps the trees shallow: in every state the merge loop
    reaches, [2 ^ rank[x]] is at most [n] for every vertex, and the loop of
    [find] ends within [log2 n + 1] tests of its condition. *)
Theorem union_by_rank_logarithmic (n : nat) (vf : list Q) (edges : list EdgeSortKey)
    (uf : UnionFind.t) (pairs : list (Q * Q)) (x : nat) :
  edges_in_range n (map endpoints edges) ->
  h0_loop (UnionFind.init n vf) edges [] = Some (uf, pairs) ->
  (x < n)%nat ->
  (2 ^ (UnionFind.rank uf !!! x) <= n)%nat /\
  exists uf1 r,
    UnionFind.find uf x = Some (uf1, r) /\
    UnionFind.find_loop (S (Nat.log2 n)) (UnionFind.parent uf) x
    = Some (UnionFind.parent uf1, r).
Proof.
  intros Hrange Hloop Hx.
  destruct (uf_ok_init n vf) as [[Hinv0 _] _].
  destruct (h0_loop_rank_inv _ _ _ _ _ Hinv0 Hrange (init_rank_inv n vf) Hloop)
    as (Hn & Hinv & Hsize).
  simpl in Hn, Hinv, Hsize.
  assert (Hpow : forall y, (y < n)%nat -> (2 ^ (UnionFind.rank uf !!! y) <= n)%nat).
  { intros y Hy. destruct (root_exists _ _ _ y Hinv Hy) as [r Hroot].
    destruct (root_of_depth _ _ _ _ _ Hinv Hy Hroot) as (d & Hd & _).
    pose proof (Hsize r (root_of_range _ _ _ _ _ Hinv Hy Hroot) (root_of_is_root _ _ _ Hroot)).
    pose proof (tree_size_le (UnionFind.parent uf) n r).
    assert (2 ^ (UnionFind.rank uf !!! y) <= 2 ^ (UnionFind.rank uf !!! r))%nat
      by (apply Nat.pow_le_mono_r; lia).
    lia. }
  split; [by apply Hpow|].
  assert (HR : forall y, (y < n)%nat -> (UnionFind.rank uf !!! y <= Nat.log2 n)%nat).
  { intros y Hy. apply Nat.log2_le_pow2; [lia | by apply Hpow]. }
  destruct (find_loop_rank_fuel (S (Nat.log2 n)) _ _ _ (Nat.log2 n) x Hinv HR Hx)
    as (parent' & r & Hrun); [lia|].
  assert (Hfull : UnionFind.find_loop n (UnionFind.parent uf) x = Some (parent', r)).
  { apply (find_loop_more_fuel _ _ _ _ _ Hrun).
    destruct (decide (n = 1)%nat) as [-> | ?]; [vm_compute; lia|].
    pose proof (Nat.log2_lt_lin n ltac:(lia)). lia. }
  eexists _, r. unfold UnionFind.find. rewrite Hn, Hfull.
  split; [reflexivity|]. exact Hrun.
Qed.

Lemma union_by_rank_logarithmic_witness :
  exists uf pairs,
    h0_loop (UnionFind.init 4 [0; 1; 2; 3]%Q)
      [{| filt := 5; src := 0; dst := 1 |}; {| filt := 6; src := 2; dst := 3 |};
       {| filt := 7; src := 1; dst := 3 |}] []
    = Some (uf, pairs) /\
    (2 ^ (UnionFind.rank uf !!! 3) <= 4)%nat /\
    exists uf1 r,
      UnionFind.find uf 3 = Some (uf1, r) /\
      UnionFind.find_loop (S (Nat.log2 4)) (UnionFind.parent uf) 3
      = Some (UnionFind.parent uf1, r).
Proof.
  eexists. eexists. split; [vm_compute; reflexivity|].
  eapply (union_by_rank_logarithmic 4 [0; 1; 2; 3]%Q
            [{| filt := 5; src := 0; dst := 1 |}; {| filt := 6; src := 2; dst := 3 |};
             {| filt := 7; src := 1; dst := 3 |}] _ _ 3).
  - intros a b Hin. simpl in Hin.
    apply elem_of_cons in Hin as [[= -> ->] | Hin]; [lia|].
    apply elem_of_cons in Hin as [[= -> ->] | Hin]; [lia|].
    apply elem_of_cons in Hin as [[= -> ->] | Hin]; [lia|].
    by apply elem_of_nil in Hin.
  - vm_compute; reflexivity.
  - lia.
Defined.

(** ** persistence_h0.cu: the values of the pairs *)

Lemma h0_edges_sorted (env : CudaEnv) (qs : Qsort) (l : list EdgeSortKey) :
  StronglySorted (fun a b => (filt a <= filt b)%Q) (h0_sort_edges env qs l).
Proof.
  apply (StronglySorted_weaken (fun a b => (edge_compare a b <= 0)%Z)).
  - intros a b. apply filt_compare_le.
  - unfold h0_sort_edges. destruct (0 <? device_count env)%Z.
    + apply stable_sort_sorted, edge_compare_ok.
    + apply qsort_sorted, edge_compare_ok.
Qed.

Lemma link_births (uf : UnionFind.t) (ra rb : nat) (B f : Q) :
  uf_inv (UnionFind.parent uf) (UnionFind.rank uf) (UnionFind.n uf) ->
  (ra < UnionFind.n uf)%nat -> (rb < UnionFind.n uf)%nat ->
  is_root (UnionFind.parent uf) ra -> is_root (UnionFind.parent uf) rb -> ra <> rb ->
  (UnionFind.rank uf !!! rb <= UnionFind.rank uf !!! ra)%nat ->
  births_below uf B -> (B <= f)%Q -> (UnionFind.birth uf !!! ra <= f)%Q ->
  births_below
    {| UnionFind.parent := <[rb := ra]> (UnionFind.parent uf);
       UnionFind.rank :=
         if (UnionFind.rank uf !!! ra =? UnionFind.rank uf !!! rb)%nat
         then <[ra := S (UnionFind.rank uf !!! ra)]> (UnionFind.rank uf)
         else UnionFind.rank uf;
       UnionFind.birth := UnionFind.birth uf;
       UnionFind.n := UnionFind.n uf |} f.
Proof.
  intros Hinv Hra Hrb Hroot_a Hroot_b Hne Hrank Hbelow HB Hbirth x r Hx Hroot Hxr.
  simpl in *.
  destruct (root_exists _ _ _ x Hinv Hx) as [r0 Hr0].
  pose proof (link_root_of _ _ _ ra rb Hinv Hrb Hroot_a Hroot_b Hne x r0 Hr0) as Hnew.
  pose proof (root_of_unique _ _ _ _ Hroot Hnew) as ->.
  destruct (decide (r0 = rb)) as [-> | Hr0b]; [exact Hbirth|].
  apply Qle_trans with B; [|exact HB]. by apply (Hbelow x r0).
Qed.

(** One call of [unite] on an edge at value [f]: the birth reported is the
    filtration value of a vertex and is not above [f]. *)
Lemma unite_births (uf uf' : UnionFind.t) (E : list (nat * nat)) (a b : nat) (B f : Q)
    (res : option (Q * Q)) :
  uf_ok uf E -> (a < UnionFind.n uf)%nat -> (b < UnionFind.n uf)%nat ->
  births_below uf B -> (B <= f)%Q ->
  (UnionFind.birth uf !!! a <= f)%Q -> (UnionFind.birth uf !!! b <= f)%Q ->
  UnionFind.unite uf a b f = Some (uf', res) ->
  births_below uf' f /\ UnionFind.birth uf' = UnionFind.birth uf /\
  forall db dt, res = Some (db, dt) ->
    dt = f /\ (db <= f)%Q /\
    exists v, (v < UnionFind.n uf)%nat /\ db = UnionFind.birth uf !!! v.
Proof.
  intros [Hinv Hrep] Ha Hb Hbelow HB Hba Hbb. unfold UnionFind.unite.
  destruct (find_ok uf a Hinv Ha)
    as (uf1 & ra & -> & Hrk1 & Hbi1 & Hn1 & Hinv1 & Hroot_a & Hroots1 & Hsame1).
  rewrite <- Hrk1, <- Hn1 in Hinv1. rewrite <- Hn1 in Hb.
  destruct (find_ok uf1 b Hinv1 Hb)
    as (uf2 & rb & -> & Hrk2 & Hbi2 & Hn2 & Hinv2 & Hroot_b & Hroots2 & Hsame2).
  rewrite <- Hrk2, <- Hn2 in Hinv2.
  assert (Hn : UnionFind.n uf2 = UnionFind.n uf) by congruence.
  assert (Hbi : UnionFind.birth uf2 = UnionFind.birth uf) by congruence.
  assert (Hsame : forall z r, root_of (UnionFind.parent uf) z r
                              <-> root_of (UnionFind.parent uf2) z r)
    by (intros z r; by rewrite Hsame1, Hsame2).
  apply Hsame1 in Hroot_b. rewrite Hn1 in Hb.
  assert (Hbelow2 : births_below uf2 B).
  { intros x r Hx Hr Hxr. rewrite Hbi. rewrite Hn in Hx. apply Hsame in Hr.
    by apply (Hbelow x r). }
  assert (Hra_n : (ra < UnionFind.n uf2)%nat)
    by (rewrite Hn; exact (root_of_range _ _ _ _ _ Hinv Ha Hroot_a)).
  assert (Hrb_n : (rb < UnionFind.n uf2)%nat)
    by (rewrite Hn; exact (root_of_range _ _ _ _ _ Hinv Hb Hroot_b)).
  assert (Hra_f : (UnionFind.birth uf2 !!! ra <= f)%Q).
  { rewrite Hbi. destruct (decide (a = ra)) as [<- | Hne]; [exact Hba|].
    apply Qle_trans with B; [|exact HB]. by apply (Hbelow a ra). }
  assert (Hrb_f : (UnionFind.birth uf2 !!! rb <= f)%Q).
  { rewrite Hbi. destruct (decide (b = rb)) as [<- | Hne]; [exact Hbb|].
    apply Qle_trans with B; [|exact HB]. by apply (Hbelow b rb). }
  assert (Hra_root : is_root (UnionFind.parent uf2) ra)
    by (apply Hsame in Hroot_a; by eapply root_of_is_root).
  assert (Hrb_root : is_root (UnionFind.parent uf2) rb)
    by (apply Hsame in Hroot_b; by eapply root_of_is_root).
  destruct (Nat.eqb_spec ra rb) as [-> | Hne].
  - intros [= <- <-]. split; [|split; [exact Hbi | discriminate]].
    intros x r Hx Hr Hxr. apply Qle_trans with B; [|exact HB]. by apply (Hbelow2 x r).
  - destruct (Qltb (UnionFind.birth uf2 !!! ra) (UnionFind.birth uf2 !!! rb));
      cbv iota beta zeta;
      destruct (Nat.ltb_spec (UnionFind.rank uf2 !!! ra) (UnionFind.rank uf2 !!! rb));
      try destruct (Nat.ltb_spec (UnionFind.rank uf2 !!! rb) (UnionFind.rank uf2 !!! ra));
      intros [= <- <-];
      (split; [apply (link_births uf2 _ _ B f); first [assumption | congruence | lia]
              | split; [exact Hbi|]]);
      intros db dt [= <- <-]; (split; [reflexivity|]); rewrite <- Hbi, <- Hn;
      (split; [assumption|]); eauto.
Qed.

(** The merges of the loop over edges in ascending order of filtration. *)
Lemma h0_merges_births (uf uf' : UnionFind.t) (E : list (nat * nat))
    (edges : list EdgeSortKey) (merges : list (Q * Q)) (B : Q) :
  uf_ok uf E -> edges_in_range (UnionFind.n uf) E ->
  edges_in_range (UnionFind.n uf) (map endpoints edges) ->
  births_below uf B ->
  StronglySorted (fun a b => (filt a <= filt b)%Q) edges ->
  Forall (fun e => (B <= filt e)%Q /\
                   (UnionFind.birth uf !!! src e <= filt e)%Q /\
                   (UnionFind.birth uf !!! dst e <= filt e)%Q) edges ->
  h0_merges uf edges = Some (uf', merges) ->
  map snd merges `sublist_of` map filt edges /\
  Forall (fun merge => (merge.1 <= merge.2)%Q /\
            exists v, (v < UnionFind.n uf)%nat /\ merge.1 = UnionFind.birth uf !!! v) merges.
Proof.
  revert uf E merges B. induction edges as [|e rest IH];
    intros uf E merges B Hok HE Hrange Hbelow Hsorted Hvalid; simpl.
  - intros [= <- <-]. split; [constructor | constructor].
  - apply StronglySorted_inv in Hsorted as [Hsorted Hle].
    apply Forall_cons in Hvalid as [(HB & Hs & Hd) Hvalid].
    destruct (Hrange (src e) (dst e) ltac:(left)) as [Ha Hb].
    destruct (unite_ok uf E (src e) (dst e) (filt e) Hok HE Ha Hb)
      as (uf1 & res & Hrun & Hn1 & Hok1 & _).
    rewrite Hrun.
    destruct (unite_births uf uf1 E (src e) (dst e) B (filt e) res Hok Ha Hb Hbelow HB Hs Hd
                Hrun) as (Hbelow1 & Hbi1 & Hres).
    assert (HIH : forall merges', h0_merges uf1 rest = Some (uf', merges') ->
              map snd merges' `sublist_of` map filt rest /\
              Forall (fun merge => (merge.1 <= merge.2)%Q /\
                exists v, (v < UnionFind.n uf)%nat /\ merge.1 = UnionFind.birth uf !!! v)
                merges').
    { intros merges' Hrest. rewrite <- Hn1, <- Hbi1.
      apply (IH uf1 ((src e, dst e) :: E) merges' (filt e)); try done.
      - rewrite Hn1. intros a b Hin.
        apply elem_of_cons in Hin as [[= -> ->] | Hin]; [done | by apply HE].
      - rewrite Hn1. intros a b Hin. apply Hrange. by right.
      - apply Forall_forall. intros e' He'.
        pose proof (proj1 (Forall_forall _ _) Hle e' He') as Hfe.
        pose proof (proj1 (Forall_forall _ _) Hvalid e' He') as (_ & Hs' & Hd').
        rewrite Hbi1. done. }
    destruct res as [[db dt]|].
    + destruct (h0_merges uf1 rest) as [[uf2 merges2]|] eqn:Hrest; [|discriminate].
      intros [= <- <-]. destruct (HIH merges2 eq_refl) as [Hsub Hall].
      destruct (Hres db dt eq_refl) as (-> & Hdb & Hv).
      split; [simpl; by apply sublist_skip|].
      apply Forall_cons. split; [|exact Hall]. simpl. done.
    + intros Hrest. destruct (HIH merges Hrest) as [Hsub Hall].
      split; [simpl; by apply sublist_cons | exact Hall].
Qed.

Lemma StronglySorted_sublist {A} (R : A -> A -> Prop) (l1 l2 : list A) :
  l1 `sublist_of` l2 -> StronglySorted R l2 -> StronglySorted R l1.
Proof.
  induction 1 as [|x l1 l2 Hsub IH | x l1 l2 Hsub IH]; intros Hs.
  - constructor.
  - apply StronglySorted_inv in Hs as [Hs Hx]. constructor; [by apply IH|].
    apply Forall_forall. intros y Hy.
    apply (proj1 (Forall_forall _ _) Hx). by apply (elem_of_sublist l1).
  - apply StronglySorted_inv in Hs as [Hs _]. by apply IH.
Qed.

Lemma StronglySorted_map {A B} (f : A -> B) (R : B -> B -> Prop) (l : list A) :
  StronglySorted (fun a b => R (f a) (f b)) l -> StronglySorted R (map f l).
Proof.
  induction 1 as [|x l _ IH Hx]; simpl; constructor; [exact IH|].
  apply Forall_forall. intros y Hy.
  apply list_elem_of_In, in_map_iff in Hy as (z & <- & Hz).
  apply (proj1 (Forall_forall _ _) Hx). by apply list_elem_of_In.
Qed.

(** The death of every merge is the value of its edge, so the deaths follow
    the order of the edges. *)
Lemma h0_merges_deaths (uf uf' : UnionFind.t) (edges : list EdgeSortKey)
    (merges : list (Q * Q)) :
  h0_merges uf edges = Some (uf', merges) ->
  map snd merges `sublist_of` map filt edges.
Proof.
  revert uf merges. induction edges as [|e rest IH]; intros uf merges; simpl.
  - intros [= <- <-]. constructor.
  - destruct (UnionFind.unite uf (src e) (dst e) (filt e)) as [[uf1 [[db dt]|]]|] eqn:Hu;
      [| intros H; apply sublist_cons; by apply (IH uf1) | discriminate].
    destruct (h0_merges uf1 rest) as [[uf2 merges2]|] eqn:Hrest; [|discriminate].
    intros [= <- <-].
    destruct (unite_dying_birth _ _ _ _ _ _ _ Hu) as (? & ? & ? & ? & _ & _ & _ & -> & _).
    simpl. apply sublist_skip. by apply (IH uf1).
Qed.

(** The call on a graph whose edges name vertices below [n]: it returns, and
    the pairs it stores are the recorded ones of the merges of the loop over
    the sorted edges. *)
Lemma h0_run_merges (env : CudaEnv) (qs : Qsort) (vf : list Q) (es ed : list nat)
    (ef : list Q) (n : Z) (m : nat) (ob od : list Q) (c0 : Z) :
  (0 < n)%Z ->
  (forall i, (i < m)%nat -> (es !!! i < Z.to_nat n)%nat /\ (ed !!! i < Z.to_nat n)%nat) ->
  let sorted := h0_sort_edges env qs (h0_input_edges es ed ef m) in
  exists uf merges,
    h0_merges (UnionFind.init (Z.to_nat n) vf) sorted = Some (uf, merges) /\
    edges_in_range (Z.to_nat n) (map endpoints sorted) /\
    let pairs := filter recorded merges in
    topo_gpu_persistence_h0 env qs true (Some vf) (Some es) (Some ed) (Some ef) n m
      {| h0_births := Some ob; h0_deaths := Some od; h0_count := Some c0 |}
    = Some (TOPO_SUCCESS,
            {| h0_births := Some (memcpy ob (map fst pairs) (length pairs));
               h0_deaths := Some (memcpy od (map snd pairs) (length pairs));
               h0_count := Some (Z.of_nat (length pairs)) |}).
Proof.
  intros Hn Hrange sorted.
  assert (Hsr : edges_in_range (Z.to_nat n) (map endpoints sorted)).
  { intros a b Hin.
    assert (Hin' : (a, b) ∈ input_graph es ed m).
    { apply (proj1 (sorted_graph_elem env qs es ed ef m (a, b))).
      rewrite app_nil_r. exact Hin. }
    apply list_elem_of_In, in_map_iff in Hin' as (i & [= <- <-] & Hi).
    apply in_seq in Hi. apply Hrange. lia. }
  destruct (uf_ok_init (Z.to_nat n) vf) as [Hok0 _].
  destruct (h0_merges_ok (UnionFind.init (Z.to_nat n) vf) [] sorted Hok0)
    as (uf & merges & Hrun & _ & _ & _).
  { intros a b Hin. by apply elem_of_nil in Hin. }
  { exact Hsr. }
  exists uf, merges. split; [exact Hrun|]. split; [exact Hsr|].
  unfold topo_gpu_persistence_h0, persistence_h0_with.
  cbn [h0_births h0_deaths h0_count negb].
  destruct (Z.leb_spec n 0) as [?|_]; [lia|].
  destruct (Nat.eqb_spec m 0) as [Hm | Hm].
  - assert (Hsorted : sorted = []).
    { apply Permutation_nil. unfold sorted. rewrite h0_sort_edges_perm.
      unfold h0_input_edges. by rewrite Hm. }
    rewrite Hsorted in Hrun. simpl in Hrun. injection Hrun as <- <-. reflexivity.
  - fold sorted. rewrite (h0_loop_merges _ _ _ _ [] Hrun). by rewrite app_nil_l.
Qed.

Lemma h0_sorted_elem (env : CudaEnv) (qs : Qsort) (es ed : list nat) (ef : list Q)
    (m : nat) (e : EdgeSortKey) :
  e ∈ h0_sort_edges env qs (h0_input_edges es ed ef m) ->
  exists j, (j < m)%nat /\ filt e = ef !!! j /\ src e = es !!! j /\ dst e = ed !!! j.
Proof.
  rewrite h0_sort_edges_perm. unfold h0_input_edges. intros He.
  apply list_elem_of_In, in_map_iff in He as (j & <- & Hj). apply in_seq in Hj.
  exists j. simpl. split; [lia | done].
Qed.

(** X10: the deaths come out in ascending order, each the filtration value of an
    edge of the input, and there are no more pairs than edges. *)
Theorem h0_deaths_ascending (env : CudaEnv) (qs : Qsort) (vf : list Q) (es ed : list nat)
    (ef : list Q) (n : Z) (m : nat) (ob od : list Q) (c0 : Z) :
  (0 < n)%Z ->
  (forall i, (i < m)%nat -> (es !!! i < Z.to_nat n)%nat /\ (ed !!! i < Z.to_nat n)%nat) ->
  exists births deaths count,
    topo_gpu_persistence_h0 env qs true (Some vf) (Some es) (Some ed) (Some ef) n m
      {| h0_births := Some ob; h0_deaths := Some od; h0_count := Some c0 |}
    = Some (TOPO_SUCCESS,
            {| h0_births := Some births; h0_deaths := Some deaths;
               h0_count := Some (Z.of_nat count) |}) /\
    (count <= m)%nat /\
    (forall i, (i < count)%nat -> exists j, (j < m)%nat /\ deaths !!! i = ef !!! j) /\
    (forall i j, (i <= j < count)%nat -> (deaths !!! i <= deaths !!! j)%Q).
Proof.
  intros Hn Hrange.
  destruct (h0_run_merges env qs vf es ed ef n m ob od c0 Hn Hrange)
    as (uf & merges & Hmerges & _ & Hrun).
  cbv zeta in Hrun. set (sorted := h0_sort_edges env qs (h0_input_edges es ed ef m)) in *.
  set (pairs := filter recorded merges) in *.
  eexists _, _, _. split; [exact Hrun|].
  assert (Hsub : map snd pairs `sublist_of` map filt sorted).
  { transitivity (map snd merges); [|exact (h0_merges_deaths _ _ _ _ Hmerges)].
    apply fmap_sublist, sublist_filter. }
  assert (Hlen : length (map snd pairs) = length pairs) by apply length_map.
  assert (Hcell : forall i, (i < length pairs)%nat ->
            memcpy od (map snd pairs) (length pairs) !!! i = map snd pairs !!! i).
  { intros i Hi. apply memcpy_lookup_front; lia. }
  split; [|split].
  - apply sublist_length in Hsub. rewrite !length_map in Hsub.
    assert (length sorted = m); [|lia].
    unfold sorted. rewrite h0_sort_edges_perm. unfold h0_input_edges.
    by rewrite length_map, length_seq.
  - intros i Hi. rewrite Hcell by done.
    assert (Hin : map snd pairs !!! i ∈ map filt sorted).
    { apply (elem_of_sublist (map snd pairs)); [|exact Hsub].
      apply list_elem_of_lookup_total_2. lia. }
    apply list_elem_of_In, in_map_iff in Hin as (e & He & Hin).
    apply list_elem_of_In, h0_sorted_elem in Hin as (j & Hj & Hf & _).
    exists j. split; [exact Hj | congruence].
  - intros i j Hij. rewrite !Hcell by lia.
    destruct (decide (i = j)) as [-> | Hne]; [apply Qle_refl|].
    apply (StronglySorted_lookup Qle); [|lia].
    apply (StronglySorted_sublist _ _ _ Hsub), StronglySorted_map, h0_edges_sorted.
Qed.

Lemma h0_deaths_ascending_witness :
  exists births deaths count,
    topo_gpu_persistence_h0 test_env stable_qsort true (Some [0; 1; 2; 3]%Q)
      (Some [2; 0; 1]%nat) (Some [3; 1; 2]%nat) (Some [9; 5; 7]%Q) 4 3
      {| h0_births := Some [0; 0; 0]%Q; h0_deaths := Some [0; 0; 0]%Q;
         h0_count := Some 0%Z |}
    = Some (TOPO_SUCCESS,
            {| h0_births := Some births; h0_deaths := Some deaths;
               h0_count := Some (Z.of_nat count) |}) /\
    (count <= 3)%nat /\
    (forall i, (i < count)%nat ->
       exists j, (j < 3)%nat /\ deaths !!! i = [9; 5; 7]%Q !!! j) /\
    (forall i j, (i <= j < count)%nat -> (deaths !!! i <= deaths !!! j)%Q).
Proof.
  apply (h0_deaths_ascending test_env stable_qsort [0; 1; 2; 3]%Q [2; 0; 1]%nat
           [3; 1; 2]%nat [9; 5; 7]%Q 4 3 [0; 0; 0]%Q [0; 0; 0]%Q 0%Z).
  - lia.
  - intros i Hi. destruct i as [|[|[|i]]]; simpl; lia.
Defined.

Lemma init_births_below (n : nat) (vf : list Q) (B : Q) :
  births_below (UnionFind.init n vf) B.
Proof.
  intros x r Hx Hroot Hxr. simpl in *. exfalso.
  inversion Hroot as [? Hr | ? ? Hne _]; subst; [done|].
  by rewrite lookup_total_seq_lt in Hne.
Qed.

(** X11: when no edge enters before its endpoints, every pair has a birth below
    its death, and the birth is the filtration value of a vertex. *)
Theorem h0_pairs_birth_before_death (env : CudaEnv) (qs : Qsort) (vf : list Q)
    (es ed : list nat) (ef : list Q) (n : Z) (m : nat) (ob od : list Q) (c0 : Z) :
  (0 < n)%Z ->
  (forall i, (i < m)%nat -> (es !!! i < Z.to_nat n)%nat /\ (ed !!! i < Z.to_nat n)%nat) ->
  h0_filtration_valid vf es ed ef m ->
  exists births deaths count,
    topo_gpu_persistence_h0 env qs true (Some vf) (Some es) (Some ed) (Some ef) n m
      {| h0_births := Some ob; h0_deaths := Some od; h0_count := Some c0 |}
    = Some (TOPO_SUCCESS,
            {| h0_births := Some births; h0_deaths := Some deaths;
               h0_count := Some (Z.of_nat count) |}) /\
    forall i, (i < count)%nat ->
      (births !!! i < deaths !!! i)%Q /\
      exists v, (v < Z.to_nat n)%nat /\ births !!! i = vf !!! v.
Proof.
  intros Hn Hrange Hvalid.
  destruct (h0_run_merges env qs vf es ed ef n m ob od c0 Hn Hrange)
    as (uf & merges & Hmerges & Hsr & Hrun).
  cbv zeta in Hrun. set (sorted := h0_sort_edges env qs (h0_input_edges es ed ef m)) in *.
  set (pairs := filter recorded merges) in *.
  eexists _, _, _. split; [exact Hrun|].
  set (uf0 := UnionFind.init (Z.to_nat n) vf) in *.
  assert (Hbirth0 : forall v, (v < Z.to_nat n)%nat -> UnionFind.birth uf0 !!! v = vf !!! v).
  { intros v Hv. unfold uf0. simpl. by rewrite lookup_total_map_seq. }
  assert (Hsorted : StronglySorted (fun a b => (filt a <= filt b)%Q) sorted)
    by apply h0_edges_sorted.
  assert (Hval : Forall (fun e => (UnionFind.birth uf0 !!! src e <= filt e)%Q /\
                          (UnionFind.birth uf0 !!! dst e <= filt e)%Q) sorted).
  { apply Forall_forall. intros e He.
    apply h0_sorted_elem in He as (j & Hj & -> & -> & ->).
    destruct (Hrange j Hj) as [Hs Hd]. rewrite !Hbirth0 by done. by apply Hvalid. }
  assert (Hall : Forall (fun merge => (merge.1 <= merge.2)%Q /\
            exists v, (v < Z.to_nat n)%nat /\ merge.1 = UnionFind.birth uf0 !!! v) merges).
  { destruct sorted as [|e0 rest] eqn:Hs.
    - simpl in Hmerges. injection Hmerges as <- <-. constructor.
    - destruct (uf_ok_init (Z.to_nat n) vf) as [Hok0 _].
      apply (h0_merges_births uf0 uf [] (e0 :: rest) merges (filt e0)); try done.
      + intros a b Hin. by apply elem_of_nil in Hin.
      + apply init_births_below.
      + apply StronglySorted_inv in Hsorted as [_ Hle].
        apply Forall_cons in Hval as [H0 Hval]. apply Forall_cons. split.
        * split; [apply Qle_refl | exact H0].
        * apply Forall_forall. intros e He. split.
          -- apply (proj1 (Forall_forall _ _) Hle e He).
          -- apply (proj1 (Forall_forall _ _) Hval e He). }
  assert (Hpairs : Forall (fun merge => (merge.1 < merge.2)%Q /\
            exists v, (v < Z.to_nat n)%nat /\ merge.1 = vf !!! v) pairs).
  { apply Forall_forall. intros [db dt] Hin.
    apply list_elem_of_filter in Hin as [Hrec Hin].
    apply (proj1 (Forall_forall _ _) Hall) in Hin as [Hle (v & Hv & Heq)].
    unfold recorded in Hrec. simpl in *. split.
    - apply Qle_lteq in Hle as [Hlt | Heq']; [exact Hlt|].
      apply Qeq_bool_iff in Heq'. congruence.
    - exists v. split; [exact Hv|]. by rewrite Heq, Hbirth0. }
  intros i Hi.
  rewrite !memcpy_lookup_front by (rewrite ?length_map; lia).
  rewrite !(@list_lookup_total_fmap _ _ _ _ _ pairs i) by lia.
  apply (Forall_lookup_total_1 _ _ i) in Hpairs; [exact Hpairs | lia].
Qed.

Lemma h0_pairs_birth_before_death_witness :
  exists births deaths count,
    topo_gpu_persistence_h0 test_env stable_qsort true (Some [0; 1; 2; 3]%Q)
      (Some [2; 0; 1]%nat) (Some [3; 1; 2]%nat) (Some [9; 5; 7]%Q) 4 3
      {| h0_births := Some [0; 0; 0]%Q; h0_deaths := Some [0; 0; 0]%Q;
         h0_count := Some 0%Z |}
    = Some (TOPO_SUCCESS,
            {| h0_births := Some births; h0_deaths := Some deaths;
               h0_count := Some (Z.of_nat count) |}) /\
    forall i, (i < count)%nat ->
      (births !!! i < deaths !!! i)%Q /\
      exists v, (v < Z.to_nat 4)%nat /\ births !!! i = [0; 1; 2; 3]%Q !!! v.
Proof.
  apply (h0_pairs_birth_before_death test_env stable_qsort [0; 1; 2; 3]%Q [2; 0; 1]%nat
           [3; 1; 2]%nat [9; 5; 7]%Q 4 3 [0; 0; 0]%Q [0; 0; 0]%Q 0%Z).
  - lia.
  - intros i Hi. destruct i as [|[|[|i]]]; simpl; lia.
  - intros j Hj. destruct j as [|[|[|j]]]; [split; discriminate .. | lia].
Defined.

(** ** The comparison functions handed to qsort *)

Lemma filt_compare_opp (a b : Q) : filt_compare a b = (- filt_compare b a)%Z.
Proof.
  unfold filt_compare.
  destruct (Qltb a b) eqn:Hab, (Qltb b a) eqn:Hba; try reflexivity.
  apply Qltb_lt in Hab, Hba. exfalso. apply (Qlt_irrefl a). by apply Qlt_trans with b.
Qed.

Lemma filt_compare_zero (a b : Q) : filt_compare a b = 0%Z <-> (a == b)%Q.
Proof.
  destruct (filt_compare_cases a b) as [[? ->] | [[? ->] | [? ->]]];
    split; intros; try lia; try Lqa.lra; try done.
Qed.

(** X12: the three comparison functions are consistent, as qsort needs them:
    swapping the arguments negates the result, the result is at most 0 exactly
    when the first filtration value is at most the second, and it is 0 exactly
    when the two values are equal, whatever the other fields. *)
Theorem comparators_order_by_filtration :
  (forall a b : EdgeSortKey,
     edge_compare a b = (- edge_compare b a)%Z /\
     ((edge_compare a b <= 0)%Z <-> (filt a <= filt b)%Q) /\
     (edge_compare a b = 0%Z <-> (filt a == filt b)%Q)) /\
  (forall a b : EdgeInfo,
     edge_info_compare a b = (- edge_info_compare b a)%Z /\
     ((edge_info_compare a b <= 0)%Z <-> (e_filt a <= e_filt b)%Q) /\
     (edge_info_compare a b = 0%Z <-> (e_filt a == e_filt b)%Q)) /\
  (forall a b : TriSortKey,
     tri_compare a b = (- tri_compare b a)%Z /\
     ((tri_compare a b <= 0)%Z <-> (t_filt a <= t_filt b)%Q) /\
     (tri_compare a b = 0%Z <-> (t_filt a == t_filt b)%Q)).
Proof.
  split; [|split]; intros a b;
    (split; [apply filt_compare_opp | split; [apply filt_compare_le | apply filt_compare_zero]]).
Qed.

(** ** persistence_h1.cu: looking an edge up *)

Lemma find_edge_from_first (l : list EdgeInfo) (i : nat) (u v : Z) :
  match find_edge_from l i u v with
  | Some r => (i <= r < i + length l)%nat /\ edge_pair (l !!! (r - i)%nat) = (u, v) /\
              forall r', (i <= r' < r)%nat -> edge_pair (l !!! (r' - i)%nat) <> (u, v)
  | None => forall j, (j < length l)%nat -> edge_pair (l !!! j) <> (u, v)
  end.
Proof.
  revert i. induction l as [|e l IH]; intros i; simpl; [intros j Hj; lia|].
  assert (Hp : edge_pair e = if (e_dst e <? e_src e)%Z then (e_dst e, e_src e)
                             else (e_src e, e_dst e)) by reflexivity.
  destruct (if (e_dst e <? e_src e)%Z then _ else _) as [su sv].
  destruct (Z.eqb_spec su u) as [-> | Hu]; simpl.
  - destruct (Z.eqb_spec sv v) as [-> | Hv]; simpl.
    + split; [lia|]. rewrite Nat.sub_diag. split; [exact Hp | intros; lia].
    + specialize (IH (S i)). destruct (find_edge_from l (S i) u v) as [r|].
      * destruct IH as (Hr & He & Hfirst). split; [lia|].
        replace (r - i)%nat with (S (r - S i)) by lia. split; [exact He|].
        intros r' Hr'. destruct (decide (r' = i)) as [-> | Hne].
        -- rewrite Nat.sub_diag. simpl. rewrite Hp. congruence.
        -- replace (r' - i)%nat with (S (r' - S i)) by lia. apply Hfirst. lia.
      * intros [|j] Hj; simpl; [rewrite Hp; congruence | apply IH; lia].
  - specialize (IH (S i)). destruct (find_edge_from l (S i) u v) as [r|].
    + destruct IH as (Hr & He & Hfirst). split; [lia|].
      replace (r - i)%nat with (S (r - S i)) by lia. split; [exact He|].
      intros r' Hr'. destruct (decide (r' = i)) as [-> | Hne].
      * rewrite Nat.sub_diag. simpl. rewrite Hp. congruence.
      * replace (r' - i)%nat with (S (r' - S i)) by lia. apply Hfirst. lia.
    + intros [|j] Hj; simpl; [rewrite Hp; congruence | apply IH; lia].
Qed.

(** X13: [find_edge] returns the first of the [m] positions whose edge joins [u]
    and [v], whichever way round the edge and the query name the two vertices,
    and -1 when no edge does. *)
Theorem find_edge_first_match (edges : list EdgeInfo) (m : nat) (u v : Z) :
  (m <= length edges)%nat ->
  find_edge edges m v u = find_edge edges m u v /\
  match find_edge edges m u v with
  | Some r => (r < m)%nat /\ edge_pair (edges !!! r) = ordered_pair u v /\
              forall r', (r' < r)%nat -> edge_pair (edges !!! r') <> ordered_pair u v
  | None => forall r, (r < m)%nat -> edge_pair (edges !!! r) <> ordered_pair u v
  end.
Proof.
  intros Hm. split.
  - unfold find_edge. destruct (Z.ltb_spec u v), (Z.ltb_spec v u); try lia; try reflexivity.
    by assert (u = v) as -> by lia.
  - assert (Hq : find_edge edges m u v
                 = let '(a, b) := ordered_pair u v in find_edge_from (take m edges) 0 a b).
    { unfold find_edge, ordered_pair. by destruct (v <? u)%Z. }
    rewrite Hq. destruct (ordered_pair u v) as [a b].
    pose proof (find_edge_from_first (take m edges) 0 a b) as H.
    rewrite length_take, Nat.min_l in H by exact Hm.
    destruct (find_edge_from (take m edges) 0 a b) as [r|].
    + destruct H as (Hr & He & Hfirst). rewrite Nat.sub_0_r in He.
      rewrite lookup_total_take_lt in He by lia.
      split; [lia|]. split; [exact He|]. intros r' Hr'.
      specialize (Hfirst r' ltac:(lia)). rewrite Nat.sub_0_r in Hfirst.
      by rewrite lookup_total_take_lt in Hfirst by lia.
    + intros r Hr. specialize (H r Hr). by rewrite lookup_total_take_lt in H by lia.
Qed.

Lemma find_edge_first_match_witness :
  find_edge sample_edges 3 2 0 = find_edge sample_edges 3 0 2 /\
  match find_edge sample_edges 3 0 2 with
  | Some r => (r < 3)%nat /\ edge_pair (sample_edges !!! r) = ordered_pair 0 2 /\
              forall r', (r' < r)%nat -> edge_pair (sample_edges !!! r') <> ordered_pair 0 2
  | None => forall r, (r < 3)%nat -> edge_pair (sample_edges !!! r) <> ordered_pair 0 2
  end.
Proof.
  apply (find_edge_first_match sample_edges 3 0 2). simpl. lia.
Defined.

(** ** persistence_h1.cu: sorting the rows of a column *)

Lemma swap_if_less_spec (col : list nat) (a b : nat) :
  (a < b < length col)%nat ->
  let col' := swap_if_less col a b in
  col' ≡ₚ col /\ length col' = length col /\
  (col' !!! b <= col' !!! a)%nat /\
  ((col' !!! a = col !!! a /\ col' !!! b = col !!! b) \/
   (col !!! a < col !!! b /\ col' !!! a = col !!! b /\ col' !!! b = col !!! a)%nat) /\
  (forall j, j <> a -> j <> b -> col' !!! j = col !!! j).
Proof.
  intros Hab. unfold swap_if_less.
  destruct (Nat.ltb_spec (col !!! a) (col !!! b)) as [Hlt | Hge]; cbv zeta.
  - assert (Ha : <[b:=col !!! a]> (<[a:=col !!! b]> col) !!! a = col !!! b).
    { rewrite list_lookup_total_insert_ne by lia.
      by rewrite list_lookup_total_insert_eq by lia. }
    assert (Hb : <[b:=col !!! a]> (<[a:=col !!! b]> col) !!! b = col !!! a).
    { by rewrite list_lookup_total_insert_eq by (rewrite length_insert; lia). }
    split; [|split; [|split; [|split]]].
    + apply Permutation_insert_swap; apply list_lookup_lookup_total_lt; lia.
    + by rewrite !length_insert.
    + rewrite Ha, Hb. lia.
    + right. split; [exact Hlt|]. by split.
    + intros j Hja Hjb. by rewrite !list_lookup_total_insert_ne by done.
  - split; [done|]. split; [done|]. split; [exact Hge|]. split; [by left | done].
Qed.

(** The inner loop for position [a]: the largest of the cells from [a] on
    comes to [a]; the cells before [a] stay. *)
Lemma sort_descending_inner (a k b : nat) (col : list nat) :
  (a < b)%nat -> (b + k = length col)%nat ->
  (forall i j, (i < a)%nat -> (i < j < length col)%nat -> (col !!! j <= col !!! i)%nat) ->
  (forall j, (a < j < b)%nat -> (col !!! j <= col !!! a)%nat) ->
  let col' := fold_left (fun col b => swap_if_less col a b) (seq b k) col in
  col' ≡ₚ col /\ length col' = length col /\
  (forall i j, (i < S a)%nat -> (i < j < length col)%nat -> (col' !!! j <= col' !!! i)%nat).
Proof.
  revert b col. induction k as [|k IH]; intros b col Hab Hbk Hpre Hmax; simpl.
  - split; [done|]. split; [done|]. intros i j Hi Hij.
    destruct (decide (i = a)) as [-> | Hne]; [apply Hmax; lia | apply Hpre; lia].
  - destruct (swap_if_less_spec col a b ltac:(lia)) as (Hperm & Hlen & Hord & Hcase & Hother).
    set (col1 := swap_if_less col a b) in *.
    destruct (IH (S b) col1) as (Hperm' & Hlen' & Hsorted); [lia | lia | | |].
    + intros i j Hi Hij. rewrite Hlen in Hij.
      assert (Hi' : col1 !!! i = col !!! i) by (apply Hother; lia).
      rewrite Hi'.
      destruct (decide (j = a)) as [-> | Hja]; [|destruct (decide (j = b)) as [-> | Hjb]].
      * destruct Hcase as [[-> _] | (_ & -> & _)]; apply Hpre; lia.
      * destruct Hcase as [[_ ->] | (_ & _ & ->)]; apply Hpre; lia.
      * rewrite Hother by done. apply Hpre; lia.
    + intros j Hj. destruct (decide (j = b)) as [-> | Hjb]; [exact Hord|].
      rewrite (Hother j) by lia.
      pose proof (Hmax j ltac:(lia)).
      destruct Hcase as [[-> _] | (? & -> & _)]; lia.
    + split; [by rewrite Hperm'|]. split; [lia|]. by rewrite <- Hlen.
Qed.

Lemma sort_descending_outer (k a : nat) (col : list nat) :
  (a + k = length col)%nat ->
  (forall i j, (i < a)%nat -> (i < j < length col)%nat -> (col !!! j <= col !!! i)%nat) ->
  let col' :=
    fold_left
      (fun col a => fold_left (fun col b => swap_if_less col a b)
                              (seq (S a) (length col - S a)) col)
      (seq a k) col in
  col' ≡ₚ col /\
  (forall i j, (i < j < length col)%nat -> (col' !!! j <= col' !!! i)%nat).
Proof.
  revert a col. induction k as [|k IH]; intros a col Hak Hpre; simpl.
  - split; [done|]. intros i j Hij. apply Hpre; lia.
  - destruct (sort_descending_inner a (length col - S a) (S a) col)
      as (Hperm & Hlen & Hsorted); [lia | lia | exact Hpre | intros; lia |].
    set (col1 := fold_left _ (seq (S a) _) col) in *.
    destruct (IH (S a) col1) as (Hperm' & Hsorted'); [lia | by rewrite Hlen |].
    split; [by rewrite Hperm'|]. by rewrite <- Hlen.
Qed.

Lemma sort_descending_spec (col : list nat) :
  sort_descending col ≡ₚ col /\
  forall i j, (i < j < length col)%nat ->
    (sort_descending col !!! j <= sort_descending col !!! i)%nat.
Proof.
  unfold sort_descending. apply (sort_descending_outer (length col) 0 col); [lia|].
  intros i j Hi. lia.
Qed.

Lemma StronglySorted_positions (l : list nat) :
  (forall i j, (i < j < length l)%nat -> (l !!! j <= l !!! i)%nat) ->
  StronglySorted (fun a b => b <= a)%nat l.
Proof.
  induction l as [|x l IH]; intros Hpos; constructor.
  - apply IH. intros i j Hij. apply (Hpos (S i) (S j)). simpl. lia.
  - apply Forall_forall. intros y Hy.
    apply list_elem_of_lookup_total_1 in Hy as (j & Hj & <-).
    apply (Hpos 0%nat (S j)). simpl. lia.
Qed.

(** The sorted column depends on the rows only, not on their order. *)
Lemma sort_descending_perm (l1 l2 : list nat) :
  l1 ≡ₚ l2 -> sort_descending l1 = sort_descending l2.
Proof.
  intros Hperm.
  destruct (sort_descending_spec l1) as [Hp1 Hs1].
  destruct (sort_descending_spec l2) as [Hp2 Hs2].
  apply (sorted_perm_unique (fun a b => b <= a)%nat).
  - intros a b _ _ Hab Hba. lia.
  - apply StronglySorted_positions. by rewrite (Permutation_length Hp1).
  - apply StronglySorted_positions. by rewrite (Permutation_length Hp2).
  - by rewrite Hp1, Hp2.
Qed.

(** X14: the two nested loops that order the rows of a column are a sort, for a
    column of any length: the result holds the same rows, largest first, and it
    is the same for every order in which the rows are given. *)
Theorem sort_descending_sorts (col : list nat) :
  sort_descending col ≡ₚ col /\
  (forall i j, (i < j < length col)%nat ->
     (sort_descending col !!! j <= sort_descending col !!! i)%nat) /\
  (forall col', col' ≡ₚ col -> sort_descending col' = sort_descending col).
Proof.
  destruct (sort_descending_spec col) as [Hperm Hsorted].
  split; [exact Hperm|]. split; [exact Hsorted|].
  intros col' Hcol'. by apply sort_descending_perm.
Qed.

(** X15: the column of a triangle holds the positions that [find_edge] gives for
    its three sides, those that are found, and each once when the three vertices
    differ; it is then in strictly descending order, the largest row (the pivot)
    first. *)
Theorem build_column_is_boundary (edges : list EdgeInfo) (m : nat) (tri : TriSortKey) :
  length edges = m -> tri_distinct tri ->
  (forall r, r ∈ build_column edges m tri <->
     find_edge edges m (v0 tri) (v1 tri) = Some r \/
     find_edge edges m (v0 tri) (v2 tri) = Some r \/
     find_edge edges m (v1 tri) (v2 tri) = Some r) /\
  descending (build_column edges m tri) /\
  (length (build_column edges m tri) <= 3)%nat.
Proof.
  intros Hlen (H01 & H02 & H12).
  split; [|split; [by apply build_column_descending|]].
  - intros r. unfold build_column. rewrite (proj1 (sort_descending_spec _)).
    cbn [fold_left].
    destruct (find_edge edges m (v0 tri) (v1 tri)) as [r1|];
    destruct (find_edge edges m (v0 tri) (v2 tri)) as [r2|];
    destruct (find_edge edges m (v1 tri) (v2 tri)) as [r3|]; cbn [app];
      rewrite ?elem_of_cons, elem_of_nil;
      (split;
       [ intros Hin; repeat (destruct Hin as [-> | Hin]; [tauto|]); destruct Hin
       | intros [Hr | [Hr | Hr]]; try discriminate Hr; injection Hr as ->; tauto ]).
  - unfold build_column.
    rewrite (Permutation_length (proj1 (sort_descending_spec _))). cbn [fold_left].
    destruct (find_edge edges m (v0 tri) (v1 tri));
    destruct (find_edge edges m (v0 tri) (v2 tri));
    destruct (find_edge edges m (v1 tri) (v2 tri)); simpl; lia.
Qed.

Lemma build_column_is_boundary_witness :
  build_column sample_edges 3 sample_triangle = [2; 1; 0]%nat /\
  (forall r, r ∈ build_column sample_edges 3 sample_triangle <->
     find_edge sample_edges 3 (v0 sample_triangle) (v1 sample_triangle) = Some r \/
     find_edge sample_edges 3 (v0 sample_triangle) (v2 sample_triangle) = Some r \/
     find_edge sample_edges 3 (v1 sample_triangle) (v2 sample_triangle) = Some r) /\
  descending (build_column sample_edges 3 sample_triangle) /\
  (length (build_column sample_edges 3 sample_triangle) <= 3)%nat.
Proof.
  split; [reflexivity|].
  apply (build_column_is_boundary sample_edges 3 sample_triangle).
  - reflexivity.
  - repeat split; discriminate.
Defined.

(** X16: the column of a triangle does not depend on the order in which the
    triangle names its three vertices. *)
Theorem build_column_vertex_order (edges : list EdgeInfo) (m : nat) (f : Q)
    (a b c : Z) (i : nat) :
  let col := build_column edges m
               {| t_filt := f; v0 := a; v1 := b; v2 := c; original_idx := i |} in
  build_column edges m {| t_filt := f; v0 := b; v1 := a; v2 := c; original_idx := i |} = col /\
  build_column edges m {| t_filt := f; v0 := a; v1 := c; v2 := b; original_idx := i |} = col /\
  build_column edges m {| t_filt := f; v0 := c; v1 := b; v2 := a; original_idx := i |} = col.
Proof.
  assert (Hsym : forall u v, find_edge edges m v u = find_edge edges m u v).
  { intros u v. unfold find_edge.
    destruct (Z.ltb_spec u v), (Z.ltb_spec v u); try lia; try reflexivity.
    by assert (u = v) as -> by lia. }
  cbv zeta. unfold build_column. cbn [fold_left v0 v1 v2].
  rewrite (Hsym a b), (Hsym b c), (Hsym a c).
  destruct (find_edge edges m a b) as [r1|];
  destruct (find_edge edges m a c) as [r2|];
  destruct (find_edge edges m b c) as [r3|]; cbn [app];
    (split; [|split]); apply sort_descending_perm;
    first [ reflexivity
          | apply perm_swap
          | apply perm_skip, perm_swap
          | (etransitivity; [apply perm_swap|]; apply perm_skip, perm_swap)
          | (etransitivity; [apply perm_skip, perm_swap|]; apply perm_swap)
          | (etransitivity; [apply perm_swap|];
             etransitivity; [apply perm_skip, perm_swap|]; apply perm_swap) ].
Qed.

(** ** persistence_h1.cu: adding two columns *)

Lemma descending_below (u : nat) (a : list nat) (y : nat) :
  descending (u :: a) -> y ∈ a -> (y < u)%nat.
Proof.
  intros Hd Hy. apply descending_inv in Hd as [_ Hu].
  exact (proj1 (Forall_forall _ _) Hu y Hy).
Qed.

Lemma sym_diff_xor (a b : list nat) (x : nat) :
  descending a -> descending b ->
  x ∈ sym_diff a b <-> (x ∈ a /\ x ∉ b) \/ (x ∈ b /\ x ∉ a).
Proof.
  revert b. induction a as [|u a IHa]; intros b Ha Hb.
  { rewrite sym_diff_nil_l. pose proof (not_elem_of_nil x). tauto. }
  induction b as [|v b IHb].
  { rewrite sym_diff_nil_r. pose proof (not_elem_of_nil x). tauto. }
  pose proof (descending_below u a x Ha) as Hxa.
  pose proof (descending_below v b x Hb) as Hxb.
  pose proof (proj1 (descending_inv _ _ Ha)) as Ha'.
  pose proof (proj1 (descending_inv _ _ Hb)) as Hb'.
  simpl. destruct (Nat.ltb_spec v u) as [Hvu | Hvu].
  - rewrite elem_of_cons, (IHa (v :: b) Ha' Hb), !elem_of_cons.
    destruct (decide (x = u)) as [-> | Hne]; [|tauto].
    split; [intros _ | tauto]. left. split; [by left|].
    intros [-> | Hin]; [lia|]. specialize (Hxb Hin). lia.
  - destruct (Nat.ltb_spec u v) as [Huv | Huv].
    + change (x ∈ v :: sym_diff (u :: a) b <->
              x ∈ u :: a ∧ x ∉ v :: b ∨ x ∈ v :: b ∧ x ∉ u :: a).
      rewrite elem_of_cons, (IHb Hb'), !elem_of_cons.
      destruct (decide (x = v)) as [-> | Hne]; [|tauto].
      split; [intros _ | tauto]. right. split; [by left|].
      intros [-> | Hin]; [lia|]. specialize (Hxa Hin). lia.
    + assert (u = v) as <- by lia.
      rewrite (IHa b Ha' Hb'), !elem_of_cons.
      destruct (decide (x = u)) as [-> | Hne]; [|tauto].
      split; [|tauto]. intros [[Hin _] | [Hin _]]; [specialize (Hxa Hin) | specialize (Hxb Hin)]; lia.
Qed.

Lemma sym_diff_length (a b : list nat) :
  (length (sym_diff a b) <= length a + length b)%nat.
Proof.
  revert b. induction a as [|u a IHa]; intros b; [by rewrite sym_diff_nil_l|].
  induction b as [|v b IHb]; [rewrite sym_diff_nil_r; lia|].
  simpl. destruct (v <? u)%nat.
  - pose proof (IHa (v :: b)) as Hlen. simpl in *. lia.
  - destruct (u <? v)%nat.
    + change (length (v :: sym_diff (u :: a) b) <= S (length a + S (length b)))%nat.
      simpl in *. lia.
    + pose proof (IHa b). lia.
Qed.

(** X17: the merge that adds one column to another computes the sum of the two
    columns over Z/2: on columns in strictly descending order the result is in
    strictly descending order and holds the rows that are in exactly one of the
    two, so it fits the buffer allocated for it; the order of the two columns
    plays no role, and a column added to itself gives the empty column. *)
Theorem sym_diff_adds_columns (a b : list nat) :
  descending a -> descending b ->
  descending (sym_diff a b) /\
  (forall x, x ∈ sym_diff a b <-> (x ∈ a /\ x ∉ b) \/ (x ∈ b /\ x ∉ a)) /\
  (length (sym_diff a b) <= length a + length b)%nat /\
  sym_diff a b = sym_diff b a /\
  sym_diff a a = [].
Proof.
  intros Ha Hb. split; [by apply sym_diff_descending|].
  split; [intros x; by apply sym_diff_xor|].
  split; [apply sym_diff_length|]. split.
  - clear Ha Hb. revert b. induction a as [|u a IHa]; intros b.
    { by rewrite sym_diff_nil_l, sym_diff_nil_r. }
    induction b as [|v b IHb]; [reflexivity|].
    simpl. destruct (Nat.ltb_spec v u) as [Hvu | Hvu].
    + destruct (Nat.ltb_spec u v) as [? | _]; [lia|]. f_equal. apply IHa.
    + destruct (Nat.ltb_spec u v) as [Huv | Huv].
      * f_equal. exact IHb.
      * apply IHa.
  - clear. induction a as [|u a IH]; [reflexivity|].
    simpl. by rewrite Nat.ltb_irrefl.
Qed.

Lemma sym_diff_adds_columns_witness :
  descending (sym_diff [5; 3; 1]%nat [5; 2; 1]%nat) /\
  (forall x, x ∈ sym_diff [5; 3; 1]%nat [5; 2; 1]%nat <->
             (x ∈ [5; 3; 1]%nat /\ x ∉ [5; 2; 1]%nat) \/
             (x ∈ [5; 2; 1]%nat /\ x ∉ [5; 3; 1]%nat)) /\
  (length (sym_diff [5; 3; 1]%nat [5; 2; 1]%nat)
   <= length [5; 3; 1]%nat + length [5; 2; 1]%nat)%nat /\
  sym_diff [5; 3; 1]%nat [5; 2; 1]%nat = sym_diff [5; 2; 1]%nat [5; 3; 1]%nat /\
  sym_diff [5; 3; 1]%nat [5; 3; 1]%nat = [].
Proof.
  apply (sym_diff_adds_columns [5; 3; 1]%nat [5; 2; 1]%nat).
  - repeat constructor; lia.
  - repeat constructor; lia.
Defined.

(** ** persistence_h1.cu: the reduced matrix *)

Lemma filter_column_filled_ext (st st' : H1State) (c : nat) :
  (forall j, (j < c)%nat -> boundary st' !!! j = boundary st !!! j) ->
  filter (column_filled st') (seq 0 c) = filter (column_filled st) (seq 0 c).
Proof.
  intros Hsame. apply filter_agree. intros j Hj. apply elem_of_seq in Hj.
  unfold column_filled. by rewrite Hsame by lia.
Qed.

Lemma reduce_column_reduced (edges : list EdgeInfo) (tris : list TriSortKey)
    (m t c : nat) (fuel : nat) (st st' : H1State) :
  (c < t)%nat ->
  h1_inv m t c st -> h1_reduced c st ->
  reduce_column fuel edges tris c st = Some st' ->
  h1_reduced (S c) st'.
Proof.
  intros Hc. revert st.
  induction fuel as [|fuel IH]; intros st Hinv Hred Hrun; [discriminate|].
  cbn [reduce_column] in Hrun.
  destruct Hred as [Hown Hcount].
  assert (Hlb : length (boundary st) = t) by apply (inv_boundary_length _ _ _ _ Hinv).
  destruct (boundary st !!! c) as [|p rest] eqn:Hcol.
  { injection Hrun as <-. split.
    - intros j p rest Hj Hjcol. destruct (decide (j = c)) as [-> | Hne]; [congruence|].
      apply (Hown j p rest); [lia | exact Hjcol].
    - rewrite seq_S, filter_app, length_app, <- Hcount. simpl.
      rewrite filter_cons, decide_False by (unfold column_filled; rewrite Hcol; tauto).
      simpl. lia. }
  pose proof (h1_inv_pivot m t c p rest st Hc Hinv Hcol) as Hp.
  destruct (pivot_col st !!! p) as [other|] eqn:Howner.
  - rewrite <- Hcol in Hrun.
    destruct (reduce_step_inv m t c p other rest st Hc Hinv Hcol Hp Howner)
      as (_ & _ & Hinv').
    apply IH in Hrun; [exact Hrun | exact Hinv' |].
    split; cbn [boundary pivot_col h1_pairs].
    + intros j p' rest' Hj Hjcol. rewrite list_lookup_total_insert_ne in Hjcol by lia.
      by apply (Hown j p' rest').
    + rewrite Hcount. f_equal. symmetry. apply filter_column_filled_ext.
      intros j Hj. cbn [boundary]. by rewrite list_lookup_total_insert_ne by lia.
  - injection Hrun as <-. split; cbn [boundary pivot_col h1_pairs].
    + intros j p' rest' Hj Hjcol. destruct (decide (j = c)) as [-> | Hne].
      * assert (p' = p) as -> by congruence.
        apply list_lookup_total_insert_eq. by rewrite (inv_pivot_length _ _ _ _ Hinv).
      * assert (Hold : pivot_col st !!! p' = Some j) by (apply (Hown j p' rest'); [lia | done]).
        assert (p' <> p) by congruence.
        by rewrite list_lookup_total_insert_ne.
    + rewrite length_app, Hcount, seq_S, filter_app, length_app. simpl.
      rewrite (filter_cons _ c), decide_True by (unfold column_filled; simpl; congruence).
      reflexivity.
Qed.

Lemma reduce_columns_reduced (edges : list EdgeInfo) (tris : list TriSortKey)
    (m t : nat) (fuel : nat) (k c : nat) (st : H1State) :
  (m < fuel)%nat -> (c + k = t)%nat ->
  h1_inv m t c st -> h1_reduced c st ->
  exists st', reduce_columns fuel edges tris (seq c k) st = Some st' /\ h1_reduced t st'.
Proof.
  intros Hfuel. revert c st.
  induction k as [|k IH]; intros c st Hck Hinv Hred; simpl.
  - exists st. split; [done|]. assert (c = t) by lia. by subst c.
  - destruct (reduce_column_total edges tris m t c fuel st) as (st1 & Hrun & Hinv1);
      [lia | exact Hinv | |].
    + destruct (inv_columns _ _ _ _ Hinv c ltac:(lia)) as [_ Hrows].
      destruct (boundary st !!! c) as [|p ?]; simpl; [lia|]. inversion Hrows; subst. lia.
    + rewrite Hrun. apply (IH (S c) st1); [lia | exact Hinv1|].
      apply (reduce_column_reduced edges tris m t c fuel st st1);
        [lia | exact Hinv | exact Hred | exact Hrun].
Qed.

(** X18: on triangles with three different vertices the reduction ends with a
    reduced matrix: no two columns that are not empty have the same pivot; and
    it has recorded one pair for each column that is not empty. *)
Theorem h1_reduce_gives_reduced_matrix (edges : list EdgeInfo) (tris : list TriSortKey)
    (m t fuel : nat) :
  length edges = m -> length tris = t -> Forall tri_distinct tris -> (m < fuel)%nat ->
  exists st,
    h1_reduce fuel edges tris m t = Some st /\
    (forall j j' p rest rest', (j < t)%nat -> (j' < t)%nat ->
       boundary st !!! j = p :: rest -> boundary st !!! j' = p :: rest' -> j = j') /\
    length (h1_pairs st) = length (filter (column_filled st) (seq 0 t)).
Proof.
  intros Hle Hlt Hdist Hfuel. unfold h1_reduce.
  destruct (reduce_columns_reduced edges tris m t fuel t 0
              {| boundary := map (fun col => build_column edges m (tris !!! col)) (seq 0 t);
                 pivot_col := replicate m None; h1_pairs := [] |})
    as (st & Hrun & [Hown Hcount]).
  - exact Hfuel.
  - lia.
  - by apply h1_inv_initial.
  - split; [intros; lia | reflexivity].
  - exists st. split; [exact Hrun|]. split; [|exact Hcount].
    intros j j' p rest rest' Hj Hj' Hc Hc'.
    pose proof (Hown j p rest Hj Hc). pose proof (Hown j' p rest' Hj' Hc'). congruence.
Qed.

Lemma h1_reduce_gives_reduced_matrix_witness :
  map (build_column tetrahedron_edges 6) tetrahedron_triangles
  = [[2; 1; 0]; [4; 3; 0]; [5; 3; 1]; [5; 4; 2]]%nat /\
  boundary <$> h1_reduce 7 tetrahedron_edges tetrahedron_triangles 6 4
  = Some [[2; 1; 0]; [4; 3; 0]; [5; 3; 1]; []]%nat /\
  exists st,
    h1_reduce 7 tetrahedron_edges tetrahedron_triangles 6 4 = Some st /\
    (forall j j' p rest rest', (j < 4)%nat -> (j' < 4)%nat ->
       boundary st !!! j = p :: rest -> boundary st !!! j' = p :: rest' -> j = j') /\
    length (h1_pairs st) = length (filter (column_filled st) (seq 0 4)).
Proof.
  split; [vm_compute; reflexivity|]. split; [vm_compute; reflexivity|].
  apply (h1_reduce_gives_reduced_matrix tetrahedron_edges tetrahedron_triangles 6 4 7).
  - reflexivity.
  - reflexivity.
  - repeat (apply Forall_cons; split; [repeat split; discriminate|]). apply Forall_nil_2.
  - lia.
Defined.

(** ** persistence_h1.cu: how many pairs, and in which order *)

Lemma StronglySorted_snoc {A} (R : A -> A -> Prop) (l : list A) (y : A) :
  StronglySorted R l -> Forall (fun x => R x y) l -> StronglySorted R (l ++ [y]).
Proof.
  induction 1 as [|x l Hl IH Hx]; intros Hy; simpl.
  - repeat constructor.
  - apply Forall_cons in Hy as [Hxy Hy]. constructor; [by apply IH|].
    apply Forall_app. split; [exact Hx | by constructor].
Qed.

Lemma reduce_column_pairs (edges : list EdgeInfo) (tris : list TriSortKey)
    (m t c : nat) (fuel : nat) (st st' : H1State) (owners : list (nat * nat)) :
  (c < t)%nat ->
  h1_inv m t c st -> h1_pairs_inv edges tris m c st owners ->
  reduce_column fuel edges tris c st = Some st' ->
  exists owners', h1_pairs_inv edges tris m (S c) st' owners'.
Proof.
  intros Hc. revert st.
  induction fuel as [|fuel IH]; intros st Hinv Hpinv Hrun; [discriminate|].
  cbn [reduce_column] in Hrun.
  destruct Hpinv as [Hpairs Hcols Hcb Hrows Hrb Hown].
  assert (Hcb' : Forall (fun q => q < S c)%nat (map snd owners))
    by (eapply Forall_impl; [exact Hcb | intros q Hq; simpl in *; lia]).
  destruct (boundary st !!! c) as [|p rest] eqn:Hcol.
  { injection Hrun as <-. exists owners. by split. }
  pose proof (h1_inv_pivot m t c p rest st Hc Hinv Hcol) as Hp.
  destruct (pivot_col st !!! p) as [other|] eqn:Howner.
  - rewrite <- Hcol in Hrun.
    destruct (reduce_step_inv m t c p other rest st Hc Hinv Hcol Hp Howner)
      as (_ & _ & Hinv').
    apply IH in Hrun; [exact Hrun | exact Hinv' |]. by split.
  - injection Hrun as <-. exists (owners ++ [(p, c)]).
    assert (Hfresh : p ∉ map fst owners).
    { intros Hin. apply list_elem_of_In, in_map_iff in Hin as ([p' q] & Heq & Hin).
      simpl in Heq. subst p'. apply list_elem_of_In, Hown in Hin. congruence. }
    split; cbn [boundary pivot_col h1_pairs].
    + by rewrite Hpairs, map_app.
    + rewrite map_app. apply StronglySorted_snoc; [exact Hcols | exact Hcb].
    + rewrite map_app. apply Forall_app. split; [exact Hcb' | constructor; [simpl; lia | constructor]].
    + rewrite map_app. apply NoDup_app. split; [exact Hrows|]. split; [|apply NoDup_singleton].
      intros x Hx Hx'. apply list_elem_of_singleton in Hx'. simpl in Hx'. by subst x.
    + rewrite map_app. apply Forall_app. split; [exact Hrb | by repeat constructor].
    + intros p' q Hin. apply elem_of_app in Hin as [Hin | Hin].
      * assert (p' <> p).
        { intros ->. apply Hfresh. apply list_elem_of_In, in_map_iff.
          exists (p, q). split; [done | by apply list_elem_of_In]. }
        rewrite list_lookup_total_insert_ne by done. by apply Hown.
      * apply list_elem_of_singleton in Hin. injection Hin as -> ->.
        apply list_lookup_total_insert_eq. rewrite (inv_pivot_length _ _ _ _ Hinv). exact Hp.
Qed.

Lemma reduce_columns_pairs (edges : list EdgeInfo) (tris : list TriSortKey)
    (m t : nat) (fuel : nat) (k c : nat) (st : H1State) (owners : list (nat * nat)) :
  (m < fuel)%nat -> (c + k = t)%nat ->
  h1_inv m t c st -> h1_pairs_inv edges tris m c st owners ->
  exists st' owners', reduce_columns fuel edges tris (seq c k) st = Some st' /\
                      h1_pairs_inv edges tris m t st' owners'.
Proof.
  intros Hfuel. revert c st owners.
  induction k as [|k IH]; intros c st owners Hck Hinv Hpinv; simpl.
  - exists st, owners. split; [done|]. assert (c = t) by lia. by subst c.
  - destruct (reduce_column_total edges tris m t c fuel st) as (st1 & Hrun & Hinv1);
      [lia | exact Hinv | |].
    + destruct (inv_columns _ _ _ _ Hinv c ltac:(lia)) as [_ Hrows].
      destruct (boundary st !!! c) as [|p ?]; simpl; [lia|]. inversion Hrows; subst. lia.
    + rewrite Hrun.
      destruct (reduce_column_pairs edges tris m t c fuel st st1 owners ltac:(lia) Hinv Hpinv
                  Hrun) as [owners1 Hpinv1].
      apply (IH (S c) st1 owners1); [lia | exact Hinv1 | exact Hpinv1].
Qed.

Lemma lookup_total_map_lt {A B} `{Inhabited A, Inhabited B} (f : A -> B) (l : list A)
    (i : nat) :
  (i < length l)%nat -> map f l !!! i = f (l !!! i).
Proof. intros Hi. by apply (@list_lookup_total_fmap A B f _ _ l i). Qed.

Lemma bounded_NoDup_length (l : list nat) (b : nat) :
  NoDup l -> Forall (fun x => x < b)%nat l -> (length l <= b)%nat.
Proof.
  intros Hnd Hb. rewrite <- (length_seq b 0).
  apply submseteq_length, NoDup_submseteq; [exact Hnd|].
  intros x Hx. apply elem_of_seq.
  pose proof (proj1 (Forall_forall _ _) Hb x Hx) as H. simpl in H. lia.
Qed.

Lemma StronglySorted_lt_NoDup (l : list nat) : StronglySorted lt l -> NoDup l.
Proof.
  induction 1 as [|x l _ IH Hx]; constructor; [|exact IH].
  intros Hin. pose proof (proj1 (Forall_forall _ _) Hx x Hin) as H. simpl in H. lia.
Qed.

(** The run of the reduction on well-formed triangles, with the rows and
    columns of the pairs it records. *)
Lemma h1_run_pairs (qs : Qsort) (es ed : list Z) (ef : list Q)
    (t0 t1 t2 : list Z) (tf : list Q) (m t fuel : nat) (ob od : list Q) (c : Z) :
  triangles_distinct t0 t1 t2 t ->
  (m < fuel)%nat ->
  let edges := h1_edges (qsort qs _ edge_info_compare) es ed ef m in
  let tris := h1_tris (qsort qs _ tri_compare) t0 t1 t2 tf t in
  exists owners : list (nat * nat),
    let pairs := map (fun pc => (e_filt (edges !!! pc.1), t_filt (tris !!! pc.2))) owners in
    topo_gpu_persistence_h1 fuel qs
      {| edge_src := Some es; edge_dst := Some ed; edge_filt := Some ef;
         tri_v0 := Some t0; tri_v1 := Some t1; tri_v2 := Some t2; tri_filt := Some tf |}
      m t {| h1_births := Some ob; h1_deaths := Some od; h1_count := Some c |}
    = Some (TOPO_SUCCESS,
            {| h1_births := Some (memcpy ob (map fst pairs) (length owners));
               h1_deaths := Some (memcpy od (map snd pairs) (length owners));
               h1_count := Some (Z.of_nat (length owners)) |}) /\
    StronglySorted lt (map snd owners) /\ Forall (fun q => q < t)%nat (map snd owners) /\
    NoDup (map fst owners) /\ Forall (fun p => p < m)%nat (map fst owners).
Proof.
  intros Hdist Hfuel edges tris.
  unfold topo_gpu_persistence_h1, persistence_h1_with.
  cbn [h1_births h1_deaths h1_count edge_src edge_dst edge_filt tri_v0 tri_v1 tri_v2 tri_filt].
  destruct ((t =? 0)%nat || (m =? 0)%nat)%bool.
  { exists []. split; [reflexivity|]. repeat split; constructor. }
  fold edges tris.
  assert (Hpe : forall l, Permutation (qsort qs _ edge_info_compare l) l)
    by (intros; apply qsort_perm).
  assert (Hpt : forall l, Permutation (qsort qs _ tri_compare l) l)
    by (intros; apply qsort_perm).
  destruct (reduce_columns_pairs edges tris m t fuel t 0
              {| boundary := map (fun col => build_column edges m (tris !!! col)) (seq 0 t);
                 pivot_col := replicate m None; h1_pairs := [] |} [])
    as (st & owners & Hrun & [Hpairs Hcols Hcb Hrows Hrb _]).
  - exact Hfuel.
  - lia.
  - apply h1_inv_initial;
      [by apply h1_edges_length | by apply h1_tris_length |].
    apply h1_tris_Forall; [exact Hpt|]. intros i Hi. exact (Hdist i Hi).
  - split; simpl; try constructor. intros p q Hin. by apply elem_of_nil in Hin.
  - unfold h1_reduce. rewrite Hrun. exists owners.
    cbv zeta. rewrite Hpairs, length_map. done.
Qed.

(** X19: a call on triangles with three different vertices returns at most one
    pair per triangle and at most one per edge; each birth is the filtration
    value of an edge and each death the one of a triangle. *)
Theorem h1_pair_count_bound (qs : Qsort) (es ed : list Z) (ef : list Q)
    (t0 t1 t2 : list Z) (tf : list Q) (m t fuel : nat) (ob od : list Q) (c : Z) :
  triangles_distinct t0 t1 t2 t ->
  (m < fuel)%nat ->
  exists births deaths count,
    topo_gpu_persistence_h1 fuel qs
      {| edge_src := Some es; edge_dst := Some ed; edge_filt := Some ef;
         tri_v0 := Some t0; tri_v1 := Some t1; tri_v2 := Some t2; tri_filt := Some tf |}
      m t {| h1_births := Some ob; h1_deaths := Some od; h1_count := Some c |}
    = Some (TOPO_SUCCESS,
            {| h1_births := Some births; h1_deaths := Some deaths;
               h1_count := Some (Z.of_nat count) |}) /\
    (count <= m)%nat /\ (count <= t)%nat /\
    forall i, (i < count)%nat ->
      exists j k, (j < m)%nat /\ (k < t)%nat /\
                  births !!! i = ef !!! j /\ deaths !!! i = tf !!! k.
Proof.
  intros Hdist Hfuel.
  destruct (h1_run_pairs qs es ed ef t0 t1 t2 tf m t fuel ob od c Hdist Hfuel)
    as (owners & Hrun & Hcols & Hcb & Hrows & Hrb).
  cbv zeta in Hrun.
  set (edges := h1_edges (qsort qs _ edge_info_compare) es ed ef m) in *.
  set (tris := h1_tris (qsort qs _ tri_compare) t0 t1 t2 tf t) in *.
  eexists _, _, _. split; [exact Hrun|].
  split; [|split].
  - rewrite <- (length_map fst owners). by apply bounded_NoDup_length.
  - rewrite <- (length_map snd owners).
    apply bounded_NoDup_length; [by apply StronglySorted_lt_NoDup | exact Hcb].
  - intros i Hi.
    rewrite !memcpy_lookup_front by (rewrite ?length_map; lia).
    rewrite !map_map. rewrite !lookup_total_map_lt by lia. simpl.
    assert (Hp : ((owners !!! i).1 < m)%nat).
    { rewrite <- (lookup_total_map_lt fst owners i) by lia.
      apply Forall_lookup_total_1; [exact Hrb | rewrite length_map; lia]. }
    assert (Hq : ((owners !!! i).2 < t)%nat).
    { rewrite <- (lookup_total_map_lt snd owners i) by lia.
      apply Forall_lookup_total_1; [exact Hcb | rewrite length_map; lia]. }
    destruct (h1_edges_lookup (fun e => exists j, (j < m)%nat /\ e_filt e = ef !!! j)
                (qsort qs _ edge_info_compare) es ed ef m (owners !!! i).1) as (j & Hj & He).
    { intros l. apply qsort_perm. }
    { intros j s Hj. exists j. done. }
    { exact Hp. }
    assert (Htris : Forall (fun tri => exists k, (k < t)%nat /\ t_filt tri = tf !!! k) tris).
    { apply h1_tris_Forall; [intros l; apply qsort_perm|]. intros k Hk. exists k. done. }
    destruct (Forall_lookup_total_1 _ _ (owners !!! i).2 Htris) as (k & Hk & Ht).
    { unfold tris. rewrite h1_tris_length; [exact Hq | intros l; apply qsort_perm]. }
    exists j, k. done.
Qed.

Lemma h1_pair_count_bound_witness :
  exists births deaths count,
    topo_gpu_persistence_h1 4 stable_qsort
      {| edge_src := Some [0; 0; 1]%Z; edge_dst := Some [1; 2; 2]%Z;
         edge_filt := Some [1; 2; 3]%Q;
         tri_v0 := Some [0]%Z; tri_v1 := Some [1]%Z; tri_v2 := Some [2]%Z;
         tri_filt := Some [4]%Q |}
      3 1 {| h1_births := Some [0%Q]; h1_deaths := Some [0%Q]; h1_count := Some 0%Z |}
    = Some (TOPO_SUCCESS,
            {| h1_births := Some births; h1_deaths := Some deaths;
               h1_count := Some (Z.of_nat count) |}) /\
    (count <= 3)%nat /\ (count <= 1)%nat /\
    forall i, (i < count)%nat ->
      exists j k, (j < 3)%nat /\ (k < 1)%nat /\
                  births !!! i = [1; 2; 3]%Q !!! j /\ deaths !!! i = [4]%Q !!! k.
Proof.
  apply (h1_pair_count_bound stable_qsort [0; 0; 1]%Z [1; 2; 2]%Z [1; 2; 3]%Q
           [0]%Z [1]%Z [2]%Z [4]%Q 3 1 4 [0%Q] [0%Q] 0%Z).
  - intros i Hi. destruct i as [|i]; [|lia]. repeat split; discriminate.
  - lia.
Defined.

(** X20: the deaths come out in ascending order: the pairs are recorded column
    by column, and the columns are the triangles in ascending order of
    filtration. *)
Theorem h1_deaths_ascending (qs : Qsort) (es ed : list Z) (ef : list Q)
    (t0 t1 t2 : list Z) (tf : list Q) (m t fuel : nat) (ob od : list Q) (c : Z) :
  triangles_distinct t0 t1 t2 t ->
  (m < fuel)%nat ->
  exists births deaths count,
    topo_gpu_persistence_h1 fuel qs
      {| edge_src := Some es; edge_dst := Some ed; edge_filt := Some ef;
         tri_v0 := Some t0; tri_v1 := Some t1; tri_v2 := Some t2; tri_filt := Some tf |}
      m t {| h1_births := Some ob; h1_deaths := Some od; h1_count := Some c |}
    = Some (TOPO_SUCCESS,
            {| h1_births := Some births; h1_deaths := Some deaths;
               h1_count := Some (Z.of_nat count) |}) /\
    forall i j, (i <= j < count)%nat -> (deaths !!! i <= deaths !!! j)%Q.
Proof.
  intros Hdist Hfuel.
  destruct (h1_run_pairs qs es ed ef t0 t1 t2 tf m t fuel ob od c Hdist Hfuel)
    as (owners & Hrun & Hcols & Hcb & _ & _).
  cbv zeta in Hrun.
  set (edges := h1_edges (qsort qs _ edge_info_compare) es ed ef m) in *.
  set (tris := h1_tris (qsort qs _ tri_compare) t0 t1 t2 tf t) in *.
  eexists _, _, _. split; [exact Hrun|].
  intros i j Hij.
  rewrite !memcpy_lookup_front by (rewrite ?length_map; lia).
  rewrite !map_map. rewrite !lookup_total_map_lt by lia. simpl.
  destruct (decide (i = j)) as [-> | Hne]; [apply Qle_refl|].
  apply tris_sorted_by_filt. split.
  - rewrite <- !(lookup_total_map_lt snd owners) by lia.
    apply (StronglySorted_lookup lt); [exact Hcols | rewrite length_map; lia].
  - rewrite <- (lookup_total_map_lt snd owners j) by lia.
    apply Forall_lookup_total_1; [exact Hcb | rewrite length_map; lia].
Qed.

Lemma h1_deaths_ascending_witness :
  exists births deaths count,
    topo_gpu_persistence_h1 6 stable_qsort
      {| edge_src := Some [0; 0; 1; 0; 1]%Z; edge_dst := Some [1; 2; 2; 3; 3]%Z;
         edge_filt := Some [1; 2; 3; 4; 5]%Q;
         tri_v0 := Some [0; 0]%Z; tri_v1 := Some [1; 1]%Z; tri_v2 := Some [3; 2]%Z;
         tri_filt := Some [8; 6]%Q |}
      5 2 {| h1_births := Some [0; 0]%Q; h1_deaths := Some [0; 0]%Q;
             h1_count := Some 0%Z |}
    = Some (TOPO_SUCCESS,
            {| h1_births := Some births; h1_deaths := Some deaths;
               h1_count := Some (Z.of_nat count) |}) /\
    forall i j, (i <= j < count)%nat -> (deaths !!! i <= deaths !!! j)%Q.
Proof.
  apply (h1_deaths_ascending stable_qsort [0; 0; 1; 0; 1]%Z [1; 2; 2; 3; 3]%Z
           [1; 2; 3; 4; 5]%Q [0; 0]%Z [1; 1]%Z [3; 2]%Z [8; 6]%Q 5 2 6 [0; 0]%Q [0; 0]%Q 0%Z).
  - intros i Hi. destruct i as [|[|i]]; [| |lia]; repeat split; discriminate.
  - lia.
Defined.
